(* ===== verification/_CoqProject ===== *)
-Q . S2P
Prelude.v
Arena.v
Packing.v
Bounds.v
Graph.v
Liveness.v
AliasLiveness.v
Trace.v
Roundtrip.v
Materialize.v
TraceMode.v
Diagnostics.v
Pipeline.v
Allocator.v
Lifetimes.v
