(* ===== verification/Prelude.v ===== *)
(** * Memory planning for TorchScript graphs: a verification library

    This library models the offline memory planner of
    [src/torch/csrc/jit/passes/memory_planning.cpp] and the allocators of
    [src/torch/csrc/jit/passes/memory_planning/MemoryPlanningAllocator.cpp]
    (a PyTorch JIT pass), and proves what the planner guarantees and
    where the code departs from its contract.

    ** The program and how its parts interact

    The planner takes a dataflow graph whose edges are tensor values,
    decides one contiguous arena for the "managed" intermediate tensors,
    assigns every managed tensor an [(offset, size)] region of the arena
    such that tensors alive at the same time do not share bytes, and writes
    the plan back into the graph as one [prim::AllocateStorage] node and
    one [prim::AllocateTensor] (static mode) or [prim::PreAllocateTensor]
    (trace mode) node per tensor.  Two pipelines exist:
    - static: [planMemory] = [getManagedStuff] (liveness from alias
      analysis, sizes from [computeStorageSize]) -> a packing heuristic ->
      [getTotalAllocationSize] -> [insertAllocStorageNode] ->
      [insertAllocTensorNodes];
    - trace: [planMemoryWithTracing] = [getLiveRangesFromMemEvents] (pairs
      the Allocate/Free events recorded by the tracing allocator) -> a
      heuristic -> [insertAllocStorageNode] -> [collectLiveRangesPerNode] ->
      [insertPreAllocTensorNodes].
    The tracing allocator ([MemoryTracingAllocator], installed by
    [WithProfileAllocationsGuard]) records the event trace during a
    profiling run; the replay allocator ([MemoryPlanningAllocator]) hands
    out the planned slices at run time.

    ** Files (in dependency order)
    - [Prelude] (this file): [uint64_t] wrap-around ([wrap64]); the
      [result] type of C++ assertions and checks ([Ok] / [Abort msg]); an
      exception-state monad [estate] (notation [x <-! m ;; k]) for code that
      mutates a shared object and may throw half way, the mutations made
      before the throw persisting; association lists with the semantics of
      [std::unordered_map] ([assoc_insert] keeps an existing key,
      [assoc_set] is [operator[]=], [assoc_get_default] is [operator[]] on
      a missing key, which inserts the default); generic lemmas on folds of
      [Z.max] and on [merge_sort]; the hint database [mp] and tactics.
    - [Arena]: [LiveRange], [Region], [FrameNodeId], [MemEvent] (declared in
      [memory_planning.h], outside [src/], modelled from spec 4.A), the
      comparators [live_range_start_cmp] and [frame_node_id_cmp], overlap of
      ranges and collision of regions, and [getTotalAllocationSize]
      ([memory_planning.cpp:254-261]) with its [uint64_t] sums; the plan
      correctness invariant [plan_ok].
    - [Packing]: the contract of a heuristic as a typeclass ([Packer], laws
      [PackerCorrect]: a well-formed input gives a [plan_ok] plan), the
      placement step "lowest offset that fits" with its lemmas, and the
      heuristics in Modules [GreedyBySize], [LinearScan] and
      [GreedyByBreadth].  Their C++ files are not under [src/]: they are
      modelled from spec 4.D and marked [spec_modelled] in the map; the
      first two discharge [PackerCorrect].
    - [Bounds]: the working set at a time [t] and the lower bound it puts
      on [getTotalAllocationSize] for every [plan_ok] plan.
    - [Graph]: the graph IR the planner reads and rewrites, from spec
      section 6: nodes in topological order with kind, schema header,
      inputs, outputs and attributes; values with an optional tensor type;
      [create], [insertBefore], [addInput] and attribute setters in the
      exception-state monad.
    - [Liveness]: [computeStorageSize], [getSizesStrides], [hasOutVariant],
      [getManagedValues] (Section [Extract], its two loops as folds over a
      [ManagedState] record) and [getManagedStuff]; the results of alias
      analysis are the record [AliasInfo].
    - [AliasLiveness]: the analyses [getManagedStuff] calls, outside
      [src/] and modelled from the spec: [GetAlwaysAliveValues] (graph
      inputs, outputs, constants and what may alias them) and
      [GetLiveness], a backward pass over the nodes in topological order
      (state [LivenessState]: the last use seen of each value and the
      ranges found); [alias_info] is the call of both in
      [getManagedStuff]; [live_range_spec] is the declarative reference
      the pass is proved equal to.
    - [Trace]: [getLiveRangesFromMemEvents] (its loop body [sweep_step],
      exactly as written) and [collectLiveRangesPerNode].
    - [Roundtrip]: traces made of Allocate/Free pairs and the round trip
      of the sweep's loop over them (Section [SweepRoundtrip], whose
      hypotheses are the well-formedness of the trace).
    - [Materialize]: [insertAllocStorageNode], [insertAllocTensorNodes]
      and the driver [planMemory] with its [switch (strat)], the
      [std::unordered_map] keyed by [LiveRange] and the [std::map] ordered
      by [begin] alone.
    - [TraceMode]: [insertPreAllocTensorNodes] with its header-matching
      cursor and the driver [planMemoryWithTracing]; where the cursor loop
      exits and the nodes one group inserts.
    - [Diagnostics]: the warnings ([TORCH_WARN]) as a log, in a writer
      monad [Logged] (notation [x <-w m ;; k]): one constructor of
      [Warning] per [TORCH_WARN] of the source, and instrumented copies of
      [computeStorageSize], the loops of [getManagedValues] and the
      overlap check of [planMemory], each erasing to the silent definition
      and with its log in closed form.
    - [Pipeline]: [planMemory] end to end, extraction, heuristic,
      materialiser and warnings together; Section [Run] fixes one run (the
      results of each stage) and proves what every claim about the run
      uses; its last theorems run [planMemory] on the [alias_info] of the
      graph, composing [AliasLiveness] with the rest.
    - [Allocator]: [MemoryPlanningAllocator]'s stack, the
      [MemoryTracingAllocator], [WithProfileAllocationsGuard], over an
      explicit store of allocator objects with identities and lifetimes and
      the device-to-allocator registry, so that the temporary built inside
      [std::make_shared] and the copy the guard keeps are different objects;
      [MemoryPlanningAllocator]'s constructor installs it in the registry
      and [device_allocate] dispatches to whichever object is installed;
      an allocation returns a [DataPtr] with its deleter ([DoNothing], the
      device allocator's, or the tracer's lambda) and [release] runs it.
    - [Lifetimes]: the store as a state machine ([world_step], one call of
      any allocator operation), its type invariant [world_wf] and the
      order [world_le] that every step respects, composed through a small
      algebra of [wf_at] lemmas over the monad's bind.

    ** What the theorems show (claims C1-C33 of the manifest)
    - Heuristics (C1-C3, C25): greedy by size and linear scan
      produce [plan_ok] plans whose regions all end within
      [getTotalAllocationSize], itself at most the sum of the sizes; greedy
      by size does not depend on the order of its input, and each of its
      steps takes the lowest non-negative offset that fits against the
      overlapping placements.  Greedy by breadth is proved to keep [plan_ok]
      on the values it places ([greedyByOperatorBreadth_ok]).
    - Lower bound (C4): for every [plan_ok] plan the arena is at least
      the peak working set, the sizes of the ranges live at one time
      (spec property 2; [Bounds], by removing the highest region).
    - The whole static pass (C5, C7, C8, C9): on a well-formed graph, with
      every strategy but [NAIVE], [planMemory] succeeds; two managed
      values with distinct overlapping live ranges that no warning names
      get allocation nodes with disjoint windows of the arena (spec
      property 1 on the graph); when no two values share a range, such a
      value's window has exactly its size (linear scan, greedy by size),
      and in general it has the size of the last value, in the iteration
      order of [managed_value_sizes], that shares its range, smaller than
      its own storage when that later value is smaller; and every managed value gets an allocation node or is named by an
      "overlapping live ranges" warning ([Pipeline], composing the
      lemmas of each stage).
    - Static extraction (C10, C29): the loops of
      [getManagedValues] equal a closed form (managed = non-always-alive
      outputs of out-variant nodes with a positive size), so every such
      output is managed or leaked, never both; [computeStorageSize] wraps
      at [2^64], so a tensor of [2^64] bytes or more is leaked or managed
      with a size smaller than its storage, never with its true size.
    - Alias analysis and liveness (C11, C12, C6): the backward
      liveness pass computes, for every value, the range from its
      producer's position to its last read, directly or through an
      alias ([live_range_spec]); graph inputs, graph outputs and
      constants are never managed; and, composed with the whole pass on a
      graph in topological order, a node's managed output and managed
      input that no warning names get disjoint windows: no operator
      writes its result over its operand.
    - Warnings (C21, C22): an output is named by a warning of
      [getManagedValues] exactly when it is leaked, save for a zero-size
      output of an optimizable container; the overlap check of
      [planMemory] drops a value exactly when it names it, together with a
      kept value whose range has the same [begin].
    - The static pipeline (C13, C14): [planMemory] runs to completion on
      every graph with distinct identities below the fresh counter
      ([graph_wf], [values_unique]), adding one storage node and only
      allocation nodes; [insertAllocTensorNodes] gives every entry an
      allocation node with its region, feeding the value's producer (a
      loop invariant over the explicit node list); it visits the values
      in the order of the [std::map] [managed_range_values], by strictly
      increasing [begin] (spec section 5; lemma
      [managed_range_values_sorted]); every range it looks up is in
      the plan, whatever the heuristic (the materializer is a client of
      [PackerCorrect] for linear scan and greedy by size).
    - The trace pipeline (C15, C16, C23, C26, C27): on a chronological trace of
      matching Allocate/Free pairs the sweep's loop recovers exactly the
      pairs' ranges, sizes and frames (spec property 4, a round trip
      proved by an invariant over the processed prefix), and whatever the
      trace it records only non-empty ranges paired with their frames;
      [collectLiveRangesPerNode] returns one group per frame, sorted by
      [pc], each a sorted permutation of its frame's ranges; the cursor
      loop of [insertPreAllocTensorNodes] stops at the first node whose
      header differs from the frame's, and runs off the end exactly when
      there is none; a group then inserts one [PreAllocateTensor] node per
      range, in [begin] order with its region, just before that node.
    - Where the code departs from its contract (C17, C28, and, among
      the claims above, C8, C29, C22, C26, C21):
      trace-based planning never succeeds, because the sweep never erases
      a matched allocation; the bound check of [insertAllocTensorNodes] is
      vacuous under wrap-around; a value can get a region smaller than its
      storage when values share a live range; of values whose ranges begin
      together only one gets an allocation node; the trace-mode cursor
      stops at the first node whose header differs from the frame's; a
      zero-size output of an optimizable container is leaked without a
      warning.  Concrete runs of these defects on small graphs
      ([planMemory_region_smaller_than_value],
      [planMemory_same_begin_drops_value],
      [planMemory_equal_ranges_share_region],
      [insertPreAllocTensorNodes_misplaces],
      [insertPreAllocTensorNodes_no_rollback],
      [getManagedValues_unreported_leaks]) are kept as examples.
    - Allocators (C18, C19, C20, C24, C30, C31, C32,
      C33): the guard installs a temporary that is destroyed at once,
      so traces stay empty and later allocations reach a dead object;
      a traced allocation returns a block its own [orig_ptr] has already
      freed;
      a replay allocator installed in the
      registry serves the device's allocations from its stack; an
      allocation released in another operator's frame, or in the frame
      that made it, yields a pair the sweep rejects; the replay allocator
      is a stack, and a mismatched request fails after consuming its
      slice; the guard's destructor restores the registry.  The type
      invariant of the object store ([Lifetimes.reachable_world_wf]:
      every sequence of allocator operations keeps the store well formed
      and never revives a destroyed object) is a lemma about the model
      that the claims rely on, not a claim about the code.
    Every claim is universal; C28 adds a concrete wrapping region to
    its universal statement, and the claims with hypotheses have
    witnesses.
    ** Integers and loops
    [uint64_t], [size_t] and [int64_t] quantities are [Z], with the
    wrap-around written out ([wrap64]) where the C++ performs an unsigned
    sum or product that can overflow ([computeStorageSize],
    [getTotalAllocationSize], the [TORCH_CHECK] of
    [insertAllocTensorNodes]).  Every loop of the source runs over a finite
    list and is structural recursion or a fold, so no fuel is needed; the
    header-matching cursor of [insertPreAllocTensorNodes] is recursion on
    the node list and fails (standing for the dereference of [end()]) when
    it runs off its end.  [std::sort] is a stable merge sort, one of the
    orders the C++ may produce; the iteration order of an [unordered_map]
    is the order of first insertion.

    ** Not modelled
    [GRAPH_DEBUG] (a dump of the graph or of a schema under JIT logging;
    [TORCH_WARN] is modelled as a log and [printAllocation] as the lines
    it prints, neither changing state), backtrace
    capture, the points-to analysis of [AliasDb] (reduced to the values
    each value may alias, an input of [AliasLiveness]), device raw allocators (a bump allocator that keeps its live
    blocks stands for one), the current frame (an argument), a
    destructor of [MemoryPlanningAllocator] (none is defined in the
    [.cpp]; its header is not under [src/]), and schema canonicalisation
    (a header string per node). *)

From Stdlib Require Export ZArith Lia.
From stdpp Require Export base list sets strings sorting.

#[global] Open Scope Z_scope.

Declare Scope mp_scope.
Delimit Scope mp_scope with mp.

Create HintDb mp.
Create Rewrite HintDb mp_rw.

(** ** Unsigned 64-bit arithmetic *)

Definition u64_modulus : Z := 2 ^ 64.

(** The value an unsigned 64-bit computation stores. *)
Definition wrap64 (z : Z) : Z := z mod u64_modulus.

Definition is_u64 (z : Z) : Prop := 0 <= z < u64_modulus.

Definition is_u64b (z : Z) : bool := (0 <=? z) && (z <? u64_modulus).

Lemma u64_modulus_pos : 0 < u64_modulus.
Proof. reflexivity. Qed.

Lemma wrap64_small z : is_u64 z -> wrap64 z = z.
Proof. unfold wrap64, is_u64. intros. apply Z.mod_small. lia. Qed.

Lemma wrap64_range z : is_u64 (wrap64 z).
Proof. unfold wrap64, is_u64. apply Z.mod_pos_bound. reflexivity. Qed.

Lemma is_u64b_spec z : is_u64b z = true <-> is_u64 z.
Proof. unfold is_u64b, is_u64. rewrite andb_true_iff, Z.leb_le, Z.ltb_lt. lia. Qed.

#[export] Hint Resolve wrap64_range u64_modulus_pos : mp.
#[export] Hint Rewrite wrap64_small using (unfold is_u64 in *; lia) : mp_rw.

(** ** Assertions and checks

    [TORCH_CHECK] and [TORCH_INTERNAL_ASSERT] throw; a failed check is an
    [Abort] carrying the check's text. *)

Inductive result (A : Type) : Type :=
| Ok (a : A)
| Abort (msg : string).
Arguments Ok {A} a.
Arguments Abort {A} msg.

Definition rbind {A B} (m : result A) (k : A -> result B) : result B :=
  match m with Ok a => k a | Abort e => Abort e end.

Definition check (b : bool) (msg : string) : result unit :=
  if b then Ok tt else Abort msg.

Notation "x <-? m ;; k" := (rbind m (fun x => k))
  (at level 100, m at next level, k at level 200, right associativity) : mp_scope.
Notation "'assert!' b 'as' msg ;; k" := (rbind (check b msg) (fun _ => k))
  (at level 100, b at next level, msg at next level, k at level 200,
   right associativity) : mp_scope.

Definition is_ok {A} (r : result A) : bool :=
  match r with Ok _ => true | Abort _ => false end.

Lemma rbind_Ok {A B} (m : result A) (k : A -> result B) b :
  rbind m k = Ok b <-> exists a, m = Ok a /\ k a = Ok b.
Proof. destruct m; simpl; split; intros; naive_solver. Qed.

(** A loop whose body may throw. *)
Fixpoint fold_result {A B} (f : A -> B -> result A) (l : list B) (a : A) : result A :=
  match l with
  | [] => Ok a
  | b :: l' => rbind (f a b) (fold_result f l')
  end.

Lemma fold_result_app {A B} (f : A -> B -> result A) l1 l2 a :
  fold_result f (l1 ++ l2) a = rbind (fold_result f l1 a) (fold_result f l2).
Proof.
  revert a. induction l1 as [|b l1 IH]; intros a; simpl; [done|].
  destruct (f a b); simpl; [apply IH|done].
Qed.

(** A property kept by every successful step holds at the end. *)
Lemma fold_result_inv {A B} (f : A -> B -> result A) (P : A -> Prop) l a a' :
  (forall x b x', P x -> f x b = Ok x' -> P x') ->
  P a -> fold_result f l a = Ok a' -> P a'.
Proof.
  intros Hstep. revert a. induction l as [|b l IH]; intros a Ha; simpl; [congruence|].
  destruct (f a b) as [x|] eqn:E; simpl; [|done]. apply IH. by apply (Hstep a b).
Qed.

Lemma check_Ok b msg : check b msg = Ok tt <-> b = true.
Proof. destruct b; simpl; split; congruence. Qed.

(** ** Exception-state monad

    A C++ function that mutates an object it shares with its caller and
    then throws leaves the mutations in place: the state is returned on
    both outcomes. *)

Definition estate (S A : Type) : Type := S -> result A * S.

Definition eret {S A} (a : A) : estate S A := fun s => (Ok a, s).
Definition ebind {S A B} (m : estate S A) (k : A -> estate S B) : estate S B :=
  fun s => match m s with
           | (Ok a, s') => k a s'
           | (Abort e, s') => (Abort e, s')
           end.
Definition ethrow {S A} (msg : string) : estate S A := fun s => (Abort msg, s).
Definition eget {S} : estate S S := fun s => (Ok s, s).
Definition eput {S} (s : S) : estate S unit := fun _ => (Ok tt, s).
Definition emodify {S} (f : S -> S) : estate S unit := fun s => (Ok tt, f s).
Definition echeck {S} (b : bool) (msg : string) : estate S unit :=
  if b then eret tt else ethrow msg.

(** A loop over a list whose body mutates the state and may throw. *)
Fixpoint emapM {S A} (f : A -> estate S unit) (l : list A) : estate S unit :=
  match l with
  | [] => eret tt
  | a :: l' => ebind (f a) (fun _ => emapM f l')
  end.

(** The same loop collecting the results. *)
Fixpoint emapR {S A B} (f : A -> estate S B) (l : list A) : estate S (list B) :=
  match l with
  | [] => eret []
  | a :: l' => ebind (f a) (fun b => ebind (emapR f l') (fun bs => eret (b :: bs)))
  end.

Notation "x <-! m ;; k" := (ebind m (fun x => k))
  (at level 100, m at next level, k at level 200, right associativity) : mp_scope.

Lemma ebind_Ok {S A B} (m : estate S A) (k : A -> estate S B) s b s'' :
  ebind m k s = (Ok b, s'') <->
  exists a s', m s = (Ok a, s') /\ k a s' = (Ok b, s'').
Proof.
  unfold ebind. destruct (m s) as [[a|e] s']; split; intros; naive_solver.
Qed.

(** ** Maps of the C++ standard library as association lists

    The iteration order of an [std::unordered_map] is unspecified: the list
    order stands for it, and theorems quantify over every list. *)

Section Assoc.
Context {K V : Type} `{EqDecision K}.

Fixpoint assoc_find (k : K) (m : list (K * V)) : option V :=
  match m with
  | [] => None
  | (k', v) :: m' => if decide (k = k') then Some v else assoc_find k m'
  end.

Definition assoc_mem (k : K) (m : list (K * V)) : bool :=
  match assoc_find k m with Some _ => true | None => false end.

(** [m.insert({k, v})]: no effect when [k] is already a key. *)
Definition assoc_insert (k : K) (v : V) (m : list (K * V)) : list (K * V) :=
  if assoc_mem k m then m else m ++ [(k, v)].

(** [m[k] = v]: overwrite in place, or add the key. *)
Fixpoint assoc_set (k : K) (v : V) (m : list (K * V)) : list (K * V) :=
  match m with
  | [] => [(k, v)]
  | (k', v') :: m' =>
      if decide (k = k') then (k', v) :: m' else (k', v') :: assoc_set k v m'
  end.

(** [m[k]] read through the non-const [operator[]]: a missing key is
    inserted with the default value [d], which the caller sees. *)
Definition assoc_get_default (d : V) (k : K) (m : list (K * V)) : V * list (K * V) :=
  match assoc_find k m with
  | Some v => (v, m)
  | None => (d, m ++ [(k, d)])
  end.

Fixpoint assoc_erase (k : K) (m : list (K * V)) : list (K * V) :=
  match m with
  | [] => []
  | (k', v') :: m' => if decide (k = k') then m' else (k', v') :: assoc_erase k m'
  end.

Lemma assoc_find_In k v m : assoc_find k m = Some v -> In (k, v) m.
Proof.
  induction m as [|[k' v'] m IH]; simpl; [done|].
  case_decide; [intros [= ->]; subst; auto|auto].
Qed.

Lemma assoc_find_In_NoDup k v m :
  NoDup (map fst m) -> In (k, v) m -> assoc_find k m = Some v.
Proof.
  induction m as [|[k' v'] m IH]; simpl; [done|].
  intros Hnd Hin. apply NoDup_cons in Hnd as [Hnot Hnd].
  case_decide as E; destruct Hin as [Heq|Hin]; simplify_eq; auto.
  - exfalso. apply Hnot. apply list_elem_of_In, in_map_iff. exists (k', v). auto.
Qed.

Lemma assoc_find_None k m : assoc_find k m = None <-> k ∉ map fst m.
Proof.
  induction m as [|[k' v'] m IH]; simpl.
  - split; [intros _ H; inversion H|done].
  - case_decide; subst; split; intros Hx.
    + done.
    + exfalso. apply Hx. constructor.
    + intros Hin. apply elem_of_cons in Hin as [->|Hin]; [done|].
      by apply IH in Hx.
    + apply IH. intros Hin. apply Hx. by apply elem_of_cons; right.
Qed.

Lemma assoc_find_set_eq k v m : assoc_find k (assoc_set k v m) = Some v.
Proof.
  induction m as [|[k' v'] m IH]; simpl; [by rewrite decide_True|].
  case_decide; simpl; [by rewrite decide_True|by rewrite decide_False].
Qed.

Lemma assoc_find_set_ne k k2 v m :
  k <> k2 -> assoc_find k2 (assoc_set k v m) = assoc_find k2 m.
Proof.
  intros Hne. induction m as [|[k' v'] m IH]; simpl.
  - case_decide; congruence.
  - repeat (case_decide; simpl); subst; congruence.
Qed.

Lemma assoc_keys_set k v m :
  map fst (assoc_set k v m) =
  if decide (k ∈ map fst m) then map fst m else map fst m ++ [k].
Proof.
  induction m as [|[k' v'] m IH].
  - destruct (decide _) as [Hin|]; [exfalso; set_solver|reflexivity].
  - cbn [assoc_set]. destruct (decide (k = k')) as [->|E].
    + destruct (decide (k' ∈ map fst ((k', v') :: m))) as [|Hn]; [reflexivity|exfalso; set_solver].
    + cbn [map fst]. rewrite IH.
      destruct (decide (k ∈ map fst m)), (decide (k ∈ k' :: map fst m));
        simpl; set_solver.
Qed.

Lemma assoc_set_NoDup k v m :
  NoDup (map fst m) -> NoDup (map fst (assoc_set k v m)).
Proof.
  rewrite assoc_keys_set. case_decide; [done|].
  intros Hnd. apply NoDup_app. split_and!; [done| |by apply NoDup_singleton].
  set_solver.
Qed.

Lemma assoc_insert_NoDup k v m :
  NoDup (map fst m) -> NoDup (map fst (assoc_insert k v m)).
Proof.
  unfold assoc_insert, assoc_mem. destruct (assoc_find k m) eqn:E; [done|].
  apply assoc_find_None in E. rewrite map_app. simpl.
  intros Hnd. apply NoDup_app. split_and!; [done| |by apply NoDup_singleton].
  set_solver.
Qed.

Lemma assoc_find_app k m1 m2 :
  assoc_find k (m1 ++ m2) =
  match assoc_find k m1 with Some v => Some v | None => assoc_find k m2 end.
Proof.
  induction m1 as [|[k' v'] m1 IH]; simpl; [done|]. by case_decide.
Qed.

Lemma assoc_find_insert k k2 v m :
  assoc_find k2 (assoc_insert k v m) =
  match assoc_find k2 m with
  | Some w => Some w
  | None => if decide (k2 = k) then Some v else None
  end.
Proof.
  unfold assoc_insert, assoc_mem.
  destruct (assoc_find k m) eqn:E.
  - destruct (assoc_find k2 m) eqn:E2; [done|].
    case_decide; subst; congruence.
  - rewrite assoc_find_app. destruct (assoc_find k2 m); [done|].
    simpl. by case_decide.
Qed.
Lemma assoc_set_In k v m p : In p (assoc_set k v m) -> p = (k, v) \/ In p m.
Proof.
  induction m as [|[k' v'] m IH]; simpl; [naive_solver|].
  case_decide; simpl; [subst; naive_solver|]. intros [<-|Hin]; [by right; left|].
  destruct (IH Hin); auto.
Qed.

Lemma assoc_insert_In k v m p : In p (assoc_insert k v m) -> p = (k, v) \/ In p m.
Proof.
  unfold assoc_insert. case_match; [auto|].
  intros Hin. apply in_app_or in Hin as [Hin|[<-|[]]]; auto.
Qed.

(** A loop that inserts, for each element whose key is not skipped, that
    key with a value determined by the key: a lookup finds an old entry,
    or the value of a key the loop inserted. *)
Lemma assoc_find_fold_insert {A} (f : list (K * V) -> A -> list (K * V)) (skip : K -> bool)
    (kf : A -> K) (vf : K -> V) :
  (forall acc x, f acc x = if skip (kf x) then acc else assoc_insert (kf x) (vf (kf x)) acc) ->
  forall l m k, assoc_find k (fold_left f l m) =
  match assoc_find k m with
  | Some v => Some v
  | None => if bool_decide (k ∈ map kf l) && negb (skip k) then Some (vf k) else None
  end.
Proof.
  intros Hf l. induction l as [|x l IH]; intros m k; simpl; [by destruct (assoc_find k m)|].
  rewrite IH, Hf. destruct (assoc_find k m) as [v|] eqn:Em.
  - destruct (skip (kf x)); [by rewrite Em|by rewrite assoc_find_insert, Em].
  - destruct (decide (k = kf x)) as [->|Hne].
    + rewrite (bool_decide_true (kf x ∈ kf x :: map kf l)) by set_solver.
      destruct (skip (kf x)) eqn:Es; [by rewrite Em; simpl; rewrite !andb_false_r|].
      by rewrite assoc_find_insert, Em, decide_True.
    + rewrite (bool_decide_ext (k ∈ kf x :: map kf l) (k ∈ map kf l)) by set_solver.
      destruct (skip (kf x)); [by rewrite Em|]. by rewrite assoc_find_insert, Em, decide_False.
Qed.

Lemma assoc_insert_fresh k v m :
  k ∉ map fst m -> assoc_insert k v m = m ++ [(k, v)].
Proof.
  intros Hk. unfold assoc_insert, assoc_mem.
  by apply assoc_find_None in Hk as ->.
Qed.
End Assoc.

(** [std::unordered_set::insert] on a list. *)
Definition set_insert {A} `{EqDecision A} (x : A) (s : list A) : list A :=
  if decide (x ∈ s) then s else s ++ [x].

Lemma set_insert_fresh {A} `{EqDecision A} (x : A) (s : list A) :
  x ∉ s -> set_insert x s = s ++ [x].
Proof. intros Hx. unfold set_insert. by rewrite decide_False. Qed.

#[export] Hint Resolve assoc_set_NoDup assoc_insert_NoDup : mp.
#[export] Hint Rewrite @assoc_find_set_eq @assoc_find_app : mp_rw.

(** ** Generic list lemmas *)

(** An invariant of every step of a [fold_left] holds at its end. *)
Lemma fold_left_inv {A B} (f : A -> B -> A) (P : A -> Prop) (l : list B) (a : A) :
  P a -> (forall x b, In b l -> P x -> P (f x b)) -> P (fold_left f l a).
Proof.
  revert a. induction l as [|b l IH]; intros a Ha Hstep; simpl; [done|].
  apply IH; [apply Hstep; [left|]; done|]. intros x b' Hb. apply Hstep. by right.
Qed.

Lemma fold_left_max_ge {A} (f : A -> Z) (l : list A) (z0 : Z) :
  z0 <= fold_left (fun acc a => Z.max acc (f a)) l z0.
Proof.
  revert z0. induction l as [|a l IH]; simpl; intros z0; [lia|].
  specialize (IH (Z.max z0 (f a))). lia.
Qed.

Lemma fold_left_max_In {A} (f : A -> Z) (l : list A) (z0 : Z) a :
  In a l -> f a <= fold_left (fun acc a => Z.max acc (f a)) l z0.
Proof.
  revert z0. induction l as [|b l IH]; simpl; intros z0 Hin; [done|].
  destruct Hin as [->|Hin]; [|by apply IH].
  pose proof (fold_left_max_ge f l (Z.max z0 (f a))). lia.
Qed.

Lemma fold_left_max_reached {A} (f : A -> Z) (l : list A) (z0 : Z) :
  fold_left (fun acc a => Z.max acc (f a)) l z0 = z0 \/
  exists a, In a l /\ fold_left (fun acc a => Z.max acc (f a)) l z0 = f a.
Proof.
  revert z0. induction l as [|b l IH]; simpl; intros z0; [by left|].
  destruct (IH (Z.max z0 (f b))) as [->|[a [Hin ->]]].
  - destruct (Z.max_spec z0 (f b)) as [[_ ->]|[_ ->]]; [right; eauto|by left].
  - right. eauto.
Qed.

(** Elements of a list with distinct images are determined by their image. *)
Lemma NoDup_map_eq {A B} (f : A -> B) (l : list A) x y :
  NoDup (map f l) -> In x l -> In y l -> f x = f y -> x = y.
Proof.
  induction l as [|a l IH]; simpl; [done|].
  intros Hnd Hx Hy Heq. apply NoDup_cons in Hnd as [Ha Hnd].
  destruct Hx as [<-|Hx], Hy as [<-|Hy]; [done| | |by apply IH].
  - exfalso. apply Ha. rewrite Heq. apply list_elem_of_In, in_map. done.
  - exfalso. apply Ha. rewrite <- Heq. apply list_elem_of_In, in_map. done.
Qed.

(** Sorting by a total order: permuted inputs give the same output. *)
Lemma merge_sort_perm_eq {A} (R : relation A) `{!RelDecision R}
    `{!Total R, !Transitive R, !AntiSymm (=) R} (l l' : list A) :
  l ≡ₚ l' -> merge_sort R l = merge_sort R l'.
Proof.
  intros Hp. apply (Sorted_unique R).
  - by apply Sorted_merge_sort.
  - by apply Sorted_merge_sort.
  - eapply Permutation_trans; [apply merge_sort_Permutation|].
    eapply Permutation_trans; [exact Hp|].
    apply Permutation_sym, merge_sort_Permutation.
Qed.

(** ** Tactics *)

(** Unfold the boolean comparisons of [Z] into propositions for [lia]. *)
Ltac zbool :=
  repeat match goal with
  | H : (_ <=? _) = true |- _ => apply Z.leb_le in H
  | H : (_ <=? _) = false |- _ => apply Z.leb_gt in H
  | H : (_ <? _) = true |- _ => apply Z.ltb_lt in H
  | H : (_ <? _) = false |- _ => apply Z.ltb_ge in H
  | H : (_ =? _) = true |- _ => apply Z.eqb_eq in H
  | H : (_ =? _) = false |- _ => apply Z.eqb_neq in H
  | H : (_ && _) = true |- _ => apply andb_true_iff in H as [? ?]
  | H : (_ || _) = false |- _ => apply orb_false_iff in H as [? ?]
  | |- (_ <=? _) = true => apply Z.leb_le
  | |- (_ <? _) = true => apply Z.ltb_lt
  | |- (_ && _) = true => apply andb_true_iff; split
  end.

Ltac zlia := zbool; lia.

(** Close a decidable goal about concrete data by evaluation. *)
Ltac decide_by_eval := apply (bool_decide_unpack _); vm_compute; exact I.
