(* ===== verification/Arena.v ===== *)
(** * Arena model: live ranges, regions, frame ids, memory events, plans

    The value types the planner passes between its stages (spec section
    4.A; their C++ declarations live in [memory_planning.h], outside
    [src/], and are modelled from the spec), the plan correctness invariant
    [plan_ok] every heuristic must establish, and
    [getTotalAllocationSize] of [memory_planning.cpp]. *)

From S2P Require Import Prelude.

(** ** Data *)

(** [struct LiveRange { size_t begin; size_t end; }]: a closed interval of
    timestamps. *)
Record LiveRange := mkLiveRange { lr_begin : Z; lr_end : Z }.

(** [struct Region { uint64_t offset; uint64_t size; }]. *)
Record Region := mkRegion { reg_offset : Z; reg_size : Z }.

(** [struct FrameNodeId { size_t pc; std::string node_schema;
    std::string node_header; }]. *)
Record FrameNodeId := mkFrameNodeId {
  fn_pc : Z; fn_node_schema : string; fn_node_header : string }.

Inductive EventType := Allocate | Free.

(** [struct MemEvent], with the seven fields the source fills in
    ([MemoryPlanningAllocator.cpp:71-78]): the time stamp, the backtrace,
    the pointer printed as a string, the node schema and header, the byte
    count and the kind. *)
Record MemEvent := mkMemEvent {
  me_time : Z; me_stack_trace : string; me_ptr_addr : string;
  me_node_schema : string; me_node_header : string; me_size : Z;
  me_type : EventType }.

#[export] Instance LiveRange_eq_dec : EqDecision LiveRange.
Proof. solve_decision. Defined.
#[export] Instance Region_eq_dec : EqDecision Region.
Proof. solve_decision. Defined.
#[export] Instance FrameNodeId_eq_dec : EqDecision FrameNodeId.
Proof. solve_decision. Defined.
#[export] Instance EventType_eq_dec : EqDecision EventType.
Proof. solve_decision. Defined.
#[export] Instance MemEvent_eq_dec : EqDecision MemEvent.
Proof. solve_decision. Defined.

(** ** Predicates and comparators *)

(** Closed intervals intersect. *)
Definition lr_overlap (a b : LiveRange) : bool :=
  (lr_begin a <=? lr_end b) && (lr_begin b <=? lr_end a).

(** Half-open byte windows [[offset, offset+size)] intersect. *)
Definition reg_collide (x y : Region) : bool :=
  (reg_offset x <? reg_offset y + reg_size y) &&
  (reg_offset y <? reg_offset x + reg_size x).

Definition reg_end (r : Region) : Z := reg_offset r + reg_size r.

(** [live_range_start_cmp]: by [begin] ascending (spec 4.A). As the
    comparator of a [std::map] it makes two ranges with the same [begin]
    one key. *)
Definition live_range_start_cmp (a b : LiveRange) : bool := lr_begin a <? lr_begin b.

(** [frame_node_id_cmp]: by [pc] ascending. *)
Definition frame_node_id_cmp (a b : FrameNodeId) : bool := fn_pc a <? fn_pc b.

(** The non-strict relations the two comparators sort by. *)
Definition lr_start_le (a b : LiveRange) : Prop := lr_begin a <= lr_begin b.
Definition frame_le (a b : FrameNodeId) : Prop := fn_pc a <= fn_pc b.

#[export] Instance lr_start_le_dec : RelDecision lr_start_le.
Proof. intros a b. unfold lr_start_le. apply _. Defined.
#[export] Instance frame_le_dec : RelDecision frame_le.
Proof. intros a b. unfold frame_le. apply _. Defined.
#[export] Instance lr_start_le_total : Total lr_start_le.
Proof. intros a b. unfold lr_start_le. lia. Qed.
#[export] Instance frame_le_total : Total frame_le.
Proof. intros a b. unfold frame_le. lia. Qed.
#[export] Instance lr_start_le_trans : Transitive lr_start_le.
Proof. intros a b c. unfold lr_start_le. lia. Qed.
#[export] Instance frame_le_trans : Transitive frame_le.
Proof. intros a b c. unfold frame_le. lia. Qed.

(** ** Plans *)

(** A plan, [std::unordered_map<LiveRange, Region>], as an association
    list; the input of a heuristic, [std::unordered_map<LiveRange,
    uint64_t>], likewise. *)
Definition Plan : Type := list (LiveRange * Region).
Definition Managed : Type := list (LiveRange * Z).

(** [getTotalAllocationSize]: the largest [offset + size], each sum taken
    modulo [2^64] as [uint64_t] arithmetic does. *)
Definition getTotalAllocationSize (allocations : Plan) : Z :=
  fold_left (fun total item => Z.max total (wrap64 (reg_offset item.2 + reg_size item.2)))
    allocations 0.

(** The input of a heuristic is well formed: one entry per range, sizes are
    [uint64_t]. *)
Definition managed_ok (ms : Managed) : Prop :=
  NoDup (map fst ms) /\ Forall (fun p => 0 <= p.2) ms.

(** Placements that pairwise respect liveness: two distinct ranges that
    overlap in time get regions that do not collide. *)
Definition disjoint_ok (plan : Plan) : Prop :=
  forall lr1 r1 lr2 r2, In (lr1, r1) plan -> In (lr2, r2) plan ->
    lr1 <> lr2 -> lr_overlap lr1 lr2 = true -> reg_collide r1 r2 = false.

(** The correctness invariant of spec section 3 / 4.D: every input range
    is placed, with its size, at a non-negative offset; nothing else is
    placed; and overlapping ranges occupy disjoint bytes. *)
Definition plan_ok (ms : Managed) (plan : Plan) : Prop :=
  (forall lr sz, In (lr, sz) ms ->
     exists off, assoc_find lr plan = Some (mkRegion off sz) /\ 0 <= off) /\
  (forall lr, lr ∈ map fst plan -> lr ∈ map fst ms) /\
  NoDup (map fst plan) /\
  disjoint_ok plan.

#[export] Instance managed_ok_dec (ms : Managed) : Decision (managed_ok ms).
Proof. unfold managed_ok. apply _. Defined.

(** The managed ranges of the spec's end-to-end scenario (section 8). *)
Definition spec_ranges : Managed :=
  [(mkLiveRange 0 3, 100); (mkLiveRange 1 2, 40); (mkLiveRange 4 6, 60); (mkLiveRange 5 7, 30)].

(** ** Lemmas *)

Lemma lr_overlap_sym a b : lr_overlap a b = lr_overlap b a.
Proof. unfold lr_overlap. by rewrite andb_comm. Qed.

Lemma reg_collide_sym x y : reg_collide x y = reg_collide y x.
Proof. unfold reg_collide. by rewrite andb_comm. Qed.

Lemma reg_collide_false x y :
  reg_collide x y = false <->
  reg_offset y + reg_size y <= reg_offset x \/ reg_offset x + reg_size x <= reg_offset y.
Proof. unfold reg_collide. rewrite andb_false_iff, !Z.ltb_ge. lia. Qed.

Lemma disjoint_ok_nil : disjoint_ok [].
Proof. intros ????. done. Qed.

Lemma disjoint_ok_app_inv p1 p2 : disjoint_ok (p1 ++ p2) -> disjoint_ok p1.
Proof. intros H lr1 r1 lr2 r2 ? ?. apply H; apply in_or_app; auto. Qed.

(** The two invariants are preserved under reordering of the input. *)
Lemma plan_ok_perm ms ms' plan : ms ≡ₚ ms' -> plan_ok ms plan -> plan_ok ms' plan.
Proof.
  intros Hp (Hall & Hkeys & Hnd & Hdis). split_and!; [| |done|done].
  - intros lr sz Hin. apply Hall. apply list_elem_of_In.
    rewrite Hp. by apply list_elem_of_In.
  - intros lr Hin. rewrite <- Hp. by apply Hkeys.
Qed.

Lemma managed_ok_perm ms ms' : ms ≡ₚ ms' -> managed_ok ms -> managed_ok ms'.
Proof.
  intros Hp [Hnd Hpos]. split.
  - by rewrite <- Hp.
  - by rewrite <- Hp.
Qed.

#[export] Hint Resolve disjoint_ok_nil : mp.

(** Every region's end is at most the total when no sum wraps. *)
Lemma getTotalAllocationSize_ge (plan : Plan) lr r :
  In (lr, r) plan -> is_u64 (reg_end r) ->
  reg_end r <= getTotalAllocationSize plan.
Proof.
  intros Hin Hu. unfold getTotalAllocationSize.
  rewrite <- (wrap64_small (reg_end r)) by done.
  apply (fold_left_max_In (fun item : LiveRange * Region => wrap64 (reg_offset item.2 + reg_size item.2))
           plan 0 (lr, r) Hin).
Qed.

(** The total is one of the (wrapped) region ends, or 0 for an empty plan. *)
Lemma getTotalAllocationSize_reached (plan : Plan) :
  getTotalAllocationSize plan = 0 \/
  exists lr r, In (lr, r) plan /\ getTotalAllocationSize plan = wrap64 (reg_end r).
Proof.
  unfold getTotalAllocationSize.
  destruct (fold_left_max_reached
              (fun item : LiveRange * Region => wrap64 (reg_offset item.2 + reg_size item.2))
              plan 0) as [->|[[lr r] [Hin ->]]]; [by left|right; eauto].
Qed.

Lemma getTotalAllocationSize_range (plan : Plan) : is_u64 (getTotalAllocationSize plan).
Proof.
  destruct (getTotalAllocationSize_reached plan) as [->|(lr & r & _ & ->)];
    [unfold is_u64, u64_modulus; lia|apply wrap64_range].
Qed.

#[export] Hint Resolve getTotalAllocationSize_range : mp.
