(* ===== verification/Packing.v ===== *)
(** * Packing heuristics

    The contract a heuristic promises to the materializer (the typeclasses
    [Packer] and [PackerCorrect]), the placement step the heuristics share
    with the lemmas that it preserves the plan invariant and that it picks
    the lowest non-negative offset that fits, and the heuristics
    greedy by size, linear scan and greedy by operator breadth of spec
    section 4.D, each in a Module of its own.  The C++ of the heuristics
    ([greedy_by_size.cpp], [linear_scan.cpp], [greedy_by_breadth.cpp]) is
    not under [src/]: these definitions follow the spec's procedure step by
    step.  Greedy by size and linear scan discharge [PackerCorrect]; greedy
    by breadth, whose input is not a [Managed] map, has its own invariant
    [breadth_inv]. *)

From S2P Require Import Prelude Arena.

(** ** The contract *)

(** A heuristic maps the managed ranges with their sizes to a plan. *)
Class Packer := pack : Managed -> Plan.

(** Its law: a well-formed input yields a plan meeting [plan_ok]. *)
Class PackerCorrect (P : Packer) :=
  pack_ok : forall ms, managed_ok ms -> plan_ok ms (pack ms).

(** ** The placement step *)

(** The block [[off, off+sz)] collides with none of [rs]. *)
Definition fits (off sz : Z) (rs : list Region) : bool :=
  forallb (fun r => negb (reg_collide (mkRegion off sz) r)) rs.

(** The regions already placed for ranges that overlap [lr] in time. *)
Definition conflicts (lr : LiveRange) (placed : Plan) : list Region :=
  map snd (List.filter (fun p => lr_overlap lr p.1) placed).

Definition max_end (rs : list Region) : Z :=
  fold_right (fun r acc => Z.max (reg_end r) acc) 0 rs.

(** The offsets the greedy scan considers, ascending: [0] and the end of
    every conflicting region. *)
Definition offset_candidates (rs : list Region) : list Z :=
  merge_sort Z.le (0 :: map reg_end rs).

(** The lowest candidate at which the block fits (spec 4.D, greedy by
    size, step 2); the end of the last region always fits. *)
Definition lowest_fit (sz : Z) (rs : list Region) : Z :=
  match List.find (fun c => fits c sz rs) (offset_candidates rs) with
  | Some c => c
  | None => max_end rs
  end.

Definition reg_nonneg (r : Region) : Prop := 0 <= reg_offset r /\ 0 <= reg_size r.

(** ** Lemmas of the placement step *)

Lemma fits_spec off sz rs :
  fits off sz rs = true <-> forall r, In r rs -> reg_collide (mkRegion off sz) r = false.
Proof.
  unfold fits. rewrite forallb_forall.
  split; intros H r Hin; specialize (H r Hin); by destruct reg_collide.
Qed.

Lemma fits_perm off sz rs rs' : rs ≡ₚ rs' -> fits off sz rs = fits off sz rs'.
Proof.
  intros Hp. apply eq_iff_eq_true. rewrite !fits_spec.
  setoid_rewrite <- list_elem_of_In. by setoid_rewrite Hp.
Qed.

Lemma conflicts_In lr placed lr' r :
  In (lr', r) placed -> lr_overlap lr lr' = true -> In r (conflicts lr placed).
Proof.
  intros Hin Hov. unfold conflicts. apply in_map_iff. exists (lr', r).
  split; [done|]. apply filter_In. auto.
Qed.

Lemma max_end_ge rs r : In r rs -> reg_end r <= max_end rs.
Proof. induction rs as [|r' rs IH]; simpl; [done|]. intros [->|Hin]; [lia|]. specialize (IH Hin). lia. Qed.

Lemma max_end_nonneg rs : 0 <= max_end rs.
Proof. induction rs as [|r rs IH]; simpl; lia. Qed.

Lemma max_end_le rs b : 0 <= b -> (forall r, In r rs -> reg_end r <= b) -> max_end rs <= b.
Proof.
  intros Hb. induction rs as [|r rs IH]; simpl; intros H; [lia|].
  specialize (H r (or_introl eq_refl)) as Hr. specialize (IH (fun r' Hr' => H r' (or_intror Hr'))). lia.
Qed.

Lemma fits_above sz rs off :
  (forall r, In r rs -> reg_end r <= off) -> fits off sz rs = true.
Proof.
  intros H. apply fits_spec. intros r Hin. apply reg_collide_false.
  specialize (H r Hin). unfold reg_end in H. simpl. lia.
Qed.

Lemma lowest_fit_fits sz rs : fits (lowest_fit sz rs) sz rs = true.
Proof.
  unfold lowest_fit. destruct (List.find _ _) as [c|] eqn:E.
  - by apply find_some in E as [_ ?].
  - apply fits_above. intros r. apply max_end_ge.
Qed.

Lemma offset_candidates_In rs c :
  In c (offset_candidates rs) -> c = 0 \/ exists r, In r rs /\ c = reg_end r.
Proof.
  unfold offset_candidates. intros Hin.
  apply list_elem_of_In in Hin. rewrite ?(merge_sort_Permutation _) in Hin.
  apply list_elem_of_In in Hin as [<-|Hin]; [by left|right].
  apply in_map_iff in Hin as (r & <- & Hr). eauto.
Qed.

(** The chosen offset lies between [0] and the end of the last conflicting
    region. *)
Lemma lowest_fit_bounds sz rs :
  Forall reg_nonneg rs -> 0 <= lowest_fit sz rs <= max_end rs.
Proof.
  intros Hnn. pose proof (max_end_nonneg rs) as H0.
  unfold lowest_fit. destruct (List.find _ _) as [c|] eqn:E; [|lia].
  apply find_some in E as [Hin _].
  apply offset_candidates_In in Hin as [->|(r & Hr & ->)]; [lia|].
  pose proof (max_end_ge rs r Hr).
  rewrite List.Forall_forall in Hnn. destruct (Hnn r Hr). unfold reg_end in *. lia.
Qed.

(** In an ascending list, [find] returns an element no larger than any
    other element satisfying the test. *)
Lemma find_sorted_le (f : Z -> bool) l x y :
  StronglySorted Z.le l -> List.find f l = Some x -> In y l -> f y = true -> x <= y.
Proof.
  induction 1 as [|a l _ IH Hall]; simpl; [done|].
  destruct (f a) eqn:Ea.
  - intros [= <-] [->|Hy] _; [lia|]. rewrite List.Forall_forall in Hall. by apply Hall.
  - intros Hf [->|Hy] Hfy; [congruence|]. by apply IH.
Qed.

(** Below every non-negative [off] lies a candidate [c] that is the
    highest region end not above [off] (or [0]). *)
Lemma candidate_below rs off :
  0 <= off ->
  exists c, In c (0 :: map reg_end rs) /\ c <= off /\
            forall r, In r rs -> reg_end r <= off -> reg_end r <= c.
Proof.
  intros Hoff. induction rs as [|r rs IH]; simpl.
  - exists 0. split; [by left|]. split; [done|]. by intros ? [].
  - destruct IH as (c & Hc & Hle & Hmax).
    assert (Hc' : In c (0 :: reg_end r :: map reg_end rs)).
    { destruct Hc as [->|Hc]; [by left|by right; right]. }
    destruct (Z.le_gt_cases (reg_end r) off) as [Hr|Hr].
    + exists (Z.max c (reg_end r)). split.
      { destruct (Z.max_spec c (reg_end r)) as [[_ ->]|[_ ->]]; [by right; left|done]. }
      split; [lia|]. intros r' [<-|Hr'] Hle'; [lia|]. specialize (Hmax r' Hr' Hle'). lia.
    + exists c. split; [done|]. split; [done|].
      intros r' [<-|Hr'] Hle'; [lia|]. by apply Hmax.
Qed.

(** A block that fits at [off] still fits when slid down to any [c] that
    no region ending at or below [off] passes. *)
Lemma fits_below sz rs off c :
  fits off sz rs = true -> c <= off ->
  (forall r, In r rs -> reg_end r <= off -> reg_end r <= c) -> fits c sz rs = true.
Proof.
  rewrite !fits_spec. intros Hf Hc Hmax r Hr.
  specialize (Hf r Hr). specialize (Hmax r Hr).
  apply reg_collide_false in Hf. apply reg_collide_false.
  unfold reg_end in Hmax. simpl in *. lia.
Qed.

(** [lowest_fit] is minimal: no non-negative offset below it fits. *)
Lemma lowest_fit_min sz rs off :
  0 <= off -> fits off sz rs = true -> lowest_fit sz rs <= off.
Proof.
  intros Hoff Hf. destruct (candidate_below rs off Hoff) as (c & Hc & Hle & Hmax).
  pose proof (fits_below sz rs off c Hf Hle Hmax) as Hfc.
  assert (Hin : In c (offset_candidates rs)).
  { unfold offset_candidates. apply list_elem_of_In.
    rewrite (merge_sort_Permutation _). by apply list_elem_of_In. }
  unfold lowest_fit. destruct (List.find _ _) as [x|] eqn:E.
  - pose proof (find_sorted_le _ _ x c (StronglySorted_merge_sort Z.le _) E Hin Hfc). lia.
  - by rewrite (find_none _ _ E c Hin) in Hfc.
Qed.

(** Adding a block that fits against every overlapping placement keeps
    overlapping placements disjoint. *)
Lemma disjoint_ok_snoc placed lr off sz :
  disjoint_ok placed -> fits off sz (conflicts lr placed) = true ->
  disjoint_ok (placed ++ [(lr, mkRegion off sz)]).
Proof.
  intros Hdis Hfit. rewrite fits_spec in Hfit.
  intros lr1 r1 lr2 r2 Hin1 Hin2 Hne Hov.
  apply in_app_or in Hin1 as [Hin1|[[= <- <-]|[]]];
    apply in_app_or in Hin2 as [Hin2|[[= <- <-]|[]]].
  - by apply (Hdis lr1 r1 lr2 r2).
  - rewrite reg_collide_sym. apply Hfit, (conflicts_In _ _ lr1); [done|].
    by rewrite lr_overlap_sym.
  - by apply Hfit, (conflicts_In _ _ lr2).
  - done.
Qed.

(** The shared step: adding a range at an offset that fits against every
    overlapping placement keeps the plan invariant. *)
Lemma plan_ok_snoc done placed lr sz off :
  plan_ok done placed -> lr ∉ map fst done -> 0 <= off ->
  fits off sz (conflicts lr placed) = true ->
  plan_ok (done ++ [(lr, sz)]) (placed ++ [(lr, mkRegion off sz)]).
Proof.
  intros (Hall & Hkeys & Hnd & Hdis) Hnew Hoff Hfit.
  assert (Hnp : lr ∉ map fst placed) by (intros Hin; by apply Hnew, Hkeys).
  split_and!.
  - intros lr' sz' Hin. rewrite assoc_find_app.
    apply in_app_or in Hin as [Hin|[[= <- <-]|[]]].
    + destruct (Hall _ _ Hin) as (o & -> & ?). eauto.
    + apply assoc_find_None in Hnp as ->. simpl. rewrite decide_True by done. eauto.
  - rewrite map_app. intros lr'. rewrite elem_of_app, map_app, elem_of_app.
    intros [?|?]; [left; by apply Hkeys|by right].
  - rewrite map_app. apply NoDup_app. split_and!; [done| |apply NoDup_singleton].
    intros x Hx Hx'. apply list_elem_of_singleton in Hx'. by subst.
  - by apply disjoint_ok_snoc.
Qed.

(** Regions of a correct plan over non-negative sizes are non-negative. *)
Lemma plan_ok_nonneg done placed :
  plan_ok done placed -> Forall (fun p => 0 <= p.2) done ->
  forall lr r, In (lr, r) placed -> reg_nonneg r.
Proof.
  intros (Hall & Hkeys & Hnd & _) Hpos lr r Hin.
  assert (Hk : lr ∈ map fst done).
  { apply Hkeys. apply list_elem_of_In, in_map_iff. by exists (lr, r). }
  apply list_elem_of_In, in_map_iff in Hk as ([lr' sz] & <- & Hin').
  destruct (Hall _ _ Hin') as (off & Hf & Hoff).
  rewrite (assoc_find_In_NoDup _ _ _ Hnd Hin) in Hf. injection Hf as ->.
  rewrite List.Forall_forall in Hpos. specialize (Hpos _ Hin'). split; simpl in *; lia.
Qed.

Lemma conflicts_nonneg done placed lr :
  plan_ok done placed -> Forall (fun p => 0 <= p.2) done ->
  Forall reg_nonneg (conflicts lr placed).
Proof.
  intros Hok Hpos. apply List.Forall_forall. intros r Hin.
  unfold conflicts in Hin. apply in_map_iff in Hin as ([lr' r'] & <- & Hin).
  apply filter_In in Hin as [Hin _]. by eapply plan_ok_nonneg.
Qed.

Lemma plan_ok_nil : plan_ok [] [].
Proof.
  split_and!; [by intros ?? []|by intros ? ?%elem_of_nil|constructor|apply disjoint_ok_nil].
Qed.

Lemma managed_ok_app_inv l1 l2 :
  managed_ok (l1 ++ l2) -> managed_ok l1 /\ managed_ok l2.
Proof.
  intros [Hnd Hpos]. rewrite map_app in Hnd. apply NoDup_app in Hnd as (? & _ & ?).
  apply Forall_app in Hpos as [? ?]. split; split; done.
Qed.

Lemma managed_ok_snoc_new done x l :
  managed_ok (done ++ x :: l) -> (x.1 ∉ map fst done) /\ 0 <= x.2.
Proof.
  intros [Hnd Hpos]. rewrite map_app in Hnd. apply NoDup_app in Hnd as (_ & Hd & _).
  split.
  - intros Hin. apply (Hd _ Hin). simpl. apply elem_of_cons. by left.
  - apply Forall_app in Hpos as [_ Hpos]. by inversion Hpos.
Qed.

#[export] Hint Resolve plan_ok_nil lowest_fit_fits : mp.

(** ** Bounds *)

(** The trivial bound of spec section 8: the sum of the sizes. *)
Definition sum_sizes (ms : Managed) : Z := fold_right (fun p acc => p.2 + acc) 0 ms.

(** Every placed region ends at or below [b]. *)
Definition ends_within (plan : Plan) (b : Z) : Prop :=
  forall lr r, In (lr, r) plan -> reg_end r <= b.

Lemma sum_sizes_app l1 l2 : sum_sizes (l1 ++ l2) = sum_sizes l1 + sum_sizes l2.
Proof. induction l1 as [|p l1 IH]; simpl; lia. Qed.

Lemma sum_sizes_perm l1 l2 : l1 ≡ₚ l2 -> sum_sizes l1 = sum_sizes l2.
Proof. induction 1; simpl; lia. Qed.

Lemma sum_sizes_nonneg l : Forall (fun p => 0 <= p.2) l -> 0 <= sum_sizes l.
Proof. induction 1; simpl; lia. Qed.

Lemma ends_within_nil b : ends_within [] b.
Proof. by intros ?? []. Qed.

Lemma conflicts_max_end placed lr b :
  0 <= b -> ends_within placed b -> max_end (conflicts lr placed) <= b.
Proof.
  intros Hb Hw. apply max_end_le; [done|]. intros r Hin.
  unfold conflicts in Hin. apply in_map_iff in Hin as ([lr' r'] & <- & Hin).
  apply filter_In in Hin as [Hin _]. by apply (Hw lr').
Qed.

(** Placing a block at or below the bound raises the bound by its size. *)
Lemma ends_within_snoc placed b lr off sz :
  ends_within placed b -> 0 <= sz -> off <= b ->
  ends_within (placed ++ [(lr, mkRegion off sz)]) (b + sz).
Proof.
  intros Hw Hsz Hoff lr' r Hin. apply in_app_or in Hin as [Hin|[[= <- <-]|[]]].
  - specialize (Hw _ _ Hin). lia.
  - unfold reg_end. simpl. lia.
Qed.

(** Within the 64-bit range, a correct plan bounded by the sum of the sizes
    fits in the arena [getTotalAllocationSize] computes, and that arena is
    no larger than the sum of the sizes. *)
Lemma arena_of_bound ms plan :
  plan_ok ms plan -> managed_ok ms -> ends_within plan (sum_sizes ms) ->
  sum_sizes ms < u64_modulus ->
  getTotalAllocationSize plan <= sum_sizes ms /\
  forall lr r, In (lr, r) plan -> reg_end r <= getTotalAllocationSize plan.
Proof.
  intros Hok [Hnd Hpos] Hw Hlt.
  pose proof (sum_sizes_nonneg _ Hpos) as Hs0.
  assert (Hu : forall lr r, In (lr, r) plan -> is_u64 (reg_end r)).
  { intros lr r Hin. destruct (plan_ok_nonneg _ _ Hok Hpos lr r Hin).
    specialize (Hw lr r Hin). unfold is_u64, reg_end in *. lia. }
  split.
  - destruct (getTotalAllocationSize_reached plan) as [->|(lr & r & Hin & ->)]; [done|].
    rewrite wrap64_small by eauto. eauto.
  - intros lr r Hin. apply (getTotalAllocationSize_ge _ lr); eauto.
Qed.

(** ** Greedy by size *)

Module GreedyBySize.

(** Sort order: size descending, then [begin] ascending, then [end]
    ascending. *)
Definition size_le (a b : LiveRange * Z) : Prop :=
  b.2 < a.2 \/
  (a.2 = b.2 /\ (lr_begin a.1 < lr_begin b.1 \/
                 (lr_begin a.1 = lr_begin b.1 /\ lr_end a.1 <= lr_end b.1))).

#[export] Instance size_le_dec : RelDecision size_le.
Proof. intros a b. unfold size_le. apply _. Defined.

(** Place one range at the lowest offset that avoids every overlapping
    placement. *)
Definition greedy_place (placed : Plan) (item : LiveRange * Z) : Plan :=
  placed ++ [(item.1, mkRegion (lowest_fit item.2 (conflicts item.1 placed)) item.2)].

Definition greedyBySize (managed_live_ranges : Managed) : Plan :=
  fold_left greedy_place (merge_sort size_le managed_live_ranges) [].

#[export] Instance greedyBySize_packer : Packer := greedyBySize.

#[export] Instance size_le_trans : Transitive size_le.
Proof. intros [a1 a2] [b1 b2] [c1 c2]. unfold size_le. simpl. lia. Qed.
#[export] Instance size_le_total : Total size_le.
Proof. intros [a1 a2] [b1 b2]. unfold size_le. simpl. lia. Qed.
#[export] Instance size_le_antisymm : AntiSymm (=) size_le.
Proof.
  intros [[ab ae] a2] [[bb be] b2]. unfold size_le. simpl.
  intros ??. assert (a2 = b2 /\ ab = bb /\ ae = be) as (-> & -> & ->) by lia. done.
Qed.

Lemma greedy_place_ok done placed x l :
  plan_ok done placed -> managed_ok (done ++ x :: l) ->
  plan_ok (done ++ [x]) (greedy_place placed x).
Proof.
  intros Hok Hm. destruct (managed_ok_snoc_new _ _ _ Hm) as [Hnew Hsz].
  destruct x as [lr sz]. apply plan_ok_snoc; auto with mp.
  apply managed_ok_app_inv in Hm as [[_ Hpos] _].
  by apply lowest_fit_bounds, (conflicts_nonneg done).
Qed.

Lemma greedy_fold_ok l done placed :
  plan_ok done placed -> managed_ok (done ++ l) ->
  plan_ok (done ++ l) (fold_left greedy_place l placed).
Proof.
  revert done placed. induction l as [|x l IH]; intros done placed Hok Hm; simpl.
  - by rewrite app_nil_r.
  - replace (done ++ x :: l) with ((done ++ [x]) ++ l) by by rewrite <- app_assoc.
    apply IH; [by apply (greedy_place_ok done placed x l)|by rewrite <- app_assoc].
Qed.

Lemma greedy_fold_bound l done placed :
  plan_ok done placed -> managed_ok (done ++ l) -> ends_within placed (sum_sizes done) ->
  ends_within (fold_left greedy_place l placed) (sum_sizes (done ++ l)).
Proof.
  revert done placed. induction l as [|x l IH]; intros done placed Hok Hm Hw; simpl.
  - by rewrite app_nil_r.
  - pose proof (greedy_place_ok done placed x l Hok Hm) as Hok'.
    destruct (managed_ok_snoc_new _ _ _ Hm) as [_ Hsz].
    assert (Hpos : Forall (fun p => 0 <= p.2) done)
      by (apply managed_ok_app_inv in Hm as [[_ ?] _]; done).
    replace (done ++ x :: l) with ((done ++ [x]) ++ l) by by rewrite <- app_assoc.
    apply IH; [done|by rewrite <- app_assoc|].
    destruct x as [lr sz]. unfold greedy_place. rewrite sum_sizes_app. simpl. rewrite Z.add_0_r.
    apply ends_within_snoc; [done|done|].
    pose proof (lowest_fit_bounds sz (conflicts lr placed) (conflicts_nonneg done placed lr Hok Hpos)).
    pose proof (conflicts_max_end placed lr (sum_sizes done) (sum_sizes_nonneg _ Hpos) Hw). lia.
Qed.

(** Greedy by size places the entries of a permutation of its input, one
    after the other. *)
Lemma greedyBySize_fold (ms : Managed) :
  exists l, l ≡ₚ ms /\ greedyBySize ms = fold_left greedy_place l [].
Proof. unfold greedyBySize. eexists. split; [|reflexivity]. apply merge_sort_Permutation. Qed.

(** Greedy by size meets the plan contract. *)
Lemma greedyBySize_plan_ok (ms : Managed) :
  managed_ok ms -> plan_ok ms (greedyBySize ms).
Proof.
  intros Hm. destruct (greedyBySize_fold ms) as (l & Hp & ->).
  apply (plan_ok_perm l); [done|].
  apply (greedy_fold_ok _ []); [apply plan_ok_nil|].
  apply (managed_ok_perm ms); [by symmetry|done].
Qed.

(** C1. The greedy-by-size plan is correct and fits its arena: on a
    well-formed input whose sizes sum below [2^64], every range is placed
    with its size at a non-negative offset, nothing else is placed, ranges
    that overlap in time get regions that do not collide, every region
    ends within [getTotalAllocationSize] of the plan, and that total is at
    most the sum of the sizes. *)
Theorem greedyBySize_arena (ms : Managed) :
  managed_ok ms -> sum_sizes ms < u64_modulus ->
  plan_ok ms (greedyBySize ms) /\
  getTotalAllocationSize (greedyBySize ms) <= sum_sizes ms /\
  (forall lr r, In (lr, r) (greedyBySize ms) ->
     reg_end r <= getTotalAllocationSize (greedyBySize ms)).
Proof.
  intros Hm Hlt. pose proof (greedyBySize_plan_ok ms Hm) as Hok.
  split; [done|]. apply arena_of_bound; [done|done| |done].
  destruct (greedyBySize_fold ms) as (l & Hp & ->).
  rewrite (sum_sizes_perm ms l) by by symmetry.
  apply (greedy_fold_bound _ []); [apply plan_ok_nil| |apply ends_within_nil].
  apply (managed_ok_perm ms); [by symmetry|done].
Qed.

#[export] Instance greedyBySize_correct : PackerCorrect greedyBySize_packer.
Proof. intros ms. apply greedyBySize_plan_ok. Qed.

(** C3. Greedy by size does not depend on the order of its input: the sort
    key (size, begin, end) is a total order on entries, so any
    permutation of the input yields the same plan, and so the same total
    [getTotalAllocationSize]. *)
Theorem greedyBySize_perm_invariant (ms ms' : Managed) :
  ms ≡ₚ ms' ->
  greedyBySize ms' = greedyBySize ms /\
  getTotalAllocationSize (greedyBySize ms') = getTotalAllocationSize (greedyBySize ms).
Proof.
  intros Hp. assert (E : greedyBySize ms' = greedyBySize ms).
  { unfold greedyBySize. f_equal. apply merge_sort_perm_eq; [apply _..|]. by symmetry. }
  by rewrite E.
Qed.

(** C25. Each step of greedy by size places its range at the lowest
    non-negative offset that fits: when every region already placed lies
    at a non-negative offset with a non-negative size, the block added for
    [(lr, sz)] starts at a non-negative offset, collides with no region
    already placed for a range overlapping [lr] in time, and its offset is
    at most every non-negative offset where a block of size [sz] would not
    collide with those regions either. *)
Theorem greedy_place_lowest (placed : Plan) (lr : LiveRange) (sz : Z) :
  Forall (fun p => reg_nonneg p.2) placed ->
  exists off,
    greedy_place placed (lr, sz) = placed ++ [(lr, mkRegion off sz)] /\ 0 <= off /\
    (forall lr' r, In (lr', r) placed -> lr_overlap lr lr' = true ->
       reg_collide (mkRegion off sz) r = false) /\
    (forall off', 0 <= off' ->
       (forall lr' r, In (lr', r) placed -> lr_overlap lr lr' = true ->
          reg_collide (mkRegion off' sz) r = false) ->
       off <= off').
Proof.
  intros Hnn. exists (lowest_fit sz (conflicts lr placed)). split; [done|]. split_and!.
  - apply lowest_fit_bounds. apply List.Forall_forall. intros r Hr. unfold conflicts in Hr.
    apply in_map_iff in Hr as ([lr' r'] & <- & Hr). apply filter_In in Hr as [Hr _].
    exact (proj1 (List.Forall_forall _ _) Hnn _ Hr).
  - intros lr' r Hin Hov.
    apply (proj1 (fits_spec _ _ _) (lowest_fit_fits sz _)).
    by apply (conflicts_In _ _ lr').
  - intros off' Hoff Hf. apply lowest_fit_min; [done|].
    apply fits_spec. intros r Hr. unfold conflicts in Hr.
    apply in_map_iff in Hr as ([lr' r'] & <- & Hr).
    apply filter_In in Hr as [Hr Hov]. by apply (Hf lr').
Qed.

Lemma greedyBySize_arena_witness :
  managed_ok spec_ranges /\ sum_sizes spec_ranges < u64_modulus /\
  plan_ok spec_ranges (greedyBySize spec_ranges) /\
  getTotalAllocationSize (greedyBySize spec_ranges) <= sum_sizes spec_ranges /\
  (forall lr r, In (lr, r) (greedyBySize spec_ranges) ->
     reg_end r <= getTotalAllocationSize (greedyBySize spec_ranges)).
Proof.
  assert (H : managed_ok spec_ranges) by decide_by_eval.
  assert (H2 : sum_sizes spec_ranges < u64_modulus) by (vm_compute; reflexivity).
  split; [exact H|]. split; [exact H2|]. apply greedyBySize_arena; [exact H|exact H2].
Defined.

Lemma greedyBySize_perm_invariant_witness :
  spec_ranges ≡ₚ reverse spec_ranges /\
  greedyBySize (reverse spec_ranges) = greedyBySize spec_ranges /\
  getTotalAllocationSize (greedyBySize (reverse spec_ranges)) =
  getTotalAllocationSize (greedyBySize spec_ranges).
Proof.
  assert (H : spec_ranges ≡ₚ reverse spec_ranges) by decide_by_eval.
  split; [exact H|]. apply greedyBySize_perm_invariant. exact H.
Defined.

(** In the spec's scenario, the range [[1, 2]] of size 40 overlaps the
    range [[0, 3]] placed at [[0, 100)]: it goes to offset 100, and no
    lower offset fits. *)
Lemma greedy_place_lowest_witness :
  Forall (fun p => reg_nonneg p.2) [(mkLiveRange 0 3, mkRegion 0 100)] /\
  exists off,
    greedy_place [(mkLiveRange 0 3, mkRegion 0 100)] (mkLiveRange 1 2, 40) =
      [(mkLiveRange 0 3, mkRegion 0 100); (mkLiveRange 1 2, mkRegion off 40)] /\
    off = 100 /\
    (forall off', 0 <= off' ->
       (forall lr' r, In (lr', r) [(mkLiveRange 0 3, mkRegion 0 100)] ->
          lr_overlap (mkLiveRange 1 2) lr' = true ->
          reg_collide (mkRegion off' 40) r = false) ->
       off <= off').
Proof.
  assert (Hnn : Forall (fun p => reg_nonneg p.2) [(mkLiveRange 0 3, mkRegion 0 100)])
    by (repeat constructor; simpl; lia).
  split; [exact Hnn|].
  destruct (greedy_place_lowest [(mkLiveRange 0 3, mkRegion 0 100)] (mkLiveRange 1 2) 40 Hnn)
    as (off & E & _ & _ & Hmin).
  exists off. split; [exact E|]. split; [|exact Hmin].
  vm_compute in E. congruence.
Defined.

(** The spec's end-to-end scenario for greedy by size (section 8). *)
Example greedyBySize_scenario :
  greedyBySize [(mkLiveRange 0 3, 100); (mkLiveRange 1 2, 40);
                (mkLiveRange 4 6, 60); (mkLiveRange 5 7, 30)] =
  [(mkLiveRange 0 3, mkRegion 0 100); (mkLiveRange 4 6, mkRegion 0 60);
   (mkLiveRange 1 2, mkRegion 100 40); (mkLiveRange 5 7, mkRegion 60 30)].
Proof. vm_compute. reflexivity. Qed.

End GreedyBySize.

(** ** Linear scan *)

Module LinearScan.

(** Sweep order: [begin] ascending, then [end] ascending. *)
Definition start_le (a b : LiveRange * Z) : Prop :=
  lr_begin a.1 < lr_begin b.1 \/
  (lr_begin a.1 = lr_begin b.1 /\ lr_end a.1 <= lr_end b.1).

(** Free gaps are scanned in ascending offset order. *)
Definition offset_le (a b : Region) : Prop := reg_offset a <= reg_offset b.

#[export] Instance start_le_dec : RelDecision start_le.
Proof. intros a b. unfold start_le. apply _. Defined.
#[export] Instance offset_le_dec : RelDecision offset_le.
Proof. intros a b. unfold offset_le. apply _. Defined.
#[export] Instance start_le_total : Total start_le.
Proof. intros a b. unfold start_le. lia. Qed.
#[export] Instance start_le_trans : Transitive start_le.
Proof. intros a b c. unfold start_le. lia. Qed.
#[export] Instance offset_le_total : Total offset_le.
Proof. intros a b. unfold offset_le. lia. Qed.
#[export] Instance offset_le_trans : Transitive offset_le.
Proof. intros a b c. unfold offset_le. lia. Qed.

(** First fit: the lowest offset from [cand] up at which [sz] bytes fit
    between the regions [rs] (sorted by offset), or the high-water mark
    after the last of them. *)
Fixpoint first_gap (cand sz : Z) (rs : list Region) : Z :=
  match rs with
  | [] => cand
  | r :: rs' =>
      if cand + sz <=? reg_offset r then cand
      else first_gap (Z.max cand (reg_end r)) sz rs'
  end.

(** One step of the sweep: evict the active ranges that ended before
    [item] begins, place [item] in the first gap of the remaining active
    regions, make it active. *)
Definition linear_scan_step (st : Plan * Plan) (item : LiveRange * Z) : Plan * Plan :=
  let '(plan, active) := st in
  let active' := List.filter (fun p => lr_begin item.1 <=? lr_end p.1) active in
  let off := first_gap 0 item.2 (merge_sort offset_le (map snd active')) in
  (plan ++ [(item.1, mkRegion off item.2)], active' ++ [(item.1, mkRegion off item.2)]).

Definition linearScanHeuristic (managed_live_ranges : Managed) : Plan :=
  (fold_left linear_scan_step (merge_sort start_le managed_live_ranges) ([], [])).1.

#[export] Instance linearScan_packer : Packer := linearScanHeuristic.

Lemma first_gap_ge cand sz rs : cand <= first_gap cand sz rs.
Proof.
  revert cand. induction rs as [|r rs IH]; intros cand; simpl; [lia|].
  case_match; [lia|]. specialize (IH (Z.max cand (reg_end r))). lia.
Qed.

Lemma first_gap_fits cand sz rs :
  StronglySorted offset_le rs -> 0 <= sz ->
  fits (first_gap cand sz rs) sz rs = true.
Proof.
  intros Hs Hsz. revert cand. induction Hs as [|r rs Hs IH Hle]; intros cand; simpl; [done|].
  apply andb_true_iff. case_match eqn:E; zbool.
  - split.
    + apply negb_true_iff, reg_collide_false. simpl. lia.
    + apply fits_spec. intros r' Hin. apply reg_collide_false. simpl.
      rewrite List.Forall_forall in Hle. specialize (Hle r' Hin). unfold offset_le in Hle. lia.
  - split; [|apply IH].
    apply negb_true_iff, reg_collide_false. simpl.
    pose proof (first_gap_ge (Z.max cand (reg_end r)) sz rs). unfold reg_end in *. lia.
Qed.

(** The sweep invariant: every active entry is placed, and a placed entry
    that is no longer active ended before every range still to come. *)
Definition scan_inv (l : Managed) (plan active : Plan) : Prop :=
  (forall p, In p active -> In p plan) /\
  (forall lr r, In (lr, r) plan ->
     In (lr, r) active \/ forall y, In y l -> lr_end lr < lr_begin y.1).

Lemma fits_incl off sz rs rs' :
  (forall r, In r rs -> In r rs') -> fits off sz rs' = true -> fits off sz rs = true.
Proof. rewrite !fits_spec. naive_solver. Qed.
Lemma scan_step_ok done plan active x l :
  plan_ok done plan -> managed_ok (done ++ x :: l) ->
  StronglySorted start_le (x :: l) -> scan_inv (x :: l) plan active ->
  plan_ok (done ++ [x]) (linear_scan_step (plan, active) x).1 /\
  scan_inv l (linear_scan_step (plan, active) x).1 (linear_scan_step (plan, active) x).2.
Proof.
  intros Hok Hm Hs [Hsub Hgone].
  destruct (managed_ok_snoc_new _ _ _ Hm) as [Hnew Hsz].
  destruct x as [lr sz]; simpl in *.
  set (active' := List.filter _ active).
  assert (Hact : forall p, In p active' <-> In p active /\ lr_begin lr <= lr_end p.1).
  { intros p. unfold active'. rewrite filter_In, Z.leb_le. done. }
  split.
  - apply plan_ok_snoc; [done|done|apply first_gap_ge|].
    apply (fits_incl _ _ _ (map snd active')).
    + intros r Hin. apply in_map_iff in Hin as ([lr' r'] & <- & Hin).
      apply filter_In in Hin as [Hin Hov]. unfold lr_overlap in Hov. simpl in Hov.
      apply in_map_iff. exists (lr', r'). split; [done|]. apply Hact.
      destruct (Hgone _ _ Hin) as [Ha|Hlt]; [split; [done|simpl; zlia]|exfalso].
      specialize (Hlt (lr, sz) (or_introl eq_refl)). simpl in Hlt. zlia.
    + rewrite <- (fits_perm _ _ _ _ (merge_sort_Permutation offset_le (map snd active'))).
      apply first_gap_fits; [apply (StronglySorted_merge_sort offset_le)|done].
  - split.
    + intros p Hin. apply in_app_or in Hin as [Hin|Hin]; apply in_or_app;
        [left; by apply Hsub, Hact|by right].
    + intros lr' r' Hin. apply in_app_or in Hin as [Hin|Hin]; [|left; apply in_or_app; by right].
      destruct (Hgone _ _ Hin) as [Ha|Hlt]; [|right; intros y Hy; apply Hlt; by right].
      destruct (decide (lr_begin lr <= lr_end lr')).
      * left. apply in_or_app. left. by apply Hact.
      * right. intros y Hy. inversion Hs as [|? ? _ Hall]; subst.
        rewrite List.Forall_forall in Hall. specialize (Hall y Hy).
        unfold start_le in Hall. simpl in Hall. lia.
Qed.

Lemma first_gap_le cand sz rs : first_gap cand sz rs <= Z.max cand (max_end rs).
Proof.
  revert cand. induction rs as [|r rs IH]; intros cand; simpl; [lia|].
  case_match; [lia|]. specialize (IH (Z.max cand (reg_end r))). lia.
Qed.

Lemma scan_step_bound done plan active x :
  (forall p, In p active -> In p plan) -> Forall (fun p => 0 <= p.2) done -> 0 <= x.2 ->
  ends_within plan (sum_sizes done) ->
  ends_within (linear_scan_step (plan, active) x).1 (sum_sizes (done ++ [x])).
Proof.
  intros Hsub Hpos Hsz Hw. destruct x as [lr sz]. simpl.
  rewrite sum_sizes_app. simpl. rewrite Z.add_0_r.
  apply ends_within_snoc; [done|done|].
  pose proof (sum_sizes_nonneg _ Hpos).
  etrans; [apply first_gap_le|]. apply Z.max_lub; [lia|].
  apply max_end_le; [lia|]. intros r Hin.
  apply list_elem_of_In in Hin. rewrite (merge_sort_Permutation offset_le) in Hin.
  apply list_elem_of_In in Hin.
  apply in_map_iff in Hin as ([lr' r'] & <- & Hin). apply filter_In in Hin as [Hin _].
  by apply (Hw lr'), Hsub.
Qed.

Lemma scan_fold_ok l done plan active :
  plan_ok done plan -> managed_ok (done ++ l) -> StronglySorted start_le l ->
  scan_inv l plan active -> ends_within plan (sum_sizes done) ->
  plan_ok (done ++ l) (fold_left linear_scan_step l (plan, active)).1 /\
  ends_within (fold_left linear_scan_step l (plan, active)).1 (sum_sizes (done ++ l)).
Proof.
  revert done plan active.
  induction l as [|x l IH]; intros done plan active Hok Hm Hs Hinv Hw; cbn [fold_left].
  - by rewrite app_nil_r.
  - destruct (scan_step_ok done plan active x l) as [Hok' Hinv']; try done.
    destruct (managed_ok_snoc_new _ _ _ Hm) as [_ Hsz].
    pose proof (scan_step_bound done plan active x (proj1 Hinv)) as Hw'.
    apply managed_ok_app_inv in Hm as Hm'. destruct Hm' as [[_ Hpos] _].
    specialize (Hw' Hpos Hsz Hw).
    rewrite (surjective_pairing (linear_scan_step (plan, active) x)).
    replace (done ++ x :: l) with ((done ++ [x]) ++ l) by by rewrite <- app_assoc.
    apply IH; [done|by rewrite <- app_assoc|by inversion Hs|done|done].
Qed.

Lemma linearScan_fold_ok (ms : Managed) :
  managed_ok ms ->
  plan_ok ms (linearScanHeuristic ms) /\ ends_within (linearScanHeuristic ms) (sum_sizes ms).
Proof.
  intros Hm. unfold linearScanHeuristic.
  rewrite (sum_sizes_perm ms (merge_sort start_le ms)) by (symmetry; apply merge_sort_Permutation).
  destruct (scan_fold_ok (merge_sort start_le ms) [] [] []) as [Hok Hw].
  - apply plan_ok_nil.
  - apply (managed_ok_perm ms); [|done]. symmetry. apply merge_sort_Permutation.
  - apply (StronglySorted_merge_sort start_le).
  - split; [done|]. by intros ?? [].
  - apply ends_within_nil.
  - split; [|done]. apply (plan_ok_perm (merge_sort start_le ms)); [apply merge_sort_Permutation|done].
Qed.

Lemma linearScan_plan_ok (ms : Managed) :
  managed_ok ms -> plan_ok ms (linearScanHeuristic ms).
Proof. intros Hm. apply linearScan_fold_ok, Hm. Qed.

(** C2. The linear-scan plan is correct and fits its arena: on a
    well-formed input whose sizes sum below [2^64], every range is placed
    with its size at a non-negative offset, nothing else is placed, ranges
    that overlap in time get regions that do not collide, every region
    ends within [getTotalAllocationSize] of the plan, and that total is at
    most the sum of the sizes. *)
Theorem linearScan_arena (ms : Managed) :
  managed_ok ms -> sum_sizes ms < u64_modulus ->
  plan_ok ms (linearScanHeuristic ms) /\
  getTotalAllocationSize (linearScanHeuristic ms) <= sum_sizes ms /\
  (forall lr r, In (lr, r) (linearScanHeuristic ms) ->
     reg_end r <= getTotalAllocationSize (linearScanHeuristic ms)).
Proof.
  intros Hm Hlt. destruct (linearScan_fold_ok ms Hm) as [Hok Hw].
  split; [done|]. by apply arena_of_bound.
Qed.

#[export] Instance linearScan_correct : PackerCorrect linearScan_packer.
Proof. intros ms. apply linearScan_plan_ok. Qed.

Lemma linearScan_arena_witness :
  managed_ok spec_ranges /\ sum_sizes spec_ranges < u64_modulus /\
  plan_ok spec_ranges (linearScanHeuristic spec_ranges) /\
  getTotalAllocationSize (linearScanHeuristic spec_ranges) <= sum_sizes spec_ranges /\
  (forall lr r, In (lr, r) (linearScanHeuristic spec_ranges) ->
     reg_end r <= getTotalAllocationSize (linearScanHeuristic spec_ranges)).
Proof.
  assert (H : managed_ok spec_ranges) by decide_by_eval.
  assert (H2 : sum_sizes spec_ranges < u64_modulus) by (vm_compute; reflexivity).
  split; [exact H|]. split; [exact H2|]. apply linearScan_arena; [exact H|exact H2].
Defined.

(** The spec's end-to-end scenarios for linear scan (section 8). *)
Example linearScan_scenario :
  linearScanHeuristic [(mkLiveRange 0 3, 100); (mkLiveRange 1 2, 40);
                       (mkLiveRange 4 6, 60); (mkLiveRange 5 7, 30)] =
  [(mkLiveRange 0 3, mkRegion 0 100); (mkLiveRange 1 2, mkRegion 100 40);
   (mkLiveRange 4 6, mkRegion 0 60); (mkLiveRange 5 7, mkRegion 60 30)].
Proof. vm_compute. reflexivity. Qed.

Example linearScan_trace_scenario :
  linearScanHeuristic [(mkLiveRange 1 9, 16); (mkLiveRange 2 5, 8)] =
  [(mkLiveRange 1 9, mkRegion 0 16); (mkLiveRange 2 5, mkRegion 16 8)].
Proof. vm_compute. reflexivity. Qed.
End LinearScan.

(** ** Greedy by operator breadth *)

Module GreedyByBreadth.

(** An operator: its timestamp (its position in the schedule) and its
    output values, in graph order. *)
Definition Op : Type := (Z * list nat)%type.

Definition live_at (t : Z) (lr : LiveRange) : bool := (lr_begin lr <=? t) && (t <=? lr_end lr).

(** The breadth of an operator: the bytes of the managed values live at
    its timestamp (spec 4.D, step 1). *)
Definition op_breadth (sizes : list (nat * Z)) (ranges : list (nat * LiveRange)) (t : Z) : Z :=
  fold_right (fun item acc =>
                match assoc_find item.1 ranges with
                | Some lr => if live_at t lr then item.2 + acc else acc
                | None => acc
                end) 0 sizes.

(** Operators by breadth, widest first (step 2). *)
Definition breadth_le (a b : Op * Z) : Prop := b.2 <= a.2.

#[export] Instance breadth_le_dec : RelDecision breadth_le.
Proof. intros a b. unfold breadth_le. apply _. Defined.

(** Place one output value against every earlier placement (step 3); a
    value that is not managed, or whose range is already placed, is
    skipped. *)
Definition place_value (sizes : list (nat * Z)) (ranges : list (nat * LiveRange))
    (placed : Plan) (v : nat) : Plan :=
  match assoc_find v sizes, assoc_find v ranges with
  | Some sz, Some lr =>
      if assoc_mem lr placed then placed
      else placed ++ [(lr, mkRegion (lowest_fit sz (conflicts lr placed)) sz)]
  | _, _ => placed
  end.

Definition greedyByOperatorBreadth (sizes : list (nat * Z)) (ranges : list (nat * LiveRange))
    (ops : list Op) : Plan :=
  let ordered := merge_sort breadth_le (map (fun op => (op, op_breadth sizes ranges op.1)) ops) in
  fold_left (fun placed item => fold_left (place_value sizes ranges) item.1.2 placed) ordered [].

(** What every placement satisfies: its range and size are those of a
    managed value, at a non-negative offset. *)
Definition entries_ok (sizes : list (nat * Z)) (ranges : list (nat * LiveRange)) (plan : Plan) :=
  forall lr r, In (lr, r) plan -> 0 <= reg_offset r /\
    exists v, assoc_find v sizes = Some (reg_size r) /\ assoc_find v ranges = Some lr.

Definition breadth_inv sizes ranges (plan : Plan) : Prop :=
  NoDup (map fst plan) /\ disjoint_ok plan /\ entries_ok sizes ranges plan.

Section Invariant.
Context (sizes : list (nat * Z)) (ranges : list (nat * LiveRange)).
Hypothesis sizes_nonneg : Forall (fun p => 0 <= p.2) sizes.

Lemma entries_conflicts_nonneg placed lr :
  entries_ok sizes ranges placed -> Forall reg_nonneg (conflicts lr placed).
Proof.
  intros Hent. apply List.Forall_forall. intros r Hin.
  unfold conflicts in Hin. apply in_map_iff in Hin as ([lr' r'] & <- & Hin).
  apply filter_In in Hin as [Hin _]. destruct (Hent _ _ Hin) as (Ho & v & Hs & _).
  apply assoc_find_In in Hs. rewrite List.Forall_forall in sizes_nonneg.
  specialize (sizes_nonneg _ Hs). split; simpl in *; lia.
Qed.

Lemma place_value_inv placed v :
  breadth_inv sizes ranges placed -> breadth_inv sizes ranges (place_value sizes ranges placed v).
Proof.
  intros (Hnd & Hdis & Hent). unfold place_value.
  destruct (assoc_find v sizes) as [sz|] eqn:Es; [|done].
  destruct (assoc_find v ranges) as [lr|] eqn:Er; [|done].
  destruct (assoc_mem lr placed) eqn:Em; [done|].
  assert (Hfresh : lr ∉ map fst placed).
  { apply assoc_find_None. unfold assoc_mem in Em. by destruct (assoc_find lr placed). }
  pose proof (lowest_fit_bounds sz _ (entries_conflicts_nonneg placed lr Hent)) as Hb.
  split_and!.
  - rewrite map_app. apply NoDup_app. split_and!; [done| |apply NoDup_singleton].
    intros x Hx Hx'. apply list_elem_of_singleton in Hx'. by subst.
  - by apply disjoint_ok_snoc, lowest_fit_fits.
  - intros lr' r Hin. apply in_app_or in Hin as [Hin|[[= <- <-]|[]]]; [by apply Hent|].
    simpl. split; [lia|]. eauto.
Qed.

Lemma place_value_prefix placed v :
  exists suffix, place_value sizes ranges placed v = placed ++ suffix.
Proof.
  unfold place_value. repeat case_match; eauto; exists []; by rewrite app_nil_r.
Qed.

Lemma place_value_placed placed v sz lr :
  assoc_find v sizes = Some sz -> assoc_find v ranges = Some lr ->
  lr ∈ map fst (place_value sizes ranges placed v).
Proof.
  intros Hs Hr. unfold place_value. rewrite Hs, Hr.
  destruct (assoc_mem lr placed) eqn:Em.
  - unfold assoc_mem in Em. destruct (assoc_find lr placed) eqn:Ef; [|done].
    apply list_elem_of_In, in_map_iff. exists (lr, r). split; [done|].
    by apply assoc_find_In.
  - rewrite map_app. apply elem_of_app. right. apply list_elem_of_singleton. done.
Qed.

(** The two loops of [greedyByOperatorBreadth] only ever append. *)
Lemma fold_place_prefix (vs : list nat) placed :
  exists suffix, fold_left (place_value sizes ranges) vs placed = placed ++ suffix.
Proof.
  revert placed. induction vs as [|v vs IH]; intros placed; simpl.
  - exists []. by rewrite app_nil_r.
  - destruct (place_value_prefix placed v) as [s1 ->].
    destruct (IH (placed ++ s1)) as [s2 ->]. exists (s1 ++ s2). by rewrite app_assoc.
Qed.

Lemma fold_place_inv (vs : list nat) placed :
  breadth_inv sizes ranges placed ->
  breadth_inv sizes ranges (fold_left (place_value sizes ranges) vs placed).
Proof.
  revert placed. induction vs as [|v vs IH]; intros placed Hinv; simpl; [done|].
  by apply IH, place_value_inv.
Qed.
Definition visit_op (placed : Plan) (item : Op * Z) : Plan :=
  fold_left (place_value sizes ranges) item.1.2 placed.

Lemma fold_place_placed vs placed v sz lr :
  In v vs -> assoc_find v sizes = Some sz -> assoc_find v ranges = Some lr ->
  lr ∈ map fst (fold_left (place_value sizes ranges) vs placed).
Proof.
  revert placed. induction vs as [|v' vs IH]; intros placed Hin Hs Hr; simpl; [done|].
  destruct Hin as [->|Hin]; [|by apply IH].
  destruct (fold_place_prefix vs (place_value sizes ranges placed v)) as [suf ->].
  rewrite map_app. apply elem_of_app. left. by apply (place_value_placed _ _ sz).
Qed.

Lemma visits_prefix (ordered : list (Op * Z)) placed :
  exists suffix, fold_left visit_op ordered placed = placed ++ suffix.
Proof.
  revert placed. induction ordered as [|it l IH]; intros placed; simpl.
  - exists []. by rewrite app_nil_r.
  - destruct (fold_place_prefix it.1.2 placed) as [s1 Hs1]. unfold visit_op at 2.
    rewrite Hs1. destruct (IH (placed ++ s1)) as [s2 ->]. exists (s1 ++ s2). by rewrite app_assoc.
Qed.

Lemma visits_inv (ordered : list (Op * Z)) placed :
  breadth_inv sizes ranges placed -> breadth_inv sizes ranges (fold_left visit_op ordered placed).
Proof.
  revert placed. induction ordered as [|it l IH]; intros placed H; simpl; [done|].
  by apply IH, fold_place_inv.
Qed.

Lemma visits_placed (ordered : list (Op * Z)) placed item v sz lr :
  In item ordered -> In v item.1.2 ->
  assoc_find v sizes = Some sz -> assoc_find v ranges = Some lr ->
  lr ∈ map fst (fold_left visit_op ordered placed).
Proof.
  revert placed. induction ordered as [|it l IH]; intros placed Hin Hv Hs Hr; simpl; [done|].
  destruct Hin as [->|Hin]; [|by apply IH].
  destruct (visits_prefix l (visit_op placed item)) as [suf ->].
  rewrite map_app. apply elem_of_app. left. by apply (fold_place_placed _ _ v sz).
Qed.
End Invariant.

(** Greedy by breadth places every managed output of every operator, at
    a non-negative offset with its own size and range, one entry per
    range, and overlapping ranges get regions that do not collide. *)
Lemma greedyByOperatorBreadth_ok sizes ranges (ops : list Op) :
  Forall (fun p => 0 <= p.2) sizes ->
  breadth_inv sizes ranges (greedyByOperatorBreadth sizes ranges ops) /\
  (forall op v sz lr, In op ops -> In v op.2 ->
     assoc_find v sizes = Some sz -> assoc_find v ranges = Some lr ->
     lr ∈ map fst (greedyByOperatorBreadth sizes ranges ops)).
Proof.
  intros Hpos. split.
  - apply (visits_inv sizes ranges Hpos).
    split_and!; [constructor|apply disjoint_ok_nil|by intros ?? []].
  - intros op v sz lr Hop Hv Hs Hr.
    apply (visits_placed sizes ranges _ _ (op, op_breadth sizes ranges op.1) v sz); try done.
    apply list_elem_of_In. rewrite (merge_sort_Permutation breadth_le).
    apply list_elem_of_In, in_map_iff. eauto.
Qed.
End GreedyByBreadth.
