(* ===== verification/Bounds.v ===== *)
(** * The peak working set bounds the arena

    Spec property 2, lower half: [totalSize(P) >= max over t of
    sum {size(r) : t in r}].  It holds for every plan meeting the
    correctness invariant [plan_ok] whose region ends do not wrap, so for
    every heuristic that discharges [PackerCorrect]: ranges live at the
    same time pairwise overlap, their regions are pairwise disjoint byte
    windows of [[0, getTotalAllocationSize)], and disjoint windows cannot
    add up to more than the window they sit in. *)

From S2P Require Import Prelude Arena Packing.

(** ** The working set *)

(** The sizes of a plan's regions, by range. *)
Definition plan_sizes (plan : Plan) : Managed := map (fun p => (p.1, reg_size p.2)) plan.

(** The bytes the values live at time [t] need together. *)
Definition working_set (ms : Managed) (t : Z) : Z :=
  sum_sizes (List.filter (fun p => GreedyByBreadth.live_at t p.1) ms).

(** Distinct ranges of [L] get regions that do not collide. *)
Definition regions_disjoint (L : Plan) : Prop :=
  forall lr1 r1 lr2 r2, In (lr1, r1) L -> In (lr2, r2) L -> lr1 <> lr2 -> reg_collide r1 r2 = false.

(** ** Lemmas *)

Lemma filter_perm {A} (f : A -> bool) (l l' : list A) :
  l ≡ₚ l' -> List.filter f l ≡ₚ List.filter f l'.
Proof.
  induction 1 as [|x l l' _ IH|x y l|l l' l'' _ IH1 _ IH2]; simpl.
  - done.
  - destruct (f x); [by apply perm_skip|done].
  - destruct (f x), (f y); [apply perm_swap|apply perm_skip|apply perm_skip|]; done.
  - by etransitivity.
Qed.

Lemma filter_plan_sizes (f : LiveRange -> bool) (plan : Plan) :
  List.filter (fun p => f p.1) (plan_sizes plan) = plan_sizes (List.filter (fun p => f p.1) plan).
Proof. induction plan as [|p plan IH]; simpl; [done|]. destruct (f p.1); simpl; by rewrite IH. Qed.

Lemma NoDup_map_fst_filter {A B} (f : A * B -> bool) (l : list (A * B)) :
  NoDup (map fst l) -> NoDup (map fst (List.filter f l)).
Proof.
  induction l as [|p l IH]; simpl; [done|]. intros [Hp Hnd]%NoDup_cons.
  destruct (f p); simpl; [|by apply IH]. constructor; [|by apply IH].
  intros Hin. apply Hp. apply list_elem_of_In in Hin. apply in_map_iff in Hin as (q & Hq & Hin).
  apply filter_In in Hin as [Hin _]. apply list_elem_of_In, in_map_iff. by exists q.
Qed.

Lemma live_at_overlap t a b :
  GreedyByBreadth.live_at t a = true -> GreedyByBreadth.live_at t b = true -> lr_overlap a b = true.
Proof.
  unfold GreedyByBreadth.live_at, lr_overlap. rewrite !andb_true_iff, !Z.leb_le. lia.
Qed.

Lemma exists_max_offset (L : Plan) :
  L <> [] -> exists p, In p L /\ forall q, In q L -> reg_offset q.2 <= reg_offset p.2.
Proof.
  induction L as [|x L IH]; [done|]. intros _. destruct (decide (L = [])) as [->|Hne].
  - exists x. split; [by left|]. intros q [<-|[]]. lia.
  - destruct (IH Hne) as (p & Hp & Hmax).
    destruct (Z.le_ge_cases (reg_offset x.2) (reg_offset p.2)).
    + exists p. split; [by right|]. intros q [<-|Hq]; [lia|auto].
    + exists x. split; [by left|]. intros q [<-|Hq]; [lia|]. specialize (Hmax q Hq). lia.
Qed.

(** Pairwise disjoint byte windows inside [[0, B)] add up to at most [B]:
    the window with the highest offset sits above all the others (or is
    empty), so the others fit below its offset. *)
Lemma disjoint_sum (L : Plan) (B : Z) :
  0 <= B -> NoDup (map fst L) ->
  (forall lr r, In (lr, r) L -> 0 <= reg_offset r /\ 0 <= reg_size r /\ reg_end r <= B) ->
  regions_disjoint L -> sum_sizes (plan_sizes L) <= B.
Proof.
  remember (length L) as n eqn:Hn. revert L B Hn.
  induction n as [n IH] using lt_wf_ind. intros L B Hn HB Hnd Hb Hdis.
  destruct (decide (L = [])) as [->|Hne]; [simpl; lia|].
  destruct (exists_max_offset L Hne) as ([lrp rp] & Hp & Hmax).
  destruct (proj1 (elem_of_Permutation L (lrp, rp)) (proj2 (list_elem_of_In _ _) Hp)) as (K & HK).
  assert (HinK : forall q, In q K -> In q L).
  { intros q Hq. apply list_elem_of_In. rewrite HK. apply elem_of_cons. right. by apply list_elem_of_In. }
  assert (Hnd' : NoDup (map fst ((lrp, rp) :: K))) by (by rewrite <- HK).
  simpl in Hnd'. apply NoDup_cons in Hnd' as [HpK HndK].
  assert (Hlen : (length K < n)%nat) by (rewrite Hn, HK; simpl; lia).
  unfold plan_sizes at 1. rewrite (sum_sizes_perm _ _ (Permutation_map _ HK)). simpl. fold (plan_sizes K).
  destruct (Hb lrp rp Hp) as (Hoff & Hsz & Hend). unfold reg_end in Hend.
  assert (HdisK : regions_disjoint K) by (intros lr1 r1 lr2 r2 H1 H2 Hne12; apply (Hdis lr1 r1 lr2 r2); auto).
  destruct (decide (reg_size rp = 0)) as [Hz|Hpos].
  - assert (sum_sizes (plan_sizes K) <= B); [|lia].
    apply (IH (length K) Hlen K B eq_refl HB HndK); [|exact HdisK].
    intros lr r Hin. apply (Hb lr r), HinK, Hin.
  - assert (Hbelow : sum_sizes (plan_sizes K) <= reg_offset rp).
    { apply (IH (length K) Hlen K _ eq_refl Hoff HndK); [|exact HdisK].
      intros lr r Hin. destruct (Hb lr r (HinK _ Hin)) as (Hoff' & Hsz' & _).
      split_and!; [done|done|].
      assert (Hne' : lr <> lrp).
      { intros ->. apply HpK. apply list_elem_of_In, in_map_iff. by exists (lrp, r). }
      pose proof (Hdis lr r lrp rp (HinK _ Hin) Hp Hne') as Hc. apply reg_collide_false in Hc.
      specialize (Hmax (lr, r) (HinK _ Hin)). simpl in Hmax. unfold reg_end. lia. }
    lia.
Qed.

(** A correct plan holds exactly the input's ranges with their sizes. *)
Lemma plan_sizes_perm (ms : Managed) (plan : Plan) :
  plan_ok ms plan -> managed_ok ms -> ms ≡ₚ plan_sizes plan.
Proof.
  intros (Hall & Hkeys & Hnd & _) [Hndm _].
  apply NoDup_Permutation.
  - rewrite NoDup_ListNoDup. apply (NoDup_map_inv fst). by rewrite <- NoDup_ListNoDup.
  - rewrite NoDup_ListNoDup. apply (NoDup_map_inv fst). unfold plan_sizes. rewrite map_map.
    by rewrite <- NoDup_ListNoDup.
  - intros [lr sz]. unfold plan_sizes. rewrite !list_elem_of_In, in_map_iff. split.
    + intros Hin. destruct (Hall lr sz Hin) as (off & Hf & _).
      exists (lr, mkRegion off sz). split; [done|]. by apply assoc_find_In.
    + intros ([lr' r] & [= <- <-] & Hin).
      assert (Hk : lr' ∈ map fst ms) by (apply Hkeys, list_elem_of_In, in_map_iff; by exists (lr', r)).
      apply list_elem_of_In, in_map_iff in Hk as ([lr'' sz] & Heq & Hin'). simpl in Heq. subst lr''.
      destruct (Hall lr' sz Hin') as (off & Hf & _).
      rewrite (assoc_find_In_NoDup _ _ _ Hnd Hin) in Hf. injection Hf as ->. done.
Qed.

(** ** The bound *)

(** C4. The peak working set is a lower bound of the arena (spec
    property 2): for every plan meeting the correctness invariant for a
    well-formed input, with no region end past [2^64], the total
    [getTotalAllocationSize] is at least the sum of the sizes of the
    ranges live at any time [t]. *)
Theorem getTotalAllocationSize_peak (ms : Managed) (plan : Plan) (t : Z) :
  plan_ok ms plan -> managed_ok ms ->
  (forall lr r, In (lr, r) plan -> is_u64 (reg_end r)) ->
  working_set ms t <= getTotalAllocationSize plan.
Proof.
  intros Hok Hm Hu. unfold working_set.
  rewrite (sum_sizes_perm _ _ (filter_perm _ _ _ (plan_sizes_perm ms plan Hok Hm))).
  rewrite (filter_plan_sizes (GreedyByBreadth.live_at t)).
  pose proof (getTotalAllocationSize_range plan) as Hr. pose proof Hok as (Hall & Hkeys & Hnd & Hdis).
  apply disjoint_sum.
  - unfold is_u64 in Hr. lia.
  - by apply NoDup_map_fst_filter.
  - intros lr r (Hin & _)%filter_In.
    destruct (plan_ok_nonneg ms plan Hok (proj2 Hm) lr r Hin) as [Hoff Hsz].
    split_and!; [done|done|]. exact (getTotalAllocationSize_ge plan lr r Hin (Hu lr r Hin)).
  - intros lr1 r1 lr2 r2 (Hin1 & Hl1)%filter_In (Hin2 & Hl2)%filter_In Hne.
    apply (Hdis lr1 r1 lr2 r2); [done..|]. by apply (live_at_overlap t).
Qed.

(** At time 1 of the spec's scenario the ranges [[0, 3]] (100 bytes) and
    [[1, 2]] (40 bytes) are live: greedy by size's arena of 140 bytes
    meets the bound. *)
Lemma getTotalAllocationSize_peak_witness :
  let plan := GreedyBySize.greedyBySize spec_ranges in
  plan_ok spec_ranges plan /\ managed_ok spec_ranges /\
  (forall lr r, In (lr, r) plan -> is_u64 (reg_end r)) /\
  working_set spec_ranges 1 = 140 /\ getTotalAllocationSize plan = 140 /\
  working_set spec_ranges 1 <= getTotalAllocationSize plan.
Proof.
  intros plan.
  assert (Hm : managed_ok spec_ranges) by decide_by_eval.
  assert (Hok : plan_ok spec_ranges plan) by (apply GreedyBySize.greedyBySize_plan_ok, Hm).
  assert (Hu : forall lr r, In (lr, r) plan -> is_u64 (reg_end r)).
  { intros lr r Hin. vm_compute in Hin.
    repeat (destruct Hin as [Hin|Hin]; [injection Hin as <- <-; unfold is_u64, reg_end, u64_modulus; simpl; lia|]).
    destruct Hin. }
  refine (conj Hok (conj Hm (conj Hu (conj _ (conj _ _))))); [vm_compute; reflexivity..|].
  exact (getTotalAllocationSize_peak spec_ranges plan 1 Hok Hm Hu).
Defined.
