(* ===== verification/Graph.v ===== *)
(** * The graph IR and the external services the planner calls

    The TorchScript IR is an external collaborator of the planner (spec
    section 6): nodes in topological order, each with a kind, a canonical
    schema string, input and output values and integer attributes; values
    with an optional tensor type.  The planner reads the graph, asks the
    operator registry for a node's schemas, and rewrites the graph with
    [create], [insertBefore], [addInput] and attribute setters.  Everything
    here is modelled from the spec; the rewriting operations are written in
    the exception-state monad of the prelude, so that a rewrite interrupted
    by a failed check leaves its earlier mutations in the graph, as an
    exception does in C++. *)

From S2P Require Import Prelude.

(** ** Types of values *)

(** [c10::ScalarType], in declaration order (the order is the value of
    [static_cast<int8_t>]). *)
Inductive ScalarType :=
| Byte | Char | Short | Int | Long | Half | Float | Double
| ComplexHalf | ComplexFloat | ComplexDouble | Bool | QInt8 | QUInt8 | QInt32 | BFloat16.

#[export] Instance ScalarType_eq_dec : EqDecision ScalarType.
Proof. solve_decision. Defined.

(** [c10::elementSize]. *)
Definition elementSize (t : ScalarType) : Z :=
  match t with
  | Byte | Char | Bool | QInt8 | QUInt8 => 1
  | Short | Half | BFloat16 => 2
  | Int | Float | QInt32 | ComplexHalf => 4
  | Long | Double | ComplexFloat => 8
  | ComplexDouble => 16
  end.

Definition scalarTypeIndex (t : ScalarType) : Z :=
  match t with
  | Byte => 0 | Char => 1 | Short => 2 | Int => 3 | Long => 4 | Half => 5
  | Float => 6 | Double => 7 | ComplexHalf => 8 | ComplexFloat => 9
  | ComplexDouble => 10 | Bool => 11 | QInt8 => 12 | QUInt8 => 13
  | QInt32 => 14 | BFloat16 => 15
  end.

(** [c10::TensorType] as far as the planner reads it: the scalar type, the
    concrete sizes and strides when every dimension is known, and
    [numel()]. *)
Record TensorType := mkTensorType {
  tt_scalar_type : option ScalarType;
  tt_sizes : option (list Z);
  tt_strides : option (list Z);
  tt_numel : option Z }.

(** A value's JIT type: a tensor type, or another type. *)
Inductive JitType :=
| TensorT (t : TensorType)
| OtherT (name : string).

(** [at::detail::defaultStrides]: contiguous strides. *)
Fixpoint defaultStrides (sizes : list Z) : list Z :=
  match sizes with
  | [] => []
  | _ :: rest => fold_right Z.mul 1 rest :: defaultStrides rest
  end.

(** [at::kCPU]. *)
Definition kCPU : Z := 0.

(** ** Nodes and graphs *)

Record Value := mkValue { v_id : nat; v_type : JitType }.

Inductive NodeKind :=
| KOp (name : string)
| KAllocateStorage
| KAllocateTensor
| KPreAllocateTensor.

#[export] Instance NodeKind_eq_dec : EqDecision NodeKind.
Proof. solve_decision. Defined.

Inductive AttrValue := AInt (z : Z) | AInts (zs : list Z).

(** A node: its identity, kind, canonical schema string (what [getHeader]
    and [canonicalSchemaString] return), inputs (value ids), outputs and
    attributes. *)
Record Node := mkNode {
  n_id : nat; n_kind : NodeKind; n_header : string;
  n_inputs : list nat; n_outputs : list Value;
  n_attrs : list (string * AttrValue) }.

(** A graph: its nodes in topological order, the next fresh identity, and
    the device [jit::tensorexpr::pickDeviceType] finds, if any. *)
Record Graph := mkGraph {
  g_nodes : list Node; g_fresh : nat; g_device : option Z }.

Definition kind_header (k : NodeKind) : string :=
  match k with
  | KOp s => s
  | KAllocateStorage => "prim::AllocateStorage"
  | KAllocateTensor => "prim::AllocateTensor"
  | KPreAllocateTensor => "prim::PreAllocateTensor"
  end.

(** The operator registry: the argument names of every schema of a kind
    ([getAllOperatorsFor]). *)
Definition Registry := NodeKind -> list (list string).

(** ** Graph rewriting *)

Abbreviation GraphM := (estate Graph).

(** [graph->create(kind, n)]: a fresh node with [n] fresh outputs, not yet
    in the node list. *)
Definition gcreate (k : NodeKind) (nouts : nat) : GraphM Node :=
  fun g =>
    let id := g_fresh g in
    let outs := map (fun i => mkValue (S id + i) (OtherT "")) (seq 0 nouts) in
    (Ok (mkNode id k (kind_header k) [] outs []),
     mkGraph (g_nodes g) (S id + nouts) (g_device g)).

Fixpoint insert_before_id (n : Node) (target : nat) (ns : list Node) : list Node :=
  match ns with
  | [] => []
  | m :: ns' => if decide (n_id m = target) then n :: m :: ns' else m :: insert_before_id n target ns'
  end.

(** [n->insertBefore(target)]. *)
Definition ginsertBefore (n : Node) (target : nat) : GraphM unit :=
  emodify (fun g => mkGraph (insert_before_id n target (g_nodes g)) (g_fresh g) (g_device g)).

(** [n->insertBefore(graph->nodes().front())]: the node becomes the first. *)
Definition ginsertFront (n : Node) : GraphM unit :=
  emodify (fun g => mkGraph (n :: g_nodes g) (g_fresh g) (g_device g)).

Definition update_node (id : nat) (f : Node -> Node) (ns : list Node) : list Node :=
  map (fun m => if decide (n_id m = id) then f m else m) ns.

Definition gupdate (id : nat) (f : Node -> Node) : GraphM unit :=
  emodify (fun g => mkGraph (update_node id f (g_nodes g)) (g_fresh g) (g_device g)).

(** [node->addInput(v)] on one node. *)
Definition node_add_input (v : nat) (m : Node) : Node :=
  mkNode (n_id m) (n_kind m) (n_header m) (n_inputs m ++ [v]) (n_outputs m) (n_attrs m).

(** [node->i_(name, z)] / [node->is_(name, zs)] on one node: set (or
    overwrite) an attribute. *)
Definition node_set_attr (name : string) (a : AttrValue) (m : Node) : Node :=
  mkNode (n_id m) (n_kind m) (n_header m) (n_inputs m) (n_outputs m) (assoc_set name a (n_attrs m)).

(** [node->addInput(v)] on the node [id] of the graph. *)
Definition gaddInput (id : nat) (v : nat) : GraphM unit := gupdate id (node_add_input v).

(** Attribute setters on the node [id] of the graph. *)
Definition gsetAttr (id : nat) (name : string) (a : AttrValue) : GraphM unit :=
  gupdate id (node_set_attr name a).

Definition node_output (n : Node) : nat :=
  match n_outputs n with v :: _ => v_id v | [] => 0%nat end.

(** The node that produces a value ([value->node()]). *)
Definition producer_of (vid : nat) (ns : list Node) : option Node :=
  List.find (fun m => existsb (fun v => Nat.eqb (v_id v) vid) (n_outputs m)) ns.

Definition find_node (id : nat) (ns : list Node) : option Node :=
  List.find (fun m => Nat.eqb (n_id m) id) ns.

(** The number of nodes of kind [k]. *)
Definition count_kind (k : NodeKind) (g : Graph) : nat :=
  length (List.filter (fun n => bool_decide (n_kind n = k)) (g_nodes g)).

Definition attr_int (name : string) (n : Node) : option Z :=
  match assoc_find name (n_attrs n) with Some (AInt z) => Some z | _ => None end.

(** ** Lemmas *)

Lemma insert_before_id_length n t ns :
  length (insert_before_id n t ns) = (length ns + if existsb (fun m => Nat.eqb (n_id m) t) ns then 1 else 0)%nat.
Proof.
  induction ns as [|m ns IH]; simpl; [done|].
  destruct (decide (n_id m = t)) as [E|E]; simpl.
  - apply Nat.eqb_eq in E. rewrite E. simpl. lia.
  - apply Nat.eqb_neq in E. rewrite E. simpl. lia.
Qed.

Lemma update_node_ids id f ns :
  (forall m, n_id (f m) = n_id m) -> map n_id (update_node id f ns) = map n_id ns.
Proof.
  intros Hf. unfold update_node. rewrite map_map. apply map_ext.
  intros m. case_decide; auto.
Qed.

Lemma update_node_length id f ns : length (update_node id f ns) = length ns.
Proof. apply length_map. Qed.

Lemma update_node_notin id f ns : id ∉ map n_id ns -> update_node id f ns = ns.
Proof.
  intros Hid. unfold update_node. induction ns as [|m ns IH]; simpl in *; [done|].
  rewrite decide_False by set_solver. f_equal. apply IH. set_solver.
Qed.

(** Updating a node just inserted, whose identity is fresh, is inserting
    the updated node. *)
Lemma update_insert_before id f a t ns :
  n_id a = id -> id ∉ map n_id ns ->
  update_node id f (insert_before_id a t ns) = insert_before_id (f a) t ns.
Proof.
  intros Ha Hid. induction ns as [|m ns IH]; simpl in *; [done|].
  unfold update_node at 1. destruct (decide (n_id m = t)); simpl.
  - rewrite decide_True by done. rewrite decide_False by set_solver. f_equal. f_equal.
    apply update_node_notin. set_solver.
  - rewrite decide_False by set_solver. f_equal. apply IH. set_solver.
Qed.


Lemma insert_before_id_In x a t ns : In x ns -> In x (insert_before_id a t ns).
Proof.
  induction ns as [|m ns IH]; simpl; [done|]. case_decide; simpl; [tauto|]. intuition.
Qed.

Lemma In_insert_before_id x a t ns : In x (insert_before_id a t ns) -> x = a \/ In x ns.
Proof. induction ns as [|m ns IH]; simpl; [done|]. case_decide; simpl; naive_solver. Qed.

Lemma update_node_In x id f ns : In x ns -> n_id x <> id -> In x (update_node id f ns).
Proof.
  intros Hx Hid. unfold update_node. apply in_map_iff. exists x. by rewrite decide_False.
Qed.

Lemma In_update_node x id f ns :
  In x (update_node id f ns) -> (exists y, In y ns /\ n_id y = id /\ x = f y) \/ (In x ns /\ n_id x <> id).
Proof.
  unfold update_node. intros (y & Hy & Hin)%in_map_iff. revert Hy.
  case_decide; intros <-; [left; by exists y|by right].
Qed.

Lemma insert_before_id_ids a t ns :
  t ∈ map n_id ns -> map n_id (insert_before_id a t ns) ≡ₚ n_id a :: map n_id ns.
Proof.
  induction ns as [|m ns IH]; simpl; [set_solver|]. intros Ht.
  case_decide; simpl; [done|]. rewrite IH by set_solver. apply perm_swap.
Qed.

(** The producer of a value after an update that keeps every node's
    outputs. *)
Lemma producer_of_update vid id f ns :
  (forall m, n_outputs (f m) = n_outputs m) ->
  producer_of vid (update_node id f ns) =
  option_map (fun m => if decide (n_id m = id) then f m else m) (producer_of vid ns).
Proof.
  intros Hf. unfold producer_of, update_node. induction ns as [|m ns IH]; simpl; [done|].
  case_decide; simpl; rewrite ?Hf; destruct (existsb _ (n_outputs m)); simpl; try done;
    case_decide; congruence.
Qed.

(** Inserting a node that does not produce [vid] keeps its producer. *)
Lemma producer_of_insert_before vid a t ns :
  existsb (fun v => Nat.eqb (v_id v) vid) (n_outputs a) = false ->
  producer_of vid (insert_before_id a t ns) = producer_of vid ns.
Proof.
  intros Ha. unfold producer_of. induction ns as [|m ns IH]; simpl; [done|].
  case_decide; simpl; [by rewrite Ha|]. by rewrite IH.
Qed.

Lemma producer_of_In vid ns p : producer_of vid ns = Some p -> In p ns.
Proof. unfold producer_of. intros H. by apply find_some in H as [? _]. Qed.

Lemma count_insert_before (P : Node -> bool) a t ns :
  t ∈ map n_id ns ->
  length (List.filter P (insert_before_id a t ns)) =
  (length (List.filter P ns) + if P a then 1 else 0)%nat.
Proof.
  induction ns as [|m ns IH]; simpl; [set_solver|]. intros Ht.
  case_decide; simpl; [destruct (P a), (P m); simpl; lia|].
  destruct (P m); simpl; rewrite IH by set_solver; lia.
Qed.

Lemma count_update_node (P : Node -> bool) id f ns :
  (forall m, P (f m) = P m) ->
  length (List.filter P (update_node id f ns)) = length (List.filter P ns).
Proof.
  intros Hf. unfold update_node. induction ns as [|m ns IH]; simpl; [done|].
  case_decide; rewrite ?Hf; destruct (P m); simpl; lia.
Qed.

Lemma insert_before_id_In_new a t ns : t ∈ map n_id ns -> In a (insert_before_id a t ns).
Proof.
  induction ns as [|m ns IH]; simpl; [set_solver|]. intros Ht.
  case_decide; simpl; [by left|]. right. apply IH. set_solver.
Qed.

(** The producer of [vid] has [vid] among its outputs. *)
Lemma producer_of_output vid ns p : producer_of vid ns = Some p -> vid ∈ map v_id (n_outputs p).
Proof.
  unfold producer_of. intros H. apply find_some in H as [_ H].
  apply existsb_exists in H as (v & Hv & Heq). apply Nat.eqb_eq in Heq. subst vid.
  apply list_elem_of_In, in_map. done.
Qed.

(** The producers after inserting a node before [t] and giving [t] one
    more input: [t] itself is the updated node. *)
Lemma producer_of_insert_step vid q a t x ns :
  producer_of vid ns = Some q ->
  existsb (fun v => Nat.eqb (v_id v) vid) (n_outputs a) = false ->
  producer_of vid (insert_before_id a t (update_node t (node_add_input x) ns)) =
  Some (if decide (n_id q = t) then node_add_input x q else q).
Proof.
  intros Hq Ha. rewrite producer_of_insert_before by done.
  rewrite producer_of_update by done. by rewrite Hq.
Qed.

(** Value identities are unique across the graph. *)
Definition values_unique (ns : list Node) : Prop :=
  NoDup (concat (map (fun n => map v_id (n_outputs n)) ns)).

Lemma values_unique_node ns n : values_unique ns -> In n ns -> NoDup (map v_id (n_outputs n)).
Proof.
  unfold values_unique. induction ns as [|m ns IH]; simpl; [done|].
  intros Hnd [->|Hin]; apply NoDup_app in Hnd as (Hm & _ & Hrest); [done|]. by apply IH.
Qed.

(** With unique value identities, the producer of an output is its node. *)
Lemma producer_of_unique ns n v :
  values_unique ns -> In n ns -> In v (n_outputs n) -> producer_of (v_id v) ns = Some n.
Proof.
  unfold values_unique, producer_of. induction ns as [|m ns IH]; simpl; [done|].
  intros Hnd Hn Hv. apply NoDup_app in Hnd as (_ & Hdis & Hrest).
  destruct Hn as [->|Hn].
  - replace (existsb _ _) with true; [done|]. symmetry. apply existsb_exists.
    exists v. split; [done|]. apply Nat.eqb_refl.
  - destruct (existsb _ (n_outputs m)) eqn:E; [exfalso|by apply IH].
    apply existsb_exists in E as (w & Hw & Heq). apply Nat.eqb_eq in Heq.
    apply (Hdis (v_id w)).
    + apply list_elem_of_In, in_map. done.
    + rewrite Heq. apply list_elem_of_In, in_concat. exists (map v_id (n_outputs n)).
      split; [apply (in_map (fun n => map v_id (n_outputs n))); done|apply in_map; done].
Qed.

Lemma producer_of_cons vid a ns :
  producer_of vid (a :: ns) =
  if existsb (fun v => Nat.eqb (v_id v) vid) (n_outputs a) then Some a else producer_of vid ns.
Proof. reflexivity. Qed.
