(* ===== verification/Liveness.v ===== *)
(** * Static liveness extraction

    The first stage of [planMemory] in [memory_planning.cpp]: which values
    the planner manages and how many bytes each needs.  [computeStorageSize]
    sizes one value, [getSizesStrides] computes the shape attributes of its
    allocation node, [hasOutVariant] asks the operator registry whether a
    node can write into a caller-provided buffer, [getManagedValues] walks
    the graph and classifies every output of such a node as managed or
    leaked, and [getManagedStuff] joins the sizes with the liveness map of
    the alias analysis.  The alias analysis is external: its two results
    (the always-alive values and the live range of every value) are the
    record [AliasInfo]. *)

From S2P Require Import Prelude Arena Graph.

(** ** Sizes and shapes *)

(** [computeStorageSize] ([memory_planning.cpp:20-59]): [numel * elementSize]
    as a [uint64_t] product, or nothing when the value is not a tensor or
    its scalar type, concrete sizes or element count are unknown.  The
    scalar type is tested twice, as in the source. *)
Definition computeStorageSize (value : Value) : option Z :=
  match v_type value with
  | OtherT _ => None
  | TensorT ttp =>
      match tt_scalar_type ttp with
      | None => None
      | Some _ =>
          match tt_sizes ttp with
          | None => None
          | Some _ =>
              match tt_scalar_type ttp with
              | None => None
              | Some scalar_type =>
                  match tt_numel ttp with
                  | None => None
                  | Some numel => Some (wrap64 (numel * elementSize scalar_type))
                  end
              end
          end
      end
  end.

(** [getSizesStrides] ([memory_planning.cpp:61-82]): the concrete sizes
    unless they are missing, empty or start with [0] (then [[0]]); the
    concrete strides unless they are missing, empty or start with [0] (then
    the contiguous strides of the sizes). *)
Definition getSizesStrides (ttp : TensorType) : list Z * list Z :=
  let sizes :=
    match tt_sizes ttp with
    | Some (s0 :: rest) => if Z.eqb s0 0 then [0] else s0 :: rest
    | _ => [0]
    end in
  let strides :=
    match tt_strides ttp with
    | Some (t0 :: rest) => if Z.eqb t0 0 then defaultStrides sizes else t0 :: rest
    | _ => defaultStrides sizes
    end in
  (sizes, strides).

(** [hasOutVariant] ([memory_planning.cpp:178-195]): some schema of the
    node's kind has an argument named [out]. *)
Definition hasOutVariant (reg : Registry) (node : Node) : bool :=
  existsb (fun variant_args => existsb (fun arg => String.eqb arg "out") variant_args)
    (reg (n_kind node)).

(** ** Managed values *)

(** The three containers [getManagedValues] fills: the managed values with
    their sizes, the leaked values, the nodes with an out variant. *)
Record ManagedState := mkMS {
  ms_managed : list (nat * Z);
  ms_leaked : list nat;
  ms_out_nodes : list Node }.

(** What the alias analysis provides: [GetAlwaysAliveValues] and the
    second component of [GetLiveness]. *)
Record AliasInfo := mkAliasInfo {
  ai_always_alive : list nat;
  ai_live_ranges : list (nat * LiveRange) }.

Section Extract.
Context (reg : Registry) (isOptimizableContainerType : Node -> bool).

Definition leak (st : ManagedState) (out_v : Value) : ManagedState :=
  mkMS (ms_managed st) (set_insert (v_id out_v) (ms_leaked st)) (ms_out_nodes st).

(** The body of the inner loop over [node->outputs()]
    ([memory_planning.cpp:210-227]); the two leak branches differ only in
    the warning they print. *)
Definition visit_output (always_alive_values : list nat) (node : Node)
    (st : ManagedState) (out_v : Value) : ManagedState :=
  if decide (v_id out_v ∈ always_alive_values) then st
  else
    match computeStorageSize out_v with
    | Some size =>
        if 0 <? size
        then mkMS (assoc_insert (v_id out_v) size (ms_managed st)) (ms_leaked st) (ms_out_nodes st)
        else if isOptimizableContainerType node then leak st out_v else leak st out_v
    | None => if isOptimizableContainerType node then leak st out_v else leak st out_v
    end.

(** The body of the outer loop over [graph->nodes()]. *)
Definition visit_node (always_alive_values : list nat) (st : ManagedState) (node : Node)
    : ManagedState :=
  if negb (hasOutVariant reg node) then st
  else fold_left (visit_output always_alive_values node) (n_outputs node)
         (mkMS (ms_managed st) (ms_leaked st) (ms_out_nodes st ++ [node])).

Definition getManagedValues_state (graph : Graph) (always_alive_values : list nat)
    : ManagedState :=
  fold_left (visit_node always_alive_values) (g_nodes graph) (mkMS [] [] []).

(** [getManagedValues] ([memory_planning.cpp:197-230]). *)
Definition getManagedValues (graph : Graph) (always_alive_values : list nat)
    : list Node * list (nat * Z) :=
  let st := getManagedValues_state graph always_alive_values in
  (ms_out_nodes st, ms_managed st).

(** [getManagedStuff] ([memory_planning.cpp:232-252]): the out nodes, the
    managed sizes, and the live ranges of the managed values. *)
Definition getManagedStuff (graph : Graph) (ai : AliasInfo)
    : list Node * list (nat * Z) * list (nat * LiveRange) :=
  let '(out_nodes, managed_tensor_values) := getManagedValues graph (ai_always_alive ai) in
  let managed_ranges :=
    fold_left (fun acc lvr => if assoc_mem lvr.1 managed_tensor_values
                              then assoc_insert lvr.1 lvr.2 acc else acc)
      (ai_live_ranges ai) [] in
  (out_nodes, managed_tensor_values, managed_ranges).
End Extract.

(** ** The extraction loop in closed form *)

Section ClosedForm.
Context (reg : Registry) (isOpt : Node -> bool) (aa : list nat).

(** What the loop records for one candidate output. *)
Definition managed_entry (v : Value) : option (nat * Z) :=
  if decide (v_id v ∈ aa) then None
  else match computeStorageSize v with
       | Some s => if 0 <? s then Some (v_id v, s) else None
       | None => None
       end.

Definition leaked_entry (v : Value) : option nat :=
  if decide (v_id v ∈ aa) then None
  else match computeStorageSize v with
       | Some s => if 0 <? s then None else Some (v_id v)
       | None => Some (v_id v)
       end.

(** The outputs of the out-variant nodes, in graph order. *)
Definition candidate_outputs (ns : list Node) : list Value :=
  flat_map n_outputs (List.filter (hasOutVariant reg) ns).

Definition fresh_for (st : ManagedState) (l : list Value) : Prop :=
  forall v, In v l -> v_id v ∉ map fst (ms_managed st) /\ v_id v ∉ ms_leaked st.

Lemma managed_entry_key v e : managed_entry v = Some e -> e.1 = v_id v.
Proof. unfold managed_entry. repeat case_match; naive_solver. Qed.

Lemma leaked_entry_key v x : leaked_entry v = Some x -> x = v_id v.
Proof. unfold leaked_entry. repeat case_match; naive_solver. Qed.

Lemma managed_entry_keys l x : x ∈ map fst (omap managed_entry l) -> x ∈ map v_id l.
Proof.
  induction l as [|v l IH]; simpl; [done|].
  destruct (managed_entry v) as [e|] eqn:E; simpl; rewrite !elem_of_cons; [|set_solver].
  apply managed_entry_key in E. intros [Hx|H]; [left; by rewrite Hx|right; by apply IH].
Qed.

Lemma leaked_entry_keys l x : x ∈ omap leaked_entry l -> x ∈ map v_id l.
Proof.
  induction l as [|v l IH]; simpl; [done|].
  destruct (leaked_entry v) as [y|] eqn:E; simpl; rewrite !elem_of_cons; [|set_solver].
  apply leaked_entry_key in E. intros [Hx|H]; [left; by rewrite Hx|right; by apply IH].
Qed.

Lemma visit_output_eq node st v :
  visit_output isOpt aa node st v =
  mkMS (match managed_entry v with
        | Some e => assoc_insert e.1 e.2 (ms_managed st) | None => ms_managed st end)
       (match leaked_entry v with
        | Some x => set_insert x (ms_leaked st) | None => ms_leaked st end)
       (ms_out_nodes st).
Proof.
  unfold visit_output, managed_entry, leaked_entry, leak.
  destruct st. case_decide; [done|]. repeat case_match; done.
Qed.

Lemma insert_managed_fresh m v :
  v_id v ∉ map fst m ->
  (match managed_entry v with Some e => assoc_insert e.1 e.2 m | None => m end) =
  m ++ omap managed_entry [v].
Proof.
  intros Hv. simpl. destruct (managed_entry v) as [[k s]|] eqn:Em; [|by rewrite app_nil_r].
  pose proof (managed_entry_key _ _ Em) as Hk. simpl in Hk. subst k.
  by rewrite assoc_insert_fresh.
Qed.

Lemma insert_leaked_fresh s v :
  v_id v ∉ s ->
  (match leaked_entry v with Some x => set_insert x s | None => s end) =
  s ++ omap leaked_entry [v].
Proof.
  intros Hv. simpl. destruct (leaked_entry v) as [x|] eqn:El; [|by rewrite app_nil_r].
  rewrite (leaked_entry_key _ _ El). by rewrite set_insert_fresh.
Qed.

Lemma fold_outputs_closed node l st :
  NoDup (map v_id l) -> fresh_for st l ->
  fold_left (visit_output isOpt aa node) l st =
  mkMS (ms_managed st ++ omap managed_entry l) (ms_leaked st ++ omap leaked_entry l)
       (ms_out_nodes st).
Proof.
  revert st. induction l as [|v l IH]; intros st Hnd Hfr; simpl.
  - destruct st. by rewrite !app_nil_r.
  - apply NoDup_cons in Hnd as [Hv Hnd].
    destruct (Hfr v (or_introl eq_refl)) as [Hm Hl].
    rewrite visit_output_eq, insert_managed_fresh, insert_leaked_fresh by done.
    rewrite IH; [simpl|done|].
    { destruct (managed_entry v), (leaked_entry v); simpl; by rewrite <- ?app_assoc. }
    intros w Hw. destruct (Hfr w (or_intror Hw)) as [Hwm Hwl].
    assert (Hne : v_id w ∉ [v_id v]).
    { rewrite list_elem_of_singleton. intros Heq. apply Hv. rewrite <- Heq.
      apply list_elem_of_In, in_map. done. }
    simpl. rewrite map_app. split; rewrite elem_of_app; intros [?|Hin]; try done; apply Hne.
    + by apply (managed_entry_keys [v]).
    + by apply (leaked_entry_keys [v]).
Qed.

Lemma fold_nodes_closed ns st :
  NoDup (map v_id (candidate_outputs ns)) -> fresh_for st (candidate_outputs ns) ->
  fold_left (visit_node reg isOpt aa) ns st =
  mkMS (ms_managed st ++ omap managed_entry (candidate_outputs ns))
       (ms_leaked st ++ omap leaked_entry (candidate_outputs ns))
       (ms_out_nodes st ++ List.filter (hasOutVariant reg) ns).
Proof.
  revert st. induction ns as [|n ns IH]; intros st Hnd Hfr; simpl.
  - destruct st. by rewrite !app_nil_r.
  - unfold candidate_outputs in *. simpl in *. unfold visit_node.
    destruct (hasOutVariant reg n); simpl in *; [|by apply IH].
    rewrite map_app in Hnd. apply NoDup_app in Hnd as (Hnd1 & Hdis & Hnd2).
    rewrite fold_outputs_closed; [|done|intros w Hw; apply Hfr, in_or_app; by left].
    rewrite IH; [|done|].
    { simpl. by rewrite omap_app, omap_app, <- !app_assoc. }
    intros w Hw. destruct (Hfr w) as [Hwm Hwl]; [apply in_or_app; by right|].
    assert (Hn : v_id w ∉ map v_id (n_outputs n)).
    { intros Hin. apply (Hdis _ Hin). apply list_elem_of_In, in_map. done. }
    simpl. rewrite map_app. split; rewrite elem_of_app; intros [?|Hin]; try done.
    + by apply Hn, managed_entry_keys.
    + by apply Hn, leaked_entry_keys.
Qed.

(** C10. [getManagedValues] computes, in graph order, the out-variant nodes
    and exactly the outputs of those nodes that are not always alive and
    have a positive storage size, with that size; every other output of an
    out-variant node that is not always alive is leaked.  Value
    identities are unique in a graph. *)
Theorem getManagedValues_closed_form (graph : Graph) :
  NoDup (map v_id (candidate_outputs (g_nodes graph))) ->
  getManagedValues_state reg isOpt graph aa =
  mkMS (omap managed_entry (candidate_outputs (g_nodes graph)))
       (omap leaked_entry (candidate_outputs (g_nodes graph)))
       (List.filter (hasOutVariant reg) (g_nodes graph)).
Proof.
  intros Hnd. unfold getManagedValues_state.
  rewrite fold_nodes_closed; [done|done|]. intros v _. simpl. set_solver.
Qed.
End ClosedForm.

(** ** Consequences *)

(** Rewrite the extraction loop into its closed form, given the uniqueness
    hypothesis [Hnd] on the candidate outputs. *)
Ltac closed_form Hnd :=
  unfold getManagedValues_state;
  rewrite fold_nodes_closed; [cbn [ms_managed ms_leaked ms_out_nodes app]
                             |exact Hnd|intros ? _; simpl; set_solver].

Section Consequences.
Context (reg : Registry) (isOpt : Node -> bool) (aa : list nat).

(** Every output of an out-variant node that is not always alive ends
    up in exactly one of the managed map (with its positive storage size)
    and the leaked set. *)
Theorem getManagedValues_partition (graph : Graph) (v : Value) :
  NoDup (map v_id (candidate_outputs reg (g_nodes graph))) ->
  In v (candidate_outputs reg (g_nodes graph)) -> v_id v ∉ aa ->
  let st := getManagedValues_state reg isOpt graph aa in
  ((exists s, computeStorageSize v = Some s /\ 0 < s /\ (v_id v, s) ∈ ms_managed st)
   /\ v_id v ∉ ms_leaked st) \/
  (v_id v ∈ ms_leaked st /\ v_id v ∉ map fst (ms_managed st)).
Proof.
  intros Hnd Hin Haa st. unfold st. closed_form Hnd.
  assert (Hk : forall w, w ∈ candidate_outputs reg (g_nodes graph) -> v_id w = v_id v -> w = v).
  { intros w Hw Heq. apply (NoDup_map_eq v_id _ _ _ Hnd); [by apply list_elem_of_In|done|done]. }
  destruct (managed_entry aa v) as [[k s]|] eqn:Em.
  - left. pose proof (managed_entry_key _ _ _ Em) as Hkey. simpl in Hkey. subst k.
    unfold managed_entry in Em. rewrite decide_False in Em by done.
    destruct (computeStorageSize v) as [s'|] eqn:Ec; [|done].
    destruct (0 <? s') eqn:Ep; [|done]. injection Em as <-.
    split; [exists s'; split_and!; [done|by apply Z.ltb_lt|]|].
    + apply list_elem_of_omap. exists v. split; [by apply list_elem_of_In|].
      unfold managed_entry. rewrite decide_False, Ec by done. by rewrite Ep.
    + rewrite list_elem_of_omap. intros (w & Hw & Hl).
      pose proof (leaked_entry_key _ _ _ Hl) as Hwk. rewrite (Hk w Hw) in Hl by done.
      unfold leaked_entry in Hl. rewrite decide_False, Ec, Ep in Hl by done. done.
  - right. split.
    + apply list_elem_of_omap. exists v. split; [by apply list_elem_of_In|].
      unfold managed_entry in Em. unfold leaked_entry.
      rewrite decide_False in Em by done. rewrite decide_False by done.
      destruct (computeStorageSize v); [|done]. by destruct (0 <? z).
    + intros Hx. apply list_elem_of_In, in_map_iff in Hx as ([k s] & Hks & Hx).
      apply list_elem_of_In, list_elem_of_omap in Hx as (w & Hw & Hm). simpl in Hks.
      pose proof (managed_entry_key _ _ _ Hm) as Hwk. simpl in Hwk.
      rewrite (Hk w Hw) in Hm by congruence. congruence.
Qed.

(** With a positive storage size, an output is managed with that size. *)
Lemma getManagedValues_managed_of_pos (graph : Graph) (v : Value) s :
  NoDup (map v_id (candidate_outputs reg (g_nodes graph))) ->
  In v (candidate_outputs reg (g_nodes graph)) -> v_id v ∉ aa ->
  computeStorageSize v = Some s -> 0 < s ->
  (v_id v, s) ∈ ms_managed (getManagedValues_state reg isOpt graph aa).
Proof.
  intros Hnd Hin Haa Ec Hs. closed_form Hnd.
  apply list_elem_of_omap. exists v. split; [by apply list_elem_of_In|].
  unfold managed_entry. rewrite decide_False, Ec by done. by rewrite (proj2 (Z.ltb_lt 0 s) Hs).
Qed.

(** The storage size of a tensor: [numel * elementSize] modulo [2^64]. *)
Lemma computeStorageSize_value v ttp st sizes numel :
  v_type v = TensorT ttp -> tt_scalar_type ttp = Some st -> tt_sizes ttp = Some sizes ->
  tt_numel ttp = Some numel -> computeStorageSize v = Some (wrap64 (numel * elementSize st)).
Proof. intros Hv Hst Hsz Hn. unfold computeStorageSize. by rewrite Hv, Hst, Hsz, Hn. Qed.

(** C29. A tensor of [2^64] bytes or more is never planned with its
    storage: [computeStorageSize] multiplies in [uint64_t] arithmetic
    without an overflow check, so such an output of an out-variant node
    that is not always alive is leaked when [numel * elementSize] is a
    multiple of [2^64], and is otherwise managed with the size
    [numel * elementSize mod 2^64], positive and smaller than the bytes the
    tensor occupies. *)
Theorem computeStorageSize_wraps (graph : Graph) (v : Value) ttp st sizes numel :
  NoDup (map v_id (candidate_outputs reg (g_nodes graph))) ->
  In v (candidate_outputs reg (g_nodes graph)) -> v_id v ∉ aa ->
  v_type v = TensorT ttp -> tt_scalar_type ttp = Some st -> tt_sizes ttp = Some sizes ->
  tt_numel ttp = Some numel -> u64_modulus <= numel * elementSize st ->
  let st' := getManagedValues_state reg isOpt graph aa in
  ((numel * elementSize st) mod u64_modulus = 0 /\
   v_id v ∈ ms_leaked st' /\ v_id v ∉ map fst (ms_managed st')) \/
  (0 < (numel * elementSize st) mod u64_modulus < numel * elementSize st /\
   (v_id v, (numel * elementSize st) mod u64_modulus) ∈ ms_managed st').
Proof.
  intros Hnd Hin Haa Hv Hst Hsz Hn Hbig st'.
  pose proof (computeStorageSize_value v ttp st sizes numel Hv Hst Hsz Hn) as Ec.
  unfold wrap64 in Ec. pose proof (Z.mod_pos_bound (numel * elementSize st) u64_modulus u64_modulus_pos).
  destruct (Z.eq_dec ((numel * elementSize st) mod u64_modulus) 0) as [H0|H0].
  - left. split; [done|]. rewrite H0 in Ec.
    destruct (getManagedValues_partition graph v Hnd Hin Haa) as [((s & Es & Hs & _) & _)|Hl]; [|done].
    rewrite Ec in Es. injection Es as <-. lia.
  - right. split; [lia|]. apply getManagedValues_managed_of_pos; [done..|lia].
Qed.
End Consequences.

(** ** Invariants of the extraction loop

    These hold of every graph, without the uniqueness of value identities
    the closed form needs. *)

Lemma visit_output_out_nodes isOpt aa node st v :
  ms_out_nodes (visit_output isOpt aa node st v) = ms_out_nodes st.
Proof. unfold visit_output, leak. repeat case_match; done. Qed.

(** A managed entry is an old one or the output just visited, with its
    positive storage size. *)
Lemma visit_output_managed isOpt aa node st v p :
  In p (ms_managed (visit_output isOpt aa node st v)) ->
  In p (ms_managed st) \/ (p.1 = v_id v /\ computeStorageSize v = Some p.2 /\ 0 < p.2).
Proof.
  unfold visit_output, leak. case_decide; [auto|].
  destruct (computeStorageSize v) as [s|] eqn:E; [|repeat case_match; simpl; auto].
  destruct (0 <? s) eqn:Hs; [|repeat case_match; simpl; auto].
  simpl. intros Hin. apply assoc_insert_In in Hin as [->|Hin]; [|auto].
  right. simpl. split_and!; [done|done|zlia].
Qed.

Lemma visit_output_NoDup isOpt aa node st v :
  NoDup (map fst (ms_managed st)) -> NoDup (map fst (ms_managed (visit_output isOpt aa node st v))).
Proof. unfold visit_output, leak. repeat case_match; simpl; auto using assoc_insert_NoDup. Qed.

(** Induction principle for the two nested loops of [getManagedValues]: a
    property of the state kept by recording an out node and by visiting
    an output of a recorded out node holds at the end. *)
Lemma getManagedValues_state_inv reg isOpt aa graph (P : ManagedState -> Prop) :
  P (mkMS [] [] []) ->
  (forall st node, In node (g_nodes graph) -> P st ->
     P (mkMS (ms_managed st) (ms_leaked st) (ms_out_nodes st ++ [node]))) ->
  (forall st node v, P st -> In node (ms_out_nodes st) -> In v (n_outputs node) ->
     P (visit_output isOpt aa node st v)) ->
  P (getManagedValues_state reg isOpt graph aa).
Proof.
  intros H0 Hnode Hout. unfold getManagedValues_state. apply fold_left_inv; [done|].
  intros st node Hn Hst. unfold visit_node. case_match; [done|].
  apply (fold_left_inv _ (fun st' => P st' /\ In node (ms_out_nodes st'))).
  - split; [by apply Hnode|]. simpl. apply in_or_app. by right; left.
  - intros st' v Hv [HP Hin]. rewrite visit_output_out_nodes. split; [|done]. by apply Hout.
Qed.

Section Invariants.
Context (reg : Registry) (isOpt : Node -> bool) (aa : list nat) (graph : Graph).

Lemma getManagedValues_managed_pos :
  Forall (fun p => 0 < p.2) (ms_managed (getManagedValues_state reg isOpt graph aa)).
Proof.
  apply getManagedValues_state_inv; [constructor|done|].
  intros st node v Hst _ _. apply List.Forall_forall. intros p Hp.
  destruct (visit_output_managed _ _ _ _ _ _ Hp) as [Hin|(_ & _ & Hpos)]; [|done].
  by apply (proj1 (List.Forall_forall _ _) Hst).
Qed.

Lemma getManagedValues_managed_NoDup :
  NoDup (map fst (ms_managed (getManagedValues_state reg isOpt graph aa))).
Proof.
  apply getManagedValues_state_inv; [constructor|done|].
  intros st node v Hst _ _. by apply visit_output_NoDup.
Qed.

(** The recorded out nodes are nodes of the graph. *)
Lemma getManagedValues_out_nodes n :
  In n (ms_out_nodes (getManagedValues_state reg isOpt graph aa)) -> In n (g_nodes graph).
Proof.
  revert n. apply getManagedValues_state_inv; [done| |].
  - intros st node Hnode Hst n Hin. simpl in Hin. apply in_app_or in Hin as [Hin|[<-|[]]]; auto.
  - intros st node v Hst _ _ n. rewrite visit_output_out_nodes. apply Hst.
Qed.

(** Every managed value is an output of a recorded out node, and its
    entry holds that output's storage size. *)
Lemma getManagedValues_managed_output k s :
  In (k, s) (ms_managed (getManagedValues_state reg isOpt graph aa)) ->
  exists n v, In n (ms_out_nodes (getManagedValues_state reg isOpt graph aa)) /\
    In v (n_outputs n) /\ v_id v = k /\ computeStorageSize v = Some s.
Proof.
  revert k s. apply getManagedValues_state_inv; [done| |].
  - intros st node _ Hst k s Hin. destruct (Hst k s Hin) as (n & v & Hn & Hrest).
    exists n, v. split; [|done]. simpl. apply in_or_app. by left.
  - intros st node v Hst Hnode Hv k s Hin. rewrite visit_output_out_nodes.
    destruct (visit_output_managed _ _ _ _ _ _ Hin) as [Hold|(Hk & Hs & _)]; [by apply (Hst k s)|].
    exists node, v. simpl in Hk, Hs. by subst k.
Qed.
(** No always-alive value is managed. *)
Lemma getManagedValues_managed_not_always_alive k s :
  In (k, s) (ms_managed (getManagedValues_state reg isOpt graph aa)) -> k ∉ aa.
Proof.
  revert k s. apply getManagedValues_state_inv; [done|done|].
  intros st node v Hst _ _ k s Hin. unfold visit_output, leak in Hin.
  case_decide as Hv; [by apply (Hst k s)|].
  repeat case_match; cbn [ms_managed] in Hin; try by apply (Hst k s).
  apply assoc_insert_In in Hin as [Heq|Hin]; [by injection Heq as -> _|by apply (Hst k s)].
Qed.
End Invariants.

(** Two doubles' worth of wrap-around: [2^61 + 1] doubles are given 8
    bytes, [2^61] doubles 0 bytes. *)
Example computeStorageSize_wrap_examples :
  computeStorageSize (mkValue 0 (TensorT (mkTensorType (Some Double) (Some [2^61 + 1])
                                           None (Some (2^61 + 1))))) = Some 8 /\
  computeStorageSize (mkValue 0 (TensorT (mkTensorType (Some Double) (Some [2^61])
                                           None (Some (2^61))))) = Some 0.
Proof. split; vm_compute; reflexivity. Qed.

(** The size is exactly the product when it fits in 64 bits. *)
Lemma computeStorageSize_exact ttp st sizes numel id :
  tt_scalar_type ttp = Some st -> tt_sizes ttp = Some sizes -> tt_numel ttp = Some numel ->
  is_u64 (numel * elementSize st) ->
  computeStorageSize (mkValue id (TensorT ttp)) = Some (numel * elementSize st).
Proof.
  intros Hst Hsz Hn Hu. unfold computeStorageSize. simpl.
  rewrite Hst, Hsz, Hn. by rewrite wrap64_small.
Qed.

(** A value with a storage size has a tensor type with a scalar type. *)
Lemma computeStorageSize_tensor v s :
  computeStorageSize v = Some s -> exists ttp st, v_type v = TensorT ttp /\ tt_scalar_type ttp = Some st.
Proof.
  unfold computeStorageSize. intros H. destruct (v_type v) as [ttp|]; [|discriminate].
  destruct (tt_scalar_type ttp) as [st|] eqn:E; [|discriminate]. by exists ttp, st.
Qed.

Lemma fold_filter_insert {V} (managed : list (nat * Z)) (l acc : list (nat * V)) :
  NoDup (map fst (acc ++ l)) ->
  fold_left (fun acc lvr => if assoc_mem lvr.1 managed then assoc_insert lvr.1 lvr.2 acc else acc)
    l acc = acc ++ List.filter (fun lvr => assoc_mem lvr.1 managed) l.
Proof.
  revert acc. induction l as [|[k r] l IH]; intros acc Hnd; simpl; [by rewrite app_nil_r|].
  rewrite map_app in Hnd. simpl in Hnd.
  apply NoDup_app in Hnd as (Hacc & Hd & Hnd). apply NoDup_cons in Hnd as [Hk Hnd].
  destruct (assoc_mem k managed).
  - rewrite assoc_insert_fresh; [|intros Hin; apply (Hd k Hin); set_solver].
    rewrite IH; [by rewrite <- app_assoc|]. rewrite <- app_assoc, map_app. simpl.
    apply NoDup_app. split_and!; [done|exact Hd|by constructor].
  - rewrite IH; [done|]. rewrite map_app.
    apply NoDup_app. split_and!; [done| |done]. intros x Hx Hx'. apply (Hd x Hx). set_solver.
Qed.

(** [getManagedStuff] keeps, in the liveness map's order, exactly the live
    ranges of managed values. *)
Lemma getManagedStuff_ranges reg isOpt graph ai :
  NoDup (map fst (ai_live_ranges ai)) ->
  (getManagedStuff reg isOpt graph ai).2 =
  List.filter (fun lvr => assoc_mem lvr.1 (getManagedValues reg isOpt graph (ai_always_alive ai)).2)
    (ai_live_ranges ai).
Proof.
  unfold getManagedStuff. destruct (getManagedValues _ _ _ _) as [out_nodes managed]. simpl.
  intros Hnd. by rewrite fold_filter_insert.
Qed.

(** What [planMemory] relies on from [getManagedStuff]: positive sizes,
    one entry per managed value, each managed value an output of a
    recorded out node, and one range per managed value at most. *)
Lemma getManagedStuff_ok reg isOpt graph ai :
  let '(out_nodes, sizes, ranges) := getManagedStuff reg isOpt graph ai in
  Forall (fun p => 0 < p.2) sizes /\ NoDup (map fst sizes) /\
  (forall k s, In (k, s) sizes -> exists n v, In n out_nodes /\ In n (g_nodes graph) /\
     In v (n_outputs n) /\ v_id v = k /\ computeStorageSize v = Some s) /\
  NoDup (map fst ranges) /\ (forall v lr, In (v, lr) ranges -> v ∈ map fst sizes).
Proof.
  unfold getManagedStuff, getManagedValues. cbn [fst snd].
  set (managed := ms_managed (getManagedValues_state reg isOpt graph (ai_always_alive ai))).
  split_and!.
  - apply getManagedValues_managed_pos.
  - apply getManagedValues_managed_NoDup.
  - intros k s Hin. destruct (getManagedValues_managed_output _ _ _ _ k s Hin) as (n & v & Hn & Hrest).
    exists n, v. split; [done|]. split; [eapply getManagedValues_out_nodes; exact Hn|done].
  - apply (fold_left_inv _ (fun acc => NoDup (map fst acc))); [constructor|].
    intros acc [k r] _ Hacc. simpl. case_match; [by apply assoc_insert_NoDup|done].
  - apply (fold_left_inv _ (fun acc => forall v lr, In (v, lr) acc -> v ∈ map fst managed)); [done|].
    intros acc [k r] _ Hacc. simpl. destruct (assoc_mem k managed) eqn:Hm; [|done].
    intros v lr Hin. apply assoc_insert_In in Hin as [[= -> ->]|Hin]; [|by apply (Hacc v lr)].
    unfold assoc_mem in Hm. destruct (assoc_find k managed) as [s|] eqn:E; [|done].
    apply assoc_find_In in E. apply list_elem_of_In, in_map_iff. by exists (k, s).
Qed.

(** ** A small graph *)

(** [%1 = aten::add(...)] producing a sized float tensor and a tensor without
    concrete sizes, then [%3 = aten::relu(%1)] whose operator has no out
    variant here. *)
Definition ex_registry : Registry :=
  fun k => if decide (k = KOp "aten::add") then [["self"; "other"; "alpha"]; ["self"; "other"; "alpha"; "out"]]
           else [["self"]].

Definition ex_graph : Graph :=
  mkGraph
    [mkNode 1 (KOp "aten::add") "aten::add" [0%nat]
       [mkValue 10 (TensorT (mkTensorType (Some Float) (Some [2; 3]) (Some [3; 1]) (Some 6)));
        mkValue 11 (TensorT (mkTensorType (Some Float) None None None))] [];
     mkNode 2 (KOp "aten::relu") "aten::relu" [10%nat]
       [mkValue 12 (TensorT (mkTensorType (Some Float) (Some [2; 3]) (Some [3; 1]) (Some 6)))] []]
    20 None.

Lemma getManagedValues_closed_form_witness :
  NoDup (map v_id (candidate_outputs ex_registry (g_nodes ex_graph))) /\
  getManagedValues_state ex_registry (fun _ => false) ex_graph [] =
  mkMS (omap (managed_entry []) (candidate_outputs ex_registry (g_nodes ex_graph)))
       (omap (leaked_entry []) (candidate_outputs ex_registry (g_nodes ex_graph)))
       (List.filter (hasOutVariant ex_registry) (g_nodes ex_graph)).
Proof.
  assert (H : NoDup (map v_id (candidate_outputs ex_registry (g_nodes ex_graph))))
    by decide_by_eval.
  split; [exact H|]. apply getManagedValues_closed_form. exact H.
Defined.

Lemma getManagedValues_partition_witness :
  let v := mkValue 10 (TensorT (mkTensorType (Some Float) (Some [2; 3]) (Some [3; 1]) (Some 6))) in
  NoDup (map v_id (candidate_outputs ex_registry (g_nodes ex_graph))) /\
  In v (candidate_outputs ex_registry (g_nodes ex_graph)) /\ v_id v ∉ [] /\
  (let st := getManagedValues_state ex_registry (fun _ => false) ex_graph [] in
   ((exists s, computeStorageSize v = Some s /\ 0 < s /\ (v_id v, s) ∈ ms_managed st)
    /\ v_id v ∉ ms_leaked st) \/
   (v_id v ∈ ms_leaked st /\ v_id v ∉ map fst (ms_managed st))).
Proof.
  intros v.
  assert (H1 : NoDup (map v_id (candidate_outputs ex_registry (g_nodes ex_graph))))
    by decide_by_eval.
  assert (H2 : In v (candidate_outputs ex_registry (g_nodes ex_graph))) by (simpl; auto).
  assert (H3 : v_id v ∉ @nil nat) by decide_by_eval.
  split_and!; [exact H1|exact H2|exact H3|].
  apply getManagedValues_partition; [exact H1|exact H2|exact H3].
Defined.

(** [%30 = aten::add(...)] producing [2^61 + 1] doubles: [2^64 + 8]
    bytes, which [computeStorageSize] gives as 8. *)
Definition huge_tensor : TensorType :=
  mkTensorType (Some Double) (Some [2^61 + 1]) None (Some (2^61 + 1)).

Definition huge_graph : Graph :=
  mkGraph [mkNode 1 (KOp "aten::add") "aten::add" [0%nat] [mkValue 30 (TensorT huge_tensor)] []] 40 None.

Lemma computeStorageSize_wraps_witness :
  let v := mkValue 30 (TensorT huge_tensor) in
  NoDup (map v_id (candidate_outputs ex_registry (g_nodes huge_graph))) /\
  In v (candidate_outputs ex_registry (g_nodes huge_graph)) /\ v_id v ∉ [] /\
  u64_modulus <= (2^61 + 1) * elementSize Double /\
  (let st' := getManagedValues_state ex_registry (fun _ => false) huge_graph [] in
   ((((2^61 + 1) * elementSize Double) mod u64_modulus = 0 /\
     v_id v ∈ ms_leaked st' /\ v_id v ∉ map fst (ms_managed st')) \/
    (0 < ((2^61 + 1) * elementSize Double) mod u64_modulus < (2^61 + 1) * elementSize Double /\
     (v_id v, ((2^61 + 1) * elementSize Double) mod u64_modulus) ∈ ms_managed st'))).
Proof.
  intros v.
  assert (H1 : NoDup (map v_id (candidate_outputs ex_registry (g_nodes huge_graph)))) by decide_by_eval.
  assert (H2 : In v (candidate_outputs ex_registry (g_nodes huge_graph))) by (simpl; auto).
  assert (H3 : v_id v ∉ @nil nat) by decide_by_eval.
  assert (H4 : u64_modulus <= (2^61 + 1) * elementSize Double) by (unfold u64_modulus; simpl; lia).
  split_and!; [exact H1|exact H2|exact H3|exact H4|].
  exact (computeStorageSize_wraps ex_registry (fun _ => false) [] huge_graph v huge_tensor Double [2^61 + 1]
           (2^61 + 1) H1 H2 H3 eq_refl eq_refl eq_refl eq_refl H4).
Defined.
