(* ===== verification/AliasLiveness.v ===== *)
(** * Alias analysis and the liveness pass

    [getManagedStuff] ([memory_planning.cpp:236-239]) builds an [AliasDb]
    for the graph, asks [GetAlwaysAliveValues] for the values whose
    lifetime exceeds one run, and keeps the second result of [GetLiveness],
    the live range of every value.  Both functions belong to the static
    runtime, outside [src/]; they are modelled from the spec (sections 3,
    4.B and 6):
    - a value is always alive when it is a graph input, a graph output or
      an output of a [prim::Constant] node, or when the alias analysis says
      it may alias one of those;
    - the liveness map comes from a backward dataflow pass over the nodes
      in topological order: the timestamp of a node is its position, and a
      value lives from the position of the node that produces it to the
      last position at which it, or a value that may alias it, is read.
    [AliasDb] is reduced to what both functions ask of it, the values each
    value may alias.  The graph's inputs and outputs, which the planner
    itself never reads, are the record [GraphIO].  The theorems show the
    backward pass equal to a declarative reference ([live_range_spec]),
    and what the planner needs of the two results. *)

From S2P Require Import Prelude Arena Graph Liveness.

(** ** The inputs of the analyses *)

(** The alias analysis as far as these passes query it. *)
Record AliasDb := mkAliasDb { may_alias : nat -> list nat }.

(** [graph->inputs()] and [graph->outputs()]. *)
Record GraphIO := mkGraphIO { gio_inputs : list nat; gio_outputs : list nat }.

Definition is_constant (n : Node) : bool := bool_decide (n_kind n = KOp "prim::Constant").

(** [db.mayContainAlias({v}, always_alive)]. *)
Definition mayContainAlias (db : AliasDb) (v : nat) (s : list nat) : bool :=
  existsb (fun a => bool_decide (a ∈ s)) (may_alias db v).

(** ** Always-alive values *)

(** Inputs, outputs and constants. *)
Definition always_alive_base (io : GraphIO) (g : Graph) : list nat :=
  gio_inputs io ++ gio_outputs io ++
  concat (map (fun n => if is_constant n then map v_id (n_outputs n) else []) (g_nodes g)).

(** The second loop: an output of a non-constant node that may alias a
    value already in the set joins it, in graph order. *)
Definition insert_aliases (db : AliasDb) (always_alive : list nat) (n : Node) : list nat :=
  if is_constant n then always_alive
  else fold_left (fun acc v => if mayContainAlias db (v_id v) acc then set_insert (v_id v) acc else acc)
         (n_outputs n) always_alive.

(** [GetAlwaysAliveValues]. *)
Definition GetAlwaysAliveValues (db : AliasDb) (io : GraphIO) (g : Graph) : list nat :=
  fold_left (insert_aliases db) (g_nodes g) (always_alive_base io g).

(** ** The liveness pass *)

(** The values a node reads: its inputs and what they may alias. *)
Definition node_uses (db : AliasDb) (n : Node) : list nat :=
  flat_map (fun u => u :: may_alias db u) (n_inputs n).

(** The state of the backward pass: the last use of each value seen so
    far (positions after the current node) and the ranges found. *)
Record LivenessState := mkLS {
  ls_last_use : list (nat * nat);
  ls_ranges : list (nat * LiveRange) }.

(** An output of the node at position [t]: unless always alive, its range
    runs from [t] to its last use, or to [t] when nothing reads it. *)
Definition define_output (always_alive : list nat) (t : nat) (last_use : list (nat * nat))
    (acc : list (nat * LiveRange)) (v : Value) : list (nat * LiveRange) :=
  if decide (v_id v ∈ always_alive) then acc
  else assoc_insert (v_id v)
         (mkLiveRange (Z.of_nat t) (Z.of_nat (default t (assoc_find (v_id v) last_use)))) acc.

(** The node at position [t], visited after every later node: its
    outputs are defined, then the values it reads are used at [t] (a use
    already seen is a later one and is kept). *)
Definition liveness_step (db : AliasDb) (always_alive : list nat) (t : nat) (n : Node)
    (st : LivenessState) : LivenessState :=
  mkLS (fold_left (fun acc u => assoc_insert u t acc) (node_uses db n) (ls_last_use st))
       (fold_left (define_output always_alive t (ls_last_use st)) (n_outputs n) (ls_ranges st)).

(** The pass over the nodes from position [t] on, last node first. *)
Fixpoint liveness_from (db : AliasDb) (always_alive : list nat) (t : nat) (ns : list Node)
    : LivenessState :=
  match ns with
  | [] => mkLS [] []
  | n :: ns' => liveness_step db always_alive t n (liveness_from db always_alive (S t) ns')
  end.

(** The second component of [GetLiveness]: the live range of every value
    that is not always alive and is produced by a node. *)
Definition GetLiveness (db : AliasDb) (always_alive : list nat) (g : Graph)
    : list (nat * LiveRange) :=
  ls_ranges (liveness_from db always_alive 0 (g_nodes g)).

(** [getManagedStuff]'s calls ([memory_planning.cpp:237-239]). *)
Definition alias_info (db : AliasDb) (io : GraphIO) (g : Graph) : AliasInfo :=
  let always_alive := GetAlwaysAliveValues db io g in
  mkAliasInfo always_alive (GetLiveness db always_alive g).

(** ** The reference: definitions and uses by position *)

(** The position of the node producing [v]. *)
Definition def_time (ns : list Node) (v : nat) : option nat :=
  fst <$> list_find (fun n => v ∈ map v_id (n_outputs n)) ns.

Definition uses_at (db : AliasDb) (ns : list Node) (u : nat) (j : nat) : bool :=
  match ns !! j with Some n => bool_decide (u ∈ node_uses db n) | None => false end.

(** The positions at which [u] is read, in increasing order. *)
Definition use_times (db : AliasDb) (ns : list Node) (u : nat) : list nat :=
  List.filter (uses_at db ns u) (seq 0 (length ns)).

(** The live range of a value: from its definition to its last use. *)
Definition live_range_spec (db : AliasDb) (always_alive : list nat) (ns : list Node) (v : nat)
    : option LiveRange :=
  if decide (v ∈ always_alive) then None
  else (fun i => mkLiveRange (Z.of_nat i)
                   (Z.of_nat (match last (use_times db ns v) with Some j => Nat.max i j | None => i end)))
       <$> def_time ns v.

(** Nodes in topological order: a value a node reads, if some node
    produces it, is produced at an earlier position. *)
Definition topo_ordered (ns : list Node) : bool :=
  forallb (fun '(j, m) => forallb (fun u => match def_time ns u with
                                            | Some i => bool_decide (i < j)%nat
                                            | None => true end) (n_inputs m))
    (imap pair ns).

(** ** The reference by induction on the nodes *)

Lemma last_map {A B} (f : A -> B) (l : list A) : last (map f l) = f <$> last l.
Proof. induction l as [|x l IH]; [done|]. rewrite map_cons, !last_cons, IH. by destruct (last l). Qed.

Lemma use_times_cons db n ns u :
  use_times db (n :: ns) u =
  (if bool_decide (u ∈ node_uses db n) then [0%nat] else []) ++ map S (use_times db ns u).
Proof.
  unfold use_times. cbn [length seq List.filter]. rewrite <- seq_shift, filter_map_swap.
  unfold uses_at at 1. cbn [lookup list_lookup]. by destruct (bool_decide _).
Qed.

Lemma def_time_cons n ns v :
  def_time (n :: ns) v =
  if decide (v ∈ map v_id (n_outputs n)) then Some 0%nat else S <$> def_time ns v.
Proof. unfold def_time. simpl. case_decide; [done|]. by destruct (list_find _ ns) as [[]|]. Qed.

(** The last position at which [u] is read is after every other. *)
Lemma use_times_last_ge db ns u j :
  j ∈ use_times db ns u -> exists l, last (use_times db ns u) = Some l /\ (j <= l)%nat.
Proof.
  revert j. induction ns as [|n ns IH]; intros j Hj; [by apply elem_of_nil in Hj|].
  rewrite use_times_cons in Hj |- *. rewrite last_app, last_map.
  apply elem_of_app in Hj as [Hj|Hj].
  - destruct (bool_decide _); [apply list_elem_of_singleton in Hj as ->|by apply elem_of_nil in Hj].
    destruct (last (use_times db ns u)); simpl; eexists; split; [done|lia|done|lia].
  - apply list_elem_of_fmap in Hj as (j' & -> & Hj'). destruct (IH j' Hj') as (l & -> & Hle).
    exists (S l). split; [done|lia].
Qed.

Lemma elem_of_use_times db ns u j :
  j ∈ use_times db ns u <-> exists n, ns !! j = Some n /\ u ∈ node_uses db n.
Proof.
  unfold use_times, uses_at. rewrite list_elem_of_In, filter_In, in_seq. split.
  - intros [_ Hu]. destruct (ns !! j) as [n|]; [|done]. exists n. split; [done|]. by case_bool_decide.
  - intros (n & Hn & Hu). rewrite Hn. split; [|by case_bool_decide].
    apply lookup_lt_Some in Hn. lia.
Qed.

(** With unique values, the node at position [j] produces its outputs. *)
Lemma def_time_index ns j n v :
  values_unique ns -> ns !! j = Some n -> v ∈ map v_id (n_outputs n) -> def_time ns v = Some j.
Proof.
  revert j. induction ns as [|m ns IH]; intros j Hnd Hj Hv; [done|].
  unfold values_unique in Hnd. cbn [map concat] in Hnd. apply NoDup_app in Hnd as (_ & Hdis & Hnd).
  rewrite def_time_cons. destruct j as [|j]; cbn in Hj.
  - injection Hj as ->. by rewrite decide_True.
  - rewrite decide_False; [by rewrite (IH j)|]. intros Hm. apply (Hdis v Hm).
    apply list_elem_of_In, in_concat. exists (map v_id (n_outputs n)). split; [|by apply list_elem_of_In].
    apply (in_map (fun n => map v_id (n_outputs n))). by apply list_elem_of_lookup_2, list_elem_of_In in Hj.
Qed.

Lemma def_time_Some ns v i :
  def_time ns v = Some i -> exists n, ns !! i = Some n /\ v ∈ map v_id (n_outputs n).
Proof.
  unfold def_time. destruct (list_find _ ns) as [[i' n]|] eqn:E; [|done].
  intros [= <-]. apply list_find_Some in E as (Hn & Hv & _). by exists n.
Qed.

Lemma def_time_not_output ns v :
  v ∉ concat (map (fun n => map v_id (n_outputs n)) ns) -> def_time ns v = None.
Proof.
  intros Hv. destruct (def_time ns v) as [i|] eqn:E; [exfalso|done].
  destruct (def_time_Some _ _ _ E) as (n & Hn & Hout). apply Hv.
  apply list_elem_of_In, in_concat. exists (map v_id (n_outputs n)). split; [|by apply list_elem_of_In].
  apply (in_map (fun n => map v_id (n_outputs n))). by apply list_elem_of_lookup_2, list_elem_of_In in Hn.
Qed.

(** ** The backward pass computes the reference *)

Section Pass.
Context (db : AliasDb) (always_alive : list nat).

(** After the nodes from position [t], a value's recorded last use is the
    last position that reads it. *)
Lemma last_use_from t ns u :
  assoc_find u (ls_last_use (liveness_from db always_alive t ns)) = Nat.add t <$> last (use_times db ns u).
Proof.
  revert t. induction ns as [|n ns IH]; intros t; [done|].
  cbn [liveness_from liveness_step ls_last_use].
  rewrite (assoc_find_fold_insert _ (fun _ => false) (fun u => u) (fun _ => t)) by done.
  rewrite IH, use_times_cons, last_app, last_map, map_id, andb_true_r.
  destruct (last (use_times db ns u)) as [j|]; simpl; [f_equal; lia|].
  destruct (bool_decide (u ∈ node_uses db n)); simpl; [f_equal; lia|done].
Qed.

Lemma define_output_eq t last_use acc v :
  define_output always_alive t last_use acc v =
  if bool_decide (v_id v ∈ always_alive) then acc
  else assoc_insert (v_id v)
         (mkLiveRange (Z.of_nat t) (Z.of_nat (default t (assoc_find (v_id v) last_use)))) acc.
Proof. unfold define_output. by case_bool_decide; [rewrite decide_True|rewrite decide_False]. Qed.

(** After the nodes from position [t], the recorded range of a value is
    the reference's, shifted by [t]. *)
Lemma ranges_from t ns v :
  values_unique ns ->
  assoc_find v (ls_ranges (liveness_from db always_alive t ns)) =
  if decide (v ∈ always_alive) then None
  else (fun i => mkLiveRange (Z.of_nat (t + i))
          (Z.of_nat (t + match last (use_times db ns v) with Some j => Nat.max i j | None => i end)))
       <$> def_time ns v.
Proof.
  revert t. induction ns as [|n ns IH]; intros t Hnd; [by case_decide|].
  pose proof Hnd as Hnd'. unfold values_unique in Hnd'. cbn [map concat] in Hnd'.
  apply NoDup_app in Hnd' as (_ & Hdis & Hrest).
  cbn [liveness_from liveness_step ls_ranges].
  rewrite (assoc_find_fold_insert _ (fun k => bool_decide (k ∈ always_alive)) v_id
             (fun k => mkLiveRange (Z.of_nat t)
                         (Z.of_nat (default t (assoc_find k (ls_last_use (liveness_from db always_alive (S t) ns)))))))
    by apply define_output_eq.
  rewrite (IH (S t) Hrest), def_time_cons, use_times_cons, last_app, last_map.
  destruct (decide (v ∈ map v_id (n_outputs n))) as [Hout|Hout].
  - rewrite (def_time_not_output ns v) by (intros Hin; exact (Hdis v Hout Hin)).
    rewrite (bool_decide_true _ Hout). case_decide as Haa; [by rewrite bool_decide_true|].
    rewrite bool_decide_false by done. cbn. rewrite last_use_from.
    destruct (last (use_times db ns v)) as [j|]; [|destruct (bool_decide (v ∈ node_uses db n))];
      simpl; repeat f_equal; lia.
  - rewrite (bool_decide_false _ Hout). case_decide; [done|].
    destruct (def_time ns v) as [i|]; [|done]. simpl.
    destruct (last (use_times db ns v)) as [j|]; [|destruct (bool_decide (v ∈ node_uses db n))];
      simpl; repeat f_equal; lia.
Qed.

Lemma liveness_ranges_NoDup t ns : NoDup (map fst (ls_ranges (liveness_from db always_alive t ns))).
Proof.
  revert t. induction ns as [|n ns IH]; intros t; [constructor|].
  cbn [liveness_from liveness_step ls_ranges].
  apply fold_left_inv; [apply IH|]. intros acc v _ Hacc. unfold define_output. case_decide; auto with mp.
Qed.
End Pass.

(** What the planner uses of a value's range: it starts at the position
    of the value's producer and ends at or after it and every read. *)
Lemma GetLiveness_def_use db always_alive g v i :
  values_unique (g_nodes g) -> v ∉ always_alive -> def_time (g_nodes g) v = Some i ->
  exists lr, In (v, lr) (GetLiveness db always_alive g) /\ lr_begin lr = Z.of_nat i /\
    Z.of_nat i <= lr_end lr /\
    forall j, j ∈ use_times db (g_nodes g) v -> Z.of_nat j <= lr_end lr.
Proof.
  intros Hnd Haa Hdef. pose proof (ranges_from db always_alive 0 (g_nodes g) v Hnd) as H.
  rewrite decide_False, Hdef in H by done. simpl in H. apply assoc_find_In in H.
  eexists. split; [exact H|]. cbn [lr_begin lr_end]. split_and!; [done| |].
  - destruct (last _); lia.
  - intros j Hj. destruct (use_times_last_ge _ _ _ _ Hj) as (l & El & Hle). rewrite El. lia.
Qed.

Lemma node_uses_input db n u : u ∈ n_inputs n -> u ∈ node_uses db n.
Proof.
  intros Hu. unfold node_uses. apply list_elem_of_In, in_flat_map.
  exists u. split; [by apply list_elem_of_In|by left].
Qed.

(** In a topologically ordered graph, a value read at position [j] is
    produced before [j]. *)
Lemma topo_ordered_spec ns j n u i :
  topo_ordered ns = true -> ns !! j = Some n -> u ∈ n_inputs n -> def_time ns u = Some i -> (i < j)%nat.
Proof.
  unfold topo_ordered. rewrite forallb_forall. intros Htopo Hj Hu Hdef.
  specialize (Htopo (j, n) (proj1 (list_elem_of_In _ _) (elem_of_lookup_imap_2 pair ns n j Hj))).
  apply forallb_forall with (x := u) in Htopo; [|by apply list_elem_of_In].
  rewrite Hdef in Htopo. by apply bool_decide_eq_true in Htopo.
Qed.

(** ** Always-alive values *)

Lemma insert_aliases_mono db acc n x : x ∈ acc -> x ∈ insert_aliases db acc n.
Proof.
  unfold insert_aliases. case_match; [done|]. revert acc.
  induction (n_outputs n) as [|v vs IH]; intros acc Hx; simpl; [done|].
  apply IH. case_match; [|done]. unfold set_insert. case_decide; set_solver.
Qed.

(** Inputs, outputs and outputs of constants stay always alive. *)
Lemma always_alive_base_kept db io g x :
  x ∈ always_alive_base io g -> x ∈ GetAlwaysAliveValues db io g.
Proof.
  unfold GetAlwaysAliveValues. intros Hx. apply fold_left_inv; [done|].
  intros acc n _ Hacc. by apply insert_aliases_mono.
Qed.

(** ** Theorems *)

(** C11. The liveness pass is the reference (spec 4.B: liveness from a
    backward dataflow pass): when value identities are unique, the range
    the liveness map of [getManagedStuff] holds for a value is
    [live_range_spec]: nothing for an always-alive value or one no node
    produces, and otherwise the range from the position of its producer
    to the last position at which it or a value that may alias it is
    read, or to its producer's position when none is later. *)
Theorem GetLiveness_spec db io (g : Graph) v :
  values_unique (g_nodes g) ->
  assoc_find v (ai_live_ranges (alias_info db io g)) =
  live_range_spec db (GetAlwaysAliveValues db io g) (g_nodes g) v.
Proof.
  intros Hnd. unfold alias_info, GetLiveness, live_range_spec. cbn [ai_live_ranges].
  rewrite ranges_from by done. case_decide; [done|]. by destruct (def_time _ v).
Qed.

(** ** Concrete runs *)

(** [%10 = op(%0)], [%11 = view(%10)] (which may alias [%10]) and
    [%12 = op(%11)]: reading [%11] at position 2 keeps [%10] alive until
    then. *)
Definition view_db : AliasDb := mkAliasDb (fun v => if decide (v = 11%nat) then [10%nat] else []).

Definition view_graph : Graph :=
  mkGraph
    [mkNode 1 (KOp "aten::relu") "aten::relu" [0%nat] [mkValue 10 (OtherT "Tensor")] [];
     mkNode 2 (KOp "aten::view") "aten::view" [10%nat] [mkValue 11 (OtherT "Tensor")] [];
     mkNode 3 (KOp "aten::relu") "aten::relu" [11%nat] [mkValue 12 (OtherT "Tensor")] []]
    100 None.

Definition view_io : GraphIO := mkGraphIO [0%nat] [12%nat].

Lemma GetLiveness_spec_witness :
  values_unique (g_nodes view_graph) /\
  assoc_find 10%nat (ai_live_ranges (alias_info view_db view_io view_graph)) = Some (mkLiveRange 0 2).
Proof.
  split; [decide_by_eval|].
  rewrite (GetLiveness_spec view_db view_io view_graph 10%nat) by decide_by_eval. vm_compute. reflexivity.
Defined.
