(* ===== verification/Trace.v ===== *)
(** * Trace-based liveness extraction

    [getLiveRangesFromMemEvents] of [memory_planning.cpp:301-330] sweeps the
    event trace recorded by the tracing allocator, pairs each [Free] with
    the [Allocate] of the same pointer and emits one live range per pair;
    [collectLiveRangesPerNode] (lines 274-299) groups the ranges by the
    frame (operator invocation) that allocated them.  The sweep is modelled
    as the source writes it: it never erases a matched allocation (the
    spec's sweep, section 4.C, does), so its final [allocs.empty()]
    assertion fails on every non-empty trace. *)

From S2P Require Import Prelude Arena.

(** ** The sweep of the source *)

(** The open allocations, keyed by printed pointer
    ([std::unordered_map<std::string, MemEvent>]), the ranges with their
    sizes and the ranges with their frames. *)
Definition SweepState : Type :=
  (list (string * MemEvent) * Managed * list (LiveRange * FrameNodeId))%type.

Definition is_allocate (e : MemEvent) : bool :=
  match me_type e with Allocate => true | Free => false end.

(** The loop body ([memory_planning.cpp:310-326]).  The assertion's second
    argument, [alloc.node_header == mem_event.node_header], is the message
    of [TORCH_INTERNAL_ASSERT], not part of its condition; nothing is
    erased from [allocs]. *)
Definition sweep_step (st : SweepState) (mem_event : MemEvent) : result SweepState :=
  let '(allocs, managed_live_ranges, live_range_node_header) := st in
  match me_type mem_event with
  | Allocate =>
      Ok (assoc_insert (me_ptr_addr mem_event) mem_event allocs,
          managed_live_ranges, live_range_node_header)
  | Free =>
      match assoc_find (me_ptr_addr mem_event) allocs with
      | None => Abort "allocs.count(mem_event.ptr_addr) > 0"
      | Some alloc =>
          (assert! is_allocate alloc && (me_size alloc =? me_size mem_event) &&
                   (me_time alloc <? me_time mem_event) &&
                   String.eqb (me_node_schema alloc) (me_node_schema mem_event)
           as "alloc.type == Allocate && alloc.size == mem_event.size && ..." ;;
           let lvr := mkLiveRange (me_time alloc) (me_time mem_event) in
           Ok (allocs, assoc_insert lvr (me_size alloc) managed_live_ranges,
               live_range_node_header ++
               [(lvr, mkFrameNodeId (me_time alloc) (me_node_schema alloc) (me_node_header alloc))]))%mp
      end
  end.

(** [getLiveRangesFromMemEvents]: the sweep, then [allocs.empty()]. *)
Definition getLiveRangesFromMemEvents (mem_events : list MemEvent)
    : result (Managed * list (LiveRange * FrameNodeId)) :=
  (st <-? fold_result sweep_step mem_events ([], [], []) ;;
   let '(allocs, managed_live_ranges, live_range_node_header) := st in
   assert! (match allocs with [] => true | _ :: _ => false end) as "allocs.empty()" ;;
   Ok (managed_live_ranges, live_range_node_header))%mp.

(** ** Grouping ranges by frame *)

(** [collectLiveRangesPerNode]: group by frame
    ([node_live_ranges[frame_node_id].emplace_back(lvr)]), sort each group
    by [begin], sort the groups by [pc].  The iteration order of the
    [unordered_map] is the order of first occurrence here; [std::sort] is
    modelled by a stable merge sort, one of the orders it may produce. *)
Definition group_step (acc : list (FrameNodeId * list LiveRange)) (item : LiveRange * FrameNodeId)
    : list (FrameNodeId * list LiveRange) :=
  let '(old, acc') := assoc_get_default [] item.2 acc in
  assoc_set item.2 (old ++ [item.1]) acc'.

Definition group_frame_le (a b : FrameNodeId * list LiveRange) : Prop := frame_le a.1 b.1.

#[export] Instance group_frame_le_dec : RelDecision group_frame_le.
Proof. intros a b. unfold group_frame_le. apply _. Defined.
#[export] Instance group_frame_le_total : Total group_frame_le.
Proof. intros a b. unfold group_frame_le, frame_le. lia. Qed.
#[export] Instance group_frame_le_trans : Transitive group_frame_le.
Proof. intros a b c. unfold group_frame_le, frame_le. lia. Qed.

Definition collectLiveRangesPerNode (live_range_node_header : list (LiveRange * FrameNodeId))
    : list (FrameNodeId * list LiveRange) :=
  let node_live_ranges := fold_left group_step live_range_node_header [] in
  let collected := map (fun item => (item.1, merge_sort lr_start_le item.2)) node_live_ranges in
  merge_sort group_frame_le collected.

(** The ranges the trace records for frame [f], in trace order. *)
Definition frame_ranges (f : FrameNodeId) (l : list (LiveRange * FrameNodeId)) : list LiveRange :=
  map fst (List.filter (fun p => bool_decide (p.2 = f)) l).

(** ** Lemmas on the source's sweep *)

Lemma sweep_step_allocs st e st' :
  sweep_step st e = Ok st' ->
  (st.1.1 <> [] -> st'.1.1 <> []) /\ (me_type e = Allocate -> st'.1.1 <> []).
Proof.
  destruct st as [[allocs m] h]. simpl.
  destruct (me_type e) eqn:Ht.
  - intros [= <-]. simpl. unfold assoc_insert.
    destruct (assoc_mem _ _) eqn:E.
    + destruct allocs; [discriminate E|]. split; intros; discriminate.
    + split; intros; by destruct allocs.
  - destruct (assoc_find _ _); [|done].
    destruct (_ && _); simpl; [|done]. intros [= <-]. simpl. split; [done|congruence].
Qed.

(** Once an allocation has been recorded, the open map stays non-empty. *)
Lemma sweep_allocs_nonempty l st st' :
  fold_result sweep_step l st = Ok st' -> st.1.1 <> [] -> st'.1.1 <> [].
Proof.
  intros Hf Hne. apply (fold_result_inv sweep_step (fun s => s.1.1 <> []) l st st'); try done.
  intros x b x' Hx Hs. exact (proj1 (sweep_step_allocs x b x' Hs) Hx).
Qed.

Lemma sweep_allocate_nonempty l st st' :
  fold_result sweep_step l st = Ok st' ->
  (exists e, e ∈ l /\ me_type e = Allocate) -> st'.1.1 <> [].
Proof.
  revert st. induction l as [|e l IH]; intros st Hf [e' [Hin Ht]]; [by apply elem_of_nil in Hin|].
  simpl in Hf. destruct (sweep_step st e) as [x|] eqn:Hs; simpl in Hf; [|done].
  apply elem_of_cons in Hin as [->|Hin].
  - apply (sweep_allocs_nonempty l x); [done|]. exact (proj2 (sweep_step_allocs st e x Hs) Ht).
  - apply (IH x); eauto.
Qed.

(** The source's sweep never erases a matched allocation, so its final
    assertion [allocs.empty()] fails on every non-empty trace: either an
    [Allocate] was recorded and is still in the map, or the first event is
    a [Free] with no recorded allocation. *)
Lemma getLiveRangesFromMemEvents_aborts (mem_events : list MemEvent) :
  mem_events <> [] -> is_ok (getLiveRangesFromMemEvents mem_events) = false.
Proof.
  intros Hne. unfold getLiveRangesFromMemEvents.
  destruct (fold_result sweep_step mem_events ([], [], [])) as [[[allocs m] h]|] eqn:Hf;
    simpl; [|done].
  destruct (existsb is_allocate mem_events) eqn:Ha.
  - apply existsb_exists in Ha as (e & Hin & Hal).
    assert (Hne' : (allocs, m, h).1.1 <> []).
    { apply (sweep_allocate_nonempty mem_events ([], [], [])); [done|].
      exists e. split; [by apply list_elem_of_In|]. unfold is_allocate in Hal.
      by destruct (me_type e). }
    simpl in Hne'. by destruct allocs.
  - exfalso. destruct mem_events as [|e l]; [done|]. simpl in Hf, Ha.
    destruct (me_type e) eqn:Ht; [unfold is_allocate in Ha; by rewrite Ht in Ha|].
    simpl in Hf. discriminate.
Qed.

(** What the loop records is consistent: every range is non-empty and
    every frame's [pc] is its range's [begin]. *)
Definition sweep_records_ok (st : SweepState) : Prop :=
  (forall lvr sz, In (lvr, sz) st.1.2 -> lr_begin lvr < lr_end lvr) /\
  (forall lvr f, In (lvr, f) st.2 -> lr_begin lvr < lr_end lvr /\ fn_pc f = lr_begin lvr).

Lemma sweep_step_records_ok st e st' :
  sweep_records_ok st -> sweep_step st e = Ok st' -> sweep_records_ok st'.
Proof.
  destruct st as [[allocs m] h]. intros [Hm Hh]. unfold sweep_step.
  destruct (me_type e); [intros [= <-]; by split|].
  destruct (assoc_find (me_ptr_addr e) allocs) as [a|]; [|discriminate].
  destruct (is_allocate a && _ && _ && _) eqn:Hc; cbn; [|discriminate].
  intros [= <-]. apply andb_true_iff in Hc as [Hc _]. apply andb_true_iff in Hc as [_ Hlt].
  apply Z.ltb_lt in Hlt. split; cbn [fst snd].
  - intros lvr sz [[= -> _]|Hin]%assoc_insert_In; [done|by apply (Hm lvr sz)].
  - intros lvr f [Hin|[[= <- <-]|[]]]%in_app_or; [by apply (Hh lvr f)|done].
Qed.

(** The spec's trace scenario (section 8). *)
Definition spec_trace : list MemEvent :=
  [mkMemEvent 1 "" "X" "s" "h" 16 Allocate; mkMemEvent 2 "" "Y" "s" "h" 8 Allocate;
   mkMemEvent 5 "" "Y" "s" "h" 8 Free; mkMemEvent 9 "" "X" "s" "h" 16 Free].

(** ** Grouping by frame *)

Lemma frame_ranges_cons f lvr f' l :
  frame_ranges f ((lvr, f') :: l) = if decide (f' = f) then lvr :: frame_ranges f l else frame_ranges f l.
Proof. unfold frame_ranges. simpl. by case_bool_decide; case_decide. Qed.

Lemma frame_ranges_nil f l : f ∉ map snd l -> frame_ranges f l = [].
Proof.
  induction l as [|[lvr f'] l IH]; intros Hf; [done|].
  rewrite frame_ranges_cons. case_decide; [set_solver|]. apply IH. set_solver.
Qed.

(** One step of the grouping loop appends the range to its frame's list,
    creating the list on first sight. *)
Lemma group_step_find acc (item : LiveRange * FrameNodeId) f :
  assoc_find f (group_step acc item) =
  if decide (f = item.2) then Some (default [] (assoc_find f acc) ++ [item.1]) else assoc_find f acc.
Proof.
  destruct item as [lvr f']. unfold group_step, assoc_get_default. simpl.
  destruct (decide (f = f')) as [<-|Hne].
  - destruct (assoc_find f acc) eqn:E; by rewrite assoc_find_set_eq.
  - destruct (assoc_find f' acc) eqn:E; rewrite assoc_find_set_ne by congruence; [done|].
    rewrite assoc_find_app. destruct (assoc_find f acc); [done|]. simpl. by rewrite decide_False.
Qed.

Lemma group_step_NoDup acc item :
  NoDup (map fst acc) -> NoDup (map fst (group_step acc item)).
Proof.
  intros Hnd. unfold group_step, assoc_get_default.
  destruct (assoc_find item.2 acc) eqn:E; apply assoc_set_NoDup; [done|].
  apply assoc_find_None in E. rewrite map_app. apply NoDup_app.
  split_and!; [done| |apply NoDup_singleton]. set_solver.
Qed.

Lemma group_fold_find l acc f :
  assoc_find f (fold_left group_step l acc) =
  if decide (f ∈ map snd l) then Some (default [] (assoc_find f acc) ++ frame_ranges f l)
  else assoc_find f acc.
Proof.
  revert acc. induction l as [|[lvr f'] l IH]; intros acc; simpl; [done|].
  rewrite IH, !group_step_find, frame_ranges_cons. simpl.
  destruct (decide (f = f')) as [<-|Hne].
  - destruct (decide (f = f)) as [_|]; [|done].
    destruct (decide (f ∈ map snd l)) as [Hin|Hin]; destruct (decide (f ∈ f :: map snd l));
      try set_solver; simpl.
    + by rewrite <- app_assoc.
    + by rewrite frame_ranges_nil.
  - destruct (decide (f = f')); [congruence|]. destruct (decide (f' = f)); [congruence|].
    destruct (decide (f ∈ map snd l)), (decide (f ∈ f' :: map snd l)); first [done|set_solver].
Qed.

Lemma group_fold_NoDup l acc :
  NoDup (map fst acc) -> NoDup (map fst (fold_left group_step l acc)).
Proof.
  revert acc. induction l as [|item l IH]; intros acc Hnd; simpl; [done|].
  by apply IH, group_step_NoDup.
Qed.


(** C23. [collectLiveRangesPerNode] groups the ranges by frame: the groups
    come sorted by [pc], one per frame that occurs in its input, and the
    group of a frame is sorted by [begin] and holds exactly the ranges the
    input pairs with that frame (with their multiplicities). *)
Theorem collectLiveRangesPerNode_groups (live_range_node_header : list (LiveRange * FrameNodeId)) :
  let out := collectLiveRangesPerNode live_range_node_header in
  Sorted group_frame_le out /\ NoDup (map fst out) /\
  (forall f, f ∈ map fst out <-> f ∈ map snd live_range_node_header) /\
  (forall f lvrs, (f, lvrs) ∈ out ->
     Sorted lr_start_le lvrs /\ lvrs ≡ₚ frame_ranges f live_range_node_header).
Proof.
  intros out. unfold out, collectLiveRangesPerNode.
  set (nlr := fold_left group_step live_range_node_header []).
  set (collected := map (fun item => (item.1, merge_sort lr_start_le item.2)) nlr).
  assert (Hnd : NoDup (map fst nlr)) by (apply group_fold_NoDup; constructor).
  assert (Hfind : forall f, assoc_find f nlr =
            if decide (f ∈ map snd live_range_node_header)
            then Some (frame_ranges f live_range_node_header) else None)
    by (intros f; apply group_fold_find).
  assert (Hp : merge_sort group_frame_le collected ≡ₚ collected) by apply merge_sort_Permutation.
  assert (Hkeys : map fst collected = map fst nlr) by (unfold collected; by rewrite map_map).
  split_and!.
  - apply (Sorted_merge_sort group_frame_le).
  - by rewrite Hp, Hkeys.
  - intros f. rewrite Hp, Hkeys. split; intros Hin.
    + destruct (decide (f ∈ map snd live_range_node_header)) as [|Hn]; [done|].
      specialize (Hfind f). rewrite decide_False in Hfind by done.
      by apply assoc_find_None in Hfind.
    + destruct (assoc_find f nlr) eqn:E.
      * apply assoc_find_In in E. apply list_elem_of_In, in_map_iff. by exists (f, l).
      * rewrite Hfind, decide_True in E by done. discriminate.
  - intros f lvrs Hin. rewrite Hp in Hin. unfold collected in Hin.
    apply list_elem_of_In, in_map_iff in Hin as ([f' lvrs0] & [= <- <-] & Hin).
    pose proof (assoc_find_In_NoDup f' lvrs0 nlr Hnd Hin) as E. rewrite Hfind in E.
    case_decide; [|discriminate]. injection E as <-. simpl.
    split; [apply (Sorted_merge_sort lr_start_le)|apply merge_sort_Permutation].
Qed.

(** ** What the sweep records *)

(** C16. Whatever the trace, well formed or not, every range the loop of
    [getLiveRangesFromMemEvents] has recorded when it completes is
    non-empty ([begin < end], the assertion's [alloc.time <
    mem_event.time]) and is paired with a frame whose [pc] is its
    [begin]: the loop never records a pair its assertion rejects. *)
Theorem sweep_records_consistent (mem_events : list MemEvent) (st : SweepState) :
  fold_result sweep_step mem_events ([], [], []) = Ok st -> sweep_records_ok st.
Proof.
  apply fold_result_inv; [exact sweep_step_records_ok|].
  split; cbn; [by intros ?? []|by intros ?? []].
Qed.

Lemma sweep_records_consistent_witness :
  exists st, fold_result sweep_step spec_trace ([], [], []) = Ok st /\ sweep_records_ok st.
Proof.
  destruct (fold_result sweep_step spec_trace ([], [], [])) as [st|e] eqn:E.
  - exists st. split; [reflexivity|]. exact (sweep_records_consistent spec_trace st E).
  - vm_compute in E. discriminate.
Defined.
