(* ===== verification/Roundtrip.v ===== *)
(** * The sweep's round trip

    Spec property 4 (trace round trip) for the loop of
    [getLiveRangesFromMemEvents] ([memory_planning.cpp:310-326], [Trace.v]):
    a chronologically ordered trace made of [n] Allocate/Free pairs (same
    pointer, size and schema, the Free later, pointers and ranges
    distinct) is swept without an assertion failure into exactly the [n]
    ranges [(alloc.time, free.time)] with the allocations' sizes and
    frames.  The loop leaves every allocation in [allocs], which is why the
    function's final [allocs.empty()] still fails ([Materialize.v], C9). *)

From stdpp Require Import sorting.
From S2P Require Import Prelude Arena Trace.

(** ** Traces made of pairs *)

(** An [Allocate] event and the [Free] event of the same allocation. *)
Definition pair_ok (a f : MemEvent) : Prop :=
  me_type a = Allocate /\ me_type f = Free /\ me_ptr_addr f = me_ptr_addr a /\
  me_size f = me_size a /\ me_time a < me_time f /\ me_node_schema f = me_node_schema a.

#[export] Instance pair_ok_dec a f : Decision (pair_ok a f).
Proof. unfold pair_ok. apply _. Defined.

Definition pair_range (p : MemEvent * MemEvent) : LiveRange := mkLiveRange (me_time p.1) (me_time p.2).

Definition pair_frame (p : MemEvent * MemEvent) : FrameNodeId :=
  mkFrameNodeId (me_time p.1) (me_node_schema p.1) (me_node_header p.1).

(** The events of the pairs, each allocation followed by its release. *)
Definition pair_events (pairs : list (MemEvent * MemEvent)) : list MemEvent :=
  concat (map (fun p => [p.1; p.2]) pairs).

Definition time_le (e e' : MemEvent) : Prop := me_time e <= me_time e'.

#[export] Instance time_le_dec : RelDecision time_le.
Proof. intros e e'. unfold time_le. apply _. Defined.
#[export] Instance time_le_trans : Transitive time_le.
Proof. intros e1 e2 e3. unfold time_le. lia. Qed.

(** ** Generic lemmas *)

Lemma NoDup_map_inj_in {A B} (f : A -> B) l x y :
  NoDup (map f l) -> x ∈ l -> y ∈ l -> f x = f y -> x = y.
Proof.
  induction l as [|z l IH]; intros Hnd Hx Hy Hf; [by apply elem_of_nil in Hx|].
  simpl in Hnd. apply NoDup_cons in Hnd as [Hz Hnd].
  assert (Hin : forall u, u ∈ l -> f u ∈ map f l).
  { intros u Hu. apply list_elem_of_In, in_map. by apply list_elem_of_In. }
  apply elem_of_cons in Hx as [->|Hx], Hy as [->|Hy]; try done.
  - exfalso. apply Hz. rewrite Hf. by apply Hin.
  - exfalso. apply Hz. rewrite <- Hf. by apply Hin.
  - by apply IH.
Qed.

Lemma NoDup_map_inv' {A B} (f : A -> B) (l : list A) : NoDup (map f l) -> NoDup l.
Proof. rewrite !NoDup_ListNoDup. apply NoDup_map_inv. Qed.

Lemma StronglySorted_mid {A} (R : A -> A -> Prop) l1 x l2 y :
  StronglySorted R (l1 ++ x :: l2) -> y ∈ l2 -> R x y.
Proof.
  induction l1 as [|z l1 IH]; simpl; intros H Hy.
  - apply StronglySorted_inv in H as [_ HF]. rewrite List.Forall_forall in HF.
    apply HF. by apply list_elem_of_In.
  - apply StronglySorted_inv in H as [H _]. by apply IH.
Qed.

Lemma pair_events_elem e pairs :
  e ∈ pair_events pairs <-> exists q, q ∈ pairs /\ (e = q.1 \/ e = q.2).
Proof.
  unfold pair_events. rewrite list_elem_of_In, in_concat. split.
  - intros (l & Hl & He). apply in_map_iff in Hl as (q & <- & Hq).
    exists q. split; [by apply list_elem_of_In|]. destruct He as [<-|[<-|[]]]; auto.
  - intros (q & Hq & He). exists [q.1; q.2]. split.
    + apply in_map_iff. exists q. split; [done|by apply list_elem_of_In].
    + destruct He as [-> | ->]; simpl; auto.
Qed.

Lemma pair_ok_ptr q : pair_ok q.1 q.2 -> me_ptr_addr q.2 = me_ptr_addr q.1.
Proof. by intros (_ & _ & ? & _). Qed.

Lemma pair_ok_ne q : pair_ok q.1 q.2 -> q.1 <> q.2.
Proof. intros (Ha & Hf & _) E. rewrite E, Hf in Ha. discriminate. Qed.

(** Distinct pointers make the pairs' events distinct. *)
Lemma pair_events_NoDup pairs :
  Forall (fun p => pair_ok p.1 p.2) pairs -> NoDup (map (fun p => me_ptr_addr p.1) pairs) ->
  NoDup (pair_events pairs).
Proof.
  induction pairs as [|q pairs IH]; intros Hok Hnd; [constructor|].
  apply Forall_cons in Hok as [Hq Hok]. simpl in Hnd. apply NoDup_cons in Hnd as [Hqn Hnd].
  assert (Hout : forall e, e ∈ pair_events pairs -> me_ptr_addr e <> me_ptr_addr q.1).
  { intros e (q' & Hq' & He)%pair_events_elem E. apply Hqn.
    rewrite List.Forall_forall in Hok. apply list_elem_of_In in Hq' as Hq'i.
    assert (Hp : me_ptr_addr e = me_ptr_addr q'.1)
      by (destruct He as [->| ->]; [done|by apply pair_ok_ptr, Hok]).
    apply list_elem_of_In, in_map_iff. exists q'. split; [congruence|done]. }
  change (NoDup (q.1 :: q.2 :: pair_events pairs)). constructor; [|constructor].
  - rewrite elem_of_cons. intros [E|Hin]; [by apply (pair_ok_ne q)|by apply (Hout _ Hin)].
  - intros Hin. apply (Hout _ Hin). by apply pair_ok_ptr.
  - by apply IH.
Qed.

(** ** The sweep on such a trace *)

Section SweepRoundtrip.
Context (pairs : list (MemEvent * MemEvent)) (evs : list MemEvent).
Hypothesis pairs_ok : Forall (fun p => pair_ok p.1 p.2) pairs.
Hypothesis pairs_ptr : NoDup (map (fun p => me_ptr_addr p.1) pairs).
Hypothesis pairs_range : NoDup (map pair_range pairs).
Hypothesis evs_perm : evs ≡ₚ pair_events pairs.
Hypothesis evs_sorted : Sorted time_le evs.

(** What the loop holds after the prefix [p] of the trace: the open map
    holds the allocations of [p], by pointer; the ranges and frames are
    those of the pairs released in [p]. *)
Definition sweep_inv (p : list MemEvent) (st : SweepState) : Prop :=
  let '(allocs, managed, header) := st in
  NoDup (map fst allocs) /\
  (forall k e, (k, e) ∈ allocs <-> e ∈ p /\ me_type e = Allocate /\ me_ptr_addr e = k) /\
  NoDup (map fst managed) /\
  (forall x, x ∈ managed <-> exists q, q ∈ pairs /\ q.2 ∈ p /\ x = (pair_range q, me_size q.1)) /\
  NoDup header /\
  (forall y, y ∈ header <-> exists q, q ∈ pairs /\ q.2 ∈ p /\ y = (pair_range q, pair_frame q)).

Lemma in_pairs_ok q : q ∈ pairs -> pair_ok q.1 q.2.
Proof. rewrite List.Forall_forall in pairs_ok. intros Hq. apply pairs_ok. by apply list_elem_of_In. Qed.

Lemma evs_elem e : e ∈ evs <-> exists q, q ∈ pairs /\ (e = q.1 \/ e = q.2).
Proof. rewrite evs_perm. apply pair_events_elem. Qed.

Lemma evs_NoDup : NoDup evs.
Proof. rewrite evs_perm. by apply pair_events_NoDup. Qed.

Lemma pair_by_ptr q q' : q ∈ pairs -> q' ∈ pairs -> me_ptr_addr q.1 = me_ptr_addr q'.1 -> q = q'.
Proof. by apply (NoDup_map_inj_in (fun p => me_ptr_addr p.1)). Qed.

Lemma pair_by_range q q' : q ∈ pairs -> q' ∈ pairs -> pair_range q = pair_range q' -> q = q'.
Proof. by apply (NoDup_map_inj_in pair_range). Qed.

(** An [Allocate] event of the trace is the first event of its pair. *)
Lemma evs_allocate e : e ∈ evs -> me_type e = Allocate -> exists q, q ∈ pairs /\ e = q.1.
Proof.
  intros (q & Hq & [->| ->])%evs_elem Ht; [by exists q|].
  destruct (in_pairs_ok q Hq) as (_ & Hf & _). congruence.
Qed.

Lemma evs_split p e r : evs = p ++ e :: r -> e ∉ p /\ e ∉ r.
Proof.
  intros Hevs. pose proof evs_NoDup as Hnd. rewrite Hevs in Hnd.
  apply NoDup_app in Hnd as (_ & Hdisj & Hnd). apply NoDup_cons in Hnd as [Hr _].
  split; [|done]. intros Hp. apply (Hdisj e Hp). apply elem_of_cons. by left.
Qed.

Lemma elem_of_snoc_type (x e : MemEvent) p : me_type x <> me_type e -> x ∈ p ++ [e] <-> x ∈ p.
Proof.
  intros Hne. rewrite elem_of_app, list_elem_of_singleton.
  split; [intros [?| ->]; [done|contradiction]|by left].
Qed.

(** The pairs released in a prefix do not change with an [Allocate]. *)
Lemma released_snoc_alloc {X} (f : MemEvent * MemEvent -> X) p e x :
  me_type e = Allocate ->
  (exists q, q ∈ pairs /\ q.2 ∈ p ++ [e] /\ x = f q) <-> (exists q, q ∈ pairs /\ q.2 ∈ p /\ x = f q).
Proof.
  intros Ht. split; intros (q & Hq & Hp & ->); exists q; split_and!; try done.
  - revert Hp. apply elem_of_snoc_type. destruct (in_pairs_ok q Hq) as (_ & Hf & _). congruence.
  - set_solver.
Qed.

(** A [Free] releases its own pair only. *)
Lemma released_snoc_free {X} (f : MemEvent * MemEvent -> X) p q x :
  q ∈ pairs ->
  (exists q', q' ∈ pairs /\ q'.2 ∈ p ++ [q.2] /\ x = f q') <->
  (exists q', q' ∈ pairs /\ q'.2 ∈ p /\ x = f q') \/ x = f q.
Proof.
  intros Hq. split.
  - intros (q' & Hq' & Hp & ->). apply elem_of_app in Hp as [Hp|Hp%list_elem_of_singleton]; [left; eauto|].
    right. f_equal. apply pair_by_ptr; [done|done|].
    rewrite <- (pair_ok_ptr q' (in_pairs_ok q' Hq')), <- (pair_ok_ptr q (in_pairs_ok q Hq)). by rewrite Hp.
  - intros [(q' & Hq' & Hp & ->)| ->]; [exists q'|exists q]; split_and!; try done; set_solver.
Qed.

Lemma sweep_step_allocate p e r allocs managed header :
  evs = p ++ e :: r -> me_type e = Allocate -> sweep_inv p (allocs, managed, header) ->
  exists st', sweep_step (allocs, managed, header) e = Ok st' /\ sweep_inv (p ++ [e]) st'.
Proof.
  intros Hevs Ht (Hnda & Ha & Hndm & Hm & Hndh & Hh).
  assert (He : e ∈ evs) by (rewrite Hevs; set_solver).
  destruct (evs_allocate e He Ht) as (q & Hq & ->).
  destruct (evs_split p q.1 r Hevs) as [Hnp _].
  assert (Hfresh : me_ptr_addr q.1 ∉ map fst allocs).
  { intros (x & Hx & Hin)%list_elem_of_In%in_map_iff. destruct x as [k e'].
    apply list_elem_of_In, Ha in Hin as (Hp & Ht' & Hptr'). simpl in Hx. subst k.
    assert (He' : e' ∈ evs) by (rewrite Hevs; set_solver).
    destruct (evs_allocate e' He' Ht') as (q' & Hq' & ->).
    by rewrite (pair_by_ptr q' q Hq' Hq Hptr') in Hp. }
  eexists. split; [unfold sweep_step; by rewrite Ht|].
  rewrite (assoc_insert_fresh _ _ _ Hfresh).
  split_and!; [|intros k v|done| intros x|done|intros y].
  - rewrite map_app. apply NoDup_app. split_and!; [done| |apply NoDup_singleton].
    intros k Hk Hk2. cbn [map fst] in Hk2. apply list_elem_of_singleton in Hk2. by subst k.
  - rewrite elem_of_app, list_elem_of_singleton, Ha, elem_of_app, list_elem_of_singleton.
    split; [intros [(? & ? & ?)|[= -> ->]]; auto|].
    intros [[Hp| ->] [Ht' Hk]]; [by left|by right; subst k].
  - rewrite Hm. symmetry. by apply released_snoc_alloc.
  - rewrite Hh. symmetry. by apply released_snoc_alloc.
Qed.

Lemma sweep_step_free p e r allocs managed header :
  evs = p ++ e :: r -> me_type e = Free -> sweep_inv p (allocs, managed, header) ->
  exists st', sweep_step (allocs, managed, header) e = Ok st' /\ sweep_inv (p ++ [e]) st'.
Proof.
  intros Hevs Ht (Hnda & Ha & Hndm & Hm & Hndh & Hh).
  assert (He : e ∈ evs) by (rewrite Hevs; set_solver).
  destruct (proj1 (evs_elem e) He) as (q & Hq & [-> | ->]).
  { destruct (in_pairs_ok q Hq) as (Hta & _). congruence. }
  destruct (in_pairs_ok q Hq) as (Hta & Htf & Hptr & Hsize & Htime & Hschema).
  destruct (evs_split p q.2 r Hevs) as [Hnp _].
  (* The allocation precedes its release in a chronological trace. *)
  assert (Hap : q.1 ∈ p).
  { assert (Hq1 : q.1 ∈ evs) by (apply evs_elem; eauto).
    assert (Hss : StronglySorted time_le (p ++ q.2 :: r)) by (rewrite <- Hevs; apply (Sorted.Sorted_StronglySorted (R := time_le)); [intros ???; apply time_le_trans|exact evs_sorted]).
    rewrite Hevs in Hq1. apply elem_of_app in Hq1 as [?|Hq1]; [done|exfalso].
    apply elem_of_cons in Hq1 as [E|Hr]; [by apply (pair_ok_ne q (in_pairs_ok q Hq))|].
    pose proof (StronglySorted_mid time_le p q.2 r q.1 Hss Hr) as Hle. unfold time_le in Hle. lia. }
  assert (Hfind : assoc_find (me_ptr_addr q.2) allocs = Some q.1).
  { rewrite Hptr. apply assoc_find_In_NoDup; [done|]. apply list_elem_of_In, Ha. done. }
  assert (Hfresh : pair_range q ∉ map fst managed).
  { intros (x & Hx & Hin)%list_elem_of_In%in_map_iff.
    apply list_elem_of_In, Hm in Hin as (q' & Hq' & Hp' & ->). simpl in Hx.
    by rewrite (pair_by_range q' q Hq' Hq Hx) in Hp'. }
  assert (Hnew : (pair_range q, pair_frame q) ∉ header).
  { intros (q' & Hq' & Hp' & E)%Hh. apply (f_equal fst) in E as Er. cbn [fst] in Er.
    by rewrite <- (pair_by_range q q' Hq Hq' Er) in Hp'. }
  eexists. split.
  { unfold sweep_step. rewrite Ht, Hfind. unfold is_allocate.
    rewrite Hta, Hsize, Z.eqb_refl, (proj2 (Z.ltb_lt _ _) Htime), Hschema, String.eqb_refl.
    reflexivity. }
  rewrite (assoc_insert_fresh _ _ _ Hfresh).
  split_and!; [done|intros k v| |intros x| |intros y].
  - rewrite !Ha. split; intros (Hp & Ht' & Hk); split_and!; try done; [set_solver|].
    revert Hp. apply elem_of_snoc_type. congruence.
  - rewrite map_app. apply NoDup_app. split_and!; [done| |apply NoDup_singleton].
    intros k Hk Hk2. cbn [map fst] in Hk2. apply list_elem_of_singleton in Hk2. by subst k.
  - etransitivity; [|symmetry; by apply (released_snoc_free (fun q => (pair_range q, me_size q.1)))].
    cbv beta. by rewrite elem_of_app, list_elem_of_singleton, Hm.
  - apply NoDup_app. split_and!; [done| |apply NoDup_singleton].
    intros z Hz ->%list_elem_of_singleton. done.
  - etransitivity; [|symmetry; by apply (released_snoc_free (fun q => (pair_range q, pair_frame q)))].
    cbv beta. by rewrite elem_of_app, list_elem_of_singleton, Hh.
Qed.

(** The loop runs through every prefix of the trace. *)
Lemma sweep_prefix p r :
  evs = p ++ r -> exists st, fold_result sweep_step p ([], [], []) = Ok st /\ sweep_inv p st.
Proof.
  revert r. induction p as [|e p IH] using rev_ind; intros r Hevs.
  - exists ([], [], []). split; [done|]. cbn.
    split_and!; try apply NoDup_nil_2; intros;
      first [set_solver|split; [intros ?%elem_of_nil; done|intros (? & ? & ?%elem_of_nil & ?); done]].
  - destruct (IH (e :: r)) as ([[allocs managed] header] & Hf & Hinv); [by rewrite Hevs, <- app_assoc|].
    assert (Hevs' : evs = p ++ e :: r) by (by rewrite Hevs, <- app_assoc).
    assert (Hs : exists st', sweep_step (allocs, managed, header) e = Ok st' /\ sweep_inv (p ++ [e]) st').
    { destruct (me_type e) eqn:Ht; [by eapply sweep_step_allocate|by eapply sweep_step_free]. }
    destruct Hs as (st' & Hs & Hinv'). exists st'. split; [|done].
    rewrite fold_result_app, Hf. cbn [rbind fold_result]. rewrite Hs. done.
Qed.

(** C15. The trace round trip (spec property 4) for the loop of
    [getLiveRangesFromMemEvents]: on a chronologically ordered trace made
    of Allocate/Free pairs (same pointer, size and schema, the Free
    strictly later), with distinct pointers and distinct ranges, the loop
    passes every assertion and records exactly one range
    [(alloc.time, free.time)] per pair with the allocation's size and
    frame, while every allocation is still in [allocs]. *)
Theorem sweep_roundtrip :
  exists allocs managed header,
    fold_result sweep_step evs ([], [], []) = Ok (allocs, managed, header) /\
    managed ≡ₚ map (fun q => (pair_range q, me_size q.1)) pairs /\
    header ≡ₚ map (fun q => (pair_range q, pair_frame q)) pairs /\
    allocs ≡ₚ map (fun q => (me_ptr_addr q.1, q.1)) pairs.
Proof.
  destruct (sweep_prefix evs [] (eq_sym (app_nil_r evs)))
    as ([[allocs managed] header] & Hf & Hnda & Ha & Hndm & Hm & Hndh & Hh).
  assert (Hall : forall q, q ∈ pairs -> q.2 ∈ evs) by (intros q Hq; apply evs_elem; eauto).
  exists allocs, managed, header. split_and!; [done| | |].
  - apply NoDup_Permutation; [by apply (NoDup_map_inv' fst)| |].
    + apply (NoDup_map_inv' fst). rewrite map_map. exact pairs_range.
    + intros x. rewrite Hm, list_elem_of_In, in_map_iff.
      split; [intros (q & Hq & _ & ->); exists q; split; [done|by apply list_elem_of_In]|].
      intros (q & <- & Hq%list_elem_of_In). exists q. auto.
  - apply NoDup_Permutation; [done| |].
    + apply (NoDup_map_inv' fst). rewrite map_map. exact pairs_range.
    + intros y. rewrite Hh, list_elem_of_In, in_map_iff.
      split; [intros (q & Hq & _ & ->); exists q; split; [done|by apply list_elem_of_In]|].
      intros (q & <- & Hq%list_elem_of_In). exists q. auto.
  - apply NoDup_Permutation; [by apply (NoDup_map_inv' fst)| |].
    + apply (NoDup_map_inv' fst). rewrite map_map. exact pairs_ptr.
    + intros [k v]. rewrite Ha. split.
      * intros (Hv & Ht & <-). destruct (evs_allocate v Hv Ht) as (q & Hq & ->).
        apply list_elem_of_In, in_map_iff. exists q. split; [done|by apply list_elem_of_In].
      * intros (q & [= <- <-] & Hq%list_elem_of_In)%list_elem_of_In%in_map_iff.
        split_and!; [|by destruct (in_pairs_ok q Hq)|done].
        apply evs_elem. eauto.
Qed.
End SweepRoundtrip.

(** The spec's trace scenario (section 8): [X] is allocated at 1 and
    freed at 9, [Y] allocated at 2 and freed at 5; the loop records
    [[1, 9]] with 16 bytes and [[2, 5]] with 8 bytes. *)
Definition spec_pairs : list (MemEvent * MemEvent) :=
  [(mkMemEvent 1 "" "X" "s" "h" 16 Allocate, mkMemEvent 9 "" "X" "s" "h" 16 Free);
   (mkMemEvent 2 "" "Y" "s" "h" 8 Allocate, mkMemEvent 5 "" "Y" "s" "h" 8 Free)].

Lemma sweep_roundtrip_witness :
  Forall (fun p => pair_ok p.1 p.2) spec_pairs /\
  NoDup (map (fun p => me_ptr_addr p.1) spec_pairs) /\ NoDup (map pair_range spec_pairs) /\
  spec_trace ≡ₚ pair_events spec_pairs /\ Sorted time_le spec_trace /\
  exists allocs managed header,
    fold_result sweep_step spec_trace ([], [], []) = Ok (allocs, managed, header) /\
    managed ≡ₚ [(mkLiveRange 1 9, 16); (mkLiveRange 2 5, 8)] /\
    header ≡ₚ map (fun q => (pair_range q, pair_frame q)) spec_pairs /\
    allocs ≡ₚ map (fun q => (me_ptr_addr q.1, q.1)) spec_pairs.
Proof.
  assert (H1 : Forall (fun p => pair_ok p.1 p.2) spec_pairs) by decide_by_eval.
  assert (H2 : NoDup (map (fun p => me_ptr_addr p.1) spec_pairs)) by decide_by_eval.
  assert (H3 : NoDup (map pair_range spec_pairs)) by decide_by_eval.
  assert (H4 : spec_trace ≡ₚ pair_events spec_pairs) by decide_by_eval.
  assert (H5 : Sorted time_le spec_trace) by decide_by_eval.
  refine (conj H1 (conj H2 (conj H3 (conj H4 (conj H5 _))))).
  exact (sweep_roundtrip spec_pairs spec_trace H1 H2 H3 H4 H5).
Defined.
