(* ===== verification/Materialize.v ===== *)
(** * Plan materialisation and the two planning drivers

    The last stage of the planner ([memory_planning.cpp:84-176]) writes the
    plan into the graph: [insertAllocStorageNode] puts one
    [prim::AllocateStorage] node of the arena's total size at the front,
    [insertAllocTensorNodes] puts one [prim::AllocateTensor] node before the
    producer of every managed value and gives the producer its output as an
    extra input.  [planMemory] (lines 374-432) composes the stages;
    trace mode is in [TraceMode.v].  All of it
    runs in the exception-state monad over the graph: a check that fails
    half way leaves the nodes already inserted in the graph.  The theorems
    about the static pipeline use linear scan and greedy by size only
    through their contract [PackerCorrect]. *)

From S2P Require Import Prelude Arena Packing Graph Liveness Trace.

(** [enum class Strategy]. *)
Inductive Strategy := NAIVE | LINEAR_SCAN | GREEDY_BY_SIZE | GREEDY_BY_BREADTH.

(** ** Node construction *)

(** [insertAllocStorageNode] ([memory_planning.cpp:84-98]): create the
    storage node, record the total size and the device the graph runs on
    (the host when none is found), and insert it before the first node. *)
Definition insertAllocStorageNode (total_size : Z) : GraphM Node :=
  (storage <-! gcreate KAllocateStorage 1 ;;
   let storage := node_set_attr "total_size" (AInt total_size) storage in
   g <-! eget ;;
   let device := match g_device g with Some d => d | None => kCPU end in
   let storage := node_set_attr "device" (AInt device) storage in
   _ <-! ginsertFront storage ;;
   eret storage)%mp.

Definition region_of (allocations : Plan) (lvr : LiveRange) : Region :=
  match assoc_find lvr allocations with Some r => r | None => mkRegion 0 0 end.

Definition value_of (vid : nat) (n : Node) : option Value :=
  List.find (fun v => Nat.eqb (v_id v) vid) (n_outputs n).

(** One iteration of [insertAllocTensorNodes] ([memory_planning.cpp:107-136]),
    mutations in the order of the source: the producer gets the new node's
    output as an input, the new node is inserted before the producer and
    gets the storage as input; then the type is read, the bound checked and
    the attributes set.  [allocations[lvr]] yields [Region{0, 0}] for a
    range the plan lacks. *)
Definition insertAllocTensor (storage : Node) (total_size device : Z) (allocations : Plan)
    (item : LiveRange * nat) : GraphM unit :=
  let '(lvr, allocation) := item in
  let region := region_of allocations lvr in
  (g <-! eget ;;
   match producer_of allocation (g_nodes g) with
   | None => ethrow "value without a producing node"
   | Some node =>
       alloc <-! gcreate KAllocateTensor 1 ;;
       _ <-! gaddInput (n_id node) (node_output alloc) ;;
       _ <-! ginsertBefore alloc (n_id node) ;;
       _ <-! gaddInput (n_id alloc) (node_output storage) ;;
       match value_of allocation node with
       | Some (mkValue _ (TensorT ttp)) =>
           let '(sizes, strides) := getSizesStrides ttp in
           _ <-! echeck (wrap64 (reg_offset region + reg_size region) <=? total_size)
                   "trying to create an allocation that exceeds previously planned memory" ;;
           _ <-! gsetAttr (n_id alloc) "size" (AInt (reg_size region)) ;;
           _ <-! gsetAttr (n_id alloc) "offset" (AInt (reg_offset region)) ;;
           _ <-! gsetAttr (n_id alloc) "sizes" (AInts sizes) ;;
           _ <-! gsetAttr (n_id alloc) "stride" (AInts strides) ;;
           _ <-! gsetAttr (n_id alloc) "device" (AInt device) ;;
           match tt_scalar_type ttp with
           | Some st => gsetAttr (n_id alloc) "dtype" (AInt (scalarTypeIndex st))
           | None => ethrow "bad_optional_access"
           end
       | _ => ethrow "expected a TensorType"
       end
   end)%mp.

(** [insertAllocTensorNodes] ([memory_planning.cpp:100-137]): one iteration
    per entry of [manage_range_values], in its (ascending [begin]) order. *)
Definition insertAllocTensorNodes (storage : Node) (allocations : Plan)
    (manage_range_values : list (LiveRange * nat)) : GraphM unit :=
  match attr_int "total_size" storage, attr_int "device" storage with
  | Some total_size, Some device =>
      emapM (insertAllocTensor storage total_size device allocations) manage_range_values
  | _, _ => ethrow "missing attribute"
  end.

(** ** The drivers *)

(** [managed_live_ranges[managed_value_ranges[item.first]] = item.second]
    over [managed_value_sizes] ([memory_planning.cpp:381-384]): keyed by the
    live range, so values with equal ranges share one entry, the last one
    visited giving the size; [operator[]] on a value without a range inserts
    the default [LiveRange{0, 0}] into [managed_value_ranges]. *)
Definition key_by_range_step (acc : Managed * list (nat * LiveRange)) (item : nat * Z)
    : Managed * list (nat * LiveRange) :=
  let '(lvr, mvr) := assoc_get_default (mkLiveRange 0 0) item.1 acc.2 in
  (assoc_set lvr item.2 acc.1, mvr).

Definition key_by_range (managed_value_sizes : list (nat * Z))
    (managed_value_ranges : list (nat * LiveRange)) : Managed * list (nat * LiveRange) :=
  fold_left key_by_range_step managed_value_sizes ([], managed_value_ranges).

(** [std::map<LiveRange, const Value*, live_range_start_cmp>::insert]: the
    map is ordered by [begin] and two ranges with the same [begin] are the
    same key, so the second is not inserted. *)
Fixpoint smap_insert (k : LiveRange) (v : nat) (m : list (LiveRange * nat)) : list (LiveRange * nat) :=
  match m with
  | [] => [(k, v)]
  | (k', v') :: m' =>
      if live_range_start_cmp k k' then (k, v) :: m
      else if live_range_start_cmp k' k then (k', v') :: smap_insert k v m'
      else m
  end.

(** The loop building [managed_range_values] ([memory_planning.cpp:410-420]). *)
Definition managed_range_values_of (managed_value_ranges : list (nat * LiveRange))
    : list (LiveRange * nat) :=
  fold_left (fun m item => smap_insert item.2 item.1 m) managed_value_ranges [].

(** [printAllocation] ([memory_planning.cpp:263-272]): the lines it
    prints, one per entry of [managed_ranges] in the map's order, each the
    value (its debug name; here its identity), the range and
    [allocations[lvr]].  [operator[]] runs on the copy the function
    receives by value, so a range the plan lacks prints [Region{0, 0}]
    and the caller's plan is not changed; the output has no other
    effect. *)
Definition printAllocation (allocations : Plan) (managed_ranges : list (LiveRange * nat))
    : list (nat * LiveRange * Region) :=
  map (fun item => (item.2, item.1, region_of allocations item.1)) managed_ranges.

(** The position of a node in the schedule, its timestamp for greedy by
    breadth. *)
Fixpoint index_of (id : nat) (ns : list Node) (i : Z) : Z :=
  match ns with
  | [] => i
  | m :: ns' => if Nat.eqb (n_id m) id then i else index_of id ns' (i + 1)
  end.

Definition ops_of (g : Graph) (out_nodes : list Node) : list GreedyByBreadth.Op :=
  map (fun n => (index_of (n_id n) (g_nodes g) 0, map v_id (n_outputs n))) out_nodes.

(** The [switch (strat)] of [planMemory] ([memory_planning.cpp:387-406]):
    no plan for [NAIVE]. *)
Definition static_plan (strat : Strategy) (g : Graph) (out_nodes : list Node)
    (managed_value_sizes : list (nat * Z)) (managed_value_ranges : list (nat * LiveRange))
    (managed_live_ranges : Managed) : option Plan :=
  match strat with
  | NAIVE => None
  | LINEAR_SCAN => Some (LinearScan.linearScanHeuristic managed_live_ranges)
  | GREEDY_BY_SIZE => Some (GreedyBySize.greedyBySize managed_live_ranges)
  | GREEDY_BY_BREADTH =>
      Some (GreedyByBreadth.greedyByOperatorBreadth managed_value_sizes managed_value_ranges
              (ops_of g out_nodes))
  end.

(** [planMemory] ([memory_planning.cpp:374-432]). *)
Definition planMemory (reg : Registry) (isOpt : Node -> bool) (ai : AliasInfo)
    (strat : Strategy) : GraphM unit :=
  (g <-! eget ;;
   let '(out_nodes, managed_value_sizes, managed_value_ranges) := getManagedStuff reg isOpt g ai in
   let '(managed_live_ranges, managed_value_ranges') :=
     key_by_range managed_value_sizes managed_value_ranges in
   match static_plan strat g out_nodes managed_value_sizes managed_value_ranges'
           managed_live_ranges with
   | None => eret tt
   | Some allocations =>
       let total_size := getTotalAllocationSize allocations in
       let managed_range_values := managed_range_values_of managed_value_ranges' in
       storage <-! insertAllocStorageNode total_size ;;
       insertAllocTensorNodes storage allocations managed_range_values
   end)%mp.

(** ** Lemmas on the drivers' maps *)

Lemma key_by_range_step_find (acc : Managed * list (nat * LiveRange)) item v lr :
  assoc_find v acc.2 = Some lr -> assoc_find v (key_by_range_step acc item).2 = Some lr.
Proof.
  intros Hv. unfold key_by_range_step, assoc_get_default.
  destruct (assoc_find item.1 acc.2); simpl; [done|]. by rewrite assoc_find_app, Hv.
Qed.

Lemma key_by_range_step_keys (acc : Managed * list (nat * LiveRange)) item lr :
  lr ∈ map fst acc.1 -> lr ∈ map fst (key_by_range_step acc item).1.
Proof.
  intros Hlr. unfold key_by_range_step, assoc_get_default.
  destruct (assoc_find item.1 acc.2); simpl; rewrite assoc_keys_set; case_decide; set_solver.
Qed.

(** After the step for [item], its value has a range, and that range is a
    key of the map the heuristics receive. *)
Lemma key_by_range_step_new (acc : Managed * list (nat * LiveRange)) item :
  exists lr, assoc_find item.1 (key_by_range_step acc item).2 = Some lr /\
             lr ∈ map fst (key_by_range_step acc item).1.
Proof.
  unfold key_by_range_step, assoc_get_default.
  destruct (assoc_find item.1 acc.2) as [lr|] eqn:E; simpl; eexists; split.
  - exact E.
  - rewrite assoc_keys_set. case_decide; set_solver.
  - rewrite assoc_find_app, E. simpl. by rewrite decide_True.
  - rewrite assoc_keys_set. case_decide; set_solver.
Qed.

Lemma key_by_range_found l (acc : Managed * list (nat * LiveRange)) v :
  (v ∈ map fst l \/ exists lr, assoc_find v acc.2 = Some lr /\ lr ∈ map fst acc.1) ->
  exists lr, assoc_find v (fold_left key_by_range_step l acc).2 = Some lr /\
             lr ∈ map fst (fold_left key_by_range_step l acc).1.
Proof.
  revert acc. induction l as [|item l IH]; intros acc Hv; simpl.
  - destruct Hv as [Hin|Hv]; [by apply elem_of_nil in Hin|done].
  - apply IH. destruct (decide (v ∈ map fst l)) as [|Hnot]; [by left|right].
    destruct Hv as [Hin|(lr & Hf & Hk)].
    + assert (v = item.1) as -> by set_solver. apply key_by_range_step_new.
    + exists lr. split; [by apply key_by_range_step_find|by apply key_by_range_step_keys].
Qed.

(** The range map after [key_by_range]: one range per value, only for
    managed values, given that of its input. *)
Lemma key_by_range_ranges (sizes : list (nat * Z)) (ranges : list (nat * LiveRange)) :
  NoDup (map fst ranges) -> (forall v lr, In (v, lr) ranges -> v ∈ map fst sizes) ->
  NoDup (map fst (key_by_range sizes ranges).2) /\
  (forall v lr, In (v, lr) (key_by_range sizes ranges).2 -> v ∈ map fst sizes).
Proof.
  intros Hnd Hin. unfold key_by_range.
  apply (fold_left_inv _ (fun acc => NoDup (map fst acc.2) /\
                                     forall v lr, In (v, lr) acc.2 -> v ∈ map fst sizes)); [done|].
  intros acc item Hitem [Hnd' Hin']. unfold key_by_range_step, assoc_get_default.
  destruct (assoc_find item.1 acc.2) eqn:E; simpl; [done|].
  apply assoc_find_None in E. rewrite map_app. split.
  - apply NoDup_app. split_and!; [done| |apply NoDup_singleton]. set_solver.
  - intros v lr [Hv|[[= <- _]|[]]]%in_app_or; [by apply (Hin' v lr)|].
    apply list_elem_of_In, in_map. done.
Qed.

Lemma key_by_range_managed_ok (sizes : list (nat * Z)) (ranges : list (nat * LiveRange)) :
  Forall (fun p => 0 <= p.2) sizes -> managed_ok (key_by_range sizes ranges).1.
Proof.
  intros Hpos. unfold key_by_range.
  apply (fold_left_inv _ (fun acc => managed_ok acc.1)); [split; constructor|].
  intros acc item Hitem [Hnd Hnn]. unfold key_by_range_step.
  destruct (assoc_get_default _ _ _) as [lvr mvr]. simpl. split; [by apply assoc_set_NoDup|].
  apply List.Forall_forall. intros p [->|Hp]%assoc_set_In.
  - exact (proj1 (List.Forall_forall _ _) Hpos item Hitem).
  - exact (proj1 (List.Forall_forall _ _) Hnn p Hp).
Qed.

Lemma smap_insert_In k v m p : In p (smap_insert k v m) -> p = (k, v) \/ In p m.
Proof.
  induction m as [|[k' v'] m IH]; simpl; [naive_solver|].
  repeat case_match; simpl; [naive_solver| |naive_solver].
  intros [<-|Hin]; [by right; left|]. destruct (IH Hin); auto.
Qed.

Lemma managed_range_values_of_In l lr v :
  In (lr, v) (managed_range_values_of l) -> In (v, lr) l.
Proof.
  unfold managed_range_values_of.
  apply (fold_left_inv _ (fun m => In (lr, v) m -> In (v, lr) l)); [done|].
  intros m [v' lr'] Hin IH Hm. apply smap_insert_In in Hm as [[= -> ->]|Hm]; [done|auto].
Qed.

Lemma smap_insert_keep k v m p : In p m -> In p (smap_insert k v m).
Proof. induction m as [|[k' v'] m IH]; simpl; [done|]. repeat case_match; simpl; naive_solver. Qed.

(** The order of the keys of [managed_range_values]: strictly increasing
    [begin]. *)
Definition begin_lt (a b : LiveRange * nat) : Prop := lr_begin a.1 < lr_begin b.1.

Lemma smap_insert_sorted k v m :
  StronglySorted begin_lt m -> StronglySorted begin_lt (smap_insert k v m).
Proof.
  induction m as [|[k' v'] m IH]; intros Hs; simpl; [repeat constructor|].
  apply StronglySorted_inv in Hs as [Hs Hall]. unfold live_range_start_cmp.
  destruct (lr_begin k <? lr_begin k') eqn:E1.
  - constructor; [by constructor|]. constructor; [unfold begin_lt; simpl; zlia|].
    eapply Forall_impl; [exact Hall|]. intros [k'' v''] H. unfold begin_lt in *; simpl in *; zlia.
  - destruct (lr_begin k' <? lr_begin k) eqn:E2; [|by constructor].
    constructor; [by apply IH|]. apply List.Forall_forall. intros p Hp.
    apply smap_insert_In in Hp as [->|Hp]; [unfold begin_lt; simpl; zlia|].
    exact (proj1 (List.Forall_forall _ _) Hall p Hp).
Qed.

(** After [insert({k, v})] the map has a key with the [begin] of [k]. *)
Lemma smap_insert_begins k v m : exists k' v', In (k', v') (smap_insert k v m) /\ lr_begin k' = lr_begin k.
Proof.
  induction m as [|[k' v'] m IH]; simpl; [exists k, v; by split; [left|]|].
  unfold live_range_start_cmp. destruct (lr_begin k <? lr_begin k') eqn:E1; [exists k, v; by split; [left|]|].
  destruct (lr_begin k' <? lr_begin k) eqn:E2.
  - destruct IH as (k'' & v'' & Hin & Hb). exists k'', v''. by split; [right|].
  - exists k', v'. split; [by left|zlia].
Qed.

Lemma smap_fold_keep (l : list (nat * LiveRange)) m p :
  In p m -> In p (fold_left (fun m item => smap_insert item.2 item.1 m) l m).
Proof. revert m. induction l as [|item l IH]; intros m Hp; simpl; [done|]. by apply IH, smap_insert_keep. Qed.

Lemma smap_fold_begins (l : list (nat * LiveRange)) m v lr :
  In (v, lr) l -> exists lr' v', In (lr', v') (fold_left (fun m item => smap_insert item.2 item.1 m) l m) /\
    lr_begin lr' = lr_begin lr.
Proof.
  revert m. induction l as [|item l IH]; intros m Hin; simpl; [done|].
  destruct Hin as [->|Hin]; [|by apply IH].
  destruct (smap_insert_begins lr v m) as (k' & v' & Hk & Hb). exists k', v'. split; [by apply smap_fold_keep|done].
Qed.

(** ** One iteration of [insertAllocTensorNodes] *)

(** The bound check compares a wrapped sum with the maximum of the same
    wrapped sums: it holds for every range, in the plan or not. *)
Lemma region_check_holds (allocations : Plan) (lvr : LiveRange) :
  wrap64 (reg_offset (region_of allocations lvr) + reg_size (region_of allocations lvr))
    <= getTotalAllocationSize allocations.
Proof.
  unfold region_of. destruct (assoc_find lvr allocations) as [r|] eqn:E.
  - apply assoc_find_In in E. unfold getTotalAllocationSize.
    apply (fold_left_max_In (fun item : LiveRange * Region => wrap64 (reg_offset item.2 + reg_size item.2))
             allocations 0 (lvr, r) E).
  - pose proof (getTotalAllocationSize_range allocations). unfold is_u64 in *.
    cbn [reg_offset reg_size]. rewrite wrap64_small by (unfold is_u64, u64_modulus; lia). lia.
Qed.

(** A graph fit for rewriting: node identities are distinct, and every
    node and value identity is below the fresh counter. *)
Definition graph_wf (g : Graph) : Prop :=
  NoDup (map n_id (g_nodes g)) /\
  Forall (fun n => (n_id n < g_fresh g)%nat /\ Forall (fun v => (v_id v < g_fresh g)%nat) (n_outputs n))
    (g_nodes g).

Lemma graph_wf_fresh g : graph_wf g -> g_fresh g ∉ map n_id (g_nodes g).
Proof.
  intros [_ Hlt] Hin. apply list_elem_of_In, in_map_iff in Hin as (n & Hn & Hin).
  destruct (proj1 (List.Forall_forall _ _) Hlt n Hin) as [Hid _]. lia.
Qed.

(** An iteration on a well-formed graph whose value has a producer and a
    tensor type with a scalar type, and whose region passes the bound
    check: it succeeds, the producer gains the new node's output as its
    last input, and the new node, inserted just before the producer, has
    the storage as its only input and the region's size and offset. *)
Lemma insertAllocTensor_step storage total device allocations lvr vid g p ttp st :
  graph_wf g -> producer_of vid (g_nodes g) = Some p ->
  value_of vid p = Some (mkValue vid (TensorT ttp)) -> tt_scalar_type ttp = Some st ->
  wrap64 (reg_offset (region_of allocations lvr) + reg_size (region_of allocations lvr)) <= total ->
  exists a,
    insertAllocTensor storage total device allocations (lvr, vid) g =
    (Ok tt, mkGraph (insert_before_id a (n_id p)
                       (update_node (n_id p) (node_add_input (S (g_fresh g))) (g_nodes g)))
                    (S (S (g_fresh g))) (g_device g)) /\
    n_id a = g_fresh g /\ n_kind a = KAllocateTensor /\ n_inputs a = [node_output storage] /\
    n_outputs a = [mkValue (S (g_fresh g)) (OtherT "")] /\
    attr_int "size" a = Some (reg_size (region_of allocations lvr)) /\
    attr_int "offset" a = Some (reg_offset (region_of allocations lvr)).
Proof.
  intros Hwf Hp Hv Hst Hchk. pose proof (graph_wf_fresh g Hwf) as Hfresh.
  assert (Hfresh' : g_fresh g ∉ map n_id (update_node (n_id p) (node_add_input (S (g_fresh g))) (g_nodes g)))
    by (rewrite update_node_ids by done; exact Hfresh).
  unfold insertAllocTensor, ebind, eget, gcreate, gaddInput, ginsertBefore, gsetAttr, gupdate, emodify, echeck.
  cbn -[update_node insert_before_id producer_of value_of getSizesStrides region_of wrap64].
  rewrite Hp. cbn -[update_node insert_before_id value_of getSizesStrides region_of wrap64].
  rewrite Hv. destruct (getSizesStrides ttp) as [sizes strides].
  rewrite (proj2 (Z.leb_le _ _) Hchk). rewrite Hst.
  cbn -[update_node insert_before_id region_of]. rewrite Nat.add_0_r, Nat.add_1_r.
  rewrite !update_insert_before by (first [reflexivity|exact Hfresh']).
  eexists. split; [reflexivity|]. split_and!; reflexivity.
Qed.

(** ** The loop of [insertAllocTensorNodes] *)

Section AllocLoop.
Context (g0 : Graph) (storage : Node) (allocations : Plan) (device : Z).
Hypothesis wf0 : graph_wf g0.

(** Entry [e] has been materialised in [g]: an allocation node created by
    the loop (its identity is not one of [g0]) with the storage as input
    and the region of [e]'s range, whose output is an input of the
    producer of [e]'s value. *)
Definition alloc_placed (g : Graph) (e : LiveRange * nat) : Prop :=
  exists a p, In a (g_nodes g) /\ (g_fresh g0 <= n_id a)%nat /\ n_kind a = KAllocateTensor /\
    n_inputs a = [node_output storage] /\
    attr_int "size" a = Some (reg_size (region_of allocations e.1)) /\
    attr_int "offset" a = Some (reg_offset (region_of allocations e.1)) /\
    producer_of e.2 (g_nodes g) = Some p /\ In (node_output a) (n_inputs p).

(** The value of entry [e] has a producer in [g0], with a tensor type that
    has a scalar type. *)
Definition entry_ok (e : LiveRange * nat) : Prop :=
  exists p ttp st, producer_of e.2 (g_nodes g0) = Some p /\
    value_of e.2 p = Some (mkValue e.2 (TensorT ttp)) /\ tt_scalar_type ttp = Some st.

(** What the loop keeps: a well-formed graph, a fresh counter that only
    grows, and the producers of [g0] present with their identities and
    outputs. *)
Definition loop_inv (g : Graph) : Prop :=
  graph_wf g /\ (g_fresh g0 <= g_fresh g)%nat /\
  forall vid p0, producer_of vid (g_nodes g0) = Some p0 ->
    exists p, producer_of vid (g_nodes g) = Some p /\ n_id p = n_id p0 /\ n_outputs p = n_outputs p0.

Lemma original_producer vid p0 :
  producer_of vid (g_nodes g0) = Some p0 -> (vid < g_fresh g0)%nat /\ (n_id p0 < g_fresh g0)%nat.
Proof.
  intros Hp. pose proof (producer_of_In _ _ _ Hp) as Hin.
  pose proof (producer_of_output _ _ _ Hp) as Hout.
  destruct wf0 as [_ Hlt]. destruct (proj1 (List.Forall_forall _ _) Hlt p0 Hin) as [Hid Hvs].
  split; [|done]. apply list_elem_of_In, in_map_iff in Hout as (v & <- & Hv).
  exact (proj1 (List.Forall_forall _ _) Hvs v Hv).
Qed.

Lemma fresh_not_output (f vid : nat) :
  (vid < f)%nat -> existsb (fun v => Nat.eqb (v_id v) vid) [mkValue (S f) (OtherT "")] = false.
Proof. intros Hlt. cbn [existsb v_id]. rewrite orb_false_r. apply Nat.eqb_neq. lia. Qed.

(** One iteration keeps the invariant, adds one allocation node,
    materialises its entry and keeps the entries materialised before. *)
Lemma alloc_loop_step g e :
  loop_inv g -> entry_ok e ->
  exists g', insertAllocTensor storage (getTotalAllocationSize allocations) device allocations e g = (Ok tt, g') /\
    loop_inv g' /\
    (forall k, count_kind k g' = count_kind k g + if decide (k = KAllocateTensor) then 1 else 0)%nat /\
    alloc_placed g' e /\ (forall e', entry_ok e' -> alloc_placed g e' -> alloc_placed g' e').
Proof.
  intros (Hwf & Hfr & Hprod) (p0 & ttp & st & Hp0 & Hv0 & Hst). destruct e as [lvr vid]. simpl in *.
  destruct (original_producer _ _ Hp0) as [Hvid Hid0].
  destruct (Hprod _ _ Hp0) as (p & Hp & Hidp & Houtp).
  assert (Hv : value_of vid p = Some (mkValue vid (TensorT ttp))) by (unfold value_of; by rewrite Houtp).
  destruct (insertAllocTensor_step storage (getTotalAllocationSize allocations) device allocations lvr vid
              g p ttp st Hwf Hp Hv Hst (region_check_holds allocations lvr))
    as (a & Heq & Hida & Hka & Hia & Hoa & Hsz & Hoff).
  set (x := S (g_fresh g)).
  set (ns' := insert_before_id a (n_id p) (update_node (n_id p) (node_add_input x) (g_nodes g))).
  assert (Hpid : n_id p ∈ map n_id (update_node (n_id p) (node_add_input x) (g_nodes g))).
  { rewrite update_node_ids by done. apply list_elem_of_In, in_map, (producer_of_In vid). done. }
  assert (Hprod' : forall vid' q, (vid' < g_fresh g)%nat -> producer_of vid' (g_nodes g) = Some q ->
            producer_of vid' ns' = Some (if decide (n_id q = n_id p) then node_add_input x q else q)).
  { intros vid' q Hlt Hq. apply producer_of_insert_step; [done|]. rewrite Hoa. by apply fresh_not_output. }
  assert (Hout_a : node_output a = x) by (unfold node_output; by rewrite Hoa).
  assert (Hwf' : graph_wf (mkGraph ns' (S x) (g_device g))).
  { destruct Hwf as [Hnd Hlt]. unfold graph_wf. cbn [g_nodes g_fresh]. split.
    - unfold ns'. rewrite insert_before_id_ids by done. rewrite update_node_ids by done.
      constructor; [rewrite Hida; exact (graph_wf_fresh g (conj Hnd Hlt))|done].
    - apply List.Forall_forall. intros y [->|Hy]%In_insert_before_id.
      + rewrite Hida, Hoa. split; [unfold x; lia|]. constructor; [simpl; unfold x; lia|constructor].
      + assert (Hy0 : exists y0, In y0 (g_nodes g) /\ n_id y = n_id y0 /\ n_outputs y = n_outputs y0).
        { apply In_update_node in Hy as [(y' & Hy' & _ & ->)|[Hy _]]; [by exists y'|by exists y]. }
        destruct Hy0 as (y0 & Hy0 & -> & ->).
        destruct (proj1 (List.Forall_forall _ _) Hlt y0 Hy0) as [H1 H2].
        split; [unfold x; lia|]. eapply Forall_impl; [exact H2|]. intros v Hv'. cbv beta in *. unfold x. lia. }
  exists (mkGraph ns' (S x) (g_device g)). split; [exact Heq|].
  refine (conj (conj Hwf' (conj _ _)) (conj _ (conj _ _))).
  - simpl. unfold x. lia.
  - intros vid' p0' Hp0'. destruct (original_producer _ _ Hp0') as [Hvid' _].
    destruct (Hprod _ _ Hp0') as (q & Hq & Hidq & Houtq).
    exists (if decide (n_id q = n_id p) then node_add_input x q else q).
    split; [apply Hprod'; [lia|done]|]. case_decide; done.
  - intros k. unfold count_kind. cbn [g_nodes]. unfold ns'. rewrite count_insert_before by done.
    rewrite count_update_node by done. rewrite Hka.
    case_decide as Hk; [subst k; rewrite bool_decide_true by done|rewrite bool_decide_false by congruence]; lia.
  - exists a, (node_add_input x p). split_and!; try done.
    + by apply insert_before_id_In_new.
    + rewrite Hida. lia.
    + cbn [g_nodes snd]. rewrite (Hprod' vid p) by (done || lia). by rewrite decide_True.
    + rewrite Hout_a. simpl. apply in_or_app. by right; left.
  - intros [lvr' vid'] (p0' & ttp' & st' & Hp0' & _) (a' & p' & Ha' & Hida' & Hka' & Hia' & Hsz' & Hoff' & Hp' & Hin').
    simpl in *. destruct (original_producer _ _ Hp0') as [Hvid' _].
    exists a', (if decide (n_id p' = n_id p) then node_add_input x p' else p'). split_and!; try done.
    + apply insert_before_id_In, update_node_In; [done|]. lia.
    + cbn [g_nodes snd]. apply Hprod'; [lia|done].
    + case_decide; [simpl; apply in_or_app; by left|done].
Qed.

Lemma alloc_loop (L : list (LiveRange * nat)) g (done : list (LiveRange * nat)) :
  loop_inv g -> Forall entry_ok L -> Forall entry_ok done -> Forall (alloc_placed g) done ->
  exists g', emapM (insertAllocTensor storage (getTotalAllocationSize allocations) device allocations) L g =
             (Ok tt, g') /\
    (forall k, count_kind k g' =
               count_kind k g + if decide (k = KAllocateTensor) then length L else 0)%nat /\
    Forall (alloc_placed g') (done ++ L).
Proof.
  revert g done. induction L as [|e L IH]; intros g done Hinv HL Hdone Hplaced.
  - exists g. split; [done|]. rewrite app_nil_r. split; [intros k; case_decide; simpl; lia|done].
  - apply Forall_cons in HL as [He HL].
    destruct (alloc_loop_step g e Hinv He) as (g1 & Hstep & Hinv1 & Hcnt1 & Hpl1 & Hkeep).
    destruct (IH g1 (done ++ [e]) Hinv1 HL) as (g' & Hrun & Hcnt & Hall).
    + apply Forall_app. split; [done|by constructor].
    + apply Forall_app. split; [|by constructor].
      apply List.Forall_forall. intros e' He'. apply Hkeep.
      * exact (proj1 (List.Forall_forall _ _) Hdone e' He').
      * exact (proj1 (List.Forall_forall _ _) Hplaced e' He').
    + exists g'. split; [cbn [emapM]; unfold ebind; by rewrite Hstep|].
      split; [intros k; rewrite Hcnt, Hcnt1; case_decide; simpl; lia|]. by rewrite <- app_assoc in Hall.
Qed.
End AllocLoop.

(** ** Clients of the heuristics' contract *)

Section PackerClient.
Context {P : Packer} `{!PackerCorrect P}.

(** A heuristic meeting the contract places every range of a well-formed
    input. *)
Lemma pack_keys ms lr : managed_ok ms -> lr ∈ map fst ms -> lr ∈ map fst (pack ms).
Proof.
  intros Hm Hlr. destruct (pack_ok ms Hm) as [Hall _].
  apply list_elem_of_In, in_map_iff in Hlr as ([lr' sz] & <- & Hin).
  destruct (Hall lr' sz Hin) as (off & Hf & _). apply assoc_find_In in Hf.
  apply list_elem_of_In, in_map_iff. by exists (lr', mkRegion off sz).
Qed.

Lemma pack_disjoint ms : managed_ok ms -> NoDup (map fst (pack ms)) /\ disjoint_ok (pack ms).
Proof. intros Hm. by destruct (pack_ok ms Hm) as (_ & _ & Hnd & Hdis). Qed.
End PackerClient.

(** What [planMemory] relies on from the plan of every heuristic: one
    region per range, disjoint regions for overlapping ranges, and a
    region for every range [insertAllocTensorNodes] looks up
    ([allocations[lvr]] for each entry of [managed_range_values]).  Linear
    scan and greedy by size are used through their contract
    [PackerCorrect] only; greedy by breadth through its invariant. *)
Lemma static_plan_ok reg isOpt ai strat g out_nodes sizes ranges ml ranges' plan :
  getManagedStuff reg isOpt g ai = (out_nodes, sizes, ranges) ->
  key_by_range sizes ranges = (ml, ranges') ->
  static_plan strat g out_nodes sizes ranges' ml = Some plan ->
  NoDup (map fst plan) /\ disjoint_ok plan /\
  forall lr v, In (lr, v) (managed_range_values_of ranges') -> lr ∈ map fst plan.
Proof.
  intros Egms Ekr Hplan.
  pose proof (getManagedStuff_ok reg isOpt g ai) as Hok. rewrite Egms in Hok.
  destruct Hok as (Hpos & Hsnd & Hout & Hrnd & Hrin).
  assert (Hnn : Forall (fun p => 0 <= p.2) sizes).
  { eapply Forall_impl; [exact Hpos|]. intros p Hp. simpl in Hp. lia. }
  pose proof (key_by_range_ranges sizes ranges Hrnd Hrin) as [Hnd' Hin'].
  pose proof (key_by_range_managed_ok sizes ranges Hnn) as Hml.
  rewrite Ekr in Hnd', Hin', Hml. simpl in Hnd', Hin', Hml.
  assert (Hkeys : forall lr v, In (lr, v) (managed_range_values_of ranges') ->
                    v ∈ map fst sizes /\ assoc_find v ranges' = Some lr /\ lr ∈ map fst ml).
  { intros lr v Hv. apply managed_range_values_of_In in Hv.
    assert (Hvs : v ∈ map fst sizes) by exact (Hin' v lr Hv).
    assert (Hfind : assoc_find v ranges' = Some lr) by by apply assoc_find_In_NoDup.
    split_and!; [done|done|].
    destruct (key_by_range_found sizes ([], ranges) v (or_introl Hvs)) as (lr' & Hf & Hk).
    unfold key_by_range in Ekr. rewrite Ekr in Hf, Hk. simpl in Hf, Hk. congruence. }
  destruct strat; simpl in Hplan; [discriminate|..]; injection Hplan as <-.
  - destruct (@pack_disjoint _ LinearScan.linearScan_correct ml Hml) as [Hnd Hdis].
    split_and!; [done|done|]. intros lr v Hv.
    by apply (@pack_keys _ LinearScan.linearScan_correct), (Hkeys lr v Hv).
  - destruct (@pack_disjoint _ GreedyBySize.greedyBySize_correct ml Hml) as [Hnd Hdis].
    split_and!; [done|done|]. intros lr v Hv.
    by apply (@pack_keys _ GreedyBySize.greedyBySize_correct), (Hkeys lr v Hv).
  - destruct (GreedyByBreadth.greedyByOperatorBreadth_ok sizes ranges' (ops_of g out_nodes) Hnn)
      as [(Hnd & Hdis & _) Hplaced].
    split_and!; [done|done|]. intros lr v Hv. destruct (Hkeys lr v Hv) as (Hvs & Hfind & _).
    apply list_elem_of_In, in_map_iff in Hvs as ([v' sz] & Hv' & Hin). simpl in Hv'. subst v'.
    destruct (Hout v sz Hin) as (n & w & Hn & _ & Hw & Hwv & _).
    apply (Hplaced (index_of (n_id n) (g_nodes g) 0, map v_id (n_outputs n)) v sz lr); try done.
    + unfold ops_of. apply in_map_iff. by exists n.
    + simpl. rewrite <- Hwv. by apply in_map.
    + by apply assoc_find_In_NoDup.
Qed.

(** ** Theorems *)

(** [planMemory] with the [NAIVE] strategy returns without touching the
    graph (spec property 6). *)
Theorem planMemory_naive reg isOpt ai (g : Graph) :
  planMemory reg isOpt ai NAIVE g = (Ok tt, g).
Proof.
  unfold planMemory, ebind, eget. cbn -[getManagedStuff key_by_range].
  destruct (getManagedStuff reg isOpt g ai) as [[out_nodes sizes] ranges].
  by destruct (key_by_range sizes ranges).
Qed.

(** C28. The bound check of [insertAllocTensorNodes] compares a wrapped
    64-bit sum with the maximum of the same wrapped sums, so it holds for
    every plan and every range, whether or not the range is in the plan;
    in particular a region that runs past the arena by wrapping around
    [2^64] passes it. *)
Theorem insertAllocTensor_check_vacuous :
  (forall (allocations : Plan) (lvr : LiveRange),
     wrap64 (reg_offset (region_of allocations lvr) + reg_size (region_of allocations lvr))
       <=? getTotalAllocationSize allocations = true) /\
  (let plan := [(mkLiveRange 0 1, mkRegion (2 ^ 64 - 8) 16)] in
   wrap64 (reg_offset (region_of plan (mkLiveRange 0 1)) + reg_size (region_of plan (mkLiveRange 0 1)))
     <=? getTotalAllocationSize plan = true /\
   getTotalAllocationSize plan < reg_end (region_of plan (mkLiveRange 0 1))).
Proof.
  split; [|vm_compute; split; reflexivity].
  intros allocations lvr. apply Z.leb_le, region_check_holds.
Qed.

(** ** Runs of the planner on small graphs *)

Definition byte_tensor (numel : Z) : JitType :=
  TensorT (mkTensorType (Some Byte) (Some [numel]) (Some [1]) (Some numel)).

(** Every operator of these graphs has an out variant. *)
Definition out_registry : Registry := fun _ => [["self"; "out"]].

(** Three operators in a chain, each producing a 50-byte tensor. *)
Definition chain_graph : Graph :=
  mkGraph
    [mkNode 1 (KOp "aten::mul") "aten::mul" [0%nat] [mkValue 10 (byte_tensor 50)] [];
     mkNode 2 (KOp "aten::add") "aten::add" [10%nat] [mkValue 11 (byte_tensor 50)] [];
     mkNode 3 (KOp "aten::sub") "aten::sub" [11%nat] [mkValue 12 (byte_tensor 50)] []]
    100 None.

Definition storage_total (g : Graph) : option Z :=
  match g_nodes g with n :: _ => attr_int "total_size" n | [] => None end.

(** The spec's full-overlap scenario (three tensors of 50 bytes all
    live over [[0, 10]]) is planned as one 50-byte region: the planner keys
    its plan by live range, so values with equal ranges share one entry, and
    only one of them receives an allocation node; the spec expects a
    150-byte arena with three distinct offsets. *)
Theorem planMemory_equal_ranges_share_region :
  let ai := mkAliasInfo [] [(10%nat, mkLiveRange 0 10); (11%nat, mkLiveRange 0 10);
                            (12%nat, mkLiveRange 0 10)] in
  let r := planMemory out_registry (fun _ => false) ai GREEDY_BY_SIZE chain_graph in
  r.1 = Ok tt /\ storage_total r.2 = Some 50 /\ count_kind KAllocateTensor r.2 = 1%nat.
Proof. vm_compute. auto. Qed.

(** Two managed values with distinct but overlapping live ranges that
    begin at the same time get two disjoint regions in the plan (with a
    third value, a 100-byte arena), yet [managed_range_values] is a
    [std::map] ordered by [begin] only, so one of the two is dropped: three
    managed values, two allocation nodes, and the space of the dropped
    value is reserved and never used. *)
Theorem planMemory_same_begin_drops_value :
  let ai := mkAliasInfo [] [(10%nat, mkLiveRange 0 5); (11%nat, mkLiveRange 0 3);
                            (12%nat, mkLiveRange 6 8)] in
  let r := planMemory out_registry (fun _ => false) ai GREEDY_BY_SIZE chain_graph in
  r.1 = Ok tt /\ storage_total r.2 = Some 100 /\ count_kind KAllocateTensor r.2 = 2%nat.
Proof. vm_compute. auto. Qed.

(** The [size] attribute of the allocation node that feeds the producer of
    value [vid]. *)
Definition alloc_size_for (vid : nat) (g : Graph) : option Z :=
  match producer_of vid (g_nodes g) with
  | None => None
  | Some prod =>
      match List.find (fun n => bool_decide (n_kind n = KAllocateTensor) &&
                                existsb (Nat.eqb (node_output n)) (n_inputs prod)) (g_nodes g) with
      | Some a => attr_int "size" a
      | None => None
      end
  end.

(** A 100-byte and a 50-byte tensor with the same live range. *)
Definition shared_range_graph : Graph :=
  mkGraph
    [mkNode 1 (KOp "aten::mul") "aten::mul" [0%nat] [mkValue 10 (byte_tensor 100)] [];
     mkNode 2 (KOp "aten::add") "aten::add" [10%nat] [mkValue 11 (byte_tensor 50)] []]
    100 None.

(** A value can be given a region smaller than its storage: for two
    values with the same live range, [managed_live_ranges[range] = size]
    keeps the size of the last value visited (50 bytes), while
    [managed_range_values] keeps the first value inserted (the 100-byte
    tensor), which receives the only allocation node, of size 50, in a
    50-byte arena.  The order is one iteration order the [unordered_map]s
    may have. *)
Theorem planMemory_region_smaller_than_value :
  let ai := mkAliasInfo [] [(10%nat, mkLiveRange 0 10); (11%nat, mkLiveRange 0 10)] in
  let r := planMemory out_registry (fun _ => false) ai GREEDY_BY_SIZE shared_range_graph in
  r.1 = Ok tt /\ storage_total r.2 = Some 50 /\ count_kind KAllocateTensor r.2 = 1%nat /\
  alloc_size_for 10 r.2 = Some 50 /\
  computeStorageSize (mkValue 10 (byte_tensor 100)) = Some 100.
Proof. vm_compute. auto. Qed.

(** The order in which [insertAllocTensorNodes] visits the values
    (spec section 5 and property 5): the [std::map] [managed_range_values]
    lists its entries by strictly increasing [begin], so allocation nodes
    are inserted in ascending [begin] order, one per [begin]; and the
    range of every value the loop of [planMemory] visits has an entry with
    the same [begin]. *)
Theorem managed_range_values_sorted (l : list (nat * LiveRange)) :
  StronglySorted begin_lt (managed_range_values_of l) /\
  forall v lr, In (v, lr) l ->
    exists lr' v', In (lr', v') (managed_range_values_of l) /\ lr_begin lr' = lr_begin lr.
Proof.
  unfold managed_range_values_of. split.
  - apply fold_left_inv; [constructor|]. intros m item _ Hm. by apply smap_insert_sorted.
  - intros v lr Hin. by apply (smap_fold_begins l [] v lr).
Qed.

(** Whenever [planMemory] computes a plan, with any of the three
    heuristics, every live range [insertAllocTensorNodes] looks up
    ([allocations[lvr]] for each entry of [managed_range_values]) is a key
    of the plan, so the default [Region{0, 0}] of [operator[]] is never
    used.  Linear scan and greedy by size are used through their contract
    [PackerCorrect] only; greedy by breadth through its invariant. *)
Theorem planMemory_plan_covers_values reg isOpt ai strat (g : Graph) (plan : Plan) :
  let '(out_nodes, sizes, ranges) := getManagedStuff reg isOpt g ai in
  let '(ml, ranges') := key_by_range sizes ranges in
  static_plan strat g out_nodes sizes ranges' ml = Some plan ->
  forall lr v, In (lr, v) (managed_range_values_of ranges') -> lr ∈ map fst plan.
Proof.
  destruct (getManagedStuff reg isOpt g ai) as [[out_nodes sizes] ranges] eqn:Egms.
  destruct (key_by_range sizes ranges) as [ml ranges'] eqn:Ekr. intros Hplan.
  exact (proj2 (proj2 (static_plan_ok reg isOpt ai strat g _ _ _ _ _ plan Egms Ekr Hplan))).
Qed.

(** The greedy-by-size plan of the three-value chain. *)
Definition chain_plan : Plan :=
  [(mkLiveRange 0 3, mkRegion 0 50); (mkLiveRange 0 5, mkRegion 50 50);
   (mkLiveRange 6 8, mkRegion 0 50)].

Lemma planMemory_plan_covers_values_witness :
  let ai := mkAliasInfo [] [(10%nat, mkLiveRange 0 5); (11%nat, mkLiveRange 0 3);
                            (12%nat, mkLiveRange 6 8)] in
  let '(out_nodes, sizes, ranges) := getManagedStuff out_registry (fun _ => false) chain_graph ai in
  let '(ml, ranges') := key_by_range sizes ranges in
  static_plan GREEDY_BY_SIZE chain_graph out_nodes sizes ranges' ml = Some chain_plan /\
  forall lr v, In (lr, v) (managed_range_values_of ranges') -> lr ∈ map fst chain_plan.
Proof.
  intros ai.
  pose proof (planMemory_plan_covers_values out_registry (fun _ => false) ai GREEDY_BY_SIZE
                chain_graph chain_plan) as H.
  vm_compute in H |- *. split; [reflexivity|]. apply H. reflexivity.
Defined.


(** C14. [insertAllocTensorNodes] on a well-formed graph, with a storage
    node carrying the plan's total size and a device, and entries whose
    values have producers with typed tensor outputs: it succeeds, adds
    exactly one [AllocateTensor] node per entry and no other node, and
    for every entry an
    allocation node with the storage as its only input and the size and
    offset of the entry's region feeds its output to the producer of the
    entry's value (spec property 5). *)
Theorem insertAllocTensorNodes_materializes (storage : Node) (allocations : Plan)
    (L : list (LiveRange * nat)) (g : Graph) (device : Z) :
  attr_int "total_size" storage = Some (getTotalAllocationSize allocations) ->
  attr_int "device" storage = Some device ->
  graph_wf g -> Forall (entry_ok g) L ->
  exists g', insertAllocTensorNodes storage allocations L g = (Ok tt, g') /\
    (forall k, count_kind k g' =
               count_kind k g + if decide (k = KAllocateTensor) then length L else 0)%nat /\
    Forall (alloc_placed g storage allocations g') L.
Proof.
  intros Htot Hdev Hwf HL. unfold insertAllocTensorNodes. rewrite Htot, Hdev.
  destruct (alloc_loop g storage allocations device Hwf L g []) as (g' & Hrun & Hcnt & Hall);
    [|done|constructor|constructor|].
  - split; [done|split; [lia|]]. intros vid p0 Hp0. by exists p0.
  - exists g'. split_and!; [done|done|exact Hall].
Qed.

(** The storage node [insertAllocStorageNode] creates for [chain_plan]. *)
Definition chain_storage : Node :=
  mkNode 100 KAllocateStorage "prim::AllocateStorage" [] [mkValue 101 (OtherT "")]
    [("total_size", AInt 100); ("device", AInt 0)].

Lemma insertAllocTensorNodes_materializes_witness :
  let L := [(mkLiveRange 0 5, 10%nat); (mkLiveRange 6 8, 12%nat)] in
  attr_int "total_size" chain_storage = Some (getTotalAllocationSize chain_plan) /\
  attr_int "device" chain_storage = Some 0 /\
  graph_wf chain_graph /\ Forall (entry_ok chain_graph) L /\
  exists g', insertAllocTensorNodes chain_storage chain_plan L chain_graph = (Ok tt, g') /\
    (forall k, count_kind k g' =
               count_kind k chain_graph + if decide (k = KAllocateTensor) then length L else 0)%nat /\
    Forall (alloc_placed chain_graph chain_storage chain_plan g') L.
Proof.
  intros L.
  assert (H1 : attr_int "total_size" chain_storage = Some (getTotalAllocationSize chain_plan))
    by reflexivity.
  assert (H2 : attr_int "device" chain_storage = Some 0) by reflexivity.
  assert (H3 : graph_wf chain_graph) by (unfold graph_wf; decide_by_eval).
  assert (H4 : Forall (entry_ok chain_graph) L).
  { repeat constructor; do 3 eexists; split_and!; reflexivity. }
  split_and!; [exact H1|exact H2|exact H3|exact H4|].
  exact (insertAllocTensorNodes_materializes chain_storage chain_plan L chain_graph 0 H1 H2 H3 H4).
Defined.

(** ** The static pipeline runs to completion *)

Lemma value_of_unique n v :
  NoDup (map v_id (n_outputs n)) -> In v (n_outputs n) -> value_of (v_id v) n = Some v.
Proof.
  unfold value_of. induction (n_outputs n) as [|w ws IH]; simpl; [done|].
  intros Hnd [->|Hin]; [by rewrite Nat.eqb_refl|]. apply NoDup_cons in Hnd as [Hw Hnd].
  destruct (Nat.eqb (v_id w) (v_id v)) eqn:E; [|by apply IH].
  apply Nat.eqb_eq in E. exfalso. apply Hw. rewrite E. apply list_elem_of_In, in_map. done.
Qed.

(** [insertAllocStorageNode] puts a fresh storage node, with the total
    size and the graph's device, in front of the graph. *)
Lemma insertAllocStorageNode_eq total g :
  exists storage,
    insertAllocStorageNode total g =
      (Ok storage, mkGraph (storage :: g_nodes g) (S (S (g_fresh g))) (g_device g)) /\
    n_id storage = g_fresh g /\ n_kind storage = KAllocateStorage /\
    n_outputs storage = [mkValue (S (g_fresh g)) (OtherT "")] /\
    attr_int "total_size" storage = Some total /\
    attr_int "device" storage = Some (default kCPU (g_device g)).
Proof.
  unfold insertAllocStorageNode, ebind, gcreate, eget, ginsertFront, emodify, eret. cbn.
  rewrite Nat.add_0_r, Nat.add_1_r. eexists. split; [reflexivity|].
  split_and!; reflexivity.
Qed.

(** Inserting the storage node keeps the graph well formed. *)
Lemma storage_graph_wf g storage :
  graph_wf g -> n_id storage = g_fresh g -> n_outputs storage = [mkValue (S (g_fresh g)) (OtherT "")] ->
  graph_wf (mkGraph (storage :: g_nodes g) (S (S (g_fresh g))) (g_device g)).
Proof.
  intros Hwf Hid Hout. pose proof (graph_wf_fresh g Hwf) as Hfr. destruct Hwf as [Hnd Hlt].
  split; cbn [g_nodes g_fresh map].
  - constructor; [by rewrite Hid|done].
  - constructor.
    + rewrite Hid, Hout. split; [lia|]. constructor; [simpl; lia|constructor].
    + eapply Forall_impl; [exact Hlt|]. intros n [H1 H2]. split; [lia|].
      eapply Forall_impl; [exact H2|]. intros v Hv. cbv beta in *. lia.
Qed.

(** Every entry of [managed_range_values] is a value with a producer and a
    typed tensor output, also after the storage node is put in front. *)
Lemma planned_entry_ok reg isOpt ai g :
  graph_wf g -> values_unique (g_nodes g) ->
  let '(out_nodes, sizes, ranges) := getManagedStuff reg isOpt g ai in
  let '(ml, ranges') := key_by_range sizes ranges in
  forall storage, n_outputs storage = [mkValue (S (g_fresh g)) (OtherT "")] ->
  Forall (entry_ok (mkGraph (storage :: g_nodes g) (S (S (g_fresh g))) (g_device g)))
    (managed_range_values_of ranges').
Proof.
  intros Hwf Huniq.
  pose proof (getManagedStuff_ok reg isOpt g ai) as Hok.
  destruct (getManagedStuff reg isOpt g ai) as [[out_nodes sizes] ranges].
  destruct Hok as (_ & _ & Hout & Hrnd & Hrin).
  pose proof (key_by_range_ranges sizes ranges Hrnd Hrin) as [_ Hin'].
  destruct (key_by_range sizes ranges) as [ml ranges']. simpl in Hin'.
  intros storage Hout_s. apply List.Forall_forall. intros [lr v] Hin.
  apply managed_range_values_of_In, Hin' in Hin.
  apply list_elem_of_In, in_map_iff in Hin as ([v' s] & Hv' & Hs). simpl in Hv'. subst v'.
  destruct (Hout v s Hs) as (n & w & _ & Hn & Hw & Hwv & Hcs).
  destruct (computeStorageSize_tensor w s Hcs) as (ttp & st & Hty & Hst).
  assert (Hlt : (v < g_fresh g)%nat).
  { destruct Hwf as [_ Hlt]. destruct (proj1 (List.Forall_forall _ _) Hlt n Hn) as [_ Hvs].
    rewrite <- Hwv. exact (proj1 (List.Forall_forall _ _) Hvs w Hw). }
  exists n, ttp, st. cbn [g_nodes snd]. split_and!; [|subst v|done].
  - rewrite producer_of_cons, Hout_s, fresh_not_output by done.
    subst v. by apply producer_of_unique.
  - rewrite (value_of_unique n w (values_unique_node _ _ Huniq Hn) Hw). destruct w. simpl in *. by subst.
Qed.

(** A strategy that plans: [planMemory] puts the storage node in front,
    then one allocation node per entry of [managed_range_values], each
    materialised with the region of its range. *)
Lemma planMemory_run reg isOpt ai strat g out_nodes sizes ranges ml ranges' allocations :
  graph_wf g -> values_unique (g_nodes g) ->
  getManagedStuff reg isOpt g ai = (out_nodes, sizes, ranges) ->
  key_by_range sizes ranges = (ml, ranges') ->
  static_plan strat g out_nodes sizes ranges' ml = Some allocations ->
  exists storage g', planMemory reg isOpt ai strat g = (Ok tt, g') /\
    (forall k, count_kind k g' =
       count_kind k g + (if decide (k = KAllocateStorage) then 1 else 0) +
       (if decide (k = KAllocateTensor) then length (managed_range_values_of ranges') else 0))%nat /\
    Forall (alloc_placed (mkGraph (storage :: g_nodes g) (S (S (g_fresh g))) (g_device g)) storage
              allocations g') (managed_range_values_of ranges').
Proof.
  intros Hwf Huniq Egms Ekr Eplan.
  pose proof (planned_entry_ok reg isOpt ai g Hwf Huniq) as Hentries. rewrite Egms, Ekr in Hentries.
  unfold planMemory, ebind, eget. rewrite Egms, Ekr, Eplan.
  destruct (insertAllocStorageNode_eq (getTotalAllocationSize allocations) g)
    as (storage & Hst & Hid & Hk & Hout & Htot & Hdev).
  rewrite Hst. specialize (Hentries storage Hout).
  pose proof (storage_graph_wf g storage Hwf Hid Hout) as Hwf1.
  set (g1 := mkGraph (storage :: g_nodes g) (S (S (g_fresh g))) (g_device g)) in *.
  unfold insertAllocTensorNodes. rewrite Htot, Hdev.
  destruct (alloc_loop g1 storage allocations (default kCPU (g_device g)) Hwf1
              (managed_range_values_of ranges') g1 []) as (g' & Hrun & Hcnt & Hplaced);
    [|exact Hentries|constructor|constructor|].
  { split; [done|split; [lia|]]. intros vid p0 Hp0. by exists p0. }
  exists storage, g'. split; [exact Hrun|]. split; [|exact Hplaced].
  intros k. rewrite Hcnt. unfold count_kind, g1. cbn [g_nodes List.filter]. rewrite Hk.
  destruct (decide (k = KAllocateStorage)) as [->|E];
    [rewrite bool_decide_true by done|rewrite bool_decide_false by congruence];
    repeat case_decide; simplify_eq; simpl; lia.
Qed.

(** C13. [planMemory] runs to completion on every graph whose node and
    value identities are distinct and below the fresh counter, whatever
    the strategy and the results of alias analysis: [NAIVE] leaves the
    graph as it is; any other strategy adds exactly one [AllocateStorage]
    node, keeps every other node of the graph, and adds nothing but
    [AllocateTensor] nodes. *)
Theorem planMemory_succeeds reg isOpt ai strat (g : Graph) :
  graph_wf g -> values_unique (g_nodes g) ->
  exists g', planMemory reg isOpt ai strat g = (Ok tt, g') /\
    (strat = NAIVE -> g' = g) /\
    (strat <> NAIVE ->
       count_kind KAllocateStorage g' = S (count_kind KAllocateStorage g) /\
       forall k, k <> KAllocateStorage -> k <> KAllocateTensor -> count_kind k g' = count_kind k g).
Proof.
  intros Hwf Huniq.
  destruct (getManagedStuff reg isOpt g ai) as [[out_nodes sizes] ranges] eqn:Egms.
  destruct (key_by_range sizes ranges) as [ml ranges'] eqn:Ekr.
  destruct (static_plan strat g out_nodes sizes ranges' ml) as [allocations|] eqn:Eplan.
  - destruct (planMemory_run reg isOpt ai strat g out_nodes sizes ranges ml ranges' allocations
                Hwf Huniq Egms Ekr Eplan) as (storage & g' & Hrun & Hcnt & _).
    exists g'. split; [exact Hrun|]. split; [intros ->; discriminate Eplan|]. intros _. split.
    + rewrite Hcnt. repeat case_decide; simplify_eq; lia.
    + intros k Hk1 Hk2. rewrite Hcnt. repeat case_decide; simplify_eq; lia.
  - exists g. unfold planMemory, ebind, eget. rewrite Egms, Ekr, Eplan. split; [reflexivity|].
    split; [done|]. intros Hs. destruct strat; simpl in Eplan; congruence.
Qed.

Lemma planMemory_succeeds_witness :
  graph_wf chain_graph /\ values_unique (g_nodes chain_graph) /\
  let ai := mkAliasInfo [] [(10%nat, mkLiveRange 0 5); (11%nat, mkLiveRange 0 3);
                            (12%nat, mkLiveRange 6 8)] in
  exists g', planMemory out_registry (fun _ => false) ai GREEDY_BY_SIZE chain_graph = (Ok tt, g') /\
    (GREEDY_BY_SIZE = NAIVE -> g' = chain_graph) /\
    (GREEDY_BY_SIZE <> NAIVE ->
       count_kind KAllocateStorage g' = S (count_kind KAllocateStorage chain_graph) /\
       forall k, k <> KAllocateStorage -> k <> KAllocateTensor ->
         count_kind k g' = count_kind k chain_graph).
Proof.
  assert (H1 : graph_wf chain_graph) by (unfold graph_wf; decide_by_eval).
  assert (H2 : values_unique (g_nodes chain_graph)) by (unfold values_unique; decide_by_eval).
  split_and!; [exact H1|exact H2|]. intros ai.
  exact (planMemory_succeeds out_registry (fun _ => false) ai GREEDY_BY_SIZE chain_graph H1 H2).
Defined.
