(* ===== verification/TraceMode.v ===== *)
(** * Trace mode: [insertPreAllocTensorNodes] and [planMemoryWithTracing]

    The second pipeline of [memory_planning.cpp]: [planMemoryWithTracing]
    (lines 332-372) pairs the recorded events ([Trace.v]), plans, puts the
    storage node in front and lets [insertPreAllocTensorNodes]
    (lines 139-176) put [prim::PreAllocateTensor] nodes before the
    operators a cursor finds by their schema header.  The theorems say
    where the cursor loop (lines 157-159) stops and what one group of the
    outer loop ([insertPreAllocGroup], lines 153-175) inserts there.  The
    [while] advances while the node's header EQUALS the frame's
    ([compare] returns 0 on equal strings), so the pre-allocations land
    before the first node whose header differs; and the driver as a whole
    never succeeds. *)

From S2P Require Import Prelude Arena Packing Graph Trace Materialize.

(** ** The trace-mode materialiser *)

(** The nodes from the cursor on. *)
Fixpoint nodes_from (cursor : nat) (ns : list Node) : list Node :=
  match ns with
  | [] => []
  | n :: ns' => if Nat.eqb (n_id n) cursor then ns else nodes_from cursor ns'
  end.

(** [while (!getHeader(...).compare(header)) node++;]: [compare] returns
    0 on equal strings, so the cursor moves on while the header EQUALS the
    frame's and stops at the first node whose header differs; running off
    the end dereferences [end()]. *)
Fixpoint advance_cursor (header : string) (ns : list Node) : option Node :=
  match ns with
  | [] => None
  | n :: ns' => if String.eqb (n_header n) header then advance_cursor header ns' else Some n
  end.

(** One group of [insertPreAllocTensorNodes] ([memory_planning.cpp:153-175]). *)
Definition insertPreAllocGroup (allocations : Plan) (cursor : nat)
    (item : FrameNodeId * list LiveRange) : GraphM nat :=
  let '(frame_id, lvrs) := item in
  let lvrs := merge_sort lr_start_le lvrs in
  (g <-! eget ;;
   match advance_cursor (fn_node_header frame_id) (nodes_from cursor (g_nodes g)) with
   | None => ethrow "node iterator past the end"
   | Some node =>
       _ <-! echeck (negb (String.eqb (n_header node) (fn_node_header frame_id)))
               "canonicalSchemaString(node->schema()).compare(frame_id.node_header)" ;;
       _ <-! emapM (fun lvr =>
                     let region := region_of allocations lvr in
                     alloc <-! gcreate KPreAllocateTensor 0 ;;
                     _ <-! ginsertBefore alloc (n_id node) ;;
                     _ <-! gsetAttr (n_id alloc) "size" (AInt (reg_size region)) ;;
                     gsetAttr (n_id alloc) "offset" (AInt (reg_offset region))) lvrs ;;
       eret (n_id node)
   end)%mp.

Fixpoint efoldM {S A B} (f : A -> B -> estate S A) (l : list B) (a : A) : estate S A :=
  match l with
  | [] => eret a
  | b :: l' => ebind (f a b) (efoldM f l')
  end.

(** [insertPreAllocTensorNodes] ([memory_planning.cpp:139-176]): sort the
    groups by frame, start the cursor at the first node, handle the groups in
    order. *)
Definition insertPreAllocTensorNodes (allocations : Plan)
    (collected_node_live_ranges : list (FrameNodeId * list LiveRange)) : GraphM unit :=
  let collected := merge_sort group_frame_le collected_node_live_ranges in
  (g <-! eget ;;
   match g_nodes g with
   | [] => ethrow "node iterator past the end"
   | first :: _ => _ <-! efoldM (insertPreAllocGroup allocations) collected (n_id first) ;; eret tt
   end)%mp.

(** ** The driver *)

(** The [switch (strat)] of [planMemoryWithTracing] (lines 344-358):
    greedy by breadth falls to [default: return]. *)
Definition trace_plan (strat : Strategy) (managed_live_ranges : Managed) : option Plan :=
  match strat with
  | LINEAR_SCAN => Some (LinearScan.linearScanHeuristic managed_live_ranges)
  | GREEDY_BY_SIZE => Some (GreedyBySize.greedyBySize managed_live_ranges)
  | NAIVE | GREEDY_BY_BREADTH => None
  end.

(** [planMemoryWithTracing] ([memory_planning.cpp:332-372]); the greedy plan
    computed before the switch is dead and left out. *)
Definition planMemoryWithTracing (strat : Strategy) (mem_events : list MemEvent) : GraphM unit :=
  (_ <-! echeck (negb (bool_decide (mem_events = []))) "!mem_events.empty()" ;;
   match getLiveRangesFromMemEvents mem_events with
   | Abort e => ethrow e
   | Ok (managed_live_ranges, live_range_node_header) =>
       match trace_plan strat managed_live_ranges with
       | None => eret tt
       | Some allocations =>
           _ <-! insertAllocStorageNode (getTotalAllocationSize allocations) ;;
           insertPreAllocTensorNodes allocations (collectLiveRangesPerNode live_range_node_header)
       end
   end)%mp.


(** ** The nodes a group inserts *)

(** The [PreAllocateTensor] node created with identity [id] for range
    [lvr], with the [size] and [offset] attributes of its region. *)
Definition prealloc_node (id : nat) (allocations : Plan) (lvr : LiveRange) : Node :=
  node_set_attr "offset" (AInt (reg_offset (region_of allocations lvr)))
    (node_set_attr "size" (AInt (reg_size (region_of allocations lvr)))
       (mkNode id KPreAllocateTensor (kind_header KPreAllocateTensor) [] [] [])).

Fixpoint prealloc_nodes (id : nat) (allocations : Plan) (lvrs : list LiveRange) : list Node :=
  match lvrs with
  | [] => []
  | lvr :: l => prealloc_node id allocations lvr :: prealloc_nodes (S id) allocations l
  end.

(** ** Lemmas *)

Lemma advance_cursor_Some header ns n :
  advance_cursor header ns = Some n -> In n ns /\ n_header n <> header.
Proof.
  induction ns as [|m ns IH]; simpl; [discriminate|].
  destruct (String.eqb_spec (n_header m) header) as [Hm|Hm].
  - intros H. destruct (IH H). auto.
  - intros [= <-]. auto.
Qed.

Lemma nodes_from_suffix cursor ns : exists pre, ns = pre ++ nodes_from cursor ns.
Proof.
  induction ns as [|m ns [pre IH]]; simpl; [by exists []|].
  destruct (Nat.eqb (n_id m) cursor); [by exists []|]. exists (m :: pre). simpl. by f_equal.
Qed.

Lemma insert_before_id_app a pre m post :
  n_id m ∉ map n_id pre -> insert_before_id a (n_id m) (pre ++ m :: post) = pre ++ a :: m :: post.
Proof.
  induction pre as [|x pre IH]; simpl; intros Hm; [by rewrite decide_True|].
  rewrite decide_False by set_solver. f_equal. apply IH. set_solver.
Qed.

(** The body of the inner loop of [insertPreAllocGroup] for one range. *)
Definition prealloc_body (allocations : Plan) (node : Node) (lvr : LiveRange) : GraphM unit :=
  (alloc <-! gcreate KPreAllocateTensor 0 ;;
   _ <-! ginsertBefore alloc (n_id node) ;;
   _ <-! gsetAttr (n_id alloc) "size" (AInt (reg_size (region_of allocations lvr))) ;;
   gsetAttr (n_id alloc) "offset" (AInt (reg_offset (region_of allocations lvr))))%mp.

(** One iteration creates the node with the next identity and puts it
    just before [node]. *)
Lemma prealloc_body_eq allocations node lvr pre post fresh dev :
  n_id node ∉ map n_id pre -> fresh ∉ map n_id (pre ++ node :: post) ->
  prealloc_body allocations node lvr (mkGraph (pre ++ node :: post) fresh dev) =
  (Ok tt, mkGraph (pre ++ prealloc_node fresh allocations lvr :: node :: post) (S fresh) dev).
Proof.
  intros Hpre Hfresh.
  unfold prealloc_body, ebind, gcreate, ginsertBefore, gsetAttr, gupdate, emodify.
  cbn -[update_node insert_before_id region_of]. rewrite Nat.add_0_r.
  rewrite !update_insert_before by (first [reflexivity|exact Hfresh]).
  by rewrite insert_before_id_app.
Qed.

(** The inner loop puts the group's nodes, in order, just before [node]. *)
Lemma prealloc_loop allocations node lvrs pre post fresh dev :
  n_id node ∉ map n_id pre -> Forall (fun m => (n_id m < fresh)%nat) (pre ++ node :: post) ->
  emapM (prealloc_body allocations node) lvrs (mkGraph (pre ++ node :: post) fresh dev) =
  (Ok tt, mkGraph (pre ++ prealloc_nodes fresh allocations lvrs ++ node :: post)
                  (fresh + length lvrs) dev).
Proof.
  revert pre fresh. induction lvrs as [|lvr lvrs IH]; intros pre fresh Hpre Hlt.
  - simpl. by rewrite Nat.add_0_r.
  - assert (Hfresh : fresh ∉ map n_id (pre ++ node :: post)).
    { intros (m & Hm & Hin)%list_elem_of_In%in_map_iff. rewrite List.Forall_forall in Hlt.
      specialize (Hlt m Hin). lia. }
    assert (Hnode : (n_id node < fresh)%nat).
    { rewrite List.Forall_forall in Hlt. apply Hlt. apply in_or_app. by right; left. }
    cbn [emapM]. unfold ebind at 1. rewrite prealloc_body_eq by done.
    replace (pre ++ prealloc_node fresh allocations lvr :: node :: post)
      with ((pre ++ [prealloc_node fresh allocations lvr]) ++ node :: post) by (by rewrite <- app_assoc).
    rewrite IH.
    + cbn [prealloc_nodes]. rewrite <- app_assoc. simpl. do 2 f_equal. lia.
    + rewrite map_app. simpl. intros Hin. apply elem_of_app in Hin as [Hin|Hin]; [done|].
      apply list_elem_of_singleton in Hin. simpl in Hin. lia.
    + rewrite <- app_assoc. simpl. apply Forall_app in Hlt as [Hp Hs].
      apply Forall_app. split; [eapply Forall_impl; [exact Hp|]; simpl; lia|].
      constructor; [simpl; lia|]. eapply Forall_impl; [exact Hs|]; simpl; lia.
Qed.

(** C26. Exit of the cursor loop of [insertPreAllocTensorNodes]
    ([memory_planning.cpp:157-159]):
    the loop runs past the last node exactly when every node from the
    cursor on carries the frame's header; otherwise it stops after
    exactly the nodes that carry it, at the first node whose header
    differs. *)
Theorem advance_cursor_exit (header : string) (ns : list Node) :
  (advance_cursor header ns = None <-> Forall (fun n => n_header n = header) ns) /\
  (forall n, advance_cursor header ns = Some n <->
     exists pre post, ns = pre ++ n :: post /\ Forall (fun m => n_header m = header) pre /\
                      n_header n <> header).
Proof.
  induction ns as [|m ns [IHn IHs]]; simpl.
  - split; [split; [constructor|done]|]. intros n. split; [discriminate|].
    intros ([|? ?] & post & E & _); discriminate.
  - destruct (String.eqb_spec (n_header m) header) as [Hm|Hm]; split.
    + rewrite IHn. split; [intros; by constructor|by intros [? ?]%Forall_cons].
    + intros n. rewrite IHs. split.
      * intros (pre & post & -> & Hpre & Hn). exists (m :: pre), post. split_and!; [done|by constructor|done].
      * intros ([|m' pre] & post & E & Hpre & Hn); simpl in E; injection E as <- E; [done|].
        apply Forall_cons in Hpre as [_ Hpre]. by exists pre, post.
    + split; [discriminate|]. by intros [? ?]%Forall_cons.
    + intros n. split.
      * intros [= <-]. exists [], ns. split_and!; [done|constructor|done].
      * intros ([|m' pre] & post & E & Hpre & Hn); simpl in E; injection E as <- E; [done|].
        by apply Forall_cons in Hpre as [? _].
Qed.


(** C27. One group of trace mode ([memory_planning.cpp:153-175]) on a
    well-formed graph: when the cursor loop stops at [node], the group
    succeeds, returns [node] as the next cursor, and the graph gains
    exactly one [PreAllocateTensor] node per range of the group, in
    [begin] order, with fresh identities and the [size] and [offset] of
    the range's region, all immediately before [node]; nothing else
    changes. *)
Theorem insertPreAllocGroup_places (allocations : Plan) (cursor : nat) (f : FrameNodeId)
    (lvrs : list LiveRange) (g : Graph) (node : Node) :
  graph_wf g -> advance_cursor (fn_node_header f) (nodes_from cursor (g_nodes g)) = Some node ->
  exists pre post,
    g_nodes g = pre ++ node :: post /\
    insertPreAllocGroup allocations cursor (f, lvrs) g =
      (Ok (n_id node),
       mkGraph (pre ++ prealloc_nodes (g_fresh g) allocations (merge_sort lr_start_le lvrs) ++ node :: post)
               (g_fresh g + length lvrs) (g_device g)).
Proof.
  intros [Hnd Hlt] Hadv.
  destruct (advance_cursor_Some _ _ _ Hadv) as [Hin Hhdr].
  destruct (nodes_from_suffix cursor (g_nodes g)) as [pre0 Hsuf].
  assert (Hin' : node ∈ g_nodes g).
  { rewrite Hsuf. apply elem_of_app. right. by apply list_elem_of_In. }
  destruct (list_elem_of_split _ _ Hin') as (pre & post & Hsplit).
  assert (Hpre : n_id node ∉ map n_id pre).
  { rewrite Hsplit, map_app in Hnd. simpl in Hnd. apply NoDup_app in Hnd as (_ & Hd & _).
    intros Hp. apply (Hd _ Hp). apply elem_of_cons. by left. }
  exists pre, post. split; [done|].
  destruct g as [ns fresh dev]. cbn [g_nodes g_fresh g_device] in *. subst ns.
  unfold insertPreAllocGroup, ebind at 1, eget. cbv beta iota. cbn [g_nodes]. rewrite Hadv.
  unfold echeck. rewrite (proj2 (String.eqb_neq _ _) Hhdr). cbn [negb].
  unfold ebind at 1, eret at 1. fold (prealloc_body allocations node).
  unfold ebind. rewrite prealloc_loop.
  - unfold eret. by rewrite (Permutation_length (merge_sort_Permutation lr_start_le lvrs)).
  - done.
  - eapply Forall_impl; [exact Hlt|]. by intros m [? _].
Qed.

(** C17. Trace-based planning never succeeds: an empty trace fails the
    entry assertion and a non-empty one fails the sweep's final assertion
    (the sweep never erases a matched allocation), for every strategy; the
    graph is left as it was. *)
Theorem planMemoryWithTracing_aborts (strat : Strategy) (mem_events : list MemEvent) (g : Graph) :
  is_ok (planMemoryWithTracing strat mem_events g).1 = false /\
  (planMemoryWithTracing strat mem_events g).2 = g.
Proof.
  unfold planMemoryWithTracing, ebind, echeck.
  destruct (bool_decide (mem_events = [])) eqn:Ee; simpl; [done|].
  apply bool_decide_eq_false in Ee.
  pose proof (getLiveRangesFromMemEvents_aborts mem_events Ee) as Hab.
  destruct (getLiveRangesFromMemEvents mem_events); [done|]. done.
Qed.

(** ** Concrete runs *)

(** The cursor of [insertPreAllocTensorNodes] stops at the first node
    whose header differs from the frame's: with the storage node first in
    the graph, the pre-allocation for an [aten::add] frame is inserted in
    front of the storage node instead of in front of [aten::add]. *)
Theorem insertPreAllocTensorNodes_misplaces :
  let g := mkGraph [mkNode 1 (KOp "aten::add") "aten::add" [0%nat] [mkValue 10 (byte_tensor 16)] []]
             100 None in
  let plan := [(mkLiveRange 1 9, mkRegion 0 16)] in
  let run := (_ <-! insertAllocStorageNode 16 ;;
              insertPreAllocTensorNodes plan
                [(mkFrameNodeId 1 "aten::add" "aten::add", [mkLiveRange 1 9])])%mp in
  (run g).1 = Ok tt /\
  map n_kind (g_nodes (run g).2) = [KPreAllocateTensor; KAllocateStorage; KOp "aten::add"].
Proof. vm_compute. auto. Qed.


(** A graph whose storage node comes first: the cursor for an
    [aten::add] frame stops at the storage node, and the group's
    pre-allocation lands in front of it. *)
Definition storage_first_graph : Graph :=
  mkGraph [mkNode 2 KAllocateStorage "prim::AllocateStorage" [] [mkValue 3 (OtherT "")] [];
           mkNode 1 (KOp "aten::add") "aten::add" [0%nat] [mkValue 10 (OtherT "")] []] 100 None.

Lemma insertPreAllocGroup_places_witness :
  let storage := mkNode 2 KAllocateStorage "prim::AllocateStorage" [] [mkValue 3 (OtherT "")] [] in
  let f := mkFrameNodeId 1 "aten::add" "aten::add" in
  let plan := [(mkLiveRange 1 9, mkRegion 0 16)] in
  graph_wf storage_first_graph /\
  advance_cursor (fn_node_header f) (nodes_from 2 (g_nodes storage_first_graph)) = Some storage /\
  exists pre post,
    g_nodes storage_first_graph = pre ++ storage :: post /\
    insertPreAllocGroup plan 2 (f, [mkLiveRange 1 9]) storage_first_graph =
      (Ok (n_id storage),
       mkGraph (pre ++ prealloc_nodes (g_fresh storage_first_graph) plan
                        (merge_sort lr_start_le [mkLiveRange 1 9]) ++ storage :: post)
               (g_fresh storage_first_graph + length [mkLiveRange 1 9]) (g_device storage_first_graph)).
Proof.
  intros storage f plan.
  assert (Hwf : graph_wf storage_first_graph) by (unfold graph_wf; decide_by_eval).
  assert (Hadv : advance_cursor (fn_node_header f) (nodes_from 2 (g_nodes storage_first_graph)) = Some storage)
    by reflexivity.
  split; [exact Hwf|]. split; [exact Hadv|].
  exact (insertPreAllocGroup_places plan 2 f [mkLiveRange 1 9] storage_first_graph storage Hwf Hadv).
Defined.

(** Two [aten::add] nodes: a group for an [aten::mul] frame stops at the
    first one, and a later group for an [aten::add] frame skips both and
    runs past the end. *)
Definition two_adds_graph : Graph :=
  mkGraph [mkNode 1 (KOp "aten::add") "aten::add" [0%nat] [mkValue 10 (OtherT "")] [];
           mkNode 2 (KOp "aten::add") "aten::add" [10%nat] [mkValue 11 (OtherT "")] []] 100 None.

(** No rollback in trace mode: when the cursor of a later group runs
    past the last node, [insertPreAllocTensorNodes] throws, and the
    [PreAllocateTensor] node an earlier group inserted stays in the graph
    (the spec, section 7, has a hard abort leave the graph in its
    pre-planning state). *)
Theorem insertPreAllocTensorNodes_no_rollback :
  let plan := [(mkLiveRange 1 4, mkRegion 0 16); (mkLiveRange 5 9, mkRegion 16 8)] in
  let groups := [(mkFrameNodeId 1 "aten::mul" "aten::mul", [mkLiveRange 1 4]);
                 (mkFrameNodeId 5 "aten::add" "aten::add", [mkLiveRange 5 9])] in
  let run := insertPreAllocTensorNodes plan groups two_adds_graph in
  run.1 = Abort "node iterator past the end" /\
  count_kind KPreAllocateTensor run.2 = 1%nat /\ count_kind KPreAllocateTensor two_adds_graph = 0%nat /\
  map n_kind (g_nodes run.2) = [KPreAllocateTensor; KOp "aten::add"; KOp "aten::add"].
Proof. vm_compute. auto. Qed.
