(* ===== verification/Diagnostics.v ===== *)
(** * Diagnostics: the warnings of the static planner

    [TORCH_WARN] prints a message and lets the code go on, so the warnings
    of [memory_planning.cpp] change nothing the planner computes; what they
    are for is the spec's contract for soft failures (sections 4.B and 7):
    a value the planner does not manage is reported by a warning that
    identifies it, and so is a live range two values share.  This file
    models the output as a log: a writer monad [Logged] (a value and the
    warnings printed while computing it), one constructor of [Warning] per
    [TORCH_WARN] of the source, and instrumented copies of the loops that
    print them ([computeStorageSize], the two loops of [getManagedValues],
    the loop building [managed_range_values] in [planMemory]).  Each
    instrumented loop erases to the silent one the other files use, and
    its log has a closed form. *)

From S2P Require Import Prelude Arena Graph Liveness Materialize.

(** ** Warnings *)

(** One constructor per [TORCH_WARN] of [memory_planning.cpp], with what
    its message identifies: a type, or a value (by its debug name; here its
    identity). *)
Inductive Warning :=
| WarnNotTensor (ty : JitType)        (** line 23: "out isn't a tensortype" *)
| WarnNoScalarType (v : nat)          (** lines 27-31: "... didn't have a scalar type" *)
| WarnNoSizes (v : nat)               (** lines 35-39: "... doesn't have sizes" *)
| WarnScalarTypeMissing (v : nat)     (** lines 45-46: "This value doesn't have a scalar type" *)
| WarnNoNumel (v : nat)               (** line 54: "doesn't have numel" *)
| WarnUnsupported (v : nat)           (** lines 220-224: "not handling unsupported value" *)
| WarnOverlapping (v prev : nat).     (** lines 413-417: "overlapping live ranges" *)

#[export] Instance TensorType_eq_dec : EqDecision TensorType.
Proof. solve_decision. Defined.
#[export] Instance JitType_eq_dec : EqDecision JitType.
Proof. solve_decision. Defined.
#[export] Instance Warning_eq_dec : EqDecision Warning.
Proof. solve_decision. Defined.

(** The warning identifies value [v]: it names [v], or, for a value that
    is not a tensor, its type (the message of line 23 prints nothing
    else). *)
Definition warning_about (v : Value) (w : Warning) : bool :=
  match w with
  | WarnNotTensor ty => bool_decide (ty = v_type v)
  | WarnNoScalarType x | WarnNoSizes x | WarnScalarTypeMissing x | WarnNoNumel x
  | WarnUnsupported x | WarnOverlapping x _ => Nat.eqb x (v_id v)
  end.

(** ** A writer monad for the log *)

Record Logged (A : Type) := mkLogged { val : A; log : list Warning }.
Arguments mkLogged {A} _ _.
Arguments val {A} _.
Arguments log {A} _.

Definition lret {A} (a : A) : Logged A := mkLogged a [].

(** The log of [m], then the log of its continuation. *)
Definition lbind {A B} (m : Logged A) (k : A -> Logged B) : Logged B :=
  let r := k (val m) in mkLogged (val r) (log m ++ log r).

(** [TORCH_WARN]. *)
Definition warn (w : Warning) : Logged unit := mkLogged tt [w].

Notation "x <-w m ;; k" := (lbind m (fun x => k))
  (at level 100, m at next level, k at level 200, right associativity) : mp_scope.

(** A loop over a list threading an accumulator. *)
Fixpoint lfoldM {A B} (f : A -> B -> Logged A) (l : list B) (a : A) : Logged A :=
  match l with
  | [] => lret a
  | b :: l' => lbind (f a b) (lfoldM f l')
  end.

(** ** The instrumented extraction *)

(** [computeStorageSize] ([memory_planning.cpp:20-59]) with its five
    warnings, one before each early return. *)
Definition computeStorageSize_logged (value : Value) : Logged (option Z) :=
  (match v_type value with
   | OtherT _ => _ <-w warn (WarnNotTensor (v_type value)) ;; lret None
   | TensorT ttp =>
       match tt_scalar_type ttp with
       | None => _ <-w warn (WarnNoScalarType (v_id value)) ;; lret None
       | Some _ =>
           match tt_sizes ttp with
           | None => _ <-w warn (WarnNoSizes (v_id value)) ;; lret None
           | Some _ =>
               match tt_scalar_type ttp with
               | None => _ <-w warn (WarnScalarTypeMissing (v_id value)) ;; lret None
               | Some scalar_type =>
                   match tt_numel ttp with
                   | None => _ <-w warn (WarnNoNumel (v_id value)) ;; lret None
                   | Some numel => lret (Some (wrap64 (numel * elementSize scalar_type)))
                   end
               end
           end
       end
   end)%mp.

Section Instrumented.
Context (reg : Registry) (isOptimizableContainerType : Node -> bool).

(** The body of the inner loop of [getManagedValues]
    ([memory_planning.cpp:210-227]) with its warnings: those of
    [computeStorageSize], then "not handling unsupported value" on the
    leak branch of a node that is not an optimizable container. *)
Definition visit_output_logged (always_alive_values : list nat) (node : Node)
    (st : ManagedState) (out_v : Value) : Logged ManagedState :=
  (if decide (v_id out_v ∈ always_alive_values) then lret st
   else
     size <-w computeStorageSize_logged out_v ;;
     let leak_logged :=
       if isOptimizableContainerType node then lret (leak st out_v)
       else _ <-w warn (WarnUnsupported (v_id out_v)) ;; lret (leak st out_v) in
     match size with
     | Some size =>
         if 0 <? size
         then lret (mkMS (assoc_insert (v_id out_v) size (ms_managed st)) (ms_leaked st) (ms_out_nodes st))
         else leak_logged
     | None => leak_logged
     end)%mp.

(** The outer loop over [graph->nodes()]. *)
Definition visit_node_logged (always_alive_values : list nat) (st : ManagedState) (node : Node)
    : Logged ManagedState :=
  if negb (hasOutVariant reg node) then lret st
  else lfoldM (visit_output_logged always_alive_values node) (n_outputs node)
         (mkMS (ms_managed st) (ms_leaked st) (ms_out_nodes st ++ [node])).

(** [getManagedValues] ([memory_planning.cpp:197-230]) with its log. *)
Definition getManagedValues_logged (graph : Graph) (always_alive_values : list nat)
    : Logged ManagedState :=
  lfoldM (visit_node_logged always_alive_values) (g_nodes graph) (mkMS [] [] []).
End Instrumented.

(** ** The instrumented overlap check of [planMemory] *)

(** [std::map::find] under [live_range_start_cmp]: the search of
    [smap_insert], returning the value of the key equivalent to [k] (the
    same [begin]); [count(k)] is whether it finds one, [at(k)] its
    value. *)
Fixpoint smap_find (k : LiveRange) (m : list (LiveRange * nat)) : option nat :=
  match m with
  | [] => None
  | (k', v') :: m' =>
      if live_range_start_cmp k k' then None
      else if live_range_start_cmp k' k then smap_find k m' else Some v'
  end.

(** One iteration of the loop building [managed_range_values]
    ([memory_planning.cpp:411-420]): warn when the map already holds an
    equivalent key, naming the value and the one the map holds, then
    [insert] (which keeps the held one). *)
Definition managed_range_values_step (m : list (LiveRange * nat)) (item : nat * LiveRange)
    : Logged (list (LiveRange * nat)) :=
  (_ <-w match smap_find item.2 m with
         | Some prev => warn (WarnOverlapping item.1 prev)
         | None => lret tt
         end ;;
   lret (smap_insert item.2 item.1 m))%mp.

Definition managed_range_values_logged (managed_value_ranges : list (nat * LiveRange))
    : Logged (list (LiveRange * nat)) :=
  lfoldM managed_range_values_step managed_value_ranges [].

(** ** The writer's loops *)

Lemma lfoldM_val {A B} (f : A -> B -> Logged A) (g : A -> B -> A) l a :
  (forall a b, val (f a b) = g a b) -> val (lfoldM f l a) = fold_left g l a.
Proof. intros Hf. revert a. induction l as [|b l IH]; intros a; simpl; [done|]. by rewrite IH, Hf. Qed.

(** A loop whose body logs what depends on the element only logs the
    concatenation of the bodies' logs. *)
Lemma lfoldM_log {A B} (f : A -> B -> Logged A) (h : B -> list Warning) l a :
  (forall a b, log (f a b) = h b) -> log (lfoldM f l a) = flat_map h l.
Proof.
  intros Hf. revert a. induction l as [|b l IH]; intros a; simpl; [done|]. by rewrite IH, Hf.
Qed.

(** ** Erasure: the instrumented code computes what the silent code does *)

Lemma computeStorageSize_logged_val v : val (computeStorageSize_logged v) = computeStorageSize v.
Proof. unfold computeStorageSize_logged, computeStorageSize. by repeat case_match. Qed.

Section Erasure.
Context (reg : Registry) (isOpt : Node -> bool) (aa : list nat).

Lemma visit_output_logged_val node st v :
  val (visit_output_logged isOpt aa node st v) = visit_output isOpt aa node st v.
Proof.
  unfold visit_output_logged, visit_output, lbind. case_decide; [done|].
  rewrite <- computeStorageSize_logged_val. by repeat case_match.
Qed.

Lemma getManagedValues_logged_val g :
  val (getManagedValues_logged reg isOpt g aa) = getManagedValues_state reg isOpt g aa.
Proof.
  apply lfoldM_val. intros st node. unfold visit_node_logged, visit_node.
  case_match; [done|]. apply lfoldM_val, visit_output_logged_val.
Qed.
End Erasure.

Lemma managed_range_values_logged_val ranges :
  val (managed_range_values_logged ranges) = managed_range_values_of ranges.
Proof. apply lfoldM_val. intros m item. unfold managed_range_values_step. by case_match. Qed.

(** ** The log of the extraction in closed form *)

Section ExtractionLog.
Context (reg : Registry) (isOpt : Node -> bool) (aa : list nat).

(** The warning of line 220 for an output of [node]. *)
Definition unsupported_warning (node : Node) (v : Value) : list Warning :=
  if isOpt node then [] else [WarnUnsupported (v_id v)].

(** What the inner loop prints for output [v] of [node], whatever the
    state. *)
Definition output_warnings (node : Node) (v : Value) : list Warning :=
  if decide (v_id v ∈ aa) then []
  else log (computeStorageSize_logged v) ++
       match computeStorageSize v with
       | Some s => if 0 <? s then [] else unsupported_warning node v
       | None => unsupported_warning node v
       end.

Lemma visit_output_logged_log node st v :
  log (visit_output_logged isOpt aa node st v) = output_warnings node v.
Proof.
  unfold visit_output_logged, output_warnings, unsupported_warning, lbind.
  case_decide; [done|]. rewrite <- computeStorageSize_logged_val.
  destruct (computeStorageSize_logged v) as [[s|] ws]; cbn [val log];
    repeat case_match; simpl; by rewrite ?app_nil_r.
Qed.

(** The log of [getManagedValues]: the warnings of every output of every
    out-variant node, in graph order. *)
Lemma getManagedValues_logged_log g :
  log (getManagedValues_logged reg isOpt g aa) =
  flat_map (fun n => flat_map (output_warnings n) (n_outputs n)) (List.filter (hasOutVariant reg) (g_nodes g)).
Proof.
  unfold getManagedValues_logged.
  rewrite (lfoldM_log _ (fun n => if hasOutVariant reg n then flat_map (output_warnings n) (n_outputs n) else [])).
  - induction (g_nodes g) as [|n ns IH]; simpl; [done|]. rewrite IH. by destruct (hasOutVariant reg n).
  - intros st n. unfold visit_node_logged. destruct (hasOutVariant reg n); simpl; [|done].
    apply lfoldM_log. intros st' v. apply visit_output_logged_log.
Qed.
End ExtractionLog.

(** ** What a warning tells about its value *)

Lemma computeStorageSize_nonneg v s : computeStorageSize v = Some s -> 0 <= s.
Proof.
  unfold computeStorageSize. repeat case_match; intros; simplify_eq. apply wrap64_range.
Qed.

Lemma computeStorageSize_type v u : v_type v = v_type u -> computeStorageSize v = computeStorageSize u.
Proof. unfold computeStorageSize. by intros ->. Qed.

(** [computeStorageSize] prints one warning, about its value, exactly
    when it returns nothing. *)
Lemma storage_log_cases v :
  (computeStorageSize v = None /\ exists w, log (computeStorageSize_logged v) = [w] /\ warning_about v w = true) \/
  (computeStorageSize v <> None /\ log (computeStorageSize_logged v) = []).
Proof.
  unfold computeStorageSize_logged, computeStorageSize, lbind.
  repeat case_match; simpl; try (right; done); left; (split; [done|]); eexists; (split; [reflexivity|]);
    simpl; rewrite ?Nat.eqb_refl; try done; by apply bool_decide_eq_true.
Qed.

(** Only [computeStorageSize] reports a value by its type, when the value
    is not a tensor. *)
Lemma not_tensor_warning isOpt aa node u ty :
  In (WarnNotTensor ty) (output_warnings isOpt aa node u) -> ty = v_type u /\ computeStorageSize u = None.
Proof.
  unfold output_warnings, unsupported_warning. case_decide; [done|].
  intros Hw%in_app_or. revert Hw. unfold computeStorageSize_logged, computeStorageSize, lbind.
  repeat case_match; simpl; intros Hw; decompose [or False] Hw; simplify_eq; auto.
Qed.

Lemma output_warnings_about isOpt aa node u w :
  In w (output_warnings isOpt aa node u) -> warning_about u w = true.
Proof.
  unfold output_warnings, unsupported_warning. case_decide; [done|]. intros [Hw|Hw]%in_app_or.
  - destruct (storage_log_cases u) as [(_ & w' & Hl & Ha)|(_ & Hl)]; rewrite Hl in Hw.
    + by destruct Hw as [<-|[]].
    + done.
  - repeat case_match; simpl in Hw; try done; destruct Hw as [<-|[]]; simpl; by rewrite Nat.eqb_refl.
Qed.

(** An output that gets a warning is leaked, and is not a zero-size
    output of an optimizable container. *)
Lemma output_warnings_leaked isOpt aa node v w :
  In w (output_warnings isOpt aa node v) ->
  leaked_entry aa v <> None /\ ~ (isOpt node = true /\ computeStorageSize v = Some 0).
Proof.
  unfold output_warnings, unsupported_warning, leaked_entry. case_decide; [done|]. intros Hw.
  destruct (storage_log_cases v) as [(Hn & _)|(Hs & Hl)]; [rewrite Hn; split; naive_solver|].
  rewrite Hl in Hw. simpl in Hw. destruct (computeStorageSize v) as [s|]; [|done].
  destruct (0 <? s); [done|]. split; [done|]. destruct (isOpt node); [done|naive_solver].
Qed.

(** Conversely, a leaked output that is not a zero-size output of an
    optimizable container gets a warning about it. *)
Lemma leaked_output_warned isOpt aa node v :
  v_id v ∉ aa -> leaked_entry aa v <> None -> ~ (isOpt node = true /\ computeStorageSize v = Some 0) ->
  exists w, In w (output_warnings isOpt aa node v) /\ warning_about v w = true.
Proof.
  unfold output_warnings, unsupported_warning, leaked_entry. intros Haa. rewrite !decide_False by done.
  intros Hl Hopt. destruct (storage_log_cases v) as [(Hn & w & Hw & Ha)|(Hs & Hw)].
  - exists w. rewrite Hw. split; [by left|done].
  - rewrite Hw. simpl. destruct (computeStorageSize v) as [s|] eqn:E; [|done].
    destruct (0 <? s) eqn:Hpos; [done|]. pose proof (computeStorageSize_nonneg v s E). zbool.
    assert (s = 0) as -> by lia. destruct (isOpt node); [naive_solver|].
    exists (WarnUnsupported (v_id v)). split; [by left|]. simpl. by rewrite Nat.eqb_refl.
Qed.

Lemma warning_about_both v u w :
  warning_about v w = true -> warning_about u w = true ->
  v_id v = v_id u \/ exists ty, w = WarnNotTensor ty /\ v_type v = ty /\ v_type u = ty.
Proof.
  destruct w; simpl; rewrite ?bool_decide_eq_true, ?Nat.eqb_eq; intros; subst; try (left; congruence).
  right. by eexists.
Qed.

(** With unique value identities an output has one producing node among
    the out-variant nodes. *)
Lemma candidate_owner reg ns m n v :
  NoDup (map v_id (candidate_outputs reg ns)) -> In m ns -> In n ns ->
  hasOutVariant reg m = true -> hasOutVariant reg n = true ->
  In v (n_outputs m) -> In v (n_outputs n) -> m = n.
Proof.
  unfold candidate_outputs. induction ns as [|x ns IH]; [done|]. simpl.
  intros Hnd Hm Hn Hhm Hhn Hvm Hvn. destruct (hasOutVariant reg x) eqn:Hx; simpl in Hnd.
  - rewrite map_app in Hnd. apply NoDup_app in Hnd as (_ & Hdis & Hnd').
    assert (Hcand : forall y, In y ns -> hasOutVariant reg y = true -> In v (n_outputs y) ->
                      v_id v ∈ map v_id (flat_map n_outputs (List.filter (hasOutVariant reg) ns))).
    { intros y Hy Hhy Hvy. apply list_elem_of_In, in_map, in_flat_map. exists y.
      split; [by apply filter_In|done]. }
    destruct Hm as [<-|Hm], Hn as [<-|Hn]; [done| | |by apply IH]; exfalso;
      (apply (Hdis (v_id v)); [by apply list_elem_of_In, in_map|]).
    + by apply (Hcand n).
    + by apply (Hcand m).
  - destruct Hm as [<-|Hm]; [congruence|]. destruct Hn as [<-|Hn]; [congruence|]. by apply IH.
Qed.

(** ** Soft failures are reported *)

Section Reported.
Context (reg : Registry) (isOpt : Node -> bool) (aa : list nat) (graph : Graph).
Hypothesis candidates_unique : NoDup (map v_id (candidate_outputs reg (g_nodes graph))).

Lemma candidate_In n v :
  In n (g_nodes graph) -> hasOutVariant reg n = true -> In v (n_outputs n) ->
  In v (candidate_outputs reg (g_nodes graph)).
Proof. intros Hn Hh Hv. apply in_flat_map. exists n. split; [by apply filter_In|done]. Qed.

Lemma leaked_iff v :
  In v (candidate_outputs reg (g_nodes graph)) ->
  v_id v ∈ omap (leaked_entry aa) (candidate_outputs reg (g_nodes graph)) <-> leaked_entry aa v <> None.
Proof.
  intros Hv. rewrite list_elem_of_omap. split.
  - intros (u & Hu%list_elem_of_In & Hl).
    rewrite <- (NoDup_map_eq v_id _ u v candidates_unique Hu Hv); [congruence|].
    symmetry. exact (leaked_entry_key _ _ _ Hl).
  - intros Hl. destruct (leaked_entry aa v) as [x|] eqn:E; [|done]. exists v.
    split; [by apply list_elem_of_In|].
    by rewrite E, (leaked_entry_key _ _ _ E).
Qed.

(** C21. Soft failures of the extraction are reported (spec sections 4.B
    and 7): for an output [v] of an out-variant node [n] that is not
    always alive, [getManagedValues] prints a warning identifying [v]
    exactly when it leaks [v], except when [v] is a zero-size output of
    an optimizable container, which is leaked without a warning. *)
Theorem getManagedValues_warns_leaked (n : Node) (v : Value) :
  In n (g_nodes graph) -> hasOutVariant reg n = true -> In v (n_outputs n) -> v_id v ∉ aa ->
  let r := getManagedValues_logged reg isOpt graph aa in
  existsb (warning_about v) (log r) = true <->
  v_id v ∈ ms_leaked (val r) /\ ~ (isOpt n = true /\ computeStorageSize v = Some 0).
Proof.
  intros Hn Hhn Hvn Haa r. unfold r.
  rewrite getManagedValues_logged_log, getManagedValues_logged_val. closed_form candidates_unique.
  pose proof (candidate_In n v Hn Hhn Hvn) as Hvc. rewrite (leaked_iff v Hvc), existsb_exists. split.
  - intros (w & Hw & Ha). apply in_flat_map in Hw as (m & [Hm Hhm]%filter_In & Hw).
    apply in_flat_map in Hw as (u & Hu & Hw).
    destruct (warning_about_both v u w Ha (output_warnings_about _ _ _ _ _ Hw)) as [Hid|(ty & -> & Hv & Hut)].
    + pose proof (NoDup_map_eq v_id _ v u candidates_unique Hvc (candidate_In m u Hm Hhm Hu) Hid). subst u.
      rewrite (candidate_owner reg _ m n v candidates_unique Hm Hn Hhm Hhn Hu Hvn) in Hw.
      exact (output_warnings_leaked _ _ _ _ _ Hw).
    + destruct (not_tensor_warning _ _ _ _ _ Hw) as [_ Hnone].
      rewrite <- (computeStorageSize_type v u) in Hnone by congruence.
      unfold leaked_entry. rewrite decide_False, Hnone by done. split; [done|]. intros [_ Hs]. congruence.
  - intros [Hl Hopt]. destruct (leaked_output_warned isOpt aa n v Haa Hl Hopt) as (w & Hw & Ha).
    exists w. split; [|done]. apply in_flat_map. exists n. split; [by apply filter_In|].
    apply in_flat_map. by exists v.
Qed.
End Reported.

(** In the small graph of [Liveness], the output of [aten::add] without
    concrete sizes is leaked and reported. *)
Lemma getManagedValues_warns_leaked_witness :
  let n := mkNode 1 (KOp "aten::add") "aten::add" [0%nat]
             [mkValue 10 (TensorT (mkTensorType (Some Float) (Some [2; 3]) (Some [3; 1]) (Some 6)));
              mkValue 11 (TensorT (mkTensorType (Some Float) None None None))] [] in
  let v := mkValue 11 (TensorT (mkTensorType (Some Float) None None None)) in
  let r := getManagedValues_logged ex_registry (fun _ => false) ex_graph [] in
  NoDup (map v_id (candidate_outputs ex_registry (g_nodes ex_graph))) /\
  In n (g_nodes ex_graph) /\ hasOutVariant ex_registry n = true /\ In v (n_outputs n) /\
  v_id v ∉ @nil nat /\ log r = [WarnNoSizes 11; WarnUnsupported 11] /\
  (existsb (warning_about v) (log r) = true <->
   v_id v ∈ ms_leaked (val r) /\ ~ ((fun _ => false) n = true /\ computeStorageSize v = Some 0)).
Proof.
  intros n v r.
  assert (H1 : NoDup (map v_id (candidate_outputs ex_registry (g_nodes ex_graph)))) by decide_by_eval.
  assert (H2 : In n (g_nodes ex_graph)) by (simpl; auto).
  assert (H3 : hasOutVariant ex_registry n = true) by reflexivity.
  assert (H4 : In v (n_outputs n)) by (simpl; auto).
  assert (H5 : v_id v ∉ @nil nat) by decide_by_eval.
  refine (conj H1 (conj H2 (conj H3 (conj H4 (conj H5 (conj _ _)))))); [vm_compute; reflexivity|].
  exact (getManagedValues_warns_leaked ex_registry (fun _ => false) [] ex_graph H1 n v H2 H3 H4 H5).
Defined.

(** A list-building node with an out variant whose outputs are a tensor
    with no elements and an integer. *)
Definition container_graph : Graph :=
  mkGraph
    [mkNode 1 (KOp "prim::ListConstruct") "prim::ListConstruct" [0%nat]
       [mkValue 20 (TensorT (mkTensorType (Some Float) (Some [0]) None (Some 0)));
        mkValue 21 (OtherT "int")] []]
    30 None.

(** Two leaks the spec says are reported with a warning identifying
    the value are not: the zero-size output of an optimizable container is
    leaked with no warning at all, and its non-tensor output only by a
    warning that prints its type. *)
Theorem getManagedValues_unreported_leaks :
  let isOpt := fun n => bool_decide (n_kind n = KOp "prim::ListConstruct") in
  let r := getManagedValues_logged out_registry isOpt container_graph [] in
  ms_managed (val r) = [] /\ ms_leaked (val r) = [20; 21]%nat /\
  log r = [WarnNotTensor (OtherT "int")].
Proof. vm_compute. auto. Qed.

(** ** The overlap check *)

Lemma smap_find_None_insert k v m : smap_find k m = None -> In (k, v) (smap_insert k v m).
Proof. induction m as [|[k' v'] m IH]; simpl; [auto|]. repeat case_match; simpl; naive_solver. Qed.

Lemma smap_find_Some_insert k v m w : smap_find k m = Some w -> smap_insert k v m = m.
Proof.
  induction m as [|[k' v'] m IH]; simpl; [done|].
  repeat case_match; intros Hf; simplify_eq; try done. by rewrite (IH Hf).
Qed.

(** What [at(k)] returns is held under a key with the same [begin]. *)
Lemma smap_find_Some_In k m w :
  smap_find k m = Some w -> exists k', In (k', w) m /\ lr_begin k' = lr_begin k.
Proof.
  induction m as [|[k' v'] m IH]; simpl; [done|]. intros Hf.
  destruct (live_range_start_cmp k k') eqn:E1; [done|].
  destruct (live_range_start_cmp k' k) eqn:E2.
  - destruct (IH Hf) as (k'' & Hin & Hb). exists k''. auto.
  - injection Hf as <-. exists k'. split; [by left|]. unfold live_range_start_cmp in *. zlia.
Qed.

Lemma managed_range_values_step_eq m item :
  managed_range_values_step m item =
  mkLogged (smap_insert item.2 item.1 m)
    (match smap_find item.2 m with Some prev => [WarnOverlapping item.1 prev] | None => [] end).
Proof. unfold managed_range_values_step, lbind. by case_match. Qed.

(** The invariant of the overlap loop run from map [m] over the items
    [l]: the map only grows, holds nothing but [m] and the items, warns
    about items only, and an item is either in the map or warned about,
    the warning naming a value held under the same [begin]. *)
Lemma overlap_loop l m :
  NoDup (map fst l) -> (forall p, In p m -> p.2 ∉ map fst l) ->
  let r := lfoldM managed_range_values_step l m in
  (forall p, In p m -> In p (val r)) /\
  (forall p, In p (val r) -> In p m \/ In (p.2, p.1) l) /\
  (forall v w, In (WarnOverlapping v w) (log r) -> v ∈ map fst l) /\
  (forall v lr, In (v, lr) l ->
     (In (lr, v) (val r) <-> ~ exists w, In (WarnOverlapping v w) (log r)) /\
     (forall w, In (WarnOverlapping v w) (log r) ->
        exists lr', In (lr', w) (val r) /\ lr_begin lr' = lr_begin lr)).
Proof.
  revert m. induction l as [|[v lr] l IH]; intros m Hnd Hm r.
  { unfold r. simpl. split_and!; naive_solver. }
  apply NoDup_cons in Hnd as [Hv Hnd]. cbn [map fst] in Hm.
  unfold r. cbn [lfoldM]. rewrite managed_range_values_step_eq. unfold lbind. cbn [val log fst snd].
  set (w0 := match smap_find lr m with Some prev => [WarnOverlapping v prev] | None => [] end).
  assert (Hw0 : forall v' w, In (WarnOverlapping v' w) w0 -> v' = v).
  { unfold w0. case_match; [|done]. by intros ?? [[= -> _]|[]]. }
  destruct (IH (smap_insert lr v m) Hnd) as (Hkeep & Horig & Hwv & Hitems).
  { intros p [->|Hp]%smap_insert_In; [done|]. intros Hl. apply (Hm p Hp). by apply elem_of_cons; right. }
  set (r' := lfoldM managed_range_values_step l (smap_insert lr v m)) in *.
  assert (Hnot : forall w, ~ In (WarnOverlapping v w) (log r')) by (intros w Hw; by apply Hv, (Hwv v w)).
  split_and!.
  - intros p Hp. by apply Hkeep, smap_insert_keep.
  - intros p [[->|Hp]%smap_insert_In|Hp]%Horig; [by right; left|by left|by right; right].
  - intros v' w [Hw|Hw]%in_app_or; apply elem_of_cons; [left; by apply (Hw0 v' w)|right; by apply (Hwv v' w)].
  - intros v' lr' [[= <- <-]|Hin].
    + unfold w0 in *. destruct (smap_find lr m) as [prev|] eqn:Hf.
      * rewrite (smap_find_Some_insert lr v m prev Hf) in *. split.
        -- split; [|intros Hn; exfalso; apply Hn; exists prev; by left].
           intros [Hp|Hp]%Horig; exfalso; [apply (Hm _ Hp); by left|apply Hv, list_elem_of_In, in_map_iff; by exists (v, lr)].
        -- intros w [[[= <-]|[]]|Hw]%in_app_or; [|by destruct (Hnot w)].
           destruct (smap_find_Some_In lr m prev Hf) as (k' & Hk' & Hb). exists k'. auto.
      * split; [|intros w [[]|Hw]%in_app_or; by destruct (Hnot w)].
        split; [intros _ (w & [[]|Hw]%in_app_or); by apply (Hnot w)|]. intros _.
        by apply Hkeep, smap_find_None_insert.
    + assert (Hne : v' <> v) by (intros ->; apply Hv, list_elem_of_In, in_map_iff; by exists (v, lr')).
      destruct (Hitems v' lr' Hin) as [Hiff Hkept]. split.
      * rewrite Hiff. split; intros Hn (w & Hw); apply Hn; exists w.
        -- apply in_app_or in Hw as [Hw|Hw]; [by destruct Hne; apply (Hw0 v' w)|done].
        -- by apply in_or_app; right.
      * intros w [Hw|Hw]%in_app_or; [by destruct Hne; apply (Hw0 v' w)|by apply Hkept].
Qed.

(** C22. The overlap check of [planMemory] reports every value it drops
    (spec section 7: overlapping live-range keys warn and continue): a
    value of [managed_value_ranges] is missing from [managed_range_values]
    exactly when "overlapping live ranges" names it, and the warning
    names, as the value kept in its place, one the map holds under a
    range with the same [begin]. *)
Theorem managed_range_values_warns (ranges : list (nat * LiveRange)) :
  NoDup (map fst ranges) ->
  let W := log (managed_range_values_logged ranges) in
  forall v lr, In (v, lr) ranges ->
    (In (lr, v) (managed_range_values_of ranges) <-> ~ exists w, In (WarnOverlapping v w) W) /\
    (forall w, In (WarnOverlapping v w) W ->
       exists lr', In (lr', w) (managed_range_values_of ranges) /\ lr_begin lr' = lr_begin lr).
Proof.
  intros Hnd W. rewrite <- managed_range_values_logged_val.
  destruct (overlap_loop ranges [] Hnd) as (_ & _ & _ & H); [done|]. exact H.
Qed.

(** The ranges of the same-begin scenario: [11] and [12] begin with [10]
    and are dropped in favour of it. *)
Lemma managed_range_values_warns_witness :
  let ranges := [(10%nat, mkLiveRange 0 5); (11%nat, mkLiveRange 0 3); (12%nat, mkLiveRange 0 5)] in
  NoDup (map fst ranges) /\
  log (managed_range_values_logged ranges) = [WarnOverlapping 11 10; WarnOverlapping 12 10] /\
  (In (mkLiveRange 0 3, 11%nat) (managed_range_values_of ranges) <->
   ~ exists w, In (WarnOverlapping 11 w) (log (managed_range_values_logged ranges))).
Proof.
  intros ranges. assert (Hnd : NoDup (map fst ranges)) by decide_by_eval.
  refine (conj Hnd (conj _ _)); [vm_compute; reflexivity|].
  exact (proj1 (managed_range_values_warns ranges Hnd 11%nat (mkLiveRange 0 3) (or_intror (or_introl eq_refl)))).
Defined.
