(* ===== verification/Pipeline.v ===== *)
(** * The static planner end to end

    [planMemory] ([memory_planning.cpp:374-432]) composes the extraction
    ([Liveness]), a heuristic ([Packing], through [static_plan]), the
    materialiser ([Materialize]) and, alongside, the warnings it prints
    ([Diagnostics]).  The theorems here are about the whole pass on a
    well-formed graph: every managed value gets an allocation node or is
    named by an "overlapping live ranges" warning, and two managed values
    live at the same time that no warning names get allocation nodes whose
    windows of the arena are disjoint (spec section 8, property 1, read
    on the graph the pass returns).  With the analyses of [AliasLiveness]
    inside, as the source calls them, graph inputs, outputs and constants
    are never managed, and no operator's managed output shares bytes with
    one of its managed inputs. *)

From S2P Require Import Prelude Arena Packing Graph Liveness AliasLiveness Materialize Diagnostics.

(** ** Allocation nodes of a value *)

(** Allocation node [a] of [g] feeds its output to the producer [p] of
    value [v]: the producer will write [v] into [a]'s slice. *)
Definition allocates (g : Graph) (a : Node) (v : nat) (p : Node) : Prop :=
  In a (g_nodes g) /\ n_kind a = KAllocateTensor /\
  producer_of v (g_nodes g) = Some p /\ In (node_output a) (n_inputs p).

(** [v] gets an allocation node for the window [[o, o + s)] of the arena. *)
Definition alloc_window (g : Graph) (v : nat) (o s : Z) : Prop :=
  exists a p, allocates g a v p /\ attr_int "offset" a = Some o /\ attr_int "size" a = Some s.

(** ** The warnings of the driver *)

(** The warnings [planMemory] ([memory_planning.cpp:374-432]) prints, in
    order: those of [getManagedValues] (inside [getManagedStuff]), then,
    unless the strategy returns early, those of the overlap check. *)
Definition planMemory_warnings (reg : Registry) (isOpt : Node -> bool) (ai : AliasInfo)
    (strat : Strategy) (g : Graph) : list Warning :=
  let extraction := log (getManagedValues_logged reg isOpt g (ai_always_alive ai)) in
  let '(out_nodes, managed_value_sizes, managed_value_ranges) := getManagedStuff reg isOpt g ai in
  let '(managed_live_ranges, managed_value_ranges') :=
    key_by_range managed_value_sizes managed_value_ranges in
  match static_plan strat g out_nodes managed_value_sizes managed_value_ranges'
          managed_live_ranges with
  | None => extraction
  | Some _ => extraction ++ log (managed_range_values_logged managed_value_ranges')
  end.

(** ** The stages' results *)

Lemma getManagedStuff_sizes reg isOpt g ai out_nodes sizes ranges :
  getManagedStuff reg isOpt g ai = (out_nodes, sizes, ranges) ->
  sizes = (getManagedValues reg isOpt g (ai_always_alive ai)).2.
Proof. unfold getManagedStuff. destruct (getManagedValues _ _ _ _). by intros [= _ <- _]. Qed.

(** [managed_live_ranges[managed_value_ranges[v]]] keeps the range the
    alias analysis gave [v]. *)
Lemma key_by_range_keeps sizes ranges v lr :
  assoc_find v ranges = Some lr -> assoc_find v (key_by_range sizes ranges).2 = Some lr.
Proof.
  unfold key_by_range. intros H.
  apply (fold_left_inv _ (fun acc => assoc_find v acc.2 = Some lr)); [done|].
  intros acc item _ Hacc. by apply key_by_range_step_find.
Qed.

(** [getManagedStuff] keeps the liveness entries of the managed values. *)
Lemma managed_ranges_filter reg isOpt g ai out_nodes sizes ranges :
  NoDup (map fst (ai_live_ranges ai)) ->
  getManagedStuff reg isOpt g ai = (out_nodes, sizes, ranges) ->
  forall u lu, In (u, lu) ranges <-> In (u, lu) (ai_live_ranges ai) /\ u ∈ map fst sizes.
Proof.
  intros Hnd Egms u lu. pose proof (getManagedStuff_ranges reg isOpt g ai Hnd) as Hr.
  rewrite Egms in Hr. cbn [snd] in Hr. rewrite Hr, <- (getManagedStuff_sizes _ _ _ _ _ _ _ Egms), filter_In.
  cbn [fst]. unfold assoc_mem. destruct (assoc_find u sizes) eqn:E.
  - split; intros [H1 H2]; (split; [done|]); [|done].
    apply assoc_find_In in E. apply list_elem_of_In, in_map_iff. by exists (u, z).
  - apply assoc_find_None in E. naive_solver.
Qed.

(** A value whose range is known adds nothing to the range map and sets
    the size of its range. *)
Lemma key_by_range_step_known (m : Managed) ranges u su lu :
  assoc_find u ranges = Some lu -> key_by_range_step (m, ranges) (u, su) = (assoc_set lu su m, ranges).
Proof. intros H. unfold key_by_range_step, assoc_get_default. cbn [fst snd]. by rewrite H. Qed.

(** When every value has a range and no other value has the range [lr]
    of [v], the size the loop leaves for [lr] is [v]'s. *)
Lemma key_by_range_fold_size (l : list (nat * Z)) (m : Managed) ranges v lr :
  NoDup (map fst l) -> (forall u, u ∈ map fst l -> exists lu, assoc_find u ranges = Some lu) ->
  (forall u, u ∈ map fst l -> assoc_find u ranges = Some lr -> u = v) ->
  assoc_find v ranges = Some lr ->
  assoc_find lr (fold_left key_by_range_step l (m, ranges)).1 =
    if decide (v ∈ map fst l) then assoc_find v l else assoc_find lr m.
Proof.
  revert m. induction l as [|[u su] l IH]; intros m Hnd Hr Hinj Hv; [done|].
  cbn [map fst] in Hnd. apply NoDup_cons in Hnd as [Hu Hnd].
  destruct (Hr u ltac:(set_solver)) as [lu Hlu]. cbn [fold_left].
  rewrite (key_by_range_step_known m ranges u su lu Hlu).
  rewrite IH; [|done|intros u' Hu'; apply Hr; set_solver|intros u' Hu' Hf; apply Hinj; [set_solver|done]|done].
  destruct (decide (u = v)) as [->|Hne].
  - rewrite Hv in Hlu. injection Hlu as <-.
    rewrite decide_False by done. rewrite decide_True by set_solver.
    cbn [assoc_find]. rewrite decide_True by done. apply assoc_find_set_eq.
  - assert (Hlr : lu <> lr) by (intros ->; apply Hne, Hinj; [set_solver|done]).
    destruct (decide (v ∈ map fst l)) as [Hin|Hnin].
    + rewrite decide_True by set_solver. cbn [assoc_find]. by rewrite decide_False by congruence.
    + rewrite decide_False by set_solver. by apply assoc_find_set_ne.
Qed.

Lemma key_by_range_size (sizes : list (nat * Z)) ranges v lr :
  NoDup (map fst sizes) -> (forall u, u ∈ map fst sizes -> exists lu, assoc_find u ranges = Some lu) ->
  (forall u, u ∈ map fst sizes -> assoc_find u ranges = Some lr -> u = v) ->
  assoc_find v ranges = Some lr ->
  assoc_find lr (key_by_range sizes ranges).1 = if decide (v ∈ map fst sizes) then assoc_find v sizes else None.
Proof. apply key_by_range_fold_size. Qed.

(** The size [managed_live_ranges[lr]] ends with: that of the last value
    visited, in the order of [managed_value_sizes], whose range is [lr]. *)
Definition last_size_for (ranges : list (nat * LiveRange)) (l : list (nat * Z)) (lr : LiveRange)
    : option Z :=
  snd <$> last (List.filter (fun p => bool_decide (assoc_find p.1 ranges = Some lr)) l).

(** When every value has a range, the loop leaves for [lr] the size of the
    last value with that range. *)
Lemma key_by_range_fold_last (l : list (nat * Z)) (m : Managed) ranges lr :
  (forall u, u ∈ map fst l -> exists lu, assoc_find u ranges = Some lu) ->
  assoc_find lr (fold_left key_by_range_step l (m, ranges)).1 =
    match last_size_for ranges l lr with Some s => Some s | None => assoc_find lr m end.
Proof.
  revert m. induction l as [|[u su] l IH]; intros m Hr; [done|].
  destruct (Hr u ltac:(set_solver)) as [lu Hlu]. cbn [fold_left].
  rewrite (key_by_range_step_known m ranges u su lu Hlu), IH by (intros u' Hu'; apply Hr; set_solver).
  unfold last_size_for. cbn [List.filter fst]. rewrite Hlu.
  destruct (last (List.filter _ l)) as [[w sw]|] eqn:E; case_bool_decide as Heq.
  - by rewrite last_cons, E.
  - by rewrite E.
  - injection Heq as ->. rewrite last_cons, E. apply assoc_find_set_eq.
  - rewrite E. cbn. apply assoc_find_set_ne. congruence.
Qed.

Lemma key_by_range_last (sizes : list (nat * Z)) ranges lr :
  (forall u, u ∈ map fst sizes -> exists lu, assoc_find u ranges = Some lu) ->
  assoc_find lr (key_by_range sizes ranges).1 = last_size_for ranges sizes lr.
Proof. intros Hr. unfold key_by_range. rewrite key_by_range_fold_last by done. by destruct (last_size_for _ _ _). Qed.

(** The overlap check either keeps a value or names it. *)
Lemma kept_or_warned ranges' v lr :
  NoDup (map fst ranges') -> In (v, lr) ranges' ->
  In (lr, v) (managed_range_values_of ranges') \/
  exists w, In (WarnOverlapping v w) (log (managed_range_values_logged ranges')).
Proof.
  intros Hnd Hin. destruct (overlap_loop ranges' [] Hnd) as (_ & _ & _ & H); [done|].
  destruct (H v lr Hin) as [Hiff _]. rewrite <- managed_range_values_logged_val.
  set (f := fun x => match x with WarnOverlapping v' _ => Nat.eqb v' v | _ => false end).
  destruct (existsb f (log (managed_range_values_logged ranges'))) eqn:E.
  - right. apply existsb_exists in E as ([] & Hw & Hv); try discriminate.
    apply Nat.eqb_eq in Hv. subst. eauto.
  - left. apply Hiff. intros (w & Hw).
    assert (Ht : existsb f (log (managed_range_values_logged ranges')) = true).
    { apply existsb_exists. exists (WarnOverlapping v w). split; [done|]. apply Nat.eqb_refl. }
    congruence.
Qed.

(** Linear scan and greedy by size give a range of the heuristic's input
    a region of its size at a non-negative offset. *)
Lemma heuristic_region strat g out_nodes sizes ranges ml ranges' plan lr s r :
  strat = LINEAR_SCAN \/ strat = GREEDY_BY_SIZE -> Forall (fun p => 0 < p.2) sizes ->
  key_by_range sizes ranges = (ml, ranges') -> static_plan strat g out_nodes sizes ranges' ml = Some plan ->
  assoc_find lr ml = Some s -> In (lr, r) plan -> r = mkRegion (reg_offset r) s /\ 0 <= reg_offset r.
Proof.
  intros Hstrat Hpos Ekr Eplan Hml Hr.
  assert (Hmo : managed_ok ml).
  { pose proof (key_by_range_managed_ok sizes ranges) as H. rewrite Ekr in H. apply H.
    eapply Forall_impl; [exact Hpos|]. intros p Hp. simpl in Hp. lia. }
  assert (Hpok : plan_ok ml plan).
  { destruct Hstrat as [-> | ->]; cbn [static_plan] in Eplan; injection Eplan as <-.
    - exact (@pack_ok _ LinearScan.linearScan_correct ml Hmo).
    - exact (@pack_ok _ GreedyBySize.greedyBySize_correct ml Hmo). }
  destruct Hpok as (Hplaced_all & _ & Hndp & _).
  destruct (Hplaced_all lr s (assoc_find_In _ _ _ Hml)) as (off & Hoff & Hnonneg).
  rewrite (assoc_find_In_NoDup _ _ _ Hndp Hr) in Hoff. injection Hoff as ->. by split.
Qed.

(** ** One run of [planMemory] with a strategy that plans *)

Section Run.
Context (reg : Registry) (isOpt : Node -> bool) (ai : AliasInfo) (strat : Strategy) (g : Graph).
Context (out_nodes : list Node) (sizes : list (nat * Z)) (ranges : list (nat * LiveRange)).
Context (ml : Managed) (ranges' : list (nat * LiveRange)) (plan : Plan) (storage : Node) (g' : Graph).
Hypothesis Egms : getManagedStuff reg isOpt g ai = (out_nodes, sizes, ranges).
Hypothesis Ekr : key_by_range sizes ranges = (ml, ranges').
Hypothesis Eplan : static_plan strat g out_nodes sizes ranges' ml = Some plan.
Hypothesis Hplaced :
  Forall (alloc_placed (mkGraph (storage :: g_nodes g) (S (S (g_fresh g))) (g_device g)) storage plan g')
    (managed_range_values_of ranges').

Lemma run_ranges_NoDup : NoDup (map fst ranges').
Proof.
  pose proof (getManagedStuff_ok reg isOpt g ai) as Hok. rewrite Egms in Hok.
  destruct Hok as (_ & _ & _ & Hrnd & Hrin).
  destruct (key_by_range_ranges sizes ranges Hrnd Hrin) as [Hnd _]. by rewrite Ekr in Hnd.
Qed.

(** The overlap check prints what [planMemory] prints after the switch. *)
Lemma run_warning w :
  In w (log (managed_range_values_logged ranges')) -> In w (planMemory_warnings reg isOpt ai strat g).
Proof. intros Hw. unfold planMemory_warnings. rewrite Egms, Ekr, Eplan. apply in_or_app. by right. Qed.

(** A value the check keeps is materialised with the region of its range. *)
Lemma run_kept_window lr v :
  In (lr, v) (managed_range_values_of ranges') ->
  exists r, In (lr, r) plan /\ alloc_window g' v (reg_offset r) (reg_size r).
Proof.
  intros HM. destruct (static_plan_ok reg isOpt ai strat g _ _ _ _ _ plan Egms Ekr Eplan) as (_ & _ & Hkeys).
  destruct (assoc_find lr plan) as [r|] eqn:Ef; [|by apply assoc_find_None in Ef; destruct Ef; apply (Hkeys lr v)].
  destruct (proj1 (List.Forall_forall _ _) Hplaced _ HM) as (a & p & Ha & _ & Hk & _ & Hsz & Hoff & Hp & Hinp).
  cbn [fst snd] in *. unfold region_of in Hsz, Hoff. rewrite Ef in Hsz, Hoff.
  exists r. split; [by apply assoc_find_In|]. by exists a, p.
Qed.

(** Every managed value is materialised or named by a warning. *)
Lemma run_allocated_or_warned v :
  v ∈ map fst sizes ->
  (exists lr r, In (lr, r) plan /\ alloc_window g' v (reg_offset r) (reg_size r)) \/
  exists w, In (WarnOverlapping v w) (planMemory_warnings reg isOpt ai strat g).
Proof.
  intros Hv. destruct (key_by_range_found sizes ([], ranges) v (or_introl Hv)) as (lr & Hf & _).
  fold (key_by_range sizes ranges) in Hf. rewrite Ekr in Hf. apply assoc_find_In in Hf.
  destruct (kept_or_warned ranges' v lr run_ranges_NoDup Hf) as [HM|(w & Hw)].
  - left. exists lr. by apply run_kept_window.
  - right. exists w. by apply run_warning.
Qed.

(** A managed value with a range from the alias analysis that no warning
    names is materialised with the region the plan gives that range. *)
Lemma run_unwarned_window v lr :
  NoDup (map fst (ai_live_ranges ai)) -> v ∈ map fst sizes -> In (v, lr) (ai_live_ranges ai) ->
  (forall w, ~ In (WarnOverlapping v w) (planMemory_warnings reg isOpt ai strat g)) ->
  exists r, In (lr, r) plan /\ alloc_window g' v (reg_offset r) (reg_size r).
Proof.
  intros Hnd Hv Hin Hnw.
  pose proof (getManagedStuff_ok reg isOpt g ai) as Hok. rewrite Egms in Hok.
  destruct Hok as (_ & _ & _ & Hrnd & _).
  assert (Hr : In (v, lr) ranges) by (apply (managed_ranges_filter _ _ _ _ _ _ _ Hnd Egms); done).
  pose proof (key_by_range_keeps sizes ranges v lr (assoc_find_In_NoDup _ _ _ Hrnd Hr)) as Hf.
  rewrite Ekr in Hf. apply assoc_find_In in Hf.
  destruct (kept_or_warned ranges' v lr run_ranges_NoDup Hf) as [HM|(w & Hw)].
  - by apply run_kept_window.
  - by destruct (Hnw w); apply run_warning.
Qed.
(** Two managed values with distinct overlapping ranges that no warning
    names get disjoint windows. *)
Lemma run_disjoint_windows v1 lr1 v2 lr2 :
  NoDup (map fst (ai_live_ranges ai)) ->
  v1 ∈ map fst sizes -> v2 ∈ map fst sizes ->
  In (v1, lr1) (ai_live_ranges ai) -> In (v2, lr2) (ai_live_ranges ai) ->
  lr1 <> lr2 -> lr_overlap lr1 lr2 = true ->
  (forall w, ~ In (WarnOverlapping v1 w) (planMemory_warnings reg isOpt ai strat g)) ->
  (forall w, ~ In (WarnOverlapping v2 w) (planMemory_warnings reg isOpt ai strat g)) ->
  exists o1 s1 o2 s2, alloc_window g' v1 o1 s1 /\ alloc_window g' v2 o2 s2 /\
    (o1 + s1 <= o2 \/ o2 + s2 <= o1).
Proof.
  intros Hnd Hv1 Hv2 Hin1 Hin2 Hne Hov Hw1 Hw2.
  destruct (run_unwarned_window v1 lr1 Hnd Hv1 Hin1 Hw1) as (r1 & Hr1 & Hwin1).
  destruct (run_unwarned_window v2 lr2 Hnd Hv2 Hin2 Hw2) as (r2 & Hr2 & Hwin2).
  destruct (static_plan_ok reg isOpt ai strat g _ _ _ _ _ plan Egms Ekr Eplan) as (_ & Hdis & _).
  pose proof (Hdis lr1 r1 lr2 r2 Hr1 Hr2 Hne Hov) as Hc. apply reg_collide_false in Hc.
  exists (reg_offset r1), (reg_size r1), (reg_offset r2), (reg_size r2). split_and!; [done|done|lia].
Qed.
End Run.

(** Every strategy but [NAIVE] plans, and the run materialises its plan. *)
Lemma planMemory_plans reg isOpt ai strat g :
  graph_wf g -> values_unique (g_nodes g) -> strat <> NAIVE ->
  let '(out_nodes, sizes, ranges) := getManagedStuff reg isOpt g ai in
  let '(ml, ranges') := key_by_range sizes ranges in
  exists plan storage g', static_plan strat g out_nodes sizes ranges' ml = Some plan /\
    planMemory reg isOpt ai strat g = (Ok tt, g') /\
    Forall (alloc_placed (mkGraph (storage :: g_nodes g) (S (S (g_fresh g))) (g_device g)) storage plan g')
      (managed_range_values_of ranges').
Proof.
  intros Hwf Huniq Hstrat.
  destruct (getManagedStuff reg isOpt g ai) as [[out_nodes sizes] ranges] eqn:Egms.
  destruct (key_by_range sizes ranges) as [ml ranges'] eqn:Ekr.
  destruct (static_plan strat g out_nodes sizes ranges' ml) as [plan|] eqn:Eplan;
    [|destruct strat; simpl in Eplan; congruence].
  destruct (planMemory_run reg isOpt ai strat g out_nodes sizes ranges ml ranges' plan Hwf Huniq Egms Ekr Eplan)
    as (storage & g' & Hrun & _ & Hplaced).
  by exists plan, storage, g'.
Qed.

(** ** Theorems *)

(** C9. Every managed value is accounted for (spec section 7): on a
    well-formed graph, with any strategy but [NAIVE], [planMemory]
    succeeds, and every value [getManagedValues] manages either gets an
    allocation node feeding its producer, for the window of its range's
    region in the plan, or is named by an "overlapping live ranges"
    warning. *)
Theorem planMemory_allocates_or_warns reg isOpt ai strat (g : Graph) :
  graph_wf g -> values_unique (g_nodes g) -> strat <> NAIVE ->
  exists g', planMemory reg isOpt ai strat g = (Ok tt, g') /\
  forall v, v ∈ map fst (getManagedValues reg isOpt g (ai_always_alive ai)).2 ->
    (exists o s, alloc_window g' v o s) \/
    (exists w, In (WarnOverlapping v w) (planMemory_warnings reg isOpt ai strat g)).
Proof.
  intros Hwf Huniq Hstrat. generalize (planMemory_plans reg isOpt ai strat g Hwf Huniq Hstrat).
  destruct (getManagedStuff reg isOpt g ai) as [[out_nodes sizes] ranges] eqn:Egms.
  destruct (key_by_range sizes ranges) as [ml ranges'] eqn:Ekr.
  intros (plan & storage & g' & Eplan & Hrun & Hplaced). exists g'. split; [done|].
  intros v Hv. rewrite <- (getManagedStuff_sizes _ _ _ _ _ _ _ Egms) in Hv.
  destruct (run_allocated_or_warned reg isOpt ai strat g _ _ _ _ _ plan storage g' Egms Ekr Eplan Hplaced v Hv)
    as [(lr & r & _ & Hw)|Hw]; [left; by exists (reg_offset r), (reg_size r)|by right].
Qed.

(** C5. Values live at the same time do not share bytes (spec property
    1, on the graph): on a well-formed graph, with any strategy but
    [NAIVE] and a liveness map with one range per value, [planMemory]
    succeeds, and two managed values with distinct overlapping live
    ranges that no warning names get allocation nodes whose windows
    [[offset, offset + size)] are disjoint. *)
Theorem planMemory_disjoint_allocations reg isOpt ai strat (g : Graph) :
  graph_wf g -> values_unique (g_nodes g) -> NoDup (map fst (ai_live_ranges ai)) -> strat <> NAIVE ->
  exists g', planMemory reg isOpt ai strat g = (Ok tt, g') /\
  forall v1 lr1 v2 lr2,
    v1 ∈ map fst (getManagedValues reg isOpt g (ai_always_alive ai)).2 ->
    v2 ∈ map fst (getManagedValues reg isOpt g (ai_always_alive ai)).2 ->
    In (v1, lr1) (ai_live_ranges ai) -> In (v2, lr2) (ai_live_ranges ai) ->
    lr1 <> lr2 -> lr_overlap lr1 lr2 = true ->
    (forall w, ~ In (WarnOverlapping v1 w) (planMemory_warnings reg isOpt ai strat g)) ->
    (forall w, ~ In (WarnOverlapping v2 w) (planMemory_warnings reg isOpt ai strat g)) ->
    exists o1 s1 o2 s2, alloc_window g' v1 o1 s1 /\ alloc_window g' v2 o2 s2 /\
      (o1 + s1 <= o2 \/ o2 + s2 <= o1).
Proof.
  intros Hwf Huniq Hnd Hstrat. generalize (planMemory_plans reg isOpt ai strat g Hwf Huniq Hstrat).
  destruct (getManagedStuff reg isOpt g ai) as [[out_nodes sizes] ranges] eqn:Egms.
  destruct (key_by_range sizes ranges) as [ml ranges'] eqn:Ekr.
  intros (plan & storage & g' & Eplan & Hrun & Hplaced). exists g'. split; [done|].
  rewrite <- (getManagedStuff_sizes _ _ _ _ _ _ _ Egms).
  intros v1 lr1 v2 lr2. exact (run_disjoint_windows reg isOpt ai strat g _ _ _ _ _ plan storage g' Egms Ekr Eplan Hplaced v1 lr1 v2 lr2 Hnd).
Qed.

(** C7. Each value gets a window of its own size (spec property 5, and
    what [planMemory_region_smaller_than_value] shows failing when two
    values share a range): on a well-formed graph, with linear scan or
    greedy by size and a liveness map that gives every managed value one
    range, no two values the same one, [planMemory] succeeds and every
    managed value that no warning names gets an allocation node whose
    window starts at a non-negative offset and has exactly the value's
    storage size. *)
Theorem planMemory_value_sizes reg isOpt ai strat (g : Graph) :
  graph_wf g -> values_unique (g_nodes g) -> NoDup (map fst (ai_live_ranges ai)) ->
  NoDup (map snd (ai_live_ranges ai)) ->
  (forall u, u ∈ map fst (getManagedValues reg isOpt g (ai_always_alive ai)).2 ->
     u ∈ map fst (ai_live_ranges ai)) ->
  strat = LINEAR_SCAN \/ strat = GREEDY_BY_SIZE ->
  exists g', planMemory reg isOpt ai strat g = (Ok tt, g') /\
  forall v s, In (v, s) (getManagedValues reg isOpt g (ai_always_alive ai)).2 ->
    (forall w, ~ In (WarnOverlapping v w) (planMemory_warnings reg isOpt ai strat g)) ->
    exists o, 0 <= o /\ alloc_window g' v o s.
Proof.
  intros Hwf Huniq Hnd Hndr Hall Hstrat.
  assert (Hnn : strat <> NAIVE) by (destruct Hstrat as [-> | ->]; discriminate).
  generalize (planMemory_plans reg isOpt ai strat g Hwf Huniq Hnn).
  destruct (getManagedStuff reg isOpt g ai) as [[out_nodes sizes] ranges] eqn:Egms.
  destruct (key_by_range sizes ranges) as [ml ranges'] eqn:Ekr.
  intros (plan & storage & g' & Eplan & Hrun & Hplaced). exists g'. split; [done|].
  rewrite <- (getManagedStuff_sizes _ _ _ _ _ _ _ Egms) in Hall |- *.
  intros v s Hvs Hnw.
  pose proof (getManagedStuff_ok reg isOpt g ai) as Hok. rewrite Egms in Hok.
  destruct Hok as (Hpos & Hsnd & _ & Hrnd & _).
  pose proof (managed_ranges_filter _ _ _ _ _ _ _ Hnd Egms) as Hflt.
  assert (Hv : v ∈ map fst sizes) by (apply list_elem_of_In, in_map_iff; by exists (v, s)).
  pose proof (proj1 (list_elem_of_In _ _) (Hall v Hv)) as Hlr. apply in_map_iff in Hlr as ([v' lr] & Hv' & Hin).
  cbn [fst] in Hv'. subst v'.
  destruct (run_unwarned_window reg isOpt ai strat g _ _ _ _ _ plan storage g' Egms Ekr Eplan Hplaced
              v lr Hnd Hv Hin Hnw) as (r & Hr & Hwin).
  (* the size the heuristic receives for [lr] *)
  assert (Hml : assoc_find lr ml = Some s).
  { assert (Hfind : forall u lu, In (u, lu) ranges -> assoc_find u ranges = Some lu)
      by (intros u lu H; by apply assoc_find_In_NoDup).
    pose proof (key_by_range_size sizes ranges v lr Hsnd) as H.
    rewrite Ekr in H. cbn [fst] in H. rewrite H.
    - rewrite decide_True by done. by apply assoc_find_In_NoDup.
    - intros u Hu. pose proof (Hall u Hu) as Hu2. apply list_elem_of_In, in_map_iff in Hu2 as ([u' lu] & Hu' & Hinu).
      cbn [fst] in Hu'. subst u'. exists lu. apply Hfind, Hflt. done.
    - intros u Hu Hf. apply assoc_find_In, Hflt in Hf as [Hf _].
      exact (f_equal fst (NoDup_map_eq snd _ (u, lr) (v, lr) Hndr Hf Hin eq_refl)).
    - apply Hfind, Hflt. done. }
  (* the plan places [lr] with that size *)
  destruct (heuristic_region strat g _ _ _ _ _ _ lr s r Hstrat Hpos Ekr Eplan Hml Hr) as [Er Hoff].
  exists (reg_offset r). split; [done|]. rewrite Er in Hwin. exact Hwin.
Qed.

(** C8. Values that share a live range share the size of the last one
    (the defect [planMemory_region_smaller_than_value] exhibits, as a
    law): on a well-formed graph, with linear scan or greedy by size and
    a liveness map that gives every managed value one range,
    [planMemory] succeeds and every managed value that no warning names
    gets an allocation node at a non-negative offset whose size is that of
    the last managed value, in the iteration order of
    [managed_value_sizes], whose range is the same: its own size only
    when no later value shares its range. *)
Theorem planMemory_shared_range_size reg isOpt ai strat (g : Graph) :
  graph_wf g -> values_unique (g_nodes g) -> NoDup (map fst (ai_live_ranges ai)) ->
  (forall u, u ∈ map fst (getManagedValues reg isOpt g (ai_always_alive ai)).2 ->
     u ∈ map fst (ai_live_ranges ai)) ->
  strat = LINEAR_SCAN \/ strat = GREEDY_BY_SIZE ->
  exists g', planMemory reg isOpt ai strat g = (Ok tt, g') /\
  forall v lr, v ∈ map fst (getManagedValues reg isOpt g (ai_always_alive ai)).2 ->
    In (v, lr) (ai_live_ranges ai) ->
    (forall w, ~ In (WarnOverlapping v w) (planMemory_warnings reg isOpt ai strat g)) ->
    exists o s, 0 <= o /\ alloc_window g' v o s /\
      last_size_for (ai_live_ranges ai) (getManagedValues reg isOpt g (ai_always_alive ai)).2 lr = Some s.
Proof.
  intros Hwf Huniq Hnd Hall Hstrat.
  assert (Hnn : strat <> NAIVE) by (destruct Hstrat as [-> | ->]; discriminate).
  generalize (planMemory_plans reg isOpt ai strat g Hwf Huniq Hnn).
  destruct (getManagedStuff reg isOpt g ai) as [[out_nodes sizes] ranges] eqn:Egms.
  destruct (key_by_range sizes ranges) as [ml ranges'] eqn:Ekr.
  intros (plan & storage & g' & Eplan & Hrun & Hplaced). exists g'. split; [done|].
  rewrite <- (getManagedStuff_sizes _ _ _ _ _ _ _ Egms) in Hall |- *.
  intros v lr Hv Hin Hnw.
  pose proof (getManagedStuff_ok reg isOpt g ai) as Hok. rewrite Egms in Hok.
  destruct Hok as (Hpos & Hsnd & _ & Hrnd & _).
  pose proof (managed_ranges_filter _ _ _ _ _ _ _ Hnd Egms) as Hflt.
  destruct (run_unwarned_window reg isOpt ai strat g _ _ _ _ _ plan storage g' Egms Ekr Eplan Hplaced
              v lr Hnd Hv Hin Hnw) as (r & Hr & Hwin).
  (* a managed value finds the same range in [ranges] as in the liveness map *)
  assert (Hsame : forall u, u ∈ map fst sizes -> assoc_find u ranges = assoc_find u (ai_live_ranges ai)).
  { intros u Hu. destruct (assoc_find u (ai_live_ranges ai)) as [lu|] eqn:E.
    - apply assoc_find_In_NoDup; [done|]. apply Hflt. split; [by apply assoc_find_In|done].
    - apply assoc_find_None in E. by destruct (E (Hall u Hu)). }
  assert (Hlast : last_size_for ranges sizes lr = last_size_for (ai_live_ranges ai) sizes lr).
  { unfold last_size_for. f_equal. f_equal. apply List.filter_ext_in. intros [u su] Hu.
    cbn [fst]. rewrite Hsame; [done|]. apply list_elem_of_In, in_map_iff. by exists (u, su). }
  assert (Hml : assoc_find lr ml = last_size_for (ai_live_ranges ai) sizes lr).
  { rewrite <- Hlast. pose proof (key_by_range_last sizes ranges lr) as H. rewrite Ekr in H. apply H.
    intros u Hu. rewrite (Hsame u Hu). destruct (assoc_find u (ai_live_ranges ai)) eqn:E; [by eexists|].
    apply assoc_find_None in E. by destruct (E (Hall u Hu)). }
  destruct (last_size_for (ai_live_ranges ai) sizes lr) as [s|] eqn:Els.
  - destruct (heuristic_region strat g _ _ _ _ _ _ lr s r Hstrat Hpos Ekr Eplan Hml Hr) as [Er Hoff].
    exists (reg_offset r), s. split_and!; [done| |done]. rewrite Er in Hwin. exact Hwin.
  - exfalso. unfold last_size_for in Els.
    destruct (last (List.filter _ sizes)) eqn:El; [done|]. apply last_None in El.
    apply list_elem_of_In, in_map_iff in Hv as ([v' sv] & Hv' & Hvs). cbn [fst] in Hv'. subst v'.
    assert (Hf : In (v, sv) (List.filter (fun p => bool_decide (assoc_find p.1 (ai_live_ranges ai) = Some lr)) sizes)).
    { apply filter_In. split; [done|]. apply bool_decide_eq_true. cbn [fst].
      by apply assoc_find_In_NoDup. }
    by rewrite El in Hf.
Qed.

(** ** The pass with the analyses it calls

    In the source, [getManagedStuff] computes the alias information of
    the graph it is given ([alias_info]); the theorems below are about
    [planMemory] run on that information. *)

(** A managed value is not always alive and has a producer. *)
Lemma managed_key_index reg isOpt aa g u :
  values_unique (g_nodes g) -> u ∈ map fst (getManagedValues reg isOpt g aa).2 ->
  u ∉ aa /\ exists i, def_time (g_nodes g) u = Some i.
Proof.
  intros Hnd Hu. apply list_elem_of_In, in_map_iff in Hu as ([k s] & <- & Hin). cbn [fst].
  split; [exact (getManagedValues_managed_not_always_alive _ _ _ _ k s Hin)|].
  destruct (getManagedValues_managed_output _ _ _ _ _ _ Hin) as (n & v & Hn & Hv & <- & _).
  apply getManagedValues_out_nodes, list_elem_of_In, list_elem_of_lookup in Hn as [i Hi].
  exists i. apply (def_time_index _ _ n); [done|done|]. by apply list_elem_of_In, in_map.
Qed.

Lemma alias_info_NoDup db io g : NoDup (map fst (ai_live_ranges (alias_info db io g))).
Proof. apply liveness_ranges_NoDup. Qed.

(** ** Theorems on the pass with its analyses *)

(** C6. An operator never writes its output over one of its inputs (spec
    property 1 where it matters at run time): on a well-formed graph in
    topological order, with any strategy but [NAIVE], [planMemory] on the
    information of its alias analysis succeeds, and for every node, a
    managed input and a managed output of it that no warning names get
    allocation nodes with disjoint windows of the arena, whatever the
    aliasing the analysis reports. *)
Theorem planMemory_outputs_avoid_inputs reg isOpt db io strat (g : Graph) :
  graph_wf g -> values_unique (g_nodes g) -> topo_ordered (g_nodes g) = true -> strat <> NAIVE ->
  exists g', planMemory reg isOpt (alias_info db io g) strat g = (Ok tt, g') /\
  forall n u w, In n (g_nodes g) -> u ∈ n_inputs n -> In w (n_outputs n) ->
    u ∈ map fst (getManagedValues reg isOpt g (GetAlwaysAliveValues db io g)).2 ->
    v_id w ∈ map fst (getManagedValues reg isOpt g (GetAlwaysAliveValues db io g)).2 ->
    (forall x, ~ In (WarnOverlapping u x) (planMemory_warnings reg isOpt (alias_info db io g) strat g)) ->
    (forall x, ~ In (WarnOverlapping (v_id w) x) (planMemory_warnings reg isOpt (alias_info db io g) strat g)) ->
    exists o1 s1 o2 s2, alloc_window g' u o1 s1 /\ alloc_window g' (v_id w) o2 s2 /\
      (o1 + s1 <= o2 \/ o2 + s2 <= o1).
Proof.
  intros Hwf Huniq Htopo Hstrat. set (ai := alias_info db io g).
  generalize (planMemory_plans reg isOpt ai strat g Hwf Huniq Hstrat).
  destruct (getManagedStuff reg isOpt g ai) as [[out_nodes sizes] ranges] eqn:Egms.
  destruct (key_by_range sizes ranges) as [ml ranges'] eqn:Ekr.
  intros (plan & storage & g' & Eplan & Hrun & Hplaced). exists g'. split; [done|].
  intros n u w Hn Hu Hw Hum Hwm Hnu Hnw.
  apply list_elem_of_In, list_elem_of_lookup in Hn as [j Hj].
  destruct (managed_key_index _ _ _ _ _ Huniq Hum) as [Hua [i Hi]].
  destruct (managed_key_index _ _ _ _ _ Huniq Hwm) as [Hwa _].
  assert (Hwj : def_time (g_nodes g) (v_id w) = Some j)
    by (apply (def_time_index _ _ n); [done|done|by apply list_elem_of_In, in_map]).
  pose proof (topo_ordered_spec _ _ _ _ _ Htopo Hj Hu Hi) as Hij.
  destruct (GetLiveness_def_use db _ g u i Huniq Hua Hi) as (lr1 & Hin1 & Hb1 & _ & Huse1).
  destruct (GetLiveness_def_use db _ g (v_id w) j Huniq Hwa Hwj) as (lr2 & Hin2 & Hb2 & He2 & _).
  assert (He1 : Z.of_nat j <= lr_end lr1)
    by (apply Huse1, elem_of_use_times; exists n; split; [done|by apply node_uses_input]).
  change (GetAlwaysAliveValues db io g) with (ai_always_alive ai) in Hum, Hwm.
  rewrite <- (getManagedStuff_sizes _ _ _ _ _ _ _ Egms) in Hum, Hwm.
  apply (run_disjoint_windows reg isOpt ai strat g _ _ _ _ _ plan storage g' Egms Ekr Eplan Hplaced
           u lr1 (v_id w) lr2); try done.
  - apply alias_info_NoDup.
  - intros ->. lia.
  - unfold lr_overlap. apply andb_true_intro. split; apply Z.leb_le; lia.
Qed.

(** C12. Graph inputs, graph outputs and constants are never managed (spec
    section 3): a value that is an input or an output of the graph, or an
    output of a [prim::Constant] node, is neither in the sizes nor in the
    ranges [getManagedStuff] returns, whatever its type and size. *)
Theorem getManagedStuff_never_manages_io reg isOpt db io (g : Graph) v :
  v ∈ gio_inputs io \/ v ∈ gio_outputs io \/
  (exists n w, In n (g_nodes g) /\ is_constant n = true /\ In w (n_outputs n) /\ v_id w = v) ->
  let '(_, sizes, ranges) := getManagedStuff reg isOpt g (alias_info db io g) in
  v ∉ map fst sizes /\ v ∉ map fst ranges.
Proof.
  intros Hv.
  assert (Haa : v ∈ GetAlwaysAliveValues db io g).
  { apply always_alive_base_kept. unfold always_alive_base. rewrite !elem_of_app.
    destruct Hv as [Hv|[Hv|(n & w & Hn & Hc & Hw & <-)]]; [by left|by right; left|right; right].
    apply list_elem_of_In, in_concat. exists (map v_id (n_outputs n)). split.
    - apply in_map_iff. exists n. by rewrite Hc.
    - by apply in_map. }
  pose proof (getManagedStuff_ok reg isOpt g (alias_info db io g)) as Hok.
  destruct (getManagedStuff reg isOpt g (alias_info db io g)) as [[out_nodes sizes] ranges] eqn:Egms.
  destruct Hok as (_ & _ & _ & _ & Hr).
  assert (Hs : v ∉ map fst sizes).
  { rewrite (getManagedStuff_sizes _ _ _ _ _ _ _ Egms). intros Hin.
    apply list_elem_of_In, in_map_iff in Hin as ([k s] & Hk & Hin). cbn [fst] in Hk. subst k.
    exact (getManagedValues_managed_not_always_alive _ _ _ _ v s Hin Haa). }
  split; [done|]. intros Hin. apply list_elem_of_In, in_map_iff in Hin as ([k lr] & Hk & Hin).
  cbn [fst] in Hk. subst k. exact (Hs (Hr v lr Hin)).
Qed.

(** ** Consequences for the hypotheses of the theorems above *)

(** With the analyses modelled here, every managed value has a live
    range, one per value: the hypotheses on the liveness map of
    [planMemory_value_sizes] other than distinct ranges hold, and the
    default [LiveRange{0, 0}] that [operator[]] inserts for a value
    without a range is never used. *)
Lemma alias_info_covers_managed reg isOpt db io g u :
  values_unique (g_nodes g) ->
  u ∈ map fst (getManagedValues reg isOpt g (GetAlwaysAliveValues db io g)).2 ->
  u ∈ map fst (ai_live_ranges (alias_info db io g)).
Proof.
  intros Hnd Hu. destruct (managed_key_index _ _ _ _ _ Hnd Hu) as [Haa [i Hi]].
  destruct (GetLiveness_def_use db _ g u i Hnd Haa Hi) as (lr & Hin & _).
  apply list_elem_of_In, in_map_iff. by exists (u, lr).
Qed.

(** ** Witnesses *)

(** The three-value chain with ranges [[0, 5]], [[1, 3]] and [[6, 8]]:
    the first two overlap, and nothing is reported. *)
Definition chain_ai : AliasInfo :=
  mkAliasInfo [] [(10%nat, mkLiveRange 0 5); (11%nat, mkLiveRange 1 3); (12%nat, mkLiveRange 6 8)].

Lemma chain_graph_ok : graph_wf chain_graph /\ values_unique (g_nodes chain_graph).
Proof. split; [unfold graph_wf|unfold values_unique]; decide_by_eval. Qed.

Lemma planMemory_allocates_or_warns_witness :
  graph_wf chain_graph /\ values_unique (g_nodes chain_graph) /\ LINEAR_SCAN <> NAIVE /\
  planMemory_warnings out_registry (fun _ => false) chain_ai LINEAR_SCAN chain_graph = [] /\
  exists g', planMemory out_registry (fun _ => false) chain_ai LINEAR_SCAN chain_graph = (Ok tt, g') /\
  forall v, v ∈ map fst (getManagedValues out_registry (fun _ => false) chain_graph (ai_always_alive chain_ai)).2 ->
    (exists o s, alloc_window g' v o s) \/
    (exists w, In (WarnOverlapping v w)
                 (planMemory_warnings out_registry (fun _ => false) chain_ai LINEAR_SCAN chain_graph)).
Proof.
  destruct chain_graph_ok as [H1 H2]. assert (H3 : LINEAR_SCAN <> NAIVE) by discriminate.
  refine (conj H1 (conj H2 (conj H3 (conj _ _)))); [vm_compute; reflexivity|].
  exact (planMemory_allocates_or_warns out_registry (fun _ => false) chain_ai LINEAR_SCAN chain_graph H1 H2 H3).
Defined.

Lemma planMemory_disjoint_allocations_witness :
  graph_wf chain_graph /\ values_unique (g_nodes chain_graph) /\
  NoDup (map fst (ai_live_ranges chain_ai)) /\ GREEDY_BY_SIZE <> NAIVE /\
  planMemory_warnings out_registry (fun _ => false) chain_ai GREEDY_BY_SIZE chain_graph = [] /\
  exists g', planMemory out_registry (fun _ => false) chain_ai GREEDY_BY_SIZE chain_graph = (Ok tt, g') /\
  forall v1 lr1 v2 lr2,
    v1 ∈ map fst (getManagedValues out_registry (fun _ => false) chain_graph (ai_always_alive chain_ai)).2 ->
    v2 ∈ map fst (getManagedValues out_registry (fun _ => false) chain_graph (ai_always_alive chain_ai)).2 ->
    In (v1, lr1) (ai_live_ranges chain_ai) -> In (v2, lr2) (ai_live_ranges chain_ai) ->
    lr1 <> lr2 -> lr_overlap lr1 lr2 = true ->
    (forall w, ~ In (WarnOverlapping v1 w)
                   (planMemory_warnings out_registry (fun _ => false) chain_ai GREEDY_BY_SIZE chain_graph)) ->
    (forall w, ~ In (WarnOverlapping v2 w)
                   (planMemory_warnings out_registry (fun _ => false) chain_ai GREEDY_BY_SIZE chain_graph)) ->
    exists o1 s1 o2 s2, alloc_window g' v1 o1 s1 /\ alloc_window g' v2 o2 s2 /\
      (o1 + s1 <= o2 \/ o2 + s2 <= o1).
Proof.
  destruct chain_graph_ok as [H1 H2].
  assert (H3 : NoDup (map fst (ai_live_ranges chain_ai))) by decide_by_eval.
  assert (H4 : GREEDY_BY_SIZE <> NAIVE) by discriminate.
  refine (conj H1 (conj H2 (conj H3 (conj H4 (conj _ _))))); [vm_compute; reflexivity|].
  exact (planMemory_disjoint_allocations out_registry (fun _ => false) chain_ai GREEDY_BY_SIZE chain_graph
           H1 H2 H3 H4).
Defined.

Lemma planMemory_value_sizes_witness :
  graph_wf chain_graph /\ values_unique (g_nodes chain_graph) /\
  NoDup (map fst (ai_live_ranges chain_ai)) /\ NoDup (map snd (ai_live_ranges chain_ai)) /\
  (forall u, u ∈ map fst (getManagedValues out_registry (fun _ => false) chain_graph (ai_always_alive chain_ai)).2 ->
     u ∈ map fst (ai_live_ranges chain_ai)) /\
  (LINEAR_SCAN = LINEAR_SCAN \/ LINEAR_SCAN = GREEDY_BY_SIZE) /\
  exists g', planMemory out_registry (fun _ => false) chain_ai LINEAR_SCAN chain_graph = (Ok tt, g') /\
  forall v s, In (v, s) (getManagedValues out_registry (fun _ => false) chain_graph (ai_always_alive chain_ai)).2 ->
    (forall w, ~ In (WarnOverlapping v w)
                   (planMemory_warnings out_registry (fun _ => false) chain_ai LINEAR_SCAN chain_graph)) ->
    exists o, 0 <= o /\ alloc_window g' v o s.
Proof.
  destruct chain_graph_ok as [H1 H2].
  assert (H3 : NoDup (map fst (ai_live_ranges chain_ai))) by decide_by_eval.
  assert (H4 : NoDup (map snd (ai_live_ranges chain_ai))) by decide_by_eval.
  assert (H5 : forall u, u ∈ map fst (getManagedValues out_registry (fun _ => false) chain_graph
                                        (ai_always_alive chain_ai)).2 ->
                 u ∈ map fst (ai_live_ranges chain_ai)).
  { intros u. vm_compute. set_solver. }
  assert (H6 : LINEAR_SCAN = LINEAR_SCAN \/ LINEAR_SCAN = GREEDY_BY_SIZE) by (left; reflexivity).
  refine (conj H1 (conj H2 (conj H3 (conj H4 (conj H5 (conj H6 _)))))).
  exact (planMemory_value_sizes out_registry (fun _ => false) chain_ai LINEAR_SCAN chain_graph H1 H2 H3 H4 H5 H6).
Defined.

(** The chain with [%0] as graph input and [%12] as graph output, and an
    alias analysis that reports no aliasing: [%12] is always alive, [%10]
    lives over [[0, 1]] and [%11] over [[1, 2]], and [aten::add] reads
    [%10] while it writes [%11]. *)
Definition no_alias : AliasDb := mkAliasDb (fun _ => []).

Definition chain_io : GraphIO := mkGraphIO [0%nat] [12%nat].

Lemma planMemory_outputs_avoid_inputs_witness :
  graph_wf chain_graph /\ values_unique (g_nodes chain_graph) /\
  topo_ordered (g_nodes chain_graph) = true /\ GREEDY_BY_SIZE <> NAIVE /\
  GetLiveness no_alias (GetAlwaysAliveValues no_alias chain_io chain_graph) chain_graph =
    [(11%nat, mkLiveRange 1 2); (10%nat, mkLiveRange 0 1)] /\
  planMemory_warnings out_registry (fun _ => false) (alias_info no_alias chain_io chain_graph)
    GREEDY_BY_SIZE chain_graph = [] /\
  exists g', planMemory out_registry (fun _ => false) (alias_info no_alias chain_io chain_graph)
               GREEDY_BY_SIZE chain_graph = (Ok tt, g') /\
  forall n u w, In n (g_nodes chain_graph) -> u ∈ n_inputs n -> In w (n_outputs n) ->
    u ∈ map fst (getManagedValues out_registry (fun _ => false) chain_graph
                   (GetAlwaysAliveValues no_alias chain_io chain_graph)).2 ->
    v_id w ∈ map fst (getManagedValues out_registry (fun _ => false) chain_graph
                        (GetAlwaysAliveValues no_alias chain_io chain_graph)).2 ->
    (forall x, ~ In (WarnOverlapping u x)
                   (planMemory_warnings out_registry (fun _ => false) (alias_info no_alias chain_io chain_graph)
                      GREEDY_BY_SIZE chain_graph)) ->
    (forall x, ~ In (WarnOverlapping (v_id w) x)
                   (planMemory_warnings out_registry (fun _ => false) (alias_info no_alias chain_io chain_graph)
                      GREEDY_BY_SIZE chain_graph)) ->
    exists o1 s1 o2 s2, alloc_window g' u o1 s1 /\ alloc_window g' (v_id w) o2 s2 /\
      (o1 + s1 <= o2 \/ o2 + s2 <= o1).
Proof.
  destruct chain_graph_ok as [H1 H2].
  assert (H3 : topo_ordered (g_nodes chain_graph) = true) by (vm_compute; reflexivity).
  assert (H4 : GREEDY_BY_SIZE <> NAIVE) by discriminate.
  refine (conj H1 (conj H2 (conj H3 (conj H4 (conj _ (conj _ _)))))); [vm_compute; reflexivity..|].
  exact (planMemory_outputs_avoid_inputs out_registry (fun _ => false) no_alias chain_io GREEDY_BY_SIZE
           chain_graph H1 H2 H3 H4).
Defined.

(** [%12], a 50-byte tensor of an out-variant node, is a graph output and
    is not managed. *)
Lemma getManagedStuff_never_manages_io_witness :
  (12%nat ∈ gio_inputs chain_io \/ 12%nat ∈ gio_outputs chain_io \/
   (exists n w, In n (g_nodes chain_graph) /\ is_constant n = true /\ In w (n_outputs n) /\ v_id w = 12%nat)) /\
  computeStorageSize (mkValue 12 (byte_tensor 50)) = Some 50 /\
  let '(_, sizes, ranges) :=
    getManagedStuff out_registry (fun _ => false) chain_graph (alias_info no_alias chain_io chain_graph) in
  12%nat ∉ map fst sizes /\ 12%nat ∉ map fst ranges.
Proof.
  assert (H : 12%nat ∈ gio_inputs chain_io \/ 12%nat ∈ gio_outputs chain_io \/
              (exists n w, In n (g_nodes chain_graph) /\ is_constant n = true /\ In w (n_outputs n) /\
                 v_id w = 12%nat)) by (right; left; by apply list_elem_of_singleton).
  refine (conj H (conj _ _)); [vm_compute; reflexivity|].
  exact (getManagedStuff_never_manages_io out_registry (fun _ => false) no_alias chain_io chain_graph 12%nat H).
Defined.

(** The 100-byte [%10] and the 50-byte [%11] share the range [[0, 10]]:
    only [%10] is kept, and its window has the 50 bytes of [%11]. *)
Definition shared_ai : AliasInfo :=
  mkAliasInfo [] [(10%nat, mkLiveRange 0 10); (11%nat, mkLiveRange 0 10)].

Lemma planMemory_shared_range_size_witness :
  graph_wf shared_range_graph /\ values_unique (g_nodes shared_range_graph) /\
  NoDup (map fst (ai_live_ranges shared_ai)) /\
  (forall u, u ∈ map fst (getManagedValues out_registry (fun _ => false) shared_range_graph
                            (ai_always_alive shared_ai)).2 ->
     u ∈ map fst (ai_live_ranges shared_ai)) /\
  (GREEDY_BY_SIZE = LINEAR_SCAN \/ GREEDY_BY_SIZE = GREEDY_BY_SIZE) /\
  computeStorageSize (mkValue 10 (byte_tensor 100)) = Some 100 /\
  last_size_for (ai_live_ranges shared_ai)
    (getManagedValues out_registry (fun _ => false) shared_range_graph (ai_always_alive shared_ai)).2
    (mkLiveRange 0 10) = Some 50 /\
  exists g', planMemory out_registry (fun _ => false) shared_ai GREEDY_BY_SIZE shared_range_graph = (Ok tt, g') /\
  forall v lr, v ∈ map fst (getManagedValues out_registry (fun _ => false) shared_range_graph
                              (ai_always_alive shared_ai)).2 ->
    In (v, lr) (ai_live_ranges shared_ai) ->
    (forall w, ~ In (WarnOverlapping v w)
                   (planMemory_warnings out_registry (fun _ => false) shared_ai GREEDY_BY_SIZE shared_range_graph)) ->
    exists o s, 0 <= o /\ alloc_window g' v o s /\
      last_size_for (ai_live_ranges shared_ai)
        (getManagedValues out_registry (fun _ => false) shared_range_graph (ai_always_alive shared_ai)).2 lr = Some s.
Proof.
  assert (H1 : graph_wf shared_range_graph) by (unfold graph_wf; decide_by_eval).
  assert (H2 : values_unique (g_nodes shared_range_graph)) by (unfold values_unique; decide_by_eval).
  assert (H3 : NoDup (map fst (ai_live_ranges shared_ai))) by decide_by_eval.
  assert (H4 : forall u, u ∈ map fst (getManagedValues out_registry (fun _ => false) shared_range_graph
                                        (ai_always_alive shared_ai)).2 ->
                 u ∈ map fst (ai_live_ranges shared_ai)).
  { intros u. vm_compute. set_solver. }
  assert (H5 : GREEDY_BY_SIZE = LINEAR_SCAN \/ GREEDY_BY_SIZE = GREEDY_BY_SIZE) by (right; reflexivity).
  refine (conj H1 (conj H2 (conj H3 (conj H4 (conj H5 (conj _ (conj _ _))))))); [vm_compute; reflexivity..|].
  exact (planMemory_shared_range_size out_registry (fun _ => false) shared_ai GREEDY_BY_SIZE shared_range_graph
           H1 H2 H3 H4 H5).
Defined.
