(* ===== verification/Allocator.v ===== *)
(** * The allocators of [MemoryPlanningAllocator.cpp]

    Two allocators replace a device's allocator for a while.
    - [MemoryPlanningAllocator] replays a plan: [push_allocation] pushes the
      address of a slice of the arena on a stack, [allocate] pops it and
      checks the requested size.
    - [MemoryTracingAllocator] records a trace: it forwards each allocation
      to the allocator it replaced and appends an [Allocate] event; the
      deleter of the returned pointer appends a [Free] event.
      [WithProfileAllocationsGuard] installs it and, when destroyed,
      reinstalls the original allocator.
    The device registry ([c10::GetAllocator] / [c10::SetAllocator]) holds
    references to allocator objects, so the model keeps an explicit store
    of objects with their identities and liveness: installing an object and
    then destroying it leaves the registry pointing at a dead object.  An
    allocation returns a [DataPtr] carrying its deleter ([DoNothing], the
    device allocator's, or the tracer's lambda); [release] is its
    destructor, and a device allocator keeps the blocks it has handed out,
    so that a block freed while a pointer to it is still in use shows. *)

From stdpp Require Import pretty.
From S2P Require Import Prelude Arena Trace.

(** ** The replay allocator *)

(** [MemoryPlanningAllocator]'s state: its device and its stack of
    [(size, address)] pairs, top first. *)
Record PlanningAllocator := mkPlanningAllocator {
  pa_device : Z; pa_allocs : list (Z * Z) }.

(** ** Data pointers *)

(** The deleters of the pointers the allocators hand out: [DoNothing]
    ([MemoryPlanningAllocator.cpp:8-10]), the device allocator's own, and
    the lambda of [MemoryTracingAllocator::allocate] (lines 81-92) with
    the tracer and the size it captures. *)
Inductive Deleter :=
| DoNothing
| RawDeleter (alloc : nat)
| TracerDeleter (tracer : nat) (nbytes : Z).

(** [at::DataPtr]: the address, the deleter its destructor runs, the
    device. *)
Record DataPtr := mkDataPtr { dp_data : Z; dp_deleter : Deleter; dp_device : Z }.

(** The free function [raw_deleter()] ([lines 49-51]). *)
Definition raw_deleter : Deleter := DoNothing.

(** [MemoryPlanningAllocator::raw_deleter] ([lines 34-36]) returns
    [Allocator::raw_deleter()], which is [nullptr]. *)
Definition MemoryPlanningAllocator_raw_deleter : option Deleter := None.

(** [timeSinceEpoch] ([lines 12-17]): a [system_clock] time point, counted
    in the clock's nanoseconds, as [int64_t] microseconds; [duration_cast]
    truncates toward zero.  Nothing in the file calls it: events are
    stamped with the frame's [pc]. *)
Definition timeSinceEpoch (t_ns : Z) : Z := Z.quot t_ns 1000.

Lemma timeSinceEpoch_floor t_ns :
  0 <= t_ns -> 1000 * timeSinceEpoch t_ns <= t_ns < 1000 * timeSinceEpoch t_ns + 1000.
Proof.
  intros Ht. unfold timeSinceEpoch. rewrite Z.quot_div_nonneg by lia.
  pose proof (Z.mod_pos_bound t_ns 1000). pose proof (Z.div_mod t_ns 1000). lia.
Qed.

(** [push_allocation] ([MemoryPlanningAllocator.cpp:38-47]). *)
Definition push_allocation (buffer_base size offset device_type : Z)
    : estate PlanningAllocator unit :=
  (a <-! eget ;;
   _ <-! echeck (device_type =? pa_device a) "device_type == device_type_" ;;
   eput (mkPlanningAllocator (pa_device a) ((size, buffer_base + offset) :: pa_allocs a)))%mp.

(** [allocate] ([MemoryPlanningAllocator.cpp:25-32]): the top is popped
    before the size is checked, so a failed check has consumed it;
    [top()] of an empty stack is undefined and modelled as a failure.  The
    pointer's deleter is [DoNothing]: the slice goes back to no one. *)
Definition planning_allocate (nbytes : Z) : estate PlanningAllocator DataPtr :=
  (a <-! eget ;;
   match pa_allocs a with
   | [] => ethrow "top() of an empty stack"
   | (size, data) :: rest =>
       _ <-! eput (mkPlanningAllocator (pa_device a) rest) ;;
       _ <-! echeck (size =? nbytes) "size == nbytes" ;;
       eret (mkDataPtr data DoNothing (pa_device a))
   end)%mp.

(** ** Allocator objects and the device registry *)

(** The allocator objects: a device's raw allocator (a bump allocator
    with the blocks it has handed out and not had back, by address), a
    [MemoryTracingAllocator] with [orig_allocator_], [allocation_traces_]
    and [allocations_], and a [MemoryPlanningAllocator] with
    [orig_allocator_] and its state. *)
Inductive AllocObj :=
| RawAlloc (next : Z) (blocks : list (Z * Z))
| TracingAlloc (orig : nat) (traces : list MemEvent) (allocations : list (Z * Z))
| PlanningAlloc (orig : nat) (st : PlanningAllocator).

(** The objects by identity, the identities still alive, the device
    registry and the next identity. *)
Record World := mkWorld {
  w_store : list (nat * AllocObj); w_live : list nat;
  w_registry : list (Z * nat); w_fresh : nat }.

Definition set_store (id : nat) (o : AllocObj) (w : World) : World :=
  mkWorld (assoc_set id o (w_store w)) (w_live w) (w_registry w) (w_fresh w).

(** [c10::SetAllocator(device, a)]. *)
Definition SetAllocator (dev : Z) (id : nat) (w : World) : World :=
  mkWorld (w_store w) (w_live w) (assoc_set dev id (w_registry w)) (w_fresh w).

(** A new object. *)
Definition new_obj (o : AllocObj) : estate World nat :=
  fun w => (Ok (w_fresh w),
            mkWorld ((w_fresh w, o) :: w_store w) (w_fresh w :: w_live w)
                    (w_registry w) (S (w_fresh w))).

(** The end of an object's lifetime. *)
Definition destroy (id : nat) : estate World unit :=
  emodify (fun w => mkWorld (w_store w) (List.filter (fun i => negb (Nat.eqb i id)) (w_live w))
                            (w_registry w) (w_fresh w)).

Definition live_obj (id : nat) (w : World) : option AllocObj :=
  if existsb (Nat.eqb id) (w_live w) then assoc_find id (w_store w) else None.

(** The raw allocator's deleter: the block at [ptr] is free again. *)
Definition raw_free (alloc : nat) (ptr : Z) : estate World unit :=
  (w <-! eget ;;
   match live_obj alloc w with
   | Some (RawAlloc next blocks) =>
       emodify (set_store alloc (RawAlloc next (List.filter (fun b => negb (b.1 =? ptr)) blocks)))
   | _ => ethrow "use of a destroyed allocator"
   end)%mp.

(** The [MemoryTracingAllocator] constructor ([lines 60-63]): remember the
    device's current allocator and install this object in its place. *)
Definition MemoryTracingAllocator_new (dev : Z) : estate World nat :=
  (w <-! eget ;;
   match assoc_find dev (w_registry w) with
   | None => ethrow "no allocator for the device"
   | Some orig =>
       id <-! new_obj (TracingAlloc orig [] []) ;;
       _ <-! emodify (SetAllocator dev id) ;;
       eret id
   end)%mp.

(** The [MemoryPlanningAllocator] constructor ([lines 19-23]): remember
    the device's current allocator and install this object in its place;
    the stack starts empty. *)
Definition MemoryPlanningAllocator_new (dev : Z) : estate World nat :=
  (w <-! eget ;;
   match assoc_find dev (w_registry w) with
   | None => ethrow "no allocator for the device"
   | Some orig =>
       id <-! new_obj (PlanningAlloc orig (mkPlanningAllocator dev [])) ;;
       _ <-! emodify (SetAllocator dev id) ;;
       eret id
   end)%mp.

(** A method of the live [MemoryPlanningAllocator] object [id], run on
    its state: the state it leaves is written back whether it returns or
    throws ([allocs_] is [mutable], popped before the check). *)
Definition planning_call {A} (id : nat) (m : estate PlanningAllocator A) : estate World A :=
  fun w =>
    match live_obj id w with
    | Some (PlanningAlloc orig pa) => let '(r, pa') := m pa in (r, set_store id (PlanningAlloc orig pa') w)
    | _ => (Abort "not a live planning allocator", w)
    end.

(** The implicitly generated copy constructor: the same fields, a new
    identity, no registration. *)
Definition copy_obj (src : nat) : estate World nat :=
  (w <-! eget ;;
   match live_obj src w with
   | None => ethrow "copy of a dead object"
   | Some o => new_obj o
   end)%mp.

(** [WithProfileAllocationsGuard]'s constructor ([lines 104-108]):
    [std::make_shared<MemoryTracingAllocator>(MemoryTracingAllocator{device_type})]
    constructs a temporary (which installs itself), copies it into the
    shared object, and destroys the temporary at the end of the full
    expression; [tracer_] is the copy. *)
Definition WithProfileAllocationsGuard_new (dev : Z) : estate World nat :=
  (tmp <-! MemoryTracingAllocator_new dev ;;
   tracer <-! copy_obj tmp ;;
   _ <-! destroy tmp ;;
   eret tracer)%mp.

(** [getAllocationTraces] ([lines 110-112]). *)
Definition getAllocationTraces (tracer : nat) : estate World (list MemEvent) :=
  (w <-! eget ;;
   match live_obj tracer w with
   | Some (TracingAlloc _ traces _) => eret traces
   | _ => ethrow "not a live tracing allocator"
   end)%mp.

(** The guard's destructor ([lines 114-116]): reinstall the allocator the
    tracer remembered. *)
Definition WithProfileAllocationsGuard_drop (dev : Z) (tracer : nat) : estate World unit :=
  (w <-! eget ;;
   match live_obj tracer w with
   | Some (TracingAlloc orig _ _) => emodify (SetAllocator dev orig)
   | _ => ethrow "not a live tracing allocator"
   end)%mp.

(** [dataPtrAddrToStr]: the address printed as a string. *)
Definition dataPtrAddrToStr (ptr : Z) : string := pretty ptr.

(** The [MemEvent] the tracer appends for [ptr] in frame [f]
    ([lines 71-78] and [83-90]); the backtrace is not captured. *)
Definition traced_event (f : FrameNodeId) (ptr nbytes : Z) (ty : EventType) : MemEvent :=
  mkMemEvent (fn_pc f) "" (dataPtrAddrToStr ptr) (fn_node_schema f) (fn_node_header f) nbytes ty.

(** An allocation of [nbytes] on a device, through whatever allocator the
    registry holds ([MemoryTracingAllocator::allocate], lines 65-95, for a
    tracer; [MemoryPlanningAllocator::allocate], lines 25-32, for a replay
    allocator; a bump allocator for a raw device allocator).  The frame is
    [torch::jit::currentFrameId()].  In the tracer, [orig_ptr] is a local
    [DataPtr] that owns the block: the pointer returned only shares its
    address, so [orig_ptr]'s destructor frees the block when [allocate]
    returns, or when the assertion throws. *)
Definition device_allocate (dev nbytes : Z) (frame : option FrameNodeId) : estate World DataPtr :=
  (w <-! eget ;;
   match assoc_find dev (w_registry w) with
   | None => ethrow "no allocator for the device"
   | Some id =>
       match live_obj id w with
       | None => ethrow "use of a destroyed allocator"
       | Some (RawAlloc next blocks) =>
           _ <-! emodify (set_store id (RawAlloc (next + nbytes) ((next, nbytes) :: blocks))) ;;
           eret (mkDataPtr next (RawDeleter id) dev)
       | Some (PlanningAlloc _ _) => planning_call id (planning_allocate nbytes)
       | Some (TracingAlloc orig traces allocations) =>
           match live_obj orig w with
           | Some (RawAlloc next blocks) =>
               _ <-! emodify (set_store orig (RawAlloc (next + nbytes) ((next, nbytes) :: blocks))) ;;
               match frame with
               | None => _ <-! raw_free orig next ;; ethrow "currentFrameId().has_value()"
               | Some f =>
                   _ <-! emodify (set_store id (TracingAlloc orig (traces ++ [traced_event f next nbytes Allocate])
                                                  (assoc_insert next nbytes allocations))) ;;
                   _ <-! raw_free orig next ;;
                   eret (mkDataPtr next (TracerDeleter id nbytes) dev)
               end
           | _ => ethrow "the original allocator is not a device allocator"
           end
       end
   end)%mp.

(** The deleter of a traced allocation ([lines 81-92]), run when the
    pointer is released: a [Free] event in the frame current at that time
    ([currentFrameId().value()] throws without one).  The source captures
    [bt] and [nbytes] by reference to locals of [allocate] that are gone
    when the deleter runs; the model uses the values they had. *)
Definition traced_release (tracer : nat) (ptr nbytes : Z) (frame : option FrameNodeId)
    : estate World unit :=
  (w <-! eget ;;
   match live_obj tracer w with
   | Some (TracingAlloc orig traces allocations) =>
       match frame with
       | None => ethrow "bad_optional_access"
       | Some f => emodify (set_store tracer (TracingAlloc orig (traces ++ [traced_event f ptr nbytes Free]) allocations))
       end
   | _ => ethrow "use of a destroyed allocator"
   end)%mp.

(** The destructor of a [DataPtr]: its deleter runs on its address. *)
Definition release (p : DataPtr) (frame : option FrameNodeId) : estate World unit :=
  match dp_deleter p with
  | DoNothing => eret tt
  | RawDeleter a => raw_free a (dp_data p)
  | TracerDeleter t nbytes => traced_release t (dp_data p) nbytes frame
  end.

(** ** The replay stack *)

Lemma push_all (base dev : Z) (slices : list (Z * Z)) (allocs : list (Z * Z)) :
  emapM (fun s => push_allocation base s.1 s.2 dev) slices (mkPlanningAllocator dev allocs) =
  (Ok tt, mkPlanningAllocator dev (map (fun s => (s.1, base + s.2)) (rev slices) ++ allocs)).
Proof.
  revert allocs. induction slices as [|s slices IH]; intros allocs; [done|].
  cbn [emapM]. unfold ebind at 1, push_allocation, ebind, eget, echeck.
  simpl. rewrite Z.eqb_refl. simpl. rewrite IH. simpl.
  rewrite map_app, <- app_assoc. done.
Qed.

Lemma pop_all (base dev : Z) (slices : list (Z * Z)) (allocs : list (Z * Z)) :
  emapR (fun s => planning_allocate s.1) slices
    (mkPlanningAllocator dev (map (fun s => (s.1, base + s.2)) slices ++ allocs)) =
  (Ok (map (fun s => mkDataPtr (base + s.2) DoNothing dev) slices), mkPlanningAllocator dev allocs).
Proof.
  revert allocs. induction slices as [|[sz p] slices IH]; intros allocs; [done|].
  cbn [emapR]. unfold ebind at 1, planning_allocate, ebind, eget, eput, echeck.
  simpl. rewrite Z.eqb_refl. simpl. unfold ebind. rewrite IH. done.
Qed.

(** C31. The replay allocator is a stack: after [push_allocation] of a list
    of slices of an arena at [base], allocating their sizes in reverse
    order succeeds and returns the slices' addresses [base + offset] in
    reverse order, each with the deleter [DoNothing], leaving the stack as
    it was. *)
Theorem planning_allocator_lifo (base dev : Z) (slices : list (Z * Z)) (allocs : list (Z * Z)) :
  (_ <-! emapM (fun s => push_allocation base s.1 s.2 dev) slices ;;
   emapR (fun s => planning_allocate s.1) (rev slices))%mp (mkPlanningAllocator dev allocs) =
  (Ok (map (fun s => mkDataPtr (base + s.2) DoNothing dev) (rev slices)), mkPlanningAllocator dev allocs).
Proof.
  unfold ebind at 1. rewrite push_all. apply pop_all.
Qed.

(** C32. [MemoryPlanningAllocator::allocate] pops before it checks: a
    request whose size differs from the top of the stack fails and still
    consumes the top, whatever the stack below it, so the slice planned
    for it is lost and every later request is served from the rest of the
    stack. *)
Theorem planning_allocate_pops_on_mismatch (dev size data nbytes : Z) (rest : list (Z * Z)) :
  size <> nbytes ->
  planning_allocate nbytes (mkPlanningAllocator dev ((size, data) :: rest)) =
    (Abort "size == nbytes", mkPlanningAllocator dev rest).
Proof.
  intros Hne. unfold planning_allocate, ebind, eget, eput, echeck, ethrow. simpl.
  by rewrite (proj2 (Z.eqb_neq size nbytes) Hne).
Qed.

Lemma planning_allocate_pops_on_mismatch_witness :
  16 <> 8 /\
  planning_allocate 8 (mkPlanningAllocator 0 [(16, 4096); (8, 4112)]) =
    (Abort "size == nbytes", mkPlanningAllocator 0 [(8, 4112)]).
Proof.
  assert (H : 16 <> 8) by lia. split; [exact H|].
  exact (planning_allocate_pops_on_mismatch 0 16 4096 8 [(8, 4112)] H).
Defined.

(** ** Replay through the device registry *)

Lemma live_obj_set_store_eq id o w :
  live_obj id w <> None -> live_obj id (set_store id o w) = Some o.
Proof.
  unfold live_obj, set_store. simpl. destruct (existsb _ _); [|done].
  intros _. apply assoc_find_set_eq.
Qed.

Lemma live_obj_set_store_ne id id' o w :
  id <> id' -> live_obj id' (set_store id o w) = live_obj id' w.
Proof.
  intros Hne. unfold live_obj, set_store. simpl. destruct (existsb _ _); [|done].
  by apply assoc_find_set_ne.
Qed.

Lemma planning_allocate_top (dev sz data : Z) (rest : list (Z * Z)) :
  planning_allocate sz (mkPlanningAllocator dev ((sz, data) :: rest)) =
  (Ok (mkDataPtr data DoNothing dev), mkPlanningAllocator dev rest).
Proof. unfold planning_allocate, ebind, eget, eput, echeck, eret. simpl. by rewrite Z.eqb_refl. Qed.

Lemma planning_call_live {A} (id : nat) (m : estate PlanningAllocator A) (w : World) orig pa :
  live_obj id w = Some (PlanningAlloc orig pa) ->
  planning_call id m w = ((m pa).1, set_store id (PlanningAlloc orig (m pa).2) w).
Proof. intros Hl. unfold planning_call. rewrite Hl. by destruct (m pa). Qed.

(** The device's allocation goes to the replay allocator the registry
    holds. *)
Lemma device_allocate_planning (dev nbytes : Z) frame (w : World) (id orig : nat) pa :
  assoc_find dev (w_registry w) = Some id -> live_obj id w = Some (PlanningAlloc orig pa) ->
  device_allocate dev nbytes frame w = planning_call id (planning_allocate nbytes) w.
Proof. intros Hreg Hl. unfold device_allocate, ebind, eget. cbv beta iota. by rewrite Hreg, Hl. Qed.

(** Allocations through the registry pop the replay allocator's stack in
    order, each returning the address it holds. *)
Lemma replay_pop (dev base : Z) (id orig : nat) (l rest : list (Z * Z)) frame (w : World) :
  assoc_find dev (w_registry w) = Some id ->
  live_obj id w = Some (PlanningAlloc orig
                          (mkPlanningAllocator dev (map (fun s => (s.1, base + s.2)) l ++ rest))) ->
  exists w', emapR (fun s => device_allocate dev s.1 frame) l w =
             (Ok (map (fun s => mkDataPtr (base + s.2) DoNothing dev) l), w') /\
    assoc_find dev (w_registry w') = Some id /\
    live_obj id w' = Some (PlanningAlloc orig (mkPlanningAllocator dev rest)).
Proof.
  revert w. induction l as [|[sz p] l IH]; intros w Hreg Hl; [by exists w|].
  cbn [emapR fst snd]. unfold ebind at 1.
  rewrite (device_allocate_planning dev sz frame w id orig _ Hreg Hl), (planning_call_live _ _ _ _ _ Hl).
  cbn [map fst snd app]. rewrite planning_allocate_top. cbn [fst snd].
  destruct (IH (set_store id (PlanningAlloc orig (mkPlanningAllocator dev (map (fun s => (s.1, base + s.2)) l ++ rest))) w))
    as (w' & E & Hreg' & Hl'); [done|by apply live_obj_set_store_eq; rewrite Hl|].
  exists w'. unfold ebind. rewrite E. done.
Qed.

(** C20. Replay through the device registry: a [MemoryPlanningAllocator]
    constructed for a device that has an allocator installs itself in the
    registry; after [push_allocation] of a list of slices of an arena at
    [base], allocating their sizes on the device in reverse order returns
    the slices' addresses [base + offset] with the deleter [DoNothing] (so
    releasing them frees nothing), and the registry still holds the
    replay allocator, its stack empty again. *)
Theorem replay_through_registry (dev base : Z) (w : World) (orig : nat) (slices : list (Z * Z)) frame :
  assoc_find dev (w_registry w) = Some orig ->
  exists id w',
    (id <-! MemoryPlanningAllocator_new dev ;;
     _ <-! planning_call id (emapM (fun s => push_allocation base s.1 s.2 dev) slices) ;;
     emapR (fun s => device_allocate dev s.1 frame) (rev slices))%mp w =
      (Ok (map (fun s => mkDataPtr (base + s.2) DoNothing dev) (rev slices)), w') /\
    assoc_find dev (w_registry w') = Some id /\
    live_obj id w' = Some (PlanningAlloc orig (mkPlanningAllocator dev [])).
Proof.
  intros Hreg.
  set (w1 := mkWorld ((w_fresh w, PlanningAlloc orig (mkPlanningAllocator dev [])) :: w_store w)
               (w_fresh w :: w_live w) (assoc_set dev (w_fresh w) (w_registry w)) (S (w_fresh w))).
  assert (Hnew : MemoryPlanningAllocator_new dev w = (Ok (w_fresh w), w1)).
  { unfold MemoryPlanningAllocator_new, ebind, eget, new_obj, emodify, eret. cbv beta iota.
    by rewrite Hreg. }
  assert (Hl1 : live_obj (w_fresh w) w1 = Some (PlanningAlloc orig (mkPlanningAllocator dev []))).
  { unfold live_obj, w1. simpl. rewrite Nat.eqb_refl. simpl. by rewrite decide_True. }
  unfold ebind at 1. rewrite Hnew. unfold ebind at 1.
  rewrite (planning_call_live _ _ _ _ _ Hl1), push_all, app_nil_r. cbn [fst snd].
  destruct (replay_pop dev base (w_fresh w) orig (rev slices) []
              frame (set_store (w_fresh w) (PlanningAlloc orig
                 (mkPlanningAllocator dev (map (fun s => (s.1, base + s.2)) (rev slices)))) w1))
    as (w' & E & Hreg' & Hl').
  - apply assoc_find_set_eq.
  - rewrite app_nil_r. apply live_obj_set_store_eq. by rewrite Hl1.
  - exists (w_fresh w), w'. done.
Qed.

(** ** The guard *)

(** The world right after the guard's constructor: the temporary [n]
    (the next identity) is installed and dead, its copy [S n] is alive and
    is the guard's tracer. *)
Definition guard_world (dev : Z) (orig : nat) (w : World) : World :=
  let n := w_fresh w in
  mkWorld ((S n, TracingAlloc orig [] []) :: (n, TracingAlloc orig [] []) :: w_store w)
          (S n :: List.filter (fun i => negb (Nat.eqb i n)) (w_live w))
          (assoc_set dev n (w_registry w)) (S (S n)).

Lemma guard_new_eq (dev : Z) (w : World) (orig : nat) :
  assoc_find dev (w_registry w) = Some orig ->
  WithProfileAllocationsGuard_new dev w = (Ok (S (w_fresh w)), guard_world dev orig w).
Proof.
  intros Hreg. unfold WithProfileAllocationsGuard_new, MemoryTracingAllocator_new, copy_obj, destroy.
  unfold ebind, eget, emodify, new_obj, eret, live_obj, SetAllocator.
  cbn -[Nat.eqb assoc_set decide]. rewrite Hreg. cbn -[Nat.eqb assoc_set decide].
  rewrite Nat.eqb_refl. cbn -[Nat.eqb assoc_set decide]. rewrite decide_True by done.
  cbn -[Nat.eqb assoc_set decide].
  rewrite (proj2 (Nat.eqb_neq (S (w_fresh w)) (w_fresh w))), Nat.eqb_refl by lia.
  reflexivity.
Qed.

Lemma existsb_filter_out (n : nat) (l : list nat) :
  existsb (Nat.eqb n) (List.filter (fun i => negb (Nat.eqb i n)) l) = false.
Proof.
  induction l as [|i l IH]; simpl; [done|].
  destruct (Nat.eqb i n) eqn:E; simpl; [done|].
  rewrite IH, orb_false_r. apply Nat.eqb_neq. apply Nat.eqb_neq in E. lia.
Qed.

(** C18. [WithProfileAllocationsGuard] installs a temporary: the object
    registered for the device is the temporary [MemoryTracingAllocator],
    already destroyed when the constructor returns, and not the copy the
    guard keeps in [tracer_].  Every allocation on the device in the
    profiling session goes to a destroyed object, and the traces the guard
    hands back stay empty. *)
Theorem guard_installs_destroyed_temporary (dev : Z) (w : World) (orig : nat) :
  assoc_find dev (w_registry w) = Some orig ->
  exists tracer tmp w',
    WithProfileAllocationsGuard_new dev w = (Ok tracer, w') /\
    assoc_find dev (w_registry w') = Some tmp /\ tmp <> tracer /\ live_obj tmp w' = None /\
    getAllocationTraces tracer w' = (Ok [], w') /\
    (forall nbytes frame,
       device_allocate dev nbytes frame w' = (Abort "use of a destroyed allocator", w')).
Proof.
  intros Hreg. exists (S (w_fresh w)), (w_fresh w), (guard_world dev orig w).
  rewrite (guard_new_eq dev w orig Hreg).
  assert (Hdead : live_obj (w_fresh w) (guard_world dev orig w) = None).
  { unfold live_obj, guard_world. simpl. rewrite (proj2 (Nat.eqb_neq _ _)) by lia.
    by rewrite existsb_filter_out. }
  split_and!; [done|apply assoc_find_set_eq|lia|done| |].
  - unfold getAllocationTraces, ebind, eget, live_obj, guard_world. simpl.
    rewrite Nat.eqb_refl. simpl. rewrite decide_True by done. done.
  - intros nbytes frame. unfold device_allocate, ebind, eget.
    cbn [w_registry guard_world]. rewrite assoc_find_set_eq. by rewrite Hdead.
Qed.

(** C33. The guard's destructor restores the device registry: after the
    constructor and the destructor every device maps to the allocator it
    had before. *)
Theorem guard_restores_allocator (dev : Z) (w : World) (orig : nat) :
  assoc_find dev (w_registry w) = Some orig ->
  let run := (t <-! WithProfileAllocationsGuard_new dev ;; WithProfileAllocationsGuard_drop dev t)%mp in
  (run w).1 = Ok tt /\ forall d, assoc_find d (w_registry (run w).2) = assoc_find d (w_registry w).
Proof.
  intros Hreg run. unfold run, ebind. rewrite (guard_new_eq dev w orig Hreg).
  unfold WithProfileAllocationsGuard_drop, ebind, eget, emodify, live_obj, guard_world, SetAllocator.
  cbn -[Nat.eqb assoc_set decide]. rewrite Nat.eqb_refl.
  cbn -[Nat.eqb assoc_set decide]. rewrite decide_True by done.
  cbn -[Nat.eqb assoc_set assoc_find decide]. split; [done|]. intros d.
  destruct (decide (d = dev)) as [->|Hne].
  - by rewrite !assoc_find_set_eq.
  - rewrite !assoc_find_set_ne by congruence. done.
Qed.

(** ** Traced events *)

(** The tracer's allocation: the raw allocator hands out the block at
    [next], the tracer records the [Allocate] event, and [orig_ptr]'s
    destructor gives the block back before [allocate] returns; the pointer
    returned has the tracer's deleter. *)
Lemma traced_allocate_eq (dev : Z) (w : World) (t orig : nat) traces allocs next blocks nbytes f :
  assoc_find dev (w_registry w) = Some t ->
  live_obj t w = Some (TracingAlloc orig traces allocs) ->
  live_obj orig w = Some (RawAlloc next blocks) -> t <> orig ->
  device_allocate dev nbytes (Some f) w =
  (Ok (mkDataPtr next (TracerDeleter t nbytes) dev),
   set_store orig (RawAlloc (next + nbytes) (List.filter (fun b => negb (b.1 =? next)) ((next, nbytes) :: blocks)))
     (set_store t (TracingAlloc orig (traces ++ [traced_event f next nbytes Allocate]) (assoc_insert next nbytes allocs))
        (set_store orig (RawAlloc (next + nbytes) ((next, nbytes) :: blocks)) w))).
Proof.
  intros Hreg Ht Horig Hne.
  unfold device_allocate, raw_free, ebind, eget, emodify, eret. rewrite Hreg, Ht, Horig. cbn -[set_store live_obj].
  rewrite live_obj_set_store_ne by congruence. rewrite live_obj_set_store_eq; [done|by rewrite Horig].
Qed.

(** After a traced allocation in frame [fa] and the release of its
    pointer in frame [ff], the tracer holds the two events. *)
Lemma traced_pair_traces (dev : Z) (w : World) (t orig : nat) traces allocs next blocks nbytes fa ff :
  assoc_find dev (w_registry w) = Some t ->
  live_obj t w = Some (TracingAlloc orig traces allocs) ->
  live_obj orig w = Some (RawAlloc next blocks) -> t <> orig ->
  exists w',
    (p <-! device_allocate dev nbytes (Some fa) ;; release p (Some ff))%mp w = (Ok tt, w') /\
    live_obj t w' = Some (TracingAlloc orig
      (traces ++ [traced_event fa next nbytes Allocate; traced_event ff next nbytes Free])
      (assoc_insert next nbytes allocs)).
Proof.
  intros Hreg Ht Horig Hne. unfold ebind at 1.
  rewrite (traced_allocate_eq dev w t orig traces allocs next blocks nbytes fa Hreg Ht Horig Hne).
  unfold release, traced_release, ebind, eget, emodify. cbn [dp_deleter dp_data].
  rewrite live_obj_set_store_ne by done. rewrite live_obj_set_store_eq by (rewrite live_obj_set_store_ne, Ht by done; done).
  eexists. split; [reflexivity|].
  rewrite live_obj_set_store_eq; [by rewrite <- app_assoc|].
  rewrite live_obj_set_store_ne by done. rewrite live_obj_set_store_eq; [done|].
  rewrite live_obj_set_store_ne by done. by rewrite Ht.
Qed.

(** C30. The tracing allocator stamps both events of an allocation with the
    [pc] of the current frame ([MemoryPlanningAllocator.cpp:72] and [84]),
    so a tensor allocated and released within one operator invocation gets
    an [Allocate] and a [Free] event with equal times.  The sweep of
    [getLiveRangesFromMemEvents] pairs them (same pointer) and its
    assertion [alloc.time < mem_event.time] rejects the pair, whatever it
    has seen before as long as the pointer is not already open. *)
Theorem tracer_same_frame_pair_rejected (dev : Z) (w : World) (t orig : nat) traces allocs
    next blocks nbytes (f : FrameNodeId) :
  assoc_find dev (w_registry w) = Some t ->
  live_obj t w = Some (TracingAlloc orig traces allocs) ->
  live_obj orig w = Some (RawAlloc next blocks) -> t <> orig ->
  exists a fr w',
    (p <-! device_allocate dev nbytes (Some f) ;; release p (Some f))%mp w = (Ok tt, w') /\
    live_obj t w' = Some (TracingAlloc orig (traces ++ [a; fr]) (assoc_insert next nbytes allocs)) /\
    me_type a = Allocate /\ me_type fr = Free /\ me_ptr_addr a = me_ptr_addr fr /\
    me_time a = me_time fr /\
    forall (open : list (string * MemEvent)) m h,
      assoc_find (me_ptr_addr a) open = None ->
      is_ok (fold_result sweep_step [a; fr] (open, m, h)) = false.
Proof.
  intros Hreg Ht Horig Hne.
  destruct (traced_pair_traces dev w t orig traces allocs next blocks nbytes f f Hreg Ht Horig Hne) as (w' & Hrun & Hw').
  do 3 eexists. split; [exact Hrun|]. split; [exact Hw'|].
  split_and!; [done..|].
  - intros open m h Hopen. unfold traced_event in Hopen |- *. cbn [me_ptr_addr] in Hopen.
    cbn -[assoc_insert assoc_find]. rewrite assoc_find_insert, Hopen, decide_True by done.
    cbn. by rewrite Z.ltb_irrefl, andb_false_r.
Qed.

(** C24. The tracing allocator stamps the [Free] event with the frame
    current when the pointer is released, and the sweep of
    [getLiveRangesFromMemEvents] requires [alloc.node_schema ==
    mem_event.node_schema] ([memory_planning.cpp:315-319]): a tensor that
    one operator allocates and an invocation of another operator releases
    (the usual life of an intermediate value) yields a pair the sweep
    rejects, even when the release comes later. *)
Theorem tracer_cross_operator_pair_rejected (dev : Z) (w : World) (t orig : nat) traces allocs
    next blocks nbytes (fa ff : FrameNodeId) :
  assoc_find dev (w_registry w) = Some t ->
  live_obj t w = Some (TracingAlloc orig traces allocs) ->
  live_obj orig w = Some (RawAlloc next blocks) -> t <> orig ->
  fn_node_schema fa <> fn_node_schema ff ->
  exists a fr w',
    (p <-! device_allocate dev nbytes (Some fa) ;; release p (Some ff))%mp w = (Ok tt, w') /\
    live_obj t w' = Some (TracingAlloc orig (traces ++ [a; fr]) (assoc_insert next nbytes allocs)) /\
    me_type a = Allocate /\ me_type fr = Free /\ me_ptr_addr a = me_ptr_addr fr /\
    me_time a = fn_pc fa /\ me_time fr = fn_pc ff /\
    forall (open : list (string * MemEvent)) m h,
      assoc_find (me_ptr_addr a) open = None ->
      is_ok (fold_result sweep_step [a; fr] (open, m, h)) = false.
Proof.
  intros Hreg Ht Horig Hne Hschema.
  destruct (traced_pair_traces dev w t orig traces allocs next blocks nbytes fa ff Hreg Ht Horig Hne) as (w' & Hrun & Hw').
  do 3 eexists. split; [exact Hrun|]. split; [exact Hw'|].
  split_and!; [done..|].
  intros open m h Hopen. unfold traced_event in Hopen |- *. cbn [me_ptr_addr] in Hopen.
  cbn -[assoc_insert assoc_find String.eqb]. rewrite assoc_find_insert, Hopen, decide_True by done.
  cbn -[String.eqb]. rewrite (proj2 (String.eqb_neq _ _) Hschema).
  by rewrite !andb_false_r.
Qed.

(** The filtered block list no longer holds the block at [ptr]. *)
Lemma filter_blocks_notin (ptr : Z) (blocks : list (Z * Z)) :
  ptr ∉ map fst (List.filter (fun b => negb (b.1 =? ptr)) blocks).
Proof.
  intros H. apply list_elem_of_In, in_map_iff in H as ([a b] & Ha & Hin). cbn [fst] in Ha. subst a.
  apply filter_In in Hin as [_ Hf]. cbn [fst] in Hf. by rewrite Z.eqb_refl in Hf.
Qed.

(** C19. A traced allocation lives in freed memory:
    [MemoryTracingAllocator::allocate] forwards to the device allocator,
    records the [Allocate] event and returns a pointer that only shares
    the address of its local [orig_ptr] ([MemoryPlanningAllocator.cpp:66]
    and [93-94]); [orig_ptr] owns the block and is destroyed when
    [allocate] returns, so the block the caller receives is already back
    with the device allocator, and releasing the caller's pointer only
    records the [Free] event. *)
Theorem tracer_allocation_freed_on_return (dev : Z) (w : World) (t orig : nat) traces allocs
    next blocks nbytes (f : FrameNodeId) :
  assoc_find dev (w_registry w) = Some t ->
  live_obj t w = Some (TracingAlloc orig traces allocs) ->
  live_obj orig w = Some (RawAlloc next blocks) -> t <> orig ->
  exists p w' blocks',
    device_allocate dev nbytes (Some f) w = (Ok p, w') /\
    dp_data p = next /\ dp_deleter p = TracerDeleter t nbytes /\
    live_obj t w' = Some (TracingAlloc orig (traces ++ [traced_event f next nbytes Allocate])
                                       (assoc_insert next nbytes allocs)) /\
    live_obj orig w' = Some (RawAlloc (next + nbytes) blocks') /\ next ∉ map fst blocks' /\
    live_obj orig (release p (Some f) w').2 = live_obj orig w'.
Proof.
  intros Hreg Ht Horig Hne.
  rewrite (traced_allocate_eq dev w t orig traces allocs next blocks nbytes f Hreg Ht Horig Hne).
  do 3 eexists. split; [reflexivity|]. cbn [dp_data dp_deleter].
  assert (Ht' : live_obj t (set_store t (TracingAlloc orig (traces ++ [traced_event f next nbytes Allocate])
                  (assoc_insert next nbytes allocs)) (set_store orig (RawAlloc (next + nbytes)
                  ((next, nbytes) :: blocks)) w)) =
                Some (TracingAlloc orig (traces ++ [traced_event f next nbytes Allocate]) (assoc_insert next nbytes allocs))).
  { apply live_obj_set_store_eq. rewrite live_obj_set_store_ne by done. by rewrite Ht. }
  split_and!; [done|done| | |apply filter_blocks_notin|].
  - rewrite live_obj_set_store_ne by done. exact Ht'.
  - apply live_obj_set_store_eq. rewrite live_obj_set_store_ne by congruence.
    rewrite live_obj_set_store_eq; [done|by rewrite Horig].
  - unfold release, traced_release, ebind, eget, emodify. cbn [dp_deleter dp_data].
    rewrite live_obj_set_store_ne, Ht' by done. cbn [snd]. by rewrite live_obj_set_store_ne by congruence.
Qed.

(** ** Concrete worlds *)

(** The host device [0] served by a raw allocator. *)
Definition host_world : World := mkWorld [(0%nat, RawAlloc 4096 [])] [0%nat] [(0, 0%nat)] 1.

(** The host device served by a live tracer over the raw allocator. *)
Definition traced_world : World :=
  mkWorld [(1%nat, TracingAlloc 0 [] []); (0%nat, RawAlloc 4096 [])] [1%nat; 0%nat] [(0, 1%nat)] 2.

Lemma guard_installs_destroyed_temporary_witness :
  assoc_find 0 (w_registry host_world) = Some 0%nat /\
  exists tracer tmp w',
    WithProfileAllocationsGuard_new 0 host_world = (Ok tracer, w') /\
    assoc_find 0 (w_registry w') = Some tmp /\ tmp <> tracer /\ live_obj tmp w' = None /\
    getAllocationTraces tracer w' = (Ok [], w') /\
    (forall nbytes frame,
       device_allocate 0 nbytes frame w' = (Abort "use of a destroyed allocator", w')).
Proof.
  split; [reflexivity|]. apply (guard_installs_destroyed_temporary 0 host_world 0%nat). reflexivity.
Defined.

Lemma guard_restores_allocator_witness :
  assoc_find 0 (w_registry host_world) = Some 0%nat /\
  let run := (t <-! WithProfileAllocationsGuard_new 0 ;; WithProfileAllocationsGuard_drop 0 t)%mp in
  (run host_world).1 = Ok tt /\
  forall d, assoc_find d (w_registry (run host_world).2) = assoc_find d (w_registry host_world).
Proof.
  split; [reflexivity|]. apply (guard_restores_allocator 0 host_world 0%nat). reflexivity.
Defined.

Lemma tracer_same_frame_pair_rejected_witness :
  let f := mkFrameNodeId 3 "aten::add(Tensor self, Tensor other) -> Tensor" "aten::add" in
  exists a fr w',
    (p <-! device_allocate 0 64 (Some f) ;; release p (Some f))%mp traced_world = (Ok tt, w') /\
    live_obj 1 w' = Some (TracingAlloc 0 ([] ++ [a; fr]) (assoc_insert 4096 64 [])) /\
    me_type a = Allocate /\ me_type fr = Free /\ me_ptr_addr a = me_ptr_addr fr /\
    me_time a = me_time fr /\
    forall (open : list (string * MemEvent)) m h,
      assoc_find (me_ptr_addr a) open = None ->
      is_ok (fold_result sweep_step [a; fr] (open, m, h)) = false.
Proof.
  intros f. apply (tracer_same_frame_pair_rejected 0 traced_world 1%nat 0%nat [] [] 4096 [] 64 f);
    [reflexivity|reflexivity|reflexivity|lia].
Defined.

Lemma replay_through_registry_witness :
  assoc_find 0 (w_registry host_world) = Some 0%nat /\
  exists id w',
    (id <-! MemoryPlanningAllocator_new 0 ;;
     _ <-! planning_call id (emapM (fun s => push_allocation 8192 s.1 s.2 0) [(64, 0); (32, 64)]) ;;
     emapR (fun s => device_allocate 0 s.1 None) (rev [(64, 0); (32, 64)]))%mp host_world =
      (Ok (map (fun s => mkDataPtr (8192 + s.2) DoNothing 0) (rev [(64, 0); (32, 64)])), w') /\
    assoc_find 0 (w_registry w') = Some id /\
    live_obj id w' = Some (PlanningAlloc 0 (mkPlanningAllocator 0 [])).
Proof. split; [reflexivity|]. apply replay_through_registry. reflexivity. Defined.

Lemma tracer_cross_operator_pair_rejected_witness :
  let fa := mkFrameNodeId 3 "aten::mul(Tensor self, Tensor other) -> Tensor" "aten::mul" in
  let ff := mkFrameNodeId 5 "aten::add(Tensor self, Tensor other) -> Tensor" "aten::add" in
  fn_node_schema fa <> fn_node_schema ff /\
  exists a fr w',
    (p <-! device_allocate 0 64 (Some fa) ;; release p (Some ff))%mp traced_world = (Ok tt, w') /\
    live_obj 1 w' = Some (TracingAlloc 0 ([] ++ [a; fr]) (assoc_insert 4096 64 [])) /\
    me_type a = Allocate /\ me_type fr = Free /\ me_ptr_addr a = me_ptr_addr fr /\
    me_time a = fn_pc fa /\ me_time fr = fn_pc ff /\
    forall (open : list (string * MemEvent)) m h,
      assoc_find (me_ptr_addr a) open = None ->
      is_ok (fold_result sweep_step [a; fr] (open, m, h)) = false.
Proof.
  intros fa ff. assert (H : fn_node_schema fa <> fn_node_schema ff) by discriminate.
  split; [exact H|].
  apply (tracer_cross_operator_pair_rejected 0 traced_world 1%nat 0%nat [] [] 4096 [] 64 fa ff);
    [reflexivity|reflexivity|reflexivity|lia|exact H].
Defined.

Lemma tracer_allocation_freed_on_return_witness :
  let f := mkFrameNodeId 3 "aten::add(Tensor self, Tensor other) -> Tensor" "aten::add" in
  exists p w' blocks',
    device_allocate 0 64 (Some f) traced_world = (Ok p, w') /\
    dp_data p = 4096 /\ dp_deleter p = TracerDeleter 1 64 /\
    live_obj 1 w' = Some (TracingAlloc 0 ([] ++ [traced_event f 4096 64 Allocate]) (assoc_insert 4096 64 [])) /\
    live_obj 0 w' = Some (RawAlloc (4096 + 64) blocks') /\ 4096 ∉ map fst blocks' /\
    live_obj 0 (release p (Some f) w').2 = live_obj 0 w'.
Proof.
  intros f. apply (tracer_allocation_freed_on_return 0 traced_world 1%nat 0%nat [] [] 4096 [] 64 f);
    [reflexivity|reflexivity|reflexivity|lia].
Defined.
