(* ===== verification/Lifetimes.v ===== *)
(** * Lifetimes of allocator objects

    The object store of [Allocator.v] as a state machine: [world_step]
    is one call of any operation of [MemoryPlanningAllocator.cpp] on the
    store (a constructor, a method, an allocation through the device
    registry, a deleter, the guard's constructor or destructor, the end
    of an object's lifetime).  [world_wf] is the store's type invariant:
    identities are unique and below the counter, and every identity the
    live set, the device registry or an allocator's [orig_allocator_]
    refers to names an object of the store.  Every step keeps it, and an
    object, once destroyed, never becomes live again, so a registry entry
    left on a dead object stays dangling for the rest of the run. *)

From stdpp Require Import relations.
From S2P Require Import Prelude Arena Trace Allocator.

(** ** The invariant *)

Definition obj_ids (w : World) : list nat := map fst (w_store w).

(** The identities an object refers to ([orig_allocator_]). *)
Definition obj_refs (o : AllocObj) : list nat :=
  match o with
  | RawAlloc _ _ => []
  | TracingAlloc orig _ _ => [orig]
  | PlanningAlloc orig _ => [orig]
  end.

Record world_wf (w : World) : Prop := {
  wf_nodup : NoDup (obj_ids w);
  wf_fresh : forall i, i ∈ obj_ids w -> (i < w_fresh w)%nat;
  wf_live : forall i, i ∈ w_live w -> i ∈ obj_ids w;
  wf_registry : forall d i, assoc_find d (w_registry w) = Some i -> i ∈ obj_ids w;
  wf_refs : forall i o j, assoc_find i (w_store w) = Some o -> j ∈ obj_refs o -> j ∈ obj_ids w
}.

(** [w'] extends [w]: no identity is lost, the counter does not go back,
    and an object live in [w'] was live in [w] or did not exist yet. *)
Definition world_le (w w' : World) : Prop :=
  (forall i, i ∈ obj_ids w -> i ∈ obj_ids w') /\ (w_fresh w <= w_fresh w')%nat /\
  (forall i, i ∈ w_live w' -> i ∈ w_live w \/ i ∉ obj_ids w).

(** Every operation on the store, with its arguments. *)
Inductive world_step : World -> World -> Prop :=
| ws_tracer_new dev w : world_step w (MemoryTracingAllocator_new dev w).2
| ws_planner_new dev w : world_step w (MemoryPlanningAllocator_new dev w).2
| ws_copy id w : world_step w (copy_obj id w).2
| ws_destroy id w : world_step w (destroy id w).2
| ws_guard_new dev w : world_step w (WithProfileAllocationsGuard_new dev w).2
| ws_guard_drop dev t w : world_step w (WithProfileAllocationsGuard_drop dev t w).2
| ws_traces t w : world_step w (getAllocationTraces t w).2
| ws_allocate dev nbytes frame w : world_step w (device_allocate dev nbytes frame w).2
| ws_release p frame w : world_step w (release p frame w).2
| ws_push id base size offset dev w :
    world_step w (planning_call id (push_allocation base size offset dev) w).2.

(** An operation keeps the invariant at [w] and extends it. *)
Definition wf_at {A} (m : estate World A) (w : World) : Prop :=
  world_wf w -> world_wf (m w).2 /\ world_le w (m w).2.

(** ** The order [world_le] *)

#[export] Instance world_le_refl : Reflexive world_le.
Proof. intros w. split_and!; [done|lia|by left]. Qed.

#[export] Instance world_le_trans : Transitive world_le.
Proof.
  intros w1 w2 w3 (Hk12 & Hf12 & Hl12) (Hk23 & Hf23 & Hl23).
  split_and!; [auto|lia|]. intros i Hi.
  destruct (Hl23 i Hi) as [Hi2|Hn2]; [by apply Hl12|right; auto].
Qed.

(** ** The store's primitive updates *)

Lemma live_obj_find id w o : live_obj id w = Some o -> assoc_find id (w_store w) = Some o.
Proof. unfold live_obj. by destruct (existsb _ _). Qed.

Lemma find_obj_ids id w o : assoc_find id (w_store w) = Some o -> id ∈ obj_ids w.
Proof.
  intros E. apply assoc_find_In in E. apply list_elem_of_In, in_map_iff. by exists (id, o).
Qed.

Lemma wf_live_refs w id o j :
  world_wf w -> live_obj id w = Some o -> j ∈ obj_refs o -> j ∈ obj_ids w.
Proof. intros Hwf Hl. apply (wf_refs w Hwf id). by apply live_obj_find. Qed.

Lemma set_store_ids id o w : id ∈ obj_ids w -> obj_ids (set_store id o w) = obj_ids w.
Proof. intros Hid. unfold obj_ids, set_store. simpl. rewrite assoc_keys_set. by case_decide. Qed.

Lemma wf_at_set_store id o w :
  (world_wf w -> id ∈ obj_ids w /\ forall j, j ∈ obj_refs o -> j ∈ obj_ids w) ->
  wf_at (emodify (set_store id o)) w.
Proof.
  intros Hc Hwf. destruct (Hc Hwf) as [Hid Hrefs]. destruct Hwf as [Hnd Hf Hl Hr Hrf].
  unfold emodify. cbn [snd]. pose proof (set_store_ids id o w Hid) as Hk.
  split; [split|split_and!]; rewrite ?Hk; try done.
  - intros i o' j. cbn [w_store set_store]. destruct (decide (i = id)) as [->|Hne].
    + rewrite assoc_find_set_eq. intros [= <-]. auto.
    + rewrite assoc_find_set_ne by done. apply Hrf.
  - first [cbn; lia|intros i Hi; by left].
Qed.

Lemma wf_at_SetAllocator dev id w :
  (world_wf w -> id ∈ obj_ids w) -> wf_at (emodify (SetAllocator dev id)) w.
Proof.
  intros Hc Hwf. pose proof (Hc Hwf) as Hid. destruct Hwf as [Hnd Hf Hl Hr Hrf].
  split; [|by split_and!; [|simpl; lia|left]].
  split; [done|done|done| |done]. intros d i. simpl.
  destruct (decide (d = dev)) as [->|Hne].
  - rewrite assoc_find_set_eq. by intros [= <-].
  - rewrite assoc_find_set_ne by done. apply Hr.
Qed.

Lemma new_obj_eq o w :
  new_obj o w = (Ok (w_fresh w), mkWorld ((w_fresh w, o) :: w_store w) (w_fresh w :: w_live w)
                                         (w_registry w) (S (w_fresh w))).
Proof. done. Qed.

Lemma wf_at_new_obj o w :
  (world_wf w -> forall j, j ∈ obj_refs o -> j ∈ obj_ids w) -> wf_at (new_obj o) w.
Proof.
  intros Hc Hwf. pose proof (Hc Hwf) as Hrefs. destruct Hwf as [Hnd Hf Hl Hr Hrf]. rewrite new_obj_eq.
  assert (Hfresh : w_fresh w ∉ obj_ids w) by (intros Hin; specialize (Hf _ Hin); lia).
  split; [split|split_and!]; unfold obj_ids in *; cbn [map fst snd w_store w_live w_registry w_fresh].
  - by constructor.
  - intros i. rewrite elem_of_cons. intros [->|Hi]; [lia|]. specialize (Hf i Hi). lia.
  - intros i. rewrite !elem_of_cons. intros [->|Hi]; [by left|right; auto].
  - intros d i Hd. apply elem_of_cons. right. by apply (Hr d).
  - intros i o' j. cbn [assoc_find]. case_decide as Hi; [intros [= <-] Hj|intros Hf' Hj];
      apply elem_of_cons; right; [by apply Hrefs|by apply (Hrf i o')].
  - intros i Hi. by apply elem_of_cons; right.
  - lia.
  - intros i. rewrite elem_of_cons. intros [->|Hi]; [by right|by left].
Qed.

Lemma wf_at_destroy id w : wf_at (destroy id) w.
Proof.
  intros [Hnd Hf Hl Hr Hrf]. unfold destroy, emodify. cbn [snd].
  assert (Hsub : forall i, i ∈ List.filter (fun i => negb (Nat.eqb i id)) (w_live w) -> i ∈ w_live w).
  { intros i Hi. apply list_elem_of_In in Hi. apply filter_In in Hi as [Hi _]. by apply list_elem_of_In. }
  split; [split|split_and!]; unfold obj_ids in *; cbn [w_store w_live w_registry w_fresh]; try done.
  all: first [lia|intros i Hi; by left; apply Hsub|intros i Hi; by apply Hl, Hsub].
Qed.

Lemma new_obj_Ok o w a w' : new_obj o w = (Ok a, w') -> a ∈ obj_ids w'.
Proof. rewrite new_obj_eq. intros [= <- <-]. apply elem_of_cons. by left. Qed.

Lemma emodify_Ok {A} (f : A -> A) s u s' : emodify f s = (Ok u, s') -> s' = f s.
Proof. by intros [= _ <-]. Qed.

(** ** Composing operations *)

Lemma wf_at_frame {A} (m : estate World A) w : (m w).2 = w -> wf_at m w.
Proof. intros E Hwf. rewrite E. split; [done|reflexivity]. Qed.

Lemma wf_at_ret {A} (a : A) w : wf_at (eret a) w.
Proof. by apply wf_at_frame. Qed.

Lemma wf_at_throw {A} msg w : wf_at (@ethrow World A msg) w.
Proof. by apply wf_at_frame. Qed.

Lemma wf_at_bind {A B} (m : estate World A) (k : A -> estate World B) w :
  wf_at m w -> (forall a w', m w = (Ok a, w') -> wf_at (k a) w') -> wf_at (ebind m k) w.
Proof.
  intros Hm Hk Hwf. destruct (Hm Hwf) as [Hwf' Hle]. unfold ebind.
  destruct (m w) as [[a|e] w'] eqn:E; cbn [snd] in *; [|done].
  destruct (Hk a w' eq_refl Hwf') as [Hwf'' Hle']. split; [done|by transitivity w'].
Qed.

Lemma wf_at_get {A} (k : World -> estate World A) w : wf_at (k w) w -> wf_at (ebind eget k) w.
Proof. done. Qed.

Create HintDb wf.
#[export] Hint Resolve wf_at_ret wf_at_throw : wf.

(** A method of a replay allocator writes back an object with the same
    [orig_allocator_]. *)
Lemma wf_at_planning_call {A} id (m : estate PlanningAllocator A) w : wf_at (planning_call id m) w.
Proof.
  unfold wf_at, planning_call. cbv beta.
  destruct (live_obj id w) as [[next bl|o tr al|orig pa]|] eqn:E; try (intros Hwf; split; [done|reflexivity]).
  destruct (m pa) as [r pa']. apply (wf_at_set_store id (PlanningAlloc orig pa') w).
  intros Hwf. split; [by eapply find_obj_ids, live_obj_find|].
  intros j Hj. exact (wf_live_refs w id (PlanningAlloc orig pa) j Hwf E Hj).
Qed.

(** Both constructors: look the device's allocator up, create an object
    that refers to it, install the object. *)
Lemma wf_at_install dev (mk : nat -> AllocObj) msg w :
  (forall orig, obj_refs (mk orig) = [orig]) ->
  wf_at (w <-! eget ;;
         match assoc_find dev (w_registry w) with
         | None => ethrow msg
         | Some orig => id <-! new_obj (mk orig) ;; _ <-! emodify (SetAllocator dev id) ;; eret id
         end)%mp w.
Proof.
  intros Hmk. apply wf_at_get. cbv beta.
  destruct (assoc_find dev (w_registry w)) as [orig|] eqn:E; [|auto with wf].
  apply wf_at_bind.
  - apply wf_at_new_obj. intros Hwf j. rewrite Hmk, list_elem_of_singleton. intros ->.
    by apply (wf_registry w Hwf dev).
  - intros a w' Hn. apply wf_at_bind; [|auto with wf].
    apply wf_at_SetAllocator. intros _. by apply (new_obj_Ok (mk orig) w).
Qed.

Lemma wf_at_tracer_new dev w : wf_at (MemoryTracingAllocator_new dev) w.
Proof. by apply (wf_at_install dev (fun orig => TracingAlloc orig [] [])). Qed.

Lemma wf_at_planner_new dev w : wf_at (MemoryPlanningAllocator_new dev) w.
Proof. by apply (wf_at_install dev (fun orig => PlanningAlloc orig (mkPlanningAllocator dev []))). Qed.

Lemma wf_at_copy src w : wf_at (copy_obj src) w.
Proof.
  unfold copy_obj. apply wf_at_get. cbv beta.
  destruct (live_obj src w) as [o|] eqn:E; [|auto with wf].
  apply wf_at_new_obj. intros Hwf j Hj. exact (wf_live_refs w src o j Hwf E Hj).
Qed.

Lemma wf_at_guard_new dev w : wf_at (WithProfileAllocationsGuard_new dev) w.
Proof.
  unfold WithProfileAllocationsGuard_new.
  apply wf_at_bind; [apply wf_at_tracer_new|intros tmp w1 _].
  apply wf_at_bind; [apply wf_at_copy|intros tracer w2 _].
  apply wf_at_bind; [apply wf_at_destroy|auto with wf].
Qed.

Lemma wf_at_guard_drop dev tracer w : wf_at (WithProfileAllocationsGuard_drop dev tracer) w.
Proof.
  unfold WithProfileAllocationsGuard_drop. apply wf_at_get. cbv beta.
  destruct (live_obj tracer w) as [[next bl|orig tr al|orig pa]|] eqn:E; try auto with wf.
  apply wf_at_SetAllocator. intros Hwf.
  apply (wf_live_refs w tracer _ orig Hwf E). by apply list_elem_of_singleton.
Qed.

Lemma wf_at_traces tracer w : wf_at (getAllocationTraces tracer) w.
Proof.
  unfold getAllocationTraces. apply wf_at_get. cbv beta.
  destruct (live_obj tracer w) as [[next bl|orig tr al|orig pa]|]; auto with wf.
Qed.

Lemma live_obj_ids id w o : live_obj id w = Some o -> id ∈ obj_ids w.
Proof. intros E. by eapply find_obj_ids, live_obj_find. Qed.

(** The raw allocator's deleter rewrites a live raw allocator. *)
Lemma wf_at_raw_free a ptr w : wf_at (raw_free a ptr) w.
Proof.
  unfold raw_free. apply wf_at_get. cbv beta.
  destruct (live_obj a w) as [[next bl|o tr al|o pa]|] eqn:E; try auto with wf.
  apply wf_at_set_store. intros _. split; [by eapply live_obj_ids|]. intros j Hj. by apply elem_of_nil in Hj.
Qed.

Lemma wf_at_device_allocate dev nbytes frame w : wf_at (device_allocate dev nbytes frame) w.
Proof.
  unfold device_allocate. apply wf_at_get. cbv beta.
  destruct (assoc_find dev (w_registry w)) as [id|] eqn:Er; [|auto with wf].
  destruct (live_obj id w) as [[next bl|orig tr al|orig pa]|] eqn:E; [| |apply wf_at_planning_call|auto with wf].
  - apply wf_at_bind; [|auto with wf]. apply wf_at_set_store. intros _.
    split; [by eapply live_obj_ids|]. intros j Hj. by apply elem_of_nil in Hj.
  - destruct (live_obj orig w) as [[next bl|o tr' al'|o pa]|] eqn:Eo; try auto with wf.
    pose proof (set_store_ids orig (RawAlloc (next + nbytes) ((next, nbytes) :: bl)) w (live_obj_ids _ _ _ Eo))
      as Hk.
    apply wf_at_bind.
    + apply wf_at_set_store. intros _. split; [by eapply live_obj_ids|]. intros j Hj. by apply elem_of_nil in Hj.
    + intros [] w' Hw'. apply emodify_Ok in Hw' as ->.
      destruct frame as [f|]; [|apply wf_at_bind; [apply wf_at_raw_free|auto with wf]].
      apply wf_at_bind; [|intros [] w'' _; apply wf_at_bind; [apply wf_at_raw_free|auto with wf]].
      apply wf_at_set_store. intros _. rewrite Hk.
      split; [by eapply live_obj_ids|]. intros j Hj. apply list_elem_of_singleton in Hj as ->.
      by eapply live_obj_ids.
Qed.

Lemma wf_at_traced_release tracer ptr nbytes frame w : wf_at (traced_release tracer ptr nbytes frame) w.
Proof.
  unfold traced_release. apply wf_at_get. cbv beta.
  destruct (live_obj tracer w) as [[next bl|orig tr al|orig pa]|] eqn:E; try auto with wf.
  destruct frame as [f|]; [|auto with wf].
  apply wf_at_set_store. intros Hwf. split; [by eapply live_obj_ids|].
  intros j Hj. exact (wf_live_refs w tracer _ j Hwf E Hj).
Qed.

(** The destructor of any pointer: whichever deleter it carries. *)
Lemma wf_at_release p frame w : wf_at (release p frame) w.
Proof.
  unfold release. destruct (dp_deleter p); auto using wf_at_ret, wf_at_raw_free, wf_at_traced_release.
Qed.

(** One step keeps the invariant and extends the store. *)
Lemma world_step_wf w w' : world_step w w' -> world_wf w -> world_wf w' /\ world_le w w'.
Proof.
  destruct 1.
  - apply wf_at_tracer_new.
  - apply wf_at_planner_new.
  - apply wf_at_copy.
  - apply wf_at_destroy.
  - apply wf_at_guard_new.
  - apply wf_at_guard_drop.
  - apply wf_at_traces.
  - apply wf_at_device_allocate.
  - apply wf_at_release.
  - apply wf_at_planning_call.
Qed.

Lemma rtc_world_step_wf w w' : rtc world_step w w' -> world_wf w -> world_wf w' /\ world_le w w'.
Proof.
  induction 1 as [w|w1 w2 w3 H12 _ IH]; intros Hwf; [split; [done|reflexivity]|].
  destruct (world_step_wf _ _ H12 Hwf) as [Hwf2 Hle12]. destruct (IH Hwf2) as [Hwf3 Hle23].
  split; [done|by transitivity w2].
Qed.

(** ** Reachable worlds *)

(** The object store's type invariant holds in every reachable
    world: from a well-formed store, after any sequence of calls of the
    operations of [MemoryPlanningAllocator.cpp] the store is well formed
    (identities unique and below the counter; the live set, the device
    registry and every [orig_allocator_] refer to objects of the store),
    no object has disappeared, and an object that was dead is still
    dead: nothing revives a destroyed allocator that the registry still
    points to. *)
Theorem reachable_world_wf (w w' : World) :
  world_wf w -> rtc world_step w w' ->
  world_wf w' /\ (forall i, i ∈ obj_ids w -> i ∈ obj_ids w') /\
  (forall i, i ∈ obj_ids w -> i ∉ w_live w -> i ∉ w_live w').
Proof.
  intros Hwf Hs. destruct (rtc_world_step_wf w w' Hs Hwf) as [Hwf' (Hk & _ & Hl)].
  split_and!; [done|done|]. intros i Hi Hd Hl'. by destruct (Hl i Hl').
Qed.

Lemma host_world_wf : world_wf host_world.
Proof.
  split; unfold obj_ids; cbn.
  - apply NoDup_singleton.
  - intros i ->%list_elem_of_singleton. lia.
  - done.
  - intros d i. cbn. case_decide; [intros [= <-]; by left|discriminate].
  - intros i o j. cbn. case_decide; [intros [= <-]|discriminate]. cbn. by intros ?%elem_of_nil.
Qed.

(** The guard's constructor leaves its temporary [1] in the store and
    dead; a later allocation on the device does not revive it. *)
Lemma reachable_world_wf_witness :
  let w1 := (WithProfileAllocationsGuard_new 0 host_world).2 in
  let w2 := (device_allocate 0 64 None w1).2 in
  world_wf w1 /\ rtc world_step w1 w2 /\ 1%nat ∈ obj_ids w1 /\ 1%nat ∉ w_live w1 /\
  (world_wf w2 /\ (forall i, i ∈ obj_ids w1 -> i ∈ obj_ids w2) /\
   (forall i, i ∈ obj_ids w1 -> i ∉ w_live w1 -> i ∉ w_live w2)).
Proof.
  intros w1 w2.
  assert (Hwf1 : world_wf w1).
  { apply (rtc_world_step_wf host_world w1); [apply rtc_once, ws_guard_new|apply host_world_wf]. }
  assert (Hs : rtc world_step w1 w2) by apply rtc_once, ws_allocate.
  refine (conj Hwf1 (conj Hs (conj _ (conj _ _)))); [vm_compute; set_solver|vm_compute; set_solver|].
  exact (reachable_world_wf w1 w2 Hwf1 Hs).
Defined.
